(** * Sorting engines and step recorders of algo-analysis

    A shallow embedding of the four plain sorts ([quickSort.py],
    [heapSort.py], [margeSort.py], [bucketSort.py]) and of the event
    recorders of the three animation scripts, followed by the proofs of
    the properties stated about them.

    Python lists are modelled as [list A] threaded through the code
    (every in-place update returns the new contents), Python integers as
    [Z], and a raised exception as the [Raise] outcome of a small error
    monad.  Indexing follows Python: an index [i] with [-n <= i < 0]
    denotes position [n + i], anything outside [-n, n) raises
    [IndexError].  The quicksorts recurse as deep as their input is long;
    their calls are counted against the recursion limit of the
    interpreter, and a call that exceeds it raises [RecursionError]. *)

From Stdlib Require Import ZArith QArith Qabs Qround Lia.
From stdpp Require Import base tactics option list sorting strings gmap.

Local Open Scope Z_scope.

(** ** Outcomes of a run *)

Inductive exn :=
  | IndexError       (* list index out of range *)
  | RecursionError   (* maximum recursion depth exceeded *)
  | OutOfFuel.       (* the budget that the model gives a loop or a
                        recursion of logarithmic depth ran out; the code
                        itself never raises it *)

Inductive result (X : Type) :=
  | Ok (x : X)
  | Raise (e : exn).
Arguments Ok {X} x.
Arguments Raise {X} e.

#[global] Instance result_ret : MRet result := λ X x, Ok x.
#[global] Instance result_bind : MBind result := λ X Y f m,
  match m with Ok x => f x | Raise e => Raise e end.

(** ** The recursion limit

    CPython counts the calls that are in progress and raises
    [RecursionError] at the call that would nest deeper than
    [sys.getrecursionlimit()].  [recursion_limit] is the number of calls
    that may still nest where a function is entered: the function takes
    one of them for itself, its body makes its own calls with the rest,
    and a call entered when none is left raises.  Calls of built-ins
    ([len], [range], [list.append], slices) and comparisons of numbers
    are not counted.

    The limit is modelled where the depth of the calls grows with the
    length of the input: in [quickSort.py], in the recorder of
    [quicksort_animation.py] and in [quicksort_analysis.py].  The
    recursions of [heapify], [mergeSort] and [build_tree] halve their
    range at every level and nest about [log2(n)] deep; they are modelled
    with a [fuel] that is enough for every input. *)

Class Interpreter := recursion_limit : nat.

(** [sys.getrecursionlimit()] is 1000 unless a script sets it.  A
    statement that names no interpreter is about a call that may nest
    1000 deep; every call already in progress leaves it less. *)
#[global] Instance default_interpreter : Interpreter := 1000%nat.

(** A call of a Python function when [frames] calls may still nest:
    [body] runs with the calls that may nest inside it. *)
Definition call {X : Type} (frames : Interpreter) (body : Interpreter → result X)
    : result X :=
  match frames with
  | O => Raise RecursionError
  | S frames => body frames
  end.

(** ** Comparable values

    The operational part of Python's rich comparison: [x <= y].  The
    other operators used by the sources are derived from it, as they are
    for numbers. *)

Class Comparable (A : Type) := le_b : A → A → bool.

Definition lt_b `{Comparable A} (x y : A) : bool := negb (le_b y x).  (* x < y *)
Definition gt_b `{Comparable A} (x y : A) : bool := lt_b y x.         (* x > y *)

(** The comparison is a total preorder: any two values compare, and
    chains of [<=] compose.  Two different values may be tied. *)
Class ComparableLaws (A : Type) `{Comparable A} := {
  le_b_total : ∀ x y : A, le_b x y = true ∨ le_b y x = true;
  le_b_trans : ∀ x y z : A, le_b x y = true → le_b y z = true → le_b x z = true
}.

Definition le `{Comparable A} (x y : A) : Prop := le_b x y = true.
Definition tied `{Comparable A} (x y : A) : bool := le_b x y && le_b y x.

#[global] Instance Z_comparable : Comparable Z := Z.leb.
#[global] Instance Q_comparable : Comparable Q := Qle_bool.

(** A value tagged with its original index, compared by the value alone. *)
Definition tagged : Type := Z * nat.
#[global] Instance tagged_comparable : Comparable tagged := λ p q, Z.leb p.1 q.1.

(** ** Python lists and loops *)

Section pylist.
Context {A : Type}.

Definition len (arr : list A) : Z := Z.of_nat (length arr).

(** Position denoted by the index [i] in a list of [n] items. *)
Definition py_index (n i : Z) : result nat :=
  if decide (0 ≤ i < n) then Ok (Z.to_nat i)
  else if decide (- n ≤ i < 0) then Ok (Z.to_nat (n + i))
  else Raise IndexError.

(** [arr[i]] *)
Definition getitem (arr : list A) (i : Z) : result A :=
  k ← py_index (len arr) i;
  match arr !! k with
  | Some x => Ok x
  | None => Raise IndexError
  end.

(** [arr[i] = x] *)
Definition setitem (arr : list A) (i : Z) (x : A) : result (list A) :=
  k ← py_index (len arr) i;
  Ok (<[k := x]> arr).

(** [arr[i], arr[j] = arr[j], arr[i]]: the right-hand side is read
    first, then the two targets are assigned from left to right. *)
Definition exchange (arr : list A) (i j : Z) : result (list A) :=
  vj ← getitem arr j;
  vi ← getitem arr i;
  arr ← setitem arr i vj;
  setitem arr j vi.
End pylist.

(** [for x in xs: body], threading the loop state [s]. *)
Fixpoint for_each {X S : Type} (xs : list X) (body : X → S → result S) (s : S)
    : result S :=
  match xs with
  | [] => Ok s
  | x :: xs' => s' ← body x s; for_each xs' body s'
  end.

(** [range(a, b)] *)
Definition range (a b : Z) : list Z := seqZ a (b - a).
(** [range(a, b, -1)] *)
Definition range_down (a b : Z) : list Z := reverse (seqZ (b + 1) (a - b)).

(** ** quickSort.py *)

Module quickSort.
Section defs.
Context `{Comparable A}.

Definition swap {frames : Interpreter} (arr : list A) (i j : Z)
    : result (list A) :=
  call frames (λ _, exchange arr i j).

(** The body of [for j in range(low, high)]; the loop state is [arr]
    and [i], and [frames] calls may nest inside [partition]. *)
Definition scan_step {frames : Interpreter} (pivot : A) (j : Z)
    (st : list A * Z) : result (list A * Z) :=
  let '(arr, i) := st in
  aj ← getitem arr j;
  if lt_b aj pivot then
    let i := i + 1 in
    arr ← swap (frames := frames) arr i j;
    Ok (arr, i)
  else Ok (arr, i).

Definition partition {frames : Interpreter} (arr : list A) (low high : Z)
    : result (list A * Z) :=
  call frames (λ frames,
    pivot ← getitem arr high;
    let i := low - 1 in
    '(arr, i) ← for_each (range low high) (scan_step (frames := frames) pivot)
                  (arr, i);
    arr ← swap (frames := frames) arr (i + 1) high;
    Ok (arr, i + 1)).

(** Every call of [quickSort] takes one of the calls that may nest;
    [partition] and the two recursive calls are made with the rest. *)
Fixpoint quickSort {frames : Interpreter} (arr : list A) (low high : Z)
    {struct frames} : result (list A) :=
  match frames with
  | O => Raise RecursionError
  | S frames =>
      if decide (low < high) then
        '(arr, pi) ← partition (frames := frames) arr low high;
        arr ← quickSort (frames := frames) arr low (pi - 1);
        quickSort (frames := frames) arr (pi + 1) high
      else Ok arr
  end.
End defs.
End quickSort.

(** ** heapSort.py *)

Module heapSort.
Section defs.
Context `{Comparable A}.

(** [if c < n and arr[c] > arr[largest]: largest = c] *)
Definition pick_larger (arr : list A) (n c largest : Z) : result Z :=
  if decide (c < n) then
    ac ← getitem arr c;
    al ← getitem arr largest;
    Ok (if gt_b ac al then c else largest)
  else Ok largest.

Fixpoint heapify_rec (fuel : nat) (arr : list A) (n i : Z) : result (list A) :=
  let largest := i in
  let l := 2 * i + 1 in
  let r := 2 * i + 2 in
  largest ← pick_larger arr n l largest;
  largest ← pick_larger arr n r largest;
  if decide (largest ≠ i) then
    match fuel with
    | O => Raise OutOfFuel
    | S fuel =>
        arr ← exchange arr i largest;
        heapify_rec fuel arr n largest
    end
  else Ok arr.

(** A sift-down from [i >= 0] moves to a child below [n] at every
    level, so it nests at most [n] deep. *)
Definition heapify (arr : list A) (n i : Z) : result (list A) :=
  heapify_rec (Z.to_nat n) arr n i.

Definition heapSort (arr : list A) : result (list A) :=
  let n := len arr in
  arr ← for_each (range_down (n `div` 2 - 1) (-1))
          (λ i arr, heapify arr n i) arr;
  for_each (range_down (n - 1) 0)
    (λ i arr, arr ← exchange arr 0 i; heapify arr i 0) arr.
End defs.
End heapSort.

(** ** margeSort.py *)

Module margeSort.
Section defs.
Context `{Comparable A}.

(** [B = [0] * n; for i in range(n): B[i] = arr[start + i]].  The
    zero-filled buffer is overwritten slot by slot from index 0 before
    it is read; the model keeps the filled prefix. *)
Definition copy_run (arr : list A) (start n : Z) : result (list A) :=
  for_each (range 0 n) (λ i B, x ← getitem arr (start + i); Ok (B ++ [x])) [].

(** [while i < n1 and j < n2: ...] *)
Fixpoint merge_both (fuel : nat) (arr L R : list A) (n1 n2 i j k : Z)
    : result (list A * Z * Z * Z) :=
  if decide (i < n1 ∧ j < n2) then
    match fuel with
    | O => Raise OutOfFuel
    | S fuel =>
        li ← getitem L i;
        rj ← getitem R j;
        if le_b li rj then
          arr ← setitem arr k li;
          merge_both fuel arr L R n1 n2 (i + 1) j (k + 1)
        else
          arr ← setitem arr k rj;
          merge_both fuel arr L R n1 n2 i (j + 1) (k + 1)
    end
  else Ok (arr, i, j, k).

(** [while i < n: arr[k] = B[i]; i += 1; k += 1] *)
Fixpoint drain (fuel : nat) (arr B : list A) (n i k : Z) : result (list A * Z) :=
  if decide (i < n) then
    match fuel with
    | O => Raise OutOfFuel
    | S fuel =>
        bi ← getitem B i;
        arr ← setitem arr k bi;
        drain fuel arr B n (i + 1) (k + 1)
    end
  else Ok (arr, k).

(** Every iteration of the three loops advances [i] or [j], so
    [n1 + n2] iterations are enough for each of them. *)
Definition merge (arr : list A) (left mid right : Z) : result (list A) :=
  let n1 := mid - left + 1 in
  let n2 := right - mid in
  L ← copy_run arr left n1;
  R ← copy_run arr (mid + 1) n2;
  let fuel := Z.to_nat (n1 + n2) in
  '(arr, i, j, k) ← merge_both fuel arr L R n1 n2 0 0 left;
  '(arr, k) ← drain fuel arr L n1 i k;
  '(arr, k) ← drain fuel arr R n2 j k;
  Ok arr.

Fixpoint mergeSort_rec (fuel : nat) (arr : list A) (left right : Z)
    : result (list A) :=
  if decide (left < right) then
    match fuel with
    | O => Raise OutOfFuel
    | S fuel =>
        let mid := (left + right) `div` 2 in
        arr ← mergeSort_rec fuel arr left mid;
        arr ← mergeSort_rec fuel arr (mid + 1) right;
        merge arr left mid right
    end
  else Ok arr.

(** Both halves are shorter than the range, so a range of
    [right - left + 1] items nests at most [right - left] deep. *)
Definition mergeSort (arr : list A) (left right : Z) : result (list A) :=
  mergeSort_rec (Z.to_nat (right - left)) arr left right.
End defs.
End margeSort.

(** ** bucketSort.py *)

(** [int(x)] on a finite float: truncation toward zero.  ([int] of an
    infinity raises [OverflowError]; the model covers the runs on which
    every product [n * val] is a finite float, see [finite_product].) *)
Definition int_of (x : Q) : Z := Z.quot (Qnum x) (Z.pos (Qden x)).

Module bucketSort.
Section insertion.
Context `{Comparable A}.

(** [while j >= 0 and bucket[j] > key: bucket[j + 1] = bucket[j]; j -= 1] *)
Fixpoint shift_right (fuel : nat) (bucket : list A) (key : A) (j : Z)
    : result (list A * Z) :=
  if decide (j >= 0) then
    bj ← getitem bucket j;
    if gt_b bj key then
      match fuel with
      | O => Raise OutOfFuel
      | S fuel =>
          bj ← getitem bucket j;
          bucket ← setitem bucket (j + 1) bj;
          shift_right fuel bucket key (j - 1)
      end
    else Ok (bucket, j)
  else Ok (bucket, j).

(** The inner loop starts at [j = i - 1] and stops below [0]: at most
    [i] shifts. *)
Definition insertion_step (i : Z) (bucket : list A) : result (list A) :=
  key ← getitem bucket i;
  let j := i - 1 in
  '(bucket, j) ← shift_right (Z.to_nat i) bucket key j;
  setitem bucket (j + 1) key.

Definition insertion_sort (bucket : list A) : result (list A) :=
  for_each (range 1 (len bucket)) insertion_step bucket.
End insertion.

Section defs.
(** The values are finite floats.  They are modelled by the rationals
    they denote; [rnd] is the rounding of the float product [n * val]. *)
Variable rnd : Q → Q.

(** [min(int(n * val), n - 1)], for a product that is a finite float *)
Definition bucket_index (n : Z) (val : Q) : Z :=
  Z.min (int_of (rnd (inject_Z n * val)%Q)) (n - 1).

(** [bi = ...; buckets[bi].append(val)] *)
Definition scatter_step (n : Z) (val : Q) (buckets : list (list Q))
    : result (list (list Q)) :=
  let bi := bucket_index n val in
  b ← getitem buckets bi;
  setitem buckets bi (b ++ [val]).

(** [for val in arr: ...] *)
Definition scatter (n : Z) (arr : list Q) (buckets : list (list Q))
    : result (list (list Q)) :=
  for_each arr (scatter_step n) buckets.

(** [for bucket in buckets: insertion_sort(bucket)]; the loop state is
    the list of the buckets already sorted. *)
Definition sort_step (bucket : list Q) (sorted : list (list Q))
    : result (list (list Q)) :=
  bucket ← insertion_sort bucket;
  Ok (sorted ++ [bucket]).

Definition sort_buckets (buckets : list (list Q)) : result (list (list Q)) :=
  for_each buckets sort_step [].

(** [arr[index] = val; index += 1] *)
Definition store_step (val : Q) (st : list Q * Z) : result (list Q * Z) :=
  let '(arr, index) := st in
  arr ← setitem arr index val;
  Ok (arr, index + 1).

(** [for bucket in buckets: for val in bucket: ...] *)
Definition gather (buckets : list (list Q)) (arr : list Q) : result (list Q * Z) :=
  for_each buckets (λ bucket st, for_each bucket store_step st) (arr, 0).

Definition bucket_sort (arr : list Q) : result (list Q) :=
  let n := len arr in
  let buckets := replicate (Z.to_nat n) [] in
  buckets ← scatter n arr buckets;
  buckets ← sort_buckets buckets;
  '(arr, _) ← gather buckets arr;
  Ok arr.
End defs.
End bucketSort.

(** ** Step records

    Every record carries a [msg], an f-string in the source.  It is kept
    as the source text of the f-string together with the values that are
    interpolated into it, in order. *)

Inductive arg (A : Type) :=
  | Val (x : A)
  | Int (z : Z).
Arguments Val {A} x.
Arguments Int {A} z.

Record message (A : Type) := Msg { template : string; args : list (arg A) }.
Arguments Msg {A} template args.
Arguments template {A} m.
Arguments args {A} m.

(** ** quicksort_animation.py *)

Module quicksort_animation.
Section defs.
Context `{Comparable A}.

(** The dictionaries appended to [events], one constructor per [kind];
    [data] is the snapshot [data[:]] taken by [push]. *)
Inductive event :=
  | Pivot (data : list A) (lo hi pivot_idx : Z) (msg : message A)
  | Compare (data : list A) (lo hi pivot_idx j : Z) (msg : message A)
  | Swap (data : list A) (lo hi pivot_idx a b : Z) (msg : message A)
  | SortedIdx (data : list A) (lo hi idx : Z) (sorted_set : gset Z)
      (msg : message A)
  | Done (data : list A) (sorted_set : gset Z) (msg : message A).

(** The variables the nested functions close over: [data], [events]
    and [sorted_set]. *)
Abbreviation state := (list A * list event * gset Z)%type.

(** [push(kind, **kw)] *)
Definition push {frames : Interpreter} (ev : list A → event) (s : state)
    : result state :=
  call frames (λ _,
    let '(data, events, sorted_set) := s in
    Ok (data, events ++ [ev data], sorted_set)).

(** The body of [for j in range(lo, hi)]; [frames] calls may nest
    inside [partition]. *)
Definition scan_step {frames : Interpreter} (lo hi : Z) (pivot : A) (j : Z)
    (st : state * Z) : result (state * Z) :=
  let '(s, i) := st in
  dj ← getitem s.1.1 j;
  s ← push (frames := frames) (λ d, Compare d lo hi hi j
        (Msg "Is  {data[j]}  <  pivot {pivot} ?" [Val dj; Val pivot])) s;
  dj ← getitem s.1.1 j;
  if lt_b dj pivot then
    let i := i + 1 in
    if decide (i ≠ j) then
      di ← getitem s.1.1 i;
      dj ← getitem s.1.1 j;
      s ← push (frames := frames) (λ d, Swap d lo hi hi i j
            (Msg "Swap  {data[i]}  ↔  {data[j]}" [Val di; Val dj])) s;
      let '(data, events, sorted_set) := s in
      data ← exchange data i j;
      Ok ((data, events, sorted_set), i)
    else Ok (s, i)
  else Ok (s, i).

Definition partition {frames : Interpreter} (lo hi : Z) (s : state)
    : result (state * Z) :=
  call frames (λ frames,
    pivot ← getitem s.1.1 hi;
    s ← push (frames := frames) (λ d, Pivot d lo hi hi
          (Msg "Pivot = {pivot}  (index {hi})" [Val pivot; Int hi])) s;
    let i := lo - 1 in
    '(s, i) ← for_each (range lo hi) (scan_step (frames := frames) lo hi pivot)
                (s, i);
    let pi := i + 1 in
    s ← (if decide (pi ≠ hi) then
           dhi ← getitem s.1.1 hi;
           s ← push (frames := frames) (λ d, Swap d lo hi hi pi hi
                 (Msg "Place pivot {data[hi]} → index {pi}" [Val dhi; Int pi])) s;
           let '(data, events, sorted_set) := s in
           data ← exchange data pi hi;
           Ok (data, events, sorted_set)
         else Ok s);
    let '(data, events, sorted_set) := s in
    let sorted_set := {[ pi ]} ∪ sorted_set in
    dpi ← getitem data pi;
    s ← push (frames := frames) (λ d, SortedIdx d lo hi pi sorted_set
          (Msg "{data[pi]}  is in its final position ✓" [Val dpi]))
          (data, events, sorted_set);
    Ok (s, pi)).

Fixpoint qs {frames : Interpreter} (lo hi : Z) (s : state) {struct frames}
    : result state :=
  match frames with
  | O => Raise RecursionError
  | S frames =>
      if decide (lo < hi) then
        '(s, pi) ← partition (frames := frames) lo hi s;
        s ← qs (frames := frames) lo (pi - 1) s;
        qs (frames := frames) (pi + 1) hi s
      else if decide (lo = hi) then
        let '(data, events, sorted_set) := s in
        let sorted_set := {[ lo ]} ∪ sorted_set in
        dlo ← getitem data lo;
        push (frames := frames) (λ d, SortedIdx d lo hi lo sorted_set
          (Msg "Single element  {data[lo]}  is already sorted ✓" [Val dlo]))
          (data, events, sorted_set)
      else Ok s
  end.

(** The call of [record_events], from its working copy [data] on; the
    final contents of [data] are returned next to [events]. *)
Definition run {frames : Interpreter} (data : list A)
    : result (list A * list event) :=
  call frames (λ frames,
    let s := (data, [], ∅) in
    let hi := len data - 1 in
    s ← qs (frames := frames) 0 hi s;
    '(data, events, _) ←
      push (frames := frames) (λ d, Done d s.2 (Msg "✓  Array sorted!" [])) s;
    Ok (data, events)).

(** [record_events(original)]: [data = original[:]] gives the body a
    list of its own with the items of [original]. *)
Definition record_events {frames : Interpreter} (original : list A)
    : result (list event) :=
  '(_, events) ← run (frames := frames) original;
  Ok events.
End defs.
Arguments event : clear implicits.
End quicksort_animation.

(** ** heapsort_animation.py *)

Module heapsort_animation.
Section defs.
Context `{Comparable A}.

Inductive phase_name := Build | Extract.

(** One constructor per [kind]; [arr] is the snapshot [arr[:]] taken by
    [push].  [ExtractMax] is the kind ["extract"]. *)
Inductive event :=
  | Phase (arr : list A) (phase : phase_name) (msg : message A)
  | Compare (arr : list A) (n i l r largest : Z) (msg : message A)
  | LargestFound (arr : list A) (n i largest : Z) (msg : message A)
  | Swap (arr : list A) (n a b : Z) (msg : message A)
  | AfterSwap (arr : list A) (n a b : Z) (msg : message A)
  | HeapifyDone (arr : list A) (n i : Z) (msg : message A)
  | StartHeapify (arr : list A) (n i : Z) (msg : message A)
  | HeapReady (arr : list A) (msg : message A)
  | ExtractMax (arr : list A) (n idx : Z) (msg : message A)
  | AfterExtract (arr : list A) (n idx : Z) (msg : message A)
  | Done (arr : list A) (msg : message A).

(** The variables the nested functions close over: [arr] and [events]. *)
Abbreviation state := (list A * list event)%type.

Definition push (ev : list A → event) (s : state) : state :=
  let '(arr, events) := s in (arr, events ++ [ev arr]).

(** [heapify(n, i)]: the [while True] loop; [fuel] bounds the number
    of times it goes round again with [i = largest]. *)
Fixpoint heapify (fuel : nat) (n i : Z) (s : state) : result state :=
  let largest := i in
  let l := 2 * i + 1 in
  let r := 2 * i + 2 in
  let s := push (λ d, Compare d n i
             (if decide (l < n) then l else -1)
             (if decide (r < n) then r else -1) largest
             (Msg "Heapify node {i}: checking children" [Int i])) s in
  largest ← heapSort.pick_larger s.1 n l largest;
  largest ← heapSort.pick_larger s.1 n r largest;
  vl ← getitem s.1 largest;
  let s := push (λ d, LargestFound d n i largest
             (Msg "Largest is node {largest}  (value {arr[largest]})"
                [Int largest; Val vl])) s in
  if decide (largest ≠ i) then
    vi ← getitem s.1 i;
    vl ← getitem s.1 largest;
    let s := push (λ d, Swap d n i largest
               (Msg "Swap  {arr[i]}  ↔  {arr[largest]}" [Val vi; Val vl])) s in
    let '(arr, events) := s in
    arr ← exchange arr i largest;
    let s := push (λ d, AfterSwap d n i largest
               (Msg "Swapped → continue heapify at {largest}" [Int largest]))
               (arr, events) in
    match fuel with
    | O => Raise OutOfFuel
    | S fuel => heapify fuel n largest s
    end
  else
    Ok (push (λ d, HeapifyDone d n i
          (Msg "Node {i} satisfies heap property ✓" [Int i])) s).

Definition build_step (n i : Z) (s : state) : result state :=
  vi ← getitem s.1 i;
  let s := push (λ d, StartHeapify d n i
             (Msg "Start heapify at node {i}  (value {arr[i]})" [Int i; Val vi])) s in
  heapify (Z.to_nat n) n i s.

Definition extract_step (size : Z) (s : state) : result state :=
  v0 ← getitem s.1 0;
  let s := push (λ d, ExtractMax d (size + 1) size
             (Msg "Move max ({arr[0]}) → sorted position {size}" [Val v0; Int size])) s in
  let '(arr, events) := s in
  arr ← exchange arr 0 size;
  vs ← getitem arr size;
  let s := push (λ d, AfterExtract d size size
             (Msg "{arr[size]} is now in its final position ✓" [Val vs]))
             (arr, events) in
  if decide (size > 1) then heapify (Z.to_nat size) size 0 s else Ok s.

(** The body of [record_events] on the working copy [arr]; the final
    contents of [arr] are returned next to [events]. *)
Definition run (arr : list A) : result (list A * list event) :=
  let s := (arr, []) in
  let n := len arr in
  let s := push (λ d, Phase d Build
             (Msg "Phase 1: Build Max-Heap (bottom-up)" [])) s in
  s ← for_each (range_down (n `div` 2 - 1) (-1)) (build_step n) s;
  let s := push (λ d, HeapReady d
             (Msg "Max-Heap is built — root holds the maximum ✓" [])) s in
  let s := push (λ d, Phase d Extract
             (Msg "Phase 2: Extract elements one by one" [])) s in
  s ← for_each (range_down (n - 1) 0) extract_step s;
  Ok (push (λ d, Done d (Msg "✓  Array sorted!" [])) s).

(** [record_events(original)]: [arr = original[:]]. *)
Definition record_events (original : list A) : result (list event) :=
  '(_, events) ← run original;
  Ok events.
End defs.
Arguments event : clear implicits.
End heapsort_animation.

(** ** bucketsort_animation.py *)

Module bucketsort_animation.
Section defs.
(** Rounding of the float product [n * val], as in [bucketSort]. *)
Variable rnd : Q → Q.

(** One constructor per [kind].  [oi] is the original index of an
    item, its stable identity. *)
Inductive event :=
  | Scatter (oi : Z) (val : Q) (bi : Z) (msg : message Q)
  | BucketDone (bi : Z) (msg : message Q)
  | IsortStart (bi count : Z) (msg : message Q)
  | IsortKey (bi slot oi : Z) (msg : message Q)
  | IsortCompare (bi slot_j oi_j key_oi : Z) (key cmp : Q) (msg : message Q)
  | IsortShift (bi from_slot to_slot oi : Z) (msg : message Q)
  | IsortPlace (bi slot oi : Z) (msg : message Q)
  | GatherStart (msg : message Q)
  | Gather (bi slot oi dest : Z) (msg : message Q)
  | Done (msg : message Q).

(** [enumerate(xs)] *)
Definition enumerate {X : Type} (xs : list X) : list (Z * X) :=
  zip (seqZ 0 (len xs)) xs.

(** The body of [for oi, val in enumerate(arr)]; the loop state is
    [buckets] and [evts]. *)
Definition scatter_step (n : Z) (item : Z * Q) (st : list (list Z) * list event)
    : result (list (list Z) * list event) :=
  let '(oi, val) := item in
  let '(buckets, evts) := st in
  let bi := bucketSort.bucket_index rnd n val in
  let evts := evts ++ [Scatter oi val bi
    (Msg "{val:.4f}  →  bucket {bi}  (⌊{n} × {val:.4f}⌋ = {bi})"
       [Val val; Int bi; Int n; Val val; Int bi])] in
  b ← getitem buckets bi;
  buckets ← setitem buckets bi (b ++ [oi]);
  Ok (buckets, evts).

Definition scatter (n : Z) (arr : list Q) (st : list (list Z) * list event)
    : result (list (list Z) * list event) :=
  for_each (enumerate arr) (scatter_step n) st.

(** [while j >= 0 and vals[j] > key: ...]; the loop state is [vals],
    [bucket], [evts] and [j]. *)
Fixpoint shift_right (fuel : nat) (bi : Z) (key : Q) (key_oi : Z)
    (vals : list Q) (bucket : list Z) (evts : list event) (j : Z)
    : result (list Q * list Z * list event * Z) :=
  if decide (j >= 0) then
    vj ← getitem vals j;
    if gt_b vj key then
      match fuel with
      | O => Raise OutOfFuel
      | S fuel =>
          oi_j ← getitem bucket j;
          vj ← getitem vals j;
          let evts := evts ++ [IsortCompare bi j oi_j key_oi key vj
            (Msg "  {vals[j]:.4f} > {key:.4f} → shift right" [Val vj; Val key])] in
          vj ← getitem vals j;
          vals ← setitem vals (j + 1) vj;
          oi_j ← getitem bucket j;
          bucket ← setitem bucket (j + 1) oi_j;
          oi ← getitem bucket (j + 1);
          vj1 ← getitem vals (j + 1);
          let evts := evts ++ [IsortShift bi j (j + 1) oi
            (Msg "  Shift {vals[j+1]:.4f} right" [Val vj1])] in
          shift_right fuel bi key key_oi vals bucket evts (j - 1)
      end
    else Ok (vals, bucket, evts, j)
  else Ok (vals, bucket, evts, j).

(** The body of [for i in range(1, len(vals))]. *)
Definition isort_step (bi : Z) (i : Z) (st : list Q * list Z * list event)
    : result (list Q * list Z * list event) :=
  let '(vals, bucket, evts) := st in
  key ← getitem vals i;
  key_oi ← getitem bucket i;
  let j := i - 1 in
  let evts := evts ++ [IsortKey bi i key_oi
    (Msg "  Key = {key:.4f}" [Val key])] in
  '(vals, bucket, evts, j) ← shift_right (Z.to_nat i) bi key key_oi vals bucket evts j;
  vals ← setitem vals (j + 1) key;
  bucket ← setitem bucket (j + 1) key_oi;
  let evts := evts ++ [IsortPlace bi (j + 1) key_oi
    (Msg "  Place {key:.4f} at slot {j + 1}" [Val key; Int (j + 1)])] in
  Ok (vals, bucket, evts).

(** The body of [for bi, bucket in enumerate(buckets)] of the
    insertion-sort phase; it returns the bucket as the loop leaves it. *)
Definition isort_bucket (arr : list Q) (bi : Z) (bucket : list Z)
    (evts : list event) : result (list Z * list event) :=
  vals ← for_each bucket (λ oi vals, v ← getitem arr oi; Ok (vals ++ [v])) [];
  if decide (len bucket ≤ 1) then
    if decide (len bucket = 1) then
      Ok (bucket, evts ++ [BucketDone bi
        (Msg "Bucket {bi}: 1 element — already sorted ✓" [Int bi])])
    else Ok (bucket, evts)
  else
    let evts := evts ++ [IsortStart bi (len bucket)
      (Msg "Insertion-sort bucket {bi}  ({len(bucket)} elements)"
         [Int bi; Int (len bucket)])] in
    '(vals, bucket, evts) ←
      for_each (range 1 (len vals)) (isort_step bi) (vals, bucket, evts);
    Ok (bucket, evts ++ [BucketDone bi (Msg "Bucket {bi} sorted ✓" [Int bi])]).

(** The insertion-sort phase over all buckets; the loop state is the
    list of the buckets already visited and [evts]. *)
Definition isort_buckets_step (arr : list Q) (item : Z * list Z)
    (st : list (list Z) * list event) : result (list (list Z) * list event) :=
  let '(bi, bucket) := item in
  let '(visited, evts) := st in
  '(bucket, evts) ← isort_bucket arr bi bucket evts;
  Ok (visited ++ [bucket], evts).

Definition isort_buckets (arr : list Q) (buckets : list (list Z))
    (evts : list event) : result (list (list Z) * list event) :=
  for_each (enumerate buckets) (isort_buckets_step arr) ([], evts).

(** The body of [for slot, oi in enumerate(bucket)] of the gather
    phase; the loop state is [evts] and [dest]. *)
Definition gather_step (arr : list Q) (bi : Z) (item : Z * Z) (st : list event * Z)
    : result (list event * Z) :=
  let '(slot, oi) := item in
  let '(evts, dest) := st in
  v ← getitem arr oi;
  let evts := evts ++ [Gather bi slot oi dest
    (Msg "  Bucket {bi}[{slot}] ({arr[oi]:.4f}) → position {dest}"
       [Int bi; Int slot; Val v; Int dest])] in
  Ok (evts, dest + 1).

Definition gather (arr : list Q) (buckets : list (list Z)) (st : list event * Z)
    : result (list event * Z) :=
  for_each (enumerate buckets) (λ '(bi, bucket) st,
    for_each (enumerate bucket) (gather_step arr bi) st) st.

Definition record_events (arr : list Q)
    : result (list event * list (list Z)) :=
  let n := len arr in
  let evts := [] in
  let buckets := replicate (Z.to_nat n) [] in
  '(buckets, evts) ← scatter n arr (buckets, evts);
  '(buckets, evts) ← isort_buckets arr buckets evts;
  let evts := evts ++ [GatherStart
    (Msg "Concatenating buckets → sorted array" [])] in
  let dest := 0 in
  '(evts, _) ← gather arr buckets (evts, dest);
  let evts := evts ++ [Done (Msg "✓  Array sorted!" [])] in
  Ok (evts, buckets).
End defs.
End bucketsort_animation.

(** ** The caller's list objects

    A list passed to a function is a reference to an object that the
    caller still holds.  [heap] maps the identity of each list object to
    its current items. *)

Definition loc : Type := positive.
Abbreviation heap A := (gmap loc (list A)).

Module objects.
Section defs.
Context {A : Type}.

Definition contents (h : heap A) (l : loc) : list A := default [] (h !! l).

(** [new = old[:]]: a new object with the items of [old]. *)
Definition slice_copy (old : loc) (h : heap A) : loc * heap A :=
  let new := fresh (dom h) in
  (new, <[new := contents h old]> h).

(** Runs [body] on the object [l], which it updates in place.  When the
    body raises, [l] is left as it was entered: the only bodies run
    this way work on an object local to the call, which is unreachable
    once the call has raised. *)
Definition in_place {X : Type} (l : loc)
    (body : list A → result (list A * X)) (h : heap A) : result X * heap A :=
  match body (contents h l) with
  | Ok (items, x) => (Ok x, <[l := items]> h)
  | Raise e => (Raise e, h)
  end.
End defs.

(** [quicksort_animation.record_events(original)] on the heap. *)
Definition quicksort_record_events {frames : Interpreter} `{Comparable A}
    (original : loc) (h : heap A)
    : result (list (quicksort_animation.event A)) * heap A :=
  let '(data, h) := slice_copy original h in
  in_place data (quicksort_animation.run (frames := frames)) h.

(** [heapsort_animation.record_events(original)] on the heap. *)
Definition heapsort_record_events `{Comparable A} (original : loc) (h : heap A)
    : result (list (heapsort_animation.event A)) * heap A :=
  let '(arr, h) := slice_copy original h in
  in_place arr heapsort_animation.run h.

(** [bucketsort_animation.record_events(arr)] on the heap: [arr] is
    only read; [buckets], [vals] and [evts] are new objects of the
    call. *)
Definition bucketsort_record_events (rnd : Q → Q) (arr : loc) (h : heap Q)
    : result (list bucketsort_animation.event * list (list Z)) * heap Q :=
  (bucketsort_animation.record_events rnd (contents h arr), h).
End objects.

(** ** Replaying a step sequence

    These definitions follow the words of the specification: each
    mutation-bearing record is applied, in order, to a copy of the
    original sequence. *)

Module replay.
Section defs.
Context `{Comparable A}.

(** A quicksort ["swap"] record exchanges the positions [a] and [b]. *)
Definition quicksort_record (ev : quicksort_animation.event A) (arr : list A)
    : result (list A) :=
  match ev with
  | quicksort_animation.Swap _ _ _ _ a b _ => exchange arr a b
  | _ => Ok arr
  end.

Definition quicksort (events : list (quicksort_animation.event A))
    (original : list A) : result (list A) :=
  for_each events quicksort_record original.

(** Replay of the heapsort ["swap"] records alone. *)
Definition heapsort_swap_record (ev : heapsort_animation.event A) (arr : list A)
    : result (list A) :=
  match ev with
  | heapsort_animation.Swap _ _ a b _ => exchange arr a b
  | _ => Ok arr
  end.

Definition heapsort_swaps (events : list (heapsort_animation.event A))
    (original : list A) : result (list A) :=
  for_each events heapsort_swap_record original.

(** Replay of the heapsort ["swap"] and ["extract"] records: an
    ["extract"] record moves [arr[0]] to the position [idx], exchanging
    the two. *)
Definition heapsort_record (ev : heapsort_animation.event A) (arr : list A)
    : result (list A) :=
  match ev with
  | heapsort_animation.Swap _ _ a b _ => exchange arr a b
  | heapsort_animation.ExtractMax _ _ idx _ => exchange arr 0 idx
  | _ => Ok arr
  end.

Definition heapsort (events : list (heapsort_animation.event A))
    (original : list A) : result (list A) :=
  for_each events heapsort_record original.
End defs.

(** Replay of the bucket-sort records.  ["isort_shift"] and
    ["isort_place"] move the item [oi] to a slot of its bucket, which is
    recorded in [oi_slot]; ["gather"] puts the item [oi] of the original
    sequence at the position [dest] of the copy. *)
Definition bucketsort_record (original : list Q)
    (ev : bucketsort_animation.event) (st : list Q * gmap Z (Z * Z))
    : result (list Q * gmap Z (Z * Z)) :=
  let '(arr, oi_slot) := st in
  match ev with
  | bucketsort_animation.IsortShift bi _ to_slot oi _ =>
      Ok (arr, <[oi := (bi, to_slot)]> oi_slot)
  | bucketsort_animation.IsortPlace bi slot oi _ =>
      Ok (arr, <[oi := (bi, slot)]> oi_slot)
  | bucketsort_animation.Gather _ _ oi dest _ =>
      v ← getitem original oi;
      arr ← setitem arr dest v;
      Ok (arr, oi_slot)
  | _ => Ok st
  end.

Definition bucketsort (events : list bucketsort_animation.event)
    (original : list Q) : result (list Q) :=
  '(arr, _) ← for_each events (bucketsort_record original) (original, ∅);
  Ok arr.
End replay.

(** ** Specification-level notions *)

Section notions.
Context `{Comparable A}.

(** Non-decreasing: every item is [<=] every later item. *)
Definition sorted (l : list A) : Prop := StronglySorted le l.

(** The items of [l] that are tied with [x], in the order of [l]. *)
Definition ties (x : A) (l : list A) : list A := filter (λ y, tied x y = true) l.

(** Merge of two runs that takes from the left run on ties. *)
Fixpoint merge_runs (L : list A) : list A → list A :=
  fix inner (R : list A) : list A :=
    match L, R with
    | [], _ => R
    | _, [] => L
    | x :: L', y :: R' =>
        if le_b x y then x :: merge_runs L' R else y :: inner R'
    end.
End notions.

(** A bucket-sort value is in the domain when [0 <= v < 1]. *)
Definition in_unit (v : Q) : Prop := (0 <= v)%Q ∧ (v < 1)%Q.

(** The largest finite float, [sys.float_info.max]. *)
Definition max_float : Q := inject_Z ((2 ^ 53 - 1) * 2 ^ 971).

(** The float product [n * val] is finite: its rounding does not exceed
    [max_float] in magnitude, so that it does not overflow to an
    infinity. *)
Definition finite_product (rnd : Q → Q) (n : Z) (val : Q) : Prop :=
  (Qabs (rnd (inject_Z n * val)) <= max_float)%Q.

(** The rounding of a float product: monotone, and exact at zero. *)
Class Rounding (rnd : Q → Q) := {
  rnd_mono : ∀ x y : Q, (x <= y)%Q → (rnd x <= rnd y)%Q;
  rnd_zero : (rnd 0 == 0)%Q
}.

(** The rounding that is exact on every product. *)
Definition exact (x : Q) : Q := x.

(** ** Notions about the recorders *)

(** A quicksort ["swap"] record names two different positions. *)
Definition distinct_swap {A : Type} (ev : quicksort_animation.event A) : Prop :=
  match ev with
  | quicksort_animation.Swap _ _ _ _ a b _ => a ≠ b
  | _ => True
  end.

(** The first ["pivot"] record of a quicksort log. *)
Fixpoint first_pivot {A : Type} (events : list (quicksort_animation.event A))
    : option (quicksort_animation.event A) :=
  match events with
  | [] => None
  | quicksort_animation.Pivot data lo hi pivot_idx msg :: _ =>
      Some (quicksort_animation.Pivot data lo hi pivot_idx msg)
  | _ :: events => first_pivot events
  end.

(** The heapsort records that are about one position of the array: every
    kind but ["phase"], ["heap_ready"] and ["done"]. *)
Definition about_a_position {A : Type} (ev : heapsort_animation.event A) : Prop :=
  match ev with
  | heapsort_animation.Phase _ _ _
  | heapsort_animation.HeapReady _ _
  | heapsort_animation.Done _ _ => False
  | _ => True
  end.

(** The recorder state [t] holds the array [s] that the plain heapsort
    has reached from [arr0], and the records added since [events0] replay
    [arr0] into [s]. *)
Definition tracks `{Comparable A} (arr0 : list A)
    (events0 : list (heapsort_animation.event A)) (s : list A)
    (t : list A * list (heapsort_animation.event A)) : Prop :=
  t.1 = s ∧ len s = len arr0
  ∧ ∃ evs, t.2 = events0 ++ evs ∧ replay.heapsort evs arr0 = Ok s.

(** A bucket-sort record other than ["gather"]. *)
Definition no_gather (ev : bucketsort_animation.event) : Prop :=
  match ev with
  | bucketsort_animation.Gather _ _ _ _ _ => False
  | _ => True
  end.

(** The item of original index [oi] has the value [v]. *)
Definition item_of (arr : list Q) (v : Q) (oi : Z) : Prop := getitem arr oi = Ok v.

(** [evts] extends [evts0] by records that leave the replayed array
    alone. *)
Definition extends_quietly (evts0 evts : list bucketsort_animation.event) : Prop :=
  ∃ evs, evts = evts0 ++ evs ∧ Forall no_gather evs.

(** ** Notions about binary heaps *)

(** [c] is a child of the node [k]. *)
Definition child (k c : Z) : Prop := c = 2 * k + 1 ∨ c = 2 * k + 2.

(** The node [k] is no smaller than its children below [n]. *)
Definition heap_at `{Comparable A} (arr : list A) (n k : Z) : Prop :=
  ∀ c x y, child k c → c < n →
    arr !! Z.to_nat k = Some x → arr !! Z.to_nat c = Some y → le y x.

Definition heap_from `{Comparable A} (arr : list A) (n lo : Z) : Prop :=
  ∀ k, lo ≤ k < n → heap_at arr n k.

(** Every item at a position from [m] on is no smaller than every item
    before it. *)
Definition ordered_from `{Comparable A} (arr : list A) (m : Z) : Prop :=
  ∀ (k1 k2 : nat) x y, (k1 < k2)%nat → m ≤ Z.of_nat k2 →
    arr !! k1 = Some x → arr !! k2 = Some y → le x y.

(** ** Notions about the recursion limit *)

(** The outcome [r] of a call against the outcome [r'] of the same call
    when more calls may nest: [r] is [r'], unless the call was cut short
    by [RecursionError]. *)
Definition cut_short {X : Type} (r r' : result X) : Prop :=
  r = Raise RecursionError ∨ r = r'.

(** * The analysis scripts and the callers of the recorders *)

(** ** Python slices *)

Section slices.
Context {A : Type}.

(** A bound [i] of a slice of a list of [n] items: a negative bound
    counts from the end, and every bound is clipped to [0, n]. *)
Definition slice_bound (n i : Z) : Z :=
  if decide (i < 0) then Z.max 0 (n + i) else Z.min i n.

(** [arr[a:b]] *)
Definition slice (arr : list A) (a b : Z) : list A :=
  let a := slice_bound (len arr) a in
  let b := slice_bound (len arr) b in
  take (Z.to_nat (b - a)) (drop (Z.to_nat a) arr).

(** [arr[a:]] *)
Definition slice_from (arr : list A) (a : Z) : list A := slice arr a (len arr).
End slices.

(** ** quicksort_analysis.py *)

Module quicksort_analysis.
Section defs.
Context `{Comparable A}.

(** The body of [for j in range(low, high)]; the loop state is [arr]
    and [i]. *)
Definition scan_step (pivot : A) (j : Z) (st : list A * Z)
    : result (list A * Z) :=
  let '(arr, i) := st in
  aj ← getitem arr j;
  if lt_b aj pivot then
    let i := i + 1 in
    arr ← exchange arr i j;
    Ok (arr, i)
  else Ok (arr, i).

(** [sys.setrecursionlimit(500000)]: the script raises the limit before
    it sorts. *)
Definition RECURSION_LIMIT : Interpreter := Z.to_nat 500000.

(** [quicksort(arr, low, high)], with the partition written in line: a
    level of the recursion takes one call, and no call is made for the
    partition or for an exchange. *)
Fixpoint quicksort {frames : Interpreter} (arr : list A) (low high : Z)
    {struct frames} : result (list A) :=
  match frames with
  | O => Raise RecursionError
  | S frames =>
      if decide (low < high) then
        pivot ← getitem arr high;
        let i := low - 1 in
        '(arr, i) ← for_each (range low high) (scan_step pivot) (arr, i);
        arr ← exchange arr (i + 1) high;
        let pi := i + 1 in
        arr ← quicksort (frames := frames) arr low (pi - 1);
        quicksort (frames := frames) arr (pi + 1) high
      else Ok arr
  end.

(** [run(arr)]: the items of the list it returns. *)
Definition run {frames : Interpreter} (arr : list A) : result (list A) :=
  call frames (λ frames,
    let data := arr in
    quicksort (frames := frames) data 0 (len data - 1)).

(** [run(arr)] on the heap: [data = arr[:]] is a new object, sorted in
    place and returned. *)
Definition run_object {frames : Interpreter} (arr : loc) (h : heap A)
    : result loc * heap A :=
  match frames with
  | O => (Raise RecursionError, h)
  | S frames =>
      let '(data, h) := objects.slice_copy arr h in
      objects.in_place data
        (λ items,
           items ← quicksort (frames := frames) items 0 (len items - 1);
           Ok (items, data)) h
  end.
End defs.
End quicksort_analysis.

(** ** heapsort_analysis.py *)

Module heapsort_analysis.
Section defs.
Context `{Comparable A}.

(** [heapify] and [heapsort] are, line for line, [heapify] and
    [heapSort] of heapSort.py. *)
Definition heapify (arr : list A) (n i : Z) : result (list A) :=
  heapSort.heapify arr n i.

Definition heapsort (arr : list A) : result (list A) :=
  let n := len arr in
  arr ← for_each (range_down (n `div` 2 - 1) (-1))
          (λ i arr, heapify arr n i) arr;
  for_each (range_down (n - 1) 0)
    (λ i arr, arr ← exchange arr 0 i; heapify arr i 0) arr.

Definition run (arr : list A) : result (list A) :=
  let data := arr in
  heapsort data.

Definition run_object (arr : loc) (h : heap A) : result loc * heap A :=
  let '(data, h) := objects.slice_copy arr h in
  objects.in_place data (λ items, items ← heapsort items; Ok (items, data)) h.
End defs.
End heapsort_analysis.

(** ** mergesort_analysis.py *)

Module mergesort_analysis.
Section defs.
Context `{Comparable A}.

(** [mergesort(arr, l, r)].  The two runs are slices of [arr]; the three
    loops that write them back are those of [merge] in margeSort.py, with
    [len(L)] and [len(R)] for [n1] and [n2]. *)
Fixpoint mergesort_rec (fuel : nat) (arr : list A) (l r : Z) : result (list A) :=
  if decide (l < r) then
    match fuel with
    | O => Raise OutOfFuel
    | S fuel =>
        let m := (l + r) `div` 2 in
        arr ← mergesort_rec fuel arr l m;
        arr ← mergesort_rec fuel arr (m + 1) r;
        let L := slice arr l (m + 1) in
        let R := slice arr (m + 1) (r + 1) in
        let rounds := Z.to_nat (len L + len R) in
        '(arr, i, j, k) ← margeSort.merge_both rounds arr L R (len L) (len R) 0 0 l;
        '(arr, k) ← margeSort.drain rounds arr L (len L) i k;
        '(arr, k) ← margeSort.drain rounds arr R (len R) j k;
        Ok arr
    end
  else Ok arr.

Definition mergesort (arr : list A) (l r : Z) : result (list A) :=
  mergesort_rec (Z.to_nat (r - l)) arr l r.

Definition run (arr : list A) : result (list A) :=
  let data := arr in
  mergesort data 0 (len data - 1).

Definition run_object (arr : loc) (h : heap A) : result loc * heap A :=
  let '(data, h) := objects.slice_copy arr h in
  objects.in_place data
    (λ items, items ← mergesort items 0 (len items - 1); Ok (items, data)) h.
End defs.
End mergesort_analysis.

(** ** mergesort_animation.py *)

Module mergesort_animation.

Definition PALETTE : list string :=
  ["#E74C3C"; "#E67E22"; "#F1C40F"; "#2ECC71";
   "#1ABC9C"; "#3498DB"; "#9B59B6"; "#E91E8C"].

(** [PALETTE[(depth * 3 + index) % len(PALETTE)]] *)
Definition depth_colour (depth index : Z) : result string :=
  getitem PALETTE ((depth * 3 + index) `mod` len PALETTE).

(** A node of the split tree: [dict(left=, right=, depth=, index=)]. *)
Record node := Node { left : Z; right : Z; depth : Z; index : Z }.

(** The variables [recurse] closes over: [levels] and [merge_order]. *)
Abbreviation state := (list (list node) * list (Z * Z * Z))%type.

(** [while len(levels) <= depth: levels.append([])]; [fuel] bounds the
    number of rounds. *)
Fixpoint add_levels (fuel : nat) (levels : list (list node)) (depth : Z)
    : result (list (list node)) :=
  if decide (len levels ≤ depth) then
    match fuel with
    | O => Raise OutOfFuel
    | S fuel => add_levels fuel (levels ++ [[]]) depth
    end
  else Ok levels.

(** [recurse(left, right, depth)]; [fuel] bounds the depth of the
    recursion.  The loop that adds levels goes round
    [depth + 1 - len(levels)] times. *)
Fixpoint recurse (fuel : nat) (left right depth : Z) (s : state) : result state :=
  let '(levels, merge_order) := s in
  levels ← add_levels (Z.to_nat (depth + 1 - len levels)) levels depth;
  level ← getitem levels depth;
  let node := Node left right depth (len level) in
  level ← getitem levels depth;
  levels ← setitem levels depth (level ++ [node]);
  if decide (left < right) then
    match fuel with
    | O => Raise OutOfFuel
    | S fuel =>
        let mid := (left + right) `div` 2 in
        s ← recurse fuel left mid (depth + 1) (levels, merge_order);
        '(levels, merge_order) ← recurse fuel (mid + 1) right (depth + 1) s;
        Ok (levels, merge_order ++ [(left, mid, right)])
    end
  else Ok (levels, merge_order).

(** Both halves are shorter than the range, as in [mergeSort]. *)
Definition build_tree {A : Type} (arr : list A) : result state :=
  recurse (Z.to_nat (len arr - 1)) 0 (len arr - 1) 0 ([], []).

(** [next(node for level in levels for node in level
          if node["left"] == left and node["right"] == right)],
    the lookup of the merge phase of [MergeSortScene]; [None] stands for
    the StopIteration of a generator that yields nothing. *)
Definition find_node (levels : list (list node)) (l r : Z) : option node :=
  snd <$> list_find (λ nd, left nd = l ∧ right nd = r) (concat levels).

Section merging.
Context `{Comparable A}.

(** [while i < len(L) and j < len(R): ...], appending to [merged]. *)
Fixpoint take_heads (fuel : nat) (L R merged : list A) (i j : Z)
    : result (list A * Z * Z) :=
  if decide (i < len L ∧ j < len R) then
    match fuel with
    | O => Raise OutOfFuel
    | S fuel =>
        li ← getitem L i;
        rj ← getitem R j;
        if le_b li rj then
          li ← getitem L i;
          take_heads fuel L R (merged ++ [li]) (i + 1) j
        else
          rj ← getitem R j;
          take_heads fuel L R (merged ++ [rj]) i (j + 1)
    end
  else Ok (merged, i, j).

(** The block "compute merged result" of the merge phase: it returns
    [merged] and the updated [sim]. *)
Definition merged_result (sim : list A) (left mid right : Z)
    : result (list A * list A) :=
  let L := slice sim left (mid + 1) in
  let R := slice sim (mid + 1) (right + 1) in
  '(merged, i, j) ← take_heads (Z.to_nat (len L + len R)) L R [] 0 0;
  let merged := merged ++ (slice_from L i ++ slice_from R j) in
  sim ← for_each (bucketsort_animation.enumerate merged)
          (λ '(k, v) sim, setitem sim (left + k) v) sim;
  Ok (merged, sim).

(** The simulated data of [MergeSortScene]: [sim = arr[:]], updated by
    every merge of [merge_order].  [construct] reaches this code when
    [arr] is not empty (its layout divides by [n]). *)
Definition simulate (arr : list A) : result (list A) :=
  '(_, merge_order) ← build_tree arr;
  let sim := arr in
  for_each merge_order
    (λ '(left, mid, right) sim,
       '(_, sim) ← merged_result sim left mid right; Ok sim) sim.
End merging.
End mergesort_animation.

(** ** bucketsort_animation.py: the palette *)

Module bucket_palette.

Definition BUCKET_PALETTE : list string :=
  ["#E74C3C"; "#E67E22"; "#F1C40F"; "#2ECC71"; "#1ABC9C";
   "#3498DB"; "#9B59B6"; "#FF6B9D"; "#48CAE4"; "#FF9F1C"].

(** [BUCKET_PALETTE[bi % len(BUCKET_PALETTE)]] *)
Definition bcol (bi : Z) : result string :=
  getitem BUCKET_PALETTE (bi `mod` len BUCKET_PALETTE).
End bucket_palette.

(** ** quicksort_animation.py: the replay of the events in the scene *)

Module QuickSortScene.

Definition COL_DEFAULT : string := "#4A90D9".
Definition COL_PIVOT : string := "#E8A838".
Definition COL_COMPARE : string := "#E84040".
Definition COL_SWAP : string := "#FF6B35".
Definition COL_SORTED : string := "#4CAF50".

(** The variables of [construct] that the replay of the events reads and
    updates: the maps [slot] and [at_pos], the fill colour of every box
    of [boxes], and [current_pivot_val].  The calls that only draw
    ([self.play] of a move, [self.wait], [update_status]) touch none of
    them and are left out. *)
Record state := State {
  slot : list Z;
  at_pos : list Z;
  boxes : list string;
  current_pivot_val : option Z
}.

(** [slot = list(range(n))], [at_pos = list(range(n))], one box of the
    default colour for every item, [current_pivot_val = None]. *)
Definition initial (n : Z) : state :=
  State (range 0 n) (range 0 n) (replicate (Z.to_nat n) COL_DEFAULT) None.

(** [recolour(val_idx, col)] and [recolour_now(val_idx, col)]:
    [boxes[val_idx]] gets the fill colour [col]. *)
Definition recolour (val_idx : Z) (col : string) (bxs : list string)
    : result (list string) :=
  setitem bxs val_idx col.

(** [do_swap(va, vb)] *)
Definition do_swap (va vb : Z) (st : state) : result state :=
  sa ← getitem (slot st) va;
  sb ← getitem (slot st) vb;
  _ ← getitem (boxes st) va;
  _ ← getitem (boxes st) vb;
  slot' ← setitem (slot st) va sb;
  slot' ← setitem slot' vb sa;
  at_pos' ← setitem (at_pos st) sb va;
  at_pos' ← setitem at_pos' sa vb;
  Ok (State slot' at_pos' (boxes st) (current_pivot_val st)).

(** [for s in positions: boxes[at_pos[s]]] gets the colour [col]. *)
Definition paint (at_pos : list Z) (positions : list Z) (col : string)
    (bxs : list string) : result (list string) :=
  for_each positions (λ s bxs, vi ← getitem at_pos s; recolour vi col bxs) bxs.

(** The body of [for ev in events].  The positions of [sorted_set] are
    visited in the order of [elements]; every visit gives one box the
    same colour, so the order does not show in the result. *)
Definition handle {A : Type} (ev : quicksort_animation.event A) (st : state)
    : result state :=
  match ev with
  | quicksort_animation.Pivot _ lo hi pivot_idx _ =>
      let pivot_slot := pivot_idx in
      current ← getitem (at_pos st) pivot_slot;
      bxs ← paint (at_pos st) (range lo (hi + 1)) COL_DEFAULT (boxes st);
      bxs ← recolour current COL_PIVOT bxs;
      Ok (State (slot st) (at_pos st) bxs (Some current))
  | quicksort_animation.Compare _ _ _ _ j _ =>
      j_val ← getitem (at_pos st) j;
      bxs ← recolour j_val COL_COMPARE (boxes st);
      bxs ← (if decide (Some j_val ≠ current_pivot_val st)
             then recolour j_val COL_DEFAULT bxs else Ok bxs);
      Ok (State (slot st) (at_pos st) bxs (current_pivot_val st))
  | quicksort_animation.Swap _ _ _ _ a b _ =>
      va ← getitem (at_pos st) a;
      vb ← getitem (at_pos st) b;
      bxs ← recolour va COL_SWAP (boxes st);
      bxs ← recolour vb COL_SWAP bxs;
      let pivot_is_va := bool_decide (Some va = current_pivot_val st) in
      let pivot_is_vb := bool_decide (Some vb = current_pivot_val st) in
      st ← do_swap va vb (State (slot st) (at_pos st) bxs (current_pivot_val st));
      bxs ← (if pivot_is_va then
               bxs ← recolour va COL_PIVOT (boxes st);
               recolour vb COL_DEFAULT bxs
             else if pivot_is_vb then
               bxs ← recolour vb COL_PIVOT (boxes st);
               recolour va COL_DEFAULT bxs
             else
               bxs ← recolour va COL_DEFAULT (boxes st);
               recolour vb COL_DEFAULT bxs);
      Ok (State (slot st) (at_pos st) bxs (current_pivot_val st))
  | quicksort_animation.SortedIdx _ _ _ _ sorted_set _ =>
      bxs ← paint (at_pos st) (elements sorted_set) COL_SORTED (boxes st);
      Ok (State (slot st) (at_pos st) bxs (current_pivot_val st))
  | quicksort_animation.Done _ _ _ =>
      Ok (State (slot st) (at_pos st) ((λ _, COL_SORTED) <$> boxes st)
            (current_pivot_val st))
  end.

(** [events = record_events(arr)] and the loop over the events, from the
    maps and boxes that [construct] has set up for the [n] items of
    [arr].  [construct] reaches this code when [arr] is not empty (its
    layout divides by [n]); [frames] calls may nest inside [construct]
    where it calls [record_events]. *)
Definition replay_events {frames : Interpreter} `{Comparable A} (arr : list A)
    : result state :=
  let n := len arr in
  events ← quicksort_animation.record_events (frames := frames) arr;
  for_each events handle (initial n).
End QuickSortScene.

(** ** Further notions *)

(** Strictly increasing: every item is [<] every later item. *)
Definition increasing `{Comparable A} (l : list A) : Prop :=
  StronglySorted (λ x y, lt_b x y = true) l.

(** The merges of the range [l .. r], in the order in which [mergeSort]
    performs them: those of the left half, those of the right half, then
    the merge of the two halves. *)
Fixpoint merges (fuel : nat) (l r : Z) : list (Z * Z * Z) :=
  if decide (l < r) then
    match fuel with
    | O => []
    | S fuel =>
        let m := (l + r) `div` 2 in
        merges fuel l m ++ merges fuel (m + 1) r ++ [(l, m, r)]
    end
  else [].

(** The split tree holds a node for the range [l .. r]. *)
Definition has_node (levels : list (list mergesort_animation.node)) (l r : Z) : Prop :=
  ∃ nd, nd ∈ concat levels
        ∧ mergesort_animation.left nd = l ∧ mergesort_animation.right nd = r.

(** Every node of the split tree records its own level and its own
    position in that level. *)
Definition well_indexed (levels : list (list mergesort_animation.node)) : Prop :=
  ∀ (d k : nat) level nd,
    levels !! d = Some level → level !! k = Some nd →
    mergesort_animation.depth nd = Z.of_nat d
    ∧ mergesort_animation.index nd = Z.of_nat k.

(** ** Notions about the logs of the recorders *)

Section logs.
Context {E S : Type}.
(** How a record changes the replayed array, and the snapshot of the
    array that the record carries. *)
Variables (apply_record : E → S → result S) (snapshot : E → S).

(** Every snapshot is the array that the records before it make of
    [original]. *)
Definition log_follows (original : S) (events : list E) : Prop :=
  ∀ evs1 ev evs2, events = evs1 ++ ev :: evs2 →
    for_each evs1 apply_record original = Ok (snapshot ev).

(** The state of a recorder follows [original]: its array [s] is what
    the records so far make of [original], and so was every snapshot. *)
Definition log_tracks (original s : S) (events : list E) : Prop :=
  for_each events apply_record original = Ok s ∧ log_follows original events.
End logs.

(** ** Notions about the quicksort log *)

(** The snapshot [data] that a record carries. *)
Definition quicksort_snapshot {A : Type} (ev : quicksort_animation.event A) : list A :=
  match ev with
  | quicksort_animation.Pivot data _ _ _ _
  | quicksort_animation.Compare data _ _ _ _ _
  | quicksort_animation.Swap data _ _ _ _ _ _
  | quicksort_animation.SortedIdx data _ _ _ _ _
  | quicksort_animation.Done data _ _ => data
  end.

(** Every snapshot is the array that the ["swap"] records before it
    make of the original. *)
Abbreviation snapshots_follow :=
  (log_follows replay.quicksort_record quicksort_snapshot).
Abbreviation tracked := (log_tracks replay.quicksort_record quicksort_snapshot).

(** The range [lo' .. hi'] that a record names lies in [lo .. hi], and
    the positions that it names lie in [lo' .. hi']. *)
Definition ranged {A : Type} (lo hi : Z) (ev : quicksort_animation.event A) : Prop :=
  match ev with
  | quicksort_animation.Pivot _ lo' hi' pivot_idx _ =>
      lo ≤ lo' ∧ hi' ≤ hi ∧ lo' ≤ pivot_idx ≤ hi'
  | quicksort_animation.Compare _ lo' hi' pivot_idx j _ =>
      lo ≤ lo' ∧ hi' ≤ hi ∧ lo' ≤ pivot_idx ≤ hi' ∧ lo' ≤ j ≤ hi'
  | quicksort_animation.Swap _ lo' hi' pivot_idx a b _ =>
      lo ≤ lo' ∧ hi' ≤ hi ∧ lo' ≤ pivot_idx ≤ hi' ∧ lo' ≤ a ≤ hi' ∧ lo' ≤ b ≤ hi'
  | quicksort_animation.SortedIdx _ lo' hi' idx _ _ =>
      lo ≤ lo' ∧ hi' ≤ hi ∧ lo' ≤ idx ≤ hi'
  | quicksort_animation.Done _ _ _ => True
  end.

(** A record that carries no set of sorted positions: one other than
    ["sorted_idx"] and ["done"]. *)
Definition unmarked {A : Type} (ev : quicksort_animation.event A) : Prop :=
  match ev with
  | quicksort_animation.SortedIdx _ _ _ _ _ _
  | quicksort_animation.Done _ _ _ => False
  | _ => True
  end.

(** A ["sorted_idx"] record marks a position of its snapshot, and the
    item there is at the same position of the array [final]. *)
Definition settled {A : Type} (final : list A) (ev : quicksort_animation.event A)
    : Prop :=
  match ev with
  | quicksort_animation.SortedIdx data _ _ idx _ _ =>
      0 ≤ idx
      ∧ ∃ x, data !! Z.to_nat idx = Some x ∧ final !! Z.to_nat idx = Some x
  | _ => True
  end.

(** The positions [lo], ..., [hi]. *)
Definition interval (lo hi : Z) : gset Z := list_to_set (seqZ lo (hi - lo + 1)).

(** [data'] has the items of [data] outside the positions [lo .. hi]. *)
Definition same_outside {A : Type} (lo hi : Z) (data data' : list A) : Prop :=
  length data' = length data
  ∧ ∀ k : nat, Z.of_nat k < lo ∨ hi < Z.of_nat k → data' !! k = data !! k.

(** ** Notions about the heapsort log *)

(** The snapshot [arr] that a record carries. *)
Definition heapsort_snapshot {A : Type} (ev : heapsort_animation.event A) : list A :=
  match ev with
  | heapsort_animation.Phase arr _ _
  | heapsort_animation.Compare arr _ _ _ _ _ _
  | heapsort_animation.LargestFound arr _ _ _ _
  | heapsort_animation.Swap arr _ _ _ _
  | heapsort_animation.AfterSwap arr _ _ _ _
  | heapsort_animation.HeapifyDone arr _ _ _
  | heapsort_animation.StartHeapify arr _ _ _
  | heapsort_animation.HeapReady arr _
  | heapsort_animation.ExtractMax arr _ _ _
  | heapsort_animation.AfterExtract arr _ _ _
  | heapsort_animation.Done arr _ => arr
  end.

Abbreviation heapsort_snapshots_follow :=
  (log_follows replay.heapsort_record heapsort_snapshot).
Abbreviation heapsort_tracked :=
  (log_tracks replay.heapsort_record heapsort_snapshot).

(** A record that [heapify] appends. *)
Definition sifting {A : Type} (ev : heapsort_animation.event A) : Prop :=
  match ev with
  | heapsort_animation.Compare _ _ _ _ _ _ _
  | heapsort_animation.LargestFound _ _ _ _ _
  | heapsort_animation.Swap _ _ _ _ _
  | heapsort_animation.AfterSwap _ _ _ _ _
  | heapsort_animation.HeapifyDone _ _ _ _ => True
  | _ => False
  end.

(** The item that an ["after_extract"] record reports as final lies
    beyond the position [j] and is at the same position of [arr]; the
    record is one of the extraction of a heap of [n] items. *)
Definition extracted {A : Type} (n j : Z) (arr : list A)
    (ev : heapsort_animation.event A) : Prop :=
  match ev with
  | heapsort_animation.AfterExtract snapshot _ idx _ =>
      j < idx < n ∧ snapshot !! Z.to_nat idx = arr !! Z.to_nat idx
  | heapsort_animation.ExtractMax _ _ idx _ => j < idx < n
  | heapsort_animation.HeapReady _ _ | heapsort_animation.Phase _ _ _
  | heapsort_animation.Done _ _ | heapsort_animation.StartHeapify _ _ _ _ => False
  | _ => True
  end.

(** The ["heap_ready"] record. *)
Definition is_heap_ready {A : Type} (ev : heapsort_animation.event A) : Prop :=
  match ev with
  | heapsort_animation.HeapReady _ _ => True
  | _ => False
  end.

(** An ["after_extract"] record reports a position of its snapshot, and
    the item there is at the same position of the array [final]. *)
Definition heapsort_settled {A : Type} (final : list A)
    (ev : heapsort_animation.event A) : Prop :=
  match ev with
  | heapsort_animation.AfterExtract snapshot _ idx _ =>
      0 ≤ idx
      ∧ ∃ x, snapshot !! Z.to_nat idx = Some x ∧ final !! Z.to_nat idx = Some x
  | _ => True
  end.

(** A record of the build phase: ["start_heapify"] or one that
    [heapify] appends. *)
Definition building {A : Type} (ev : heapsort_animation.event A) : Prop :=
  match ev with
  | heapsort_animation.StartHeapify _ _ _ _ => True
  | ev => sifting ev
  end.

(** ** Notions about the bucket-sort log *)

(** A value of a bucket next to its original index, compared by the
    value alone. *)
Definition keyed : Type := Q * Z.
#[global] Instance keyed_comparable : Comparable keyed := λ p q, Qle_bool p.1 q.1.

(** The moves [(oi, dest)] of the ["gather"] records of a log, in the
    order of the log. *)
Definition gather_moves (evts : list bucketsort_animation.event) : list (Z * Z) :=
  omap (λ ev, match ev with
              | bucketsort_animation.Gather _ _ oi dest _ => Some (oi, dest)
              | _ => None
              end) evts.

(** The set of sorted positions that a ["sorted_idx"] or ["done"] record
    carries lies within [ss]. *)
Definition marks_within {A : Type} (ss : gset Z) (ev : quicksort_animation.event A)
    : Prop :=
  match ev with
  | quicksort_animation.SortedIdx _ _ _ _ sorted_set _
  | quicksort_animation.Done _ sorted_set _ => sorted_set ⊆ ss
  | _ => True
  end.

(** ** Notions about the quicksort scene *)

(** The scene shows the array [data]: the box at the screen position [s]
    is the box of the original item whose value [data] has at [s], and
    [slot] is the inverse of [at_pos]. *)
Definition in_sync {A : Type} (arr : list A) (st : QuickSortScene.state)
    (data : list A) : Prop :=
  length (QuickSortScene.slot st) = length arr
  ∧ length (QuickSortScene.at_pos st) = length arr
  ∧ length (QuickSortScene.boxes st) = length arr
  ∧ length data = length arr
  ∧ ∀ s : nat, (s < length arr)%nat →
      ∃ vi : nat,
        QuickSortScene.at_pos st !! s = Some (Z.of_nat vi)
        ∧ QuickSortScene.slot st !! vi = Some (Z.of_nat s)
        ∧ data !! s = arr !! vi.

(** * Proofs *)

(** ** Python lists and loops *)

Lemma bind_Ok {X Y : Type} (x : X) (f : X → result Y) : (Ok x ≫= f) = f x.
Proof. reflexivity. Qed.

Lemma bind_Ok_inv {X Y : Type} (m : result X) (f : X → result Y) (y : Y) :
  m ≫= f = Ok y → ∃ x, m = Ok x ∧ f x = Ok y.
Proof. destruct m as [x|e]; [eauto|discriminate]. Qed.

Section pylist_facts.
Context {A : Type}.
Implicit Types (arr pre post l : list A) (x y : A) (i j : Z).

Lemma len_nil : len (@nil A) = 0.
Proof. reflexivity. Qed.

Lemma len_cons x l : len (x :: l) = 1 + len l.
Proof. unfold len. simpl length. lia. Qed.

Lemma len_app l1 l2 : len (l1 ++ l2) = len l1 + len l2.
Proof. unfold len. rewrite length_app. lia. Qed.

Lemma len_nonneg l : 0 ≤ len l.
Proof. unfold len. lia. Qed.

Lemma len_insert l (k : nat) x : len (<[k := x]> l) = len l.
Proof. unfold len. by rewrite length_insert. Qed.

Lemma py_index_nonneg n i : 0 ≤ i < n → py_index n i = Ok (Z.to_nat i).
Proof. intros Hi. unfold py_index. by rewrite decide_True. Qed.

Lemma getitem_lookup arr i x :
  0 ≤ i → arr !! Z.to_nat i = Some x → getitem arr i = Ok x.
Proof.
  intros Hi Hx. unfold getitem.
  rewrite py_index_nonneg.
  - rewrite bind_Ok, Hx. reflexivity.
  - apply lookup_lt_Some in Hx. unfold len. lia.
Qed.

Lemma setitem_nonneg arr i x :
  0 ≤ i < len arr → setitem arr i x = Ok (<[Z.to_nat i := x]> arr).
Proof. intros Hi. unfold setitem. by rewrite py_index_nonneg. Qed.

Lemma getitem_mid pre x post i :
  i = len pre → getitem (pre ++ x :: post) i = Ok x.
Proof.
  intros ->. apply getitem_lookup; [apply len_nonneg|].
  unfold len. rewrite Nat2Z.id. by apply list_lookup_middle.
Qed.

Lemma setitem_mid pre x post i y :
  i = len pre → setitem (pre ++ x :: post) i y = Ok (pre ++ y :: post).
Proof.
  intros ->. rewrite setitem_nonneg.
  - unfold len. rewrite Nat2Z.id. f_equal.
    rewrite insert_app_r_alt by lia. by rewrite Nat.sub_diag.
  - rewrite len_app, len_cons. pose proof (len_nonneg pre). pose proof (len_nonneg post). lia.
Qed.

Lemma exchange_same pre x post i :
  i = len pre → exchange (pre ++ x :: post) i i = Ok (pre ++ x :: post).
Proof.
  intros Hi. unfold exchange.
  rewrite (getitem_mid _ _ _ _ Hi), !bind_Ok.
  rewrite (setitem_mid _ _ _ _ _ Hi), bind_Ok.
  by rewrite (setitem_mid _ _ _ _ _ Hi).
Qed.

Lemma exchange_split l1 x l2 y l3 i j :
  i = len l1 → j = len l1 + 1 + len l2 →
  exchange (l1 ++ x :: l2 ++ y :: l3) i j = Ok (l1 ++ y :: l2 ++ x :: l3).
Proof.
  intros Hi Hj. unfold exchange.
  assert (Hj' : j = len (l1 ++ x :: l2)) by (rewrite len_app, len_cons; lia).
  assert (E : ∀ a b, l1 ++ a :: l2 ++ b :: l3 = (l1 ++ a :: l2) ++ b :: l3)
    by (intros; by rewrite <- app_assoc).
  rewrite (E x y), (getitem_mid _ _ _ _ Hj'), bind_Ok.
  rewrite <- (E x y), (getitem_mid _ _ _ _ Hi), bind_Ok.
  rewrite (setitem_mid _ _ _ _ _ Hi), bind_Ok.
  assert (Hj'' : j = len (l1 ++ y :: l2)) by (rewrite len_app, len_cons; lia).
  rewrite (E y y), (setitem_mid _ _ _ _ _ Hj''). by rewrite <- E.
Qed.

Lemma exchange_split_rev l1 x l2 y l3 i j :
  i = len l1 → j = len l1 + 1 + len l2 →
  exchange (l1 ++ x :: l2 ++ y :: l3) j i = Ok (l1 ++ y :: l2 ++ x :: l3).
Proof.
  intros Hi Hj. unfold exchange.
  assert (Hj' : j = len (l1 ++ x :: l2)) by (rewrite len_app, len_cons; lia).
  assert (E : ∀ a b, l1 ++ a :: l2 ++ b :: l3 = (l1 ++ a :: l2) ++ b :: l3)
    by (intros; by rewrite <- app_assoc).
  rewrite (getitem_mid _ _ _ _ Hi), bind_Ok.
  rewrite (E x y), (getitem_mid _ _ _ _ Hj'), bind_Ok.
  rewrite (setitem_mid _ _ _ _ _ Hj'), bind_Ok.
  by rewrite <- E, (setitem_mid _ _ _ _ _ Hi).
Qed.
End pylist_facts.

Section loops.
Context {X S : Type}.
Implicit Types (xs ys : list X) (body : X → S → result S) (s : S).

Lemma for_each_app xs ys body s :
  for_each (xs ++ ys) body s = for_each xs body s ≫= for_each ys body.
Proof.
  revert s. induction xs as [|x xs IH]; intros s; simpl; [done|].
  destruct (body x s) as [s'|e]; simpl; [apply IH|done].
Qed.

End loops.

Section calls.
Context {X : Type}.
Implicit Types (r : result X) (f g : nat) (body : Interpreter → result X).

Lemma call_S f body : call (S f) body = body f.
Proof. reflexivity. Qed.

Lemma cut_short_refl r : cut_short r r.
Proof. by right. Qed.

Lemma cut_short_raise r : cut_short (Raise RecursionError) r.
Proof. by left. Qed.

Lemma cut_short_trans r1 r2 r3 : cut_short r1 r2 → cut_short r2 r3 → cut_short r1 r3.
Proof. intros [->| ->]; [by left|done]. Qed.

Lemma cut_short_Ok r r' x : cut_short r r' → r = Ok x → r' = Ok x.
Proof. intros [->| ->]; [discriminate|done]. Qed.

Lemma cut_short_same r r' : cut_short r r' → r ≠ Raise RecursionError → r = r'.
Proof. by intros [->| ->]. Qed.

Lemma cut_short_bind {Y : Type} (m m' : result Y) (k k' : Y → result X) :
  cut_short m m' → (∀ y, cut_short (k y) (k' y)) →
  cut_short (m ≫= k) (m' ≫= k').
Proof.
  intros [->| ->] Hk; [by left|]. destruct m' as [y|e]; [apply Hk|by right].
Qed.

Lemma cut_short_call f f' body body' :
  (f ≤ f')%nat →
  (∀ g g', (g ≤ g')%nat → cut_short (body g) (body' g')) →
  cut_short (call f body) (call f' body').
Proof.
  intros Hf Hbody. destruct f as [|f]; [by left|].
  destruct f' as [|f']; [lia|]. apply Hbody. lia.
Qed.
End calls.

Lemma cut_short_for_each {X S : Type} (xs : list X) (body body' : X → S → result S) :
  (∀ x s, cut_short (body x s) (body' x s)) →
  ∀ s, cut_short (for_each xs body s) (for_each xs body' s).
Proof.
  intros Hbody. induction xs as [|x xs IH]; intros s; cbn [for_each]; [by right|].
  by apply cut_short_bind.
Qed.

Lemma range_nil a b : b ≤ a → range a b = [].
Proof. intros Hab. unfold range. apply seqZ_nil. lia. Qed.

Lemma range_cons a b : a < b → range a b = a :: range (a + 1) b.
Proof.
  intros Hab. unfold range. rewrite seqZ_cons by lia.
  f_equal. f_equal; lia.
Qed.

Lemma range_down_nil a b : a ≤ b → range_down a b = [].
Proof. intros Hab. unfold range_down. rewrite seqZ_nil by lia. reflexivity. Qed.

Lemma range_down_cons a b : b < a → range_down a b = a :: range_down (a - 1) b.
Proof.
  intros Hab. unfold range_down.
  replace (a - b) with ((a - 1 - b) + 1) by lia.
  rewrite seqZ_app by lia. rewrite reverse_app. simpl.
  f_equal. lia.
Qed.

(** ** quickSort.py sorts *)

(** Lengths of Python lists are computed by rewriting and [lia]; list
    equations are settled up to re-association. *)
Create Rewrite HintDb len.
#[global] Hint Rewrite @len_app @len_cons @len_nil @len_insert : len.

Ltac len_solve := autorewrite with len in *; unfold len in *; lia.
Ltac list_norm := rewrite ?app_nil_r, <- ?app_assoc; cbn [app].

Section comparable_facts.
Context `{ComparableLaws A}.
Implicit Types x y z : A.

Lemma le_refl x : le x x.
Proof. unfold le. by destruct (le_b_total x x). Qed.

Lemma le_trans x y z : le x y → le y z → le x z.
Proof. apply le_b_trans. Qed.

Lemma lt_b_true_le x y : lt_b x y = true → le x y.
Proof.
  unfold lt_b, le. intros Hlt. apply negb_true_iff in Hlt.
  destruct (le_b_total x y) as [?|Hyx]; [done|congruence].
Qed.

Lemma lt_b_false_le x y : lt_b x y = false → le y x.
Proof. unfold lt_b, le. intros Hlt. by apply negb_false_iff in Hlt. Qed.

Lemma gt_b_true_le x y : gt_b x y = true → le y x.
Proof. apply lt_b_true_le. Qed.

Lemma gt_b_false_le x y : gt_b x y = false → le x y.
Proof. apply lt_b_false_le. Qed.

Lemma sorted_nil : sorted (@nil A).
Proof. constructor. Qed.

Lemma sorted_singleton x : sorted [x].
Proof. repeat constructor. Qed.

Lemma sorted_app l1 l2 :
  sorted l1 → sorted l2 → (∀ x y, x ∈ l1 → y ∈ l2 → le x y) →
  sorted (l1 ++ l2).
Proof.
  unfold sorted. intros H1 H2 H12. induction H1 as [|x l1 Hl1 IH Hx]; simpl; [done|].
  constructor.
  - apply IH. intros a b Ha Hb. apply H12; [by right|done].
  - apply Forall_app. split; [done|].
    apply Forall_forall. intros y Hy. apply H12; [by left|done].
Qed.

Lemma sorted_app_inv l1 l2 :
  sorted (l1 ++ l2) →
  sorted l1 ∧ sorted l2 ∧ ∀ x y, x ∈ l1 → y ∈ l2 → le x y.
Proof.
  unfold sorted. induction l1 as [|a l1 IH]; simpl; intros Hs.
  - split; [constructor|]. split; [done|]. intros x y Hx. by apply elem_of_nil in Hx.
  - apply StronglySorted_inv in Hs as [Hs Ha].
    destruct (IH Hs) as (H1 & H2 & H12).
    apply Forall_app in Ha as [Ha1 Ha2].
    split; [by constructor|]. split; [done|].
    intros x y Hx Hy. apply elem_of_cons in Hx as [->|Hx].
    + rewrite Forall_forall in Ha2. by apply Ha2.
    + by apply H12.
Qed.
End comparable_facts.

#[global] Instance Z_comparable_laws : ComparableLaws Z.
Proof.
  split; unfold le_b, Z_comparable.
  - intros x y. rewrite !Z.leb_le. lia.
  - intros x y z. rewrite !Z.leb_le. lia.
Qed.

#[global] Instance Q_comparable_laws : ComparableLaws Q.
Proof.
  split; unfold le_b, Q_comparable.
  - intros x y. rewrite !Qle_bool_iff.
    destruct (Qlt_le_dec x y) as [Hlt|Hle]; [left; by apply Qlt_le_weak|by right].
  - intros x y z. rewrite !Qle_bool_iff. apply Qle_trans.
Qed.

#[global] Instance tagged_comparable_laws : ComparableLaws tagged.
Proof.
  split; unfold le_b, tagged_comparable.
  - intros x y. rewrite !Z.leb_le. lia.
  - intros x y z. rewrite !Z.leb_le. lia.
Qed.

Section quicksort_correct.
Context `{ComparableLaws A}.
Implicit Types (arr pre post seg : list A) (pivot : A).

Lemma exchange_at arr l1 x l2 y l3 i j :
  arr = l1 ++ x :: l2 ++ y :: l3 → i = len l1 → j = len l1 + 1 + len l2 →
  exchange arr i j = Ok (l1 ++ y :: l2 ++ x :: l3).
Proof. intros ->. apply exchange_split. Qed.

Lemma exchange_at_same arr l1 x l3 i j :
  arr = l1 ++ x :: l3 → i = len l1 → j = i →
  exchange arr i j = Ok arr.
Proof. intros -> ? ->. by apply exchange_same. Qed.

Lemma getitem_at arr l1 x l3 i :
  arr = l1 ++ x :: l3 → i = len l1 → getitem arr i = Ok x.
Proof. intros ->. apply getitem_mid. Qed.

Lemma setitem_at arr l1 x l3 i y :
  arr = l1 ++ x :: l3 → i = len l1 → setitem arr i y = Ok (l1 ++ y :: l3).
Proof. intros ->. apply setitem_mid. Qed.

(** With a call left for [swap], the body of the scan exchanges the
    two items. *)
Lemma scan_step_eq f pivot j arr i :
  quickSort.scan_step (frames := S f) pivot j (arr, i) =
  getitem arr j ≫= λ aj,
    if lt_b aj pivot
    then exchange arr (i + 1) j ≫= λ arr, Ok (arr, i + 1)
    else Ok (arr, i).
Proof. reflexivity. Qed.

Lemma partition_eq f arr low high :
  quickSort.partition (frames := S (S f)) arr low high =
  getitem arr high ≫= λ pivot,
    for_each (range low high) (quickSort.scan_step (frames := S f) pivot)
      (arr, low - 1) ≫= λ '(arr, i),
    exchange arr (i + 1) high ≫= λ arr, Ok (arr, i + 1).
Proof. reflexivity. Qed.

Lemma quickSort_eq f arr low high :
  quickSort.quickSort (frames := S f) arr low high =
  if decide (low < high) then
    quickSort.partition (frames := f) arr low high ≫= λ '(arr, pi),
    quickSort.quickSort (frames := f) arr low (pi - 1) ≫= λ arr,
    quickSort.quickSort (frames := f) arr (pi + 1) high
  else Ok arr.
Proof. reflexivity. Qed.

Lemma scan_spec f pivot pre post rest :
  ∀ Lo Hi j hi i,
    j = len pre + len Lo + len Hi → hi = j + len rest →
    i = len pre + len Lo - 1 →
    Forall (λ x, lt_b x pivot = true) Lo →
    Forall (λ x, lt_b x pivot = false) Hi →
    ∃ Lo' Hi',
      for_each (range j hi) (quickSort.scan_step (frames := S f) pivot)
        (pre ++ Lo ++ Hi ++ rest ++ post, i)
      = Ok (pre ++ Lo' ++ Hi' ++ post, len pre + len Lo' - 1)
      ∧ Lo' ++ Hi' ≡ₚ Lo ++ Hi ++ rest
      ∧ Forall (λ x, lt_b x pivot = true) Lo'
      ∧ Forall (λ x, lt_b x pivot = false) Hi'.
Proof.
  induction rest as [|x rest IH]; intros Lo Hi j hi i Hj Hhi Hi' HLo HHi.
  - rewrite range_nil by len_solve. exists Lo, Hi. simpl.
    split; [by subst i|]. split; [by list_norm|done].
  - rewrite range_cons by len_solve. cbn [for_each]. rewrite scan_step_eq.
    rewrite (getitem_at _ (pre ++ Lo ++ Hi) x (rest ++ post)); [|by list_norm|len_solve].
    rewrite bind_Ok. destruct (lt_b x pivot) eqn:Hx.
    + destruct Hi as [|b Hi].
      * rewrite (exchange_at_same _ (pre ++ Lo) x (rest ++ post));
          [|by list_norm|len_solve|len_solve].
        rewrite !bind_Ok.
        destruct (IH (Lo ++ [x]) [] (j + 1) hi (i + 1)) as (Lo' & Hi'' & Hrun & Hperm & ? & ?);
          [len_solve|len_solve|len_solve| |done|].
        { apply Forall_app. split; [done|]. by repeat constructor. }
        exists Lo', Hi''. split.
        { rewrite <- Hrun. f_equal. f_equal. by list_norm. }
        split; [|done]. rewrite Hperm. by list_norm.
      * rewrite (exchange_at _ (pre ++ Lo) b Hi x (rest ++ post));
          [|by list_norm|len_solve|len_solve].
        rewrite !bind_Ok.
        apply Forall_cons in HHi as [Hb HHi].
        destruct (IH (Lo ++ [x]) (Hi ++ [b]) (j + 1) hi (i + 1))
          as (Lo' & Hi'' & Hrun & Hperm & ? & ?);
          [len_solve|len_solve|len_solve| | |].
        { apply Forall_app. split; [done|]. by repeat constructor. }
        { apply Forall_app. split; [done|]. by repeat constructor. }
        exists Lo', Hi''. split.
        { rewrite <- Hrun. f_equal. f_equal. by list_norm. }
        split; [|done]. rewrite Hperm. list_norm.
        apply Permutation_app_head.
        rewrite <- !Permutation_middle. apply perm_swap.
    + rewrite bind_Ok.
      destruct (IH Lo (Hi ++ [x]) (j + 1) hi i) as (Lo' & Hi'' & Hrun & Hperm & ? & ?);
        [len_solve|len_solve|len_solve|done| |].
      { apply Forall_app. split; [done|]. by repeat constructor. }
      exists Lo', Hi''. split.
      { rewrite <- Hrun. f_equal. f_equal. by list_norm. }
      split; [|done]. rewrite Hperm. by list_norm.
Qed.

(** [partition] nests two calls deep: its own and that of [swap]. *)
Lemma partition_spec f pre seg p post low high :
  low = len pre → high = len pre + len seg →
  ∃ Lo Hi,
    quickSort.partition (frames := S (S f)) (pre ++ seg ++ p :: post) low high
    = Ok (pre ++ Lo ++ p :: Hi ++ post, low + len Lo)
    ∧ Lo ++ Hi ≡ₚ seg
    ∧ Forall (λ x, lt_b x p = true) Lo
    ∧ Forall (λ x, lt_b x p = false) Hi.
Proof.
  intros Hlow Hhigh. rewrite partition_eq.
  rewrite (getitem_at _ (pre ++ seg) p post); [|by list_norm|len_solve].
  rewrite bind_Ok.
  destruct (scan_spec f p pre (p :: post) seg [] [] low high (low - 1))
    as (Lo & Hi & Hrun & Hperm & HLo & HHi); [len_solve|len_solve|len_solve|done|done|].
  cbn [app] in Hrun. rewrite Hrun, bind_Ok. cbv beta iota.
  assert (Hlen : len seg = len (Lo ++ Hi)) by (unfold len; by rewrite Hperm).
  destruct Hi as [|b Hi].
  - rewrite (exchange_at_same _ (pre ++ Lo) p post); [|by list_norm|len_solve|len_solve].
    rewrite bind_Ok. exists Lo, []. split; [|done].
    f_equal. f_equal. lia.
  - rewrite (exchange_at _ (pre ++ Lo) b Hi p post); [|by list_norm|len_solve|len_solve].
    rewrite bind_Ok. exists Lo, (Hi ++ [b]).
    apply Forall_cons in HHi as [Hb HHi].
    split; [f_equal; f_equal; [by list_norm|lia]|].
    split; [|split; [done|]].
    + rewrite <- Hperm. cbn [app]. apply Permutation_app_head.
      rewrite <- Permutation_middle. by list_norm.
    + apply Forall_app. split; [done|]. by repeat constructor.
Qed.

(** A range of [m] items is sorted when [m + 1] calls may nest: the
    recursion nests at most [m - 1] deep, and [partition] two deeper. *)
Lemma quickSort_range_spec f :
  ∀ seg pre post low high,
    (length seg < f)%nat →
    low = len pre → high = len pre + len seg - 1 →
    ∃ seg',
      quickSort.quickSort (frames := f) (pre ++ seg ++ post) low high
      = Ok (pre ++ seg' ++ post)
      ∧ seg' ≡ₚ seg ∧ sorted seg'.
Proof.
  induction f as [|f IH]; intros seg pre post low high Hf Hlow Hhigh; [lia|].
  rewrite quickSort_eq.
  destruct (decide (low < high)) as [Hlt|Hge].
  - destruct seg as [|p seg0 _] using rev_ind; [len_solve|].
    rewrite length_app in Hf. simpl in Hf.
    destruct f as [|[|f']]; [len_solve|len_solve|].
    destruct (partition_spec f' pre seg0 p post low high)
      as (Lo & Hi & Hpart & Hperm & HLo & HHi); [done|len_solve|].
    replace ((pre ++ (seg0 ++ [p]) ++ post)) with (pre ++ seg0 ++ p :: post) by (by list_norm).
    rewrite Hpart, bind_Ok. cbv beta iota.
    assert (Hlen : (length Lo + length Hi = length seg0)%nat).
    { rewrite <- length_app. by rewrite Hperm. }
    destruct (IH Lo pre (p :: Hi ++ post) low (low + len Lo - 1))
      as (Lo' & HrunL & HpermL & HsortL); [lia|done|len_solve|].
    rewrite HrunL, bind_Ok.
    destruct (IH Hi (pre ++ Lo' ++ [p]) post (low + len Lo + 1) high)
      as (Hi' & HrunH & HpermH & HsortH); [lia| |  |].
    { assert (length Lo' = length Lo) by (by rewrite HpermL). len_solve. }
    { assert (length Lo' = length Lo) by (by rewrite HpermL). len_solve. }
    exists (Lo' ++ p :: Hi'). split.
    { rewrite <- (app_assoc pre (Lo' ++ [p])) in HrunH.
      rewrite <- (app_assoc Lo' [p]) in HrunH. cbn [app] in HrunH.
      rewrite HrunH. f_equal. by list_norm. }
    split.
    { rewrite HpermL, HpermH. rewrite <- Hperm.
      rewrite <- app_assoc. apply Permutation_app_head.
      apply Permutation_cons_append. }
    apply sorted_app; [done| |].
    + constructor; [done|].
      rewrite HpermH. eapply Forall_impl; [exact HHi|].
      intros x Hx. by apply lt_b_false_le.
    + intros x y Hx Hy. rewrite HpermL in Hx.
      rewrite Forall_forall in HLo. apply HLo, lt_b_true_le in Hx.
      apply elem_of_cons in Hy as [->|Hy]; [done|].
      rewrite HpermH in Hy. rewrite Forall_forall in HHi.
      apply HHi, lt_b_false_le in Hy. by eapply le_trans.
  - exists seg. split; [done|]. split; [done|].
    destruct seg as [|x [|y seg]]; [apply sorted_nil|apply sorted_singleton|].
    exfalso. len_solve.
Qed.

Lemma quickSort_spec f arr :
  len arr + 1 ≤ Z.of_nat f →
  ∃ out, quickSort.quickSort (frames := f) arr 0 (len arr - 1) = Ok out
         ∧ out ≡ₚ arr ∧ sorted out.
Proof.
  intros Hf.
  destruct (quickSort_range_spec f arr [] [] 0 (len arr - 1))
    as (out & Hrun & Hperm & Hsorted); [unfold len in *; lia|done|len_solve|].
  exists out. rewrite app_nil_r in Hrun. by rewrite app_nil_r in Hrun.
Qed.
End quicksort_correct.

(** A run under a recursion limit is the run under any larger limit,
    unless the limit cuts it short. *)
Section quicksort_limit.
Context `{Comparable A}.
Implicit Types (arr : list A) (f : nat).

Lemma swap_mono f f' arr i j :
  (f ≤ f')%nat →
  cut_short (quickSort.swap (frames := f) arr i j)
    (quickSort.swap (frames := f') arr i j).
Proof.
  intros Hf. apply cut_short_call; [done|]. intros. apply cut_short_refl.
Qed.

Lemma scan_step_mono f f' pivot j (st : list A * Z) :
  (f ≤ f')%nat →
  cut_short (quickSort.scan_step (frames := f) pivot j st)
    (quickSort.scan_step (frames := f') pivot j st).
Proof.
  intros Hf. destruct st as [arr i]. unfold quickSort.scan_step.
  apply cut_short_bind; [apply cut_short_refl|]. intros aj.
  destruct (lt_b aj pivot); [|apply cut_short_refl].
  apply cut_short_bind; [by apply swap_mono|]. intros. apply cut_short_refl.
Qed.

Lemma partition_mono f f' arr low high :
  (f ≤ f')%nat →
  cut_short (quickSort.partition (frames := f) arr low high)
    (quickSort.partition (frames := f') arr low high).
Proof.
  intros Hf. apply cut_short_call; [done|]. intros g g' Hg.
  apply cut_short_bind; [apply cut_short_refl|]. intros pivot.
  apply cut_short_bind.
  { apply cut_short_for_each. intros. by apply scan_step_mono. }
  intros [arr1 i]. apply cut_short_bind; [by apply swap_mono|].
  intros. apply cut_short_refl.
Qed.

Lemma quickSort_mono f :
  ∀ f' arr low high,
    (f ≤ f')%nat →
    cut_short (quickSort.quickSort (frames := f) arr low high)
      (quickSort.quickSort (frames := f') arr low high).
Proof.
  induction f as [|f IH]; intros f' arr low high Hf; [apply cut_short_raise|].
  destruct f' as [|f']; [lia|]. rewrite !quickSort_eq.
  destruct (decide (low < high)); [|apply cut_short_refl].
  apply cut_short_bind; [apply partition_mono; lia|]. intros [arr1 pi].
  apply cut_short_bind; [apply IH; lia|]. intros arr2. apply IH. lia.
Qed.
End quicksort_limit.

(** ** The quicksort recorder follows quickSort.py *)

Section access_facts.
Context {A : Type}.
Implicit Types (arr : list A) (x y : A) (i j : Z).

Lemma getitem_inv arr i x :
  getitem arr i = Ok x → ∃ k, py_index (len arr) i = Ok k ∧ arr !! k = Some x.
Proof.
  unfold getitem. intros Hget. apply bind_Ok_inv in Hget as (k & Hk & Hget).
  exists k. split; [done|]. destruct (arr !! k); congruence.
Qed.

Lemma getitem_fwd arr i k x :
  py_index (len arr) i = Ok k → arr !! k = Some x → getitem arr i = Ok x.
Proof. intros Hk Hx. unfold getitem. by rewrite Hk, bind_Ok, Hx. Qed.

Lemma py_index_lt n i k : py_index n i = Ok k → (Z.of_nat k < n).
Proof.
  unfold py_index. repeat case_decide; intros [= <-]; lia.
Qed.

Lemma getitem_same_len arr arr' i x :
  len arr' = len arr → getitem arr i = Ok x → ∃ y, getitem arr' i = Ok y.
Proof.
  intros Hlen Hget. apply getitem_inv in Hget as (k & Hk & Hx).
  destruct (lookup_lt_is_Some_2 arr' k) as [y Hy].
  { apply py_index_lt in Hk. unfold len in *. lia. }
  exists y. apply (getitem_fwd _ _ k); [by rewrite Hlen|done].
Qed.

Lemma setitem_inv arr i x arr' :
  setitem arr i x = Ok arr' →
  ∃ k, py_index (len arr) i = Ok k ∧ arr' = <[k := x]> arr.
Proof.
  unfold setitem. intros Hset. apply bind_Ok_inv in Hset as (k & Hk & [= <-]).
  by exists k.
Qed.

Lemma setitem_len arr i x arr' : setitem arr i x = Ok arr' → len arr' = len arr.
Proof. intros (k & _ & ->)%setitem_inv. apply len_insert. Qed.

Lemma exchange_inv arr i j arr' :
  exchange arr i j = Ok arr' →
  ∃ vi vj arr1, getitem arr j = Ok vj ∧ getitem arr i = Ok vi
                ∧ setitem arr i vj = Ok arr1 ∧ setitem arr1 j vi = Ok arr'.
Proof.
  unfold exchange. intros Hx.
  apply bind_Ok_inv in Hx as (vj & Hvj & Hx).
  apply bind_Ok_inv in Hx as (vi & Hvi & Hx).
  apply bind_Ok_inv in Hx as (arr1 & Harr1 & Hx).
  by exists vi, vj, arr1.
Qed.

Lemma exchange_len arr i j arr' : exchange arr i j = Ok arr' → len arr' = len arr.
Proof.
  intros (vi & vj & arr1 & _ & _ & H1 & H2)%exchange_inv.
  apply setitem_len in H1, H2. lia.
Qed.

Lemma exchange_self arr i arr' : exchange arr i i = Ok arr' → arr' = arr.
Proof.
  intros (vi & vj & arr1 & Hj & Hi & H1 & H2)%exchange_inv.
  assert (vi = vj) as -> by congruence.
  apply getitem_inv in Hi as (k & Hk & Hx).
  apply setitem_inv in H1 as (k1 & Hk1 & ->).
  apply setitem_inv in H2 as (k2 & Hk2 & ->).
  rewrite len_insert in Hk2.
  assert (k1 = k) as -> by congruence. assert (k2 = k) as -> by congruence.
  rewrite (list_insert_id _ _ _ Hx). by rewrite (list_insert_id _ _ _ Hx).
Qed.
End access_facts.

Section quicksort_recorder.
Context `{Comparable A}.
Implicit Types (arr data : list A) (events evs : list (quicksort_animation.event A))
  (ss : gset Z).

Lemma replay_quicksort_app evs1 evs2 arr :
  replay.quicksort (evs1 ++ evs2) arr
  = replay.quicksort evs1 arr ≫= replay.quicksort evs2.
Proof. apply for_each_app. Qed.

Lemma push_eq f (ev : list A → quicksort_animation.event A) data events ss :
  quicksort_animation.push (frames := S f) ev (data, events, ss)
  = Ok (data, events ++ [ev data], ss).
Proof. reflexivity. Qed.

Lemma qs_eq f lo hi (s : list A * list (quicksort_animation.event A) * gset Z) :
  quicksort_animation.qs (frames := S f) lo hi s =
  if decide (lo < hi) then
    quicksort_animation.partition (frames := f) lo hi s ≫= λ '(s, pi),
    quicksort_animation.qs (frames := f) lo (pi - 1) s ≫= λ s,
    quicksort_animation.qs (frames := f) (pi + 1) hi s
  else if decide (lo = hi) then
    let '(data, events, sorted_set) := s in
    let sorted_set := {[ lo ]} ∪ sorted_set in
    getitem data lo ≫= λ dlo,
    quicksort_animation.push (frames := f) (λ d,
      quicksort_animation.SortedIdx d lo hi lo sorted_set
        (Msg "Single element  {data[lo]}  is already sorted ✓" [Val dlo]))
      (data, events, sorted_set)
  else Ok s.
Proof. reflexivity. Qed.

Lemma scan_step_sim f pivot j arr i arr' i' lo hi events ss :
  quickSort.scan_step (frames := S f) pivot j (arr, i) = Ok (arr', i') →
  ∃ evs,
    quicksort_animation.scan_step (frames := S f) lo hi pivot j ((arr, events, ss), i)
    = Ok ((arr', events ++ evs, ss), i')
    ∧ replay.quicksort evs arr = Ok arr'
    ∧ Forall distinct_swap evs.
Proof.
  rewrite scan_step_eq. intros Hstep.
  apply bind_Ok_inv in Hstep as (aj & Haj & Hstep).
  unfold quicksort_animation.scan_step. cbn [fst snd].
  rewrite Haj, !bind_Ok, push_eq, bind_Ok. cbn [fst snd]. rewrite Haj, bind_Ok.
  destruct (lt_b aj pivot).
  - apply bind_Ok_inv in Hstep as (arr1 & Hswap & [= <- <-]).
    destruct (decide (i + 1 ≠ j)) as [Hne|Heq].
    + destruct (exchange_inv _ _ _ _ Hswap) as (vi & vj & ? & Hvj & Hvi & _).
      rewrite Hvi, !bind_Ok, push_eq, bind_Ok. cbv beta iota.
      rewrite Hswap, bind_Ok.
      eexists. split; [by rewrite <- app_assoc|].
      split; [|by repeat constructor].
      unfold replay.quicksort. cbn. by rewrite Hswap.
    + apply dec_stable in Heq. rewrite Heq in Hswap.
      apply exchange_self in Hswap as ->.
      eexists. split; [done|]. split; [done|by repeat constructor].
  - injection Hstep as <- <-.
    eexists. split; [done|]. split; [done|by repeat constructor].
Qed.

Lemma scan_sim f pivot lo hi js :
  ∀ arr i arr' i' events ss,
    for_each js (quickSort.scan_step (frames := S f) pivot) (arr, i) = Ok (arr', i') →
    ∃ evs,
      for_each js (quicksort_animation.scan_step (frames := S f) lo hi pivot)
        ((arr, events, ss), i)
      = Ok ((arr', events ++ evs, ss), i')
      ∧ replay.quicksort evs arr = Ok arr'
      ∧ Forall distinct_swap evs.
Proof.
  induction js as [|j js IH]; intros arr i arr' i' events ss Hrun.
  - injection Hrun as <- <-. exists []. by rewrite app_nil_r.
  - cbn [for_each] in *.
    apply bind_Ok_inv in Hrun as ([arr1 i1] & Hstep & Hrun).
    destruct (scan_step_sim _ _ _ _ _ _ _ lo hi events ss Hstep)
      as (evs1 & -> & Hrep1 & Hd1).
    rewrite bind_Ok.
    destruct (IH _ _ _ _ (events ++ evs1) ss Hrun) as (evs2 & -> & Hrep2 & Hd2).
    exists (evs1 ++ evs2). split; [by rewrite app_assoc|].
    split; [|by apply Forall_app].
    by rewrite replay_quicksort_app, Hrep1.
Qed.

Lemma scan_bounds f pivot js :
  ∀ arr i arr' i',
    for_each js (quickSort.scan_step (frames := S f) pivot) (arr, i) = Ok (arr', i') →
    i ≤ i' ≤ i + len js ∧ len arr' = len arr.
Proof.
  induction js as [|j js IH]; intros arr i arr' i' Hrun.
  - injection Hrun as <- <-. rewrite len_nil. lia.
  - cbn [for_each] in Hrun.
    apply bind_Ok_inv in Hrun as ([arr1 i1] & Hstep & Hrun).
    apply IH in Hrun as [Hi Hlen]. rewrite len_cons.
    rewrite scan_step_eq in Hstep.
    apply bind_Ok_inv in Hstep as (aj & _ & Hstep).
    destruct (lt_b aj pivot).
    + apply bind_Ok_inv in Hstep as (arr2 & Hswap & [= <- <-]).
      apply exchange_len in Hswap. lia.
    + injection Hstep as <- <-. lia.
Qed.

Lemma len_range a b : a ≤ b → len (range a b) = b - a.
Proof. intros Hab. unfold len, range. rewrite length_seqZ. lia. Qed.

(** A [partition] that returns has nested two calls deep. *)
Lemma partition_frames f arr lo hi arr' pi :
  quickSort.partition (frames := f) arr lo hi = Ok (arr', pi) → (2 ≤ f)%nat.
Proof.
  destruct f as [|[|f]]; [discriminate| |lia].
  unfold quickSort.partition. rewrite call_S. intros Hpart.
  apply bind_Ok_inv in Hpart as (pivot & _ & Hpart).
  apply bind_Ok_inv in Hpart as ([arr1 i] & _ & Hpart).
  by apply bind_Ok_inv in Hpart as (arr2 & Hswap & _).
Qed.

Lemma partition_bounds f arr lo hi arr' pi :
  quickSort.partition (frames := f) arr lo hi = Ok (arr', pi) → lo ≤ hi →
  lo ≤ pi ≤ hi ∧ len arr' = len arr.
Proof.
  intros Hpart Hlohi. pose proof (partition_frames _ _ _ _ _ _ Hpart).
  destruct f as [|[|f]]; [lia..|]. rewrite partition_eq in Hpart.
  apply bind_Ok_inv in Hpart as (pivot & _ & Hpart).
  apply bind_Ok_inv in Hpart as ([arr1 i] & Hscan & Hpart).
  apply bind_Ok_inv in Hpart as (arr2 & Hswap & [= <- <-]).
  apply scan_bounds in Hscan as [Hi Hlen]. rewrite len_range in Hi by done.
  apply exchange_len in Hswap. lia.
Qed.

Lemma partition_sim f arr lo hi arr' pi events ss :
  quickSort.partition (frames := f) arr lo hi = Ok (arr', pi) →
  ∃ evs,
    quicksort_animation.partition (frames := f) lo hi (arr, events, ss)
    = Ok ((arr', events ++ evs, {[ pi ]} ∪ ss), pi)
    ∧ replay.quicksort evs arr = Ok arr'
    ∧ Forall distinct_swap evs.
Proof.
  intros Hpart. pose proof (partition_frames _ _ _ _ _ _ Hpart).
  destruct f as [|[|f]]; [lia..|]. rewrite partition_eq in Hpart.
  apply bind_Ok_inv in Hpart as (pivot & Hpivot & Hpart).
  apply bind_Ok_inv in Hpart as ([arr1 i] & Hscan & Hpart).
  apply bind_Ok_inv in Hpart as (arr2 & Hswap & [= <- <-]).
  unfold quicksort_animation.partition. rewrite call_S. cbn [fst snd].
  rewrite Hpivot, bind_Ok, push_eq, bind_Ok. cbv beta iota zeta.
  match goal with
  | |- context [for_each _ _ (_, ?ev, _, _)] =>
      destruct (scan_sim f pivot lo hi _ _ _ _ _ ev ss Hscan)
        as (evs1 & -> & Hrep1 & Hd1)
  end.
  rewrite bind_Ok. cbv beta iota. cbn [fst snd].
  destruct (exchange_inv _ _ _ _ Hswap) as (vi & vj & ? & Hvj & Hvi & _).
  destruct (getitem_same_len arr1 arr2 (i + 1) vi) as [dpi Hdpi];
    [by apply exchange_len in Hswap|done|].
  destruct (decide (i + 1 ≠ hi)) as [Hne|Heq].
  - rewrite Hvj, bind_Ok, push_eq, bind_Ok. cbv beta iota.
    rewrite Hswap, !bind_Ok. cbv beta iota.
    rewrite Hdpi, bind_Ok, push_eq, bind_Ok.
    eexists. split; [by rewrite <- !app_assoc|].
    split.
    + cbn [app]. unfold replay.quicksort in *.
      cbn [for_each replay.quicksort_record]. rewrite bind_Ok.
      rewrite for_each_app, Hrep1, bind_Ok. cbn. by rewrite Hswap.
    + constructor; [done|]. apply Forall_app. split; [done|].
      by repeat constructor.
  - apply dec_stable in Heq. rewrite Heq in Hswap.
    apply exchange_self in Hswap as ->.
    rewrite bind_Ok. cbv beta iota. rewrite Hdpi, bind_Ok, push_eq, bind_Ok.
    eexists. split; [by rewrite <- !app_assoc|].
    split.
    + cbn [app]. unfold replay.quicksort in *.
      cbn [for_each replay.quicksort_record]. rewrite bind_Ok.
      rewrite for_each_app, Hrep1, bind_Ok. done.
    + constructor; [done|]. apply Forall_app. split; [done|].
      by repeat constructor.
Qed.

(** The recorder follows a run of [quickSort] that returns, under the
    same limit: [partition] nests two calls deep in both, and the
    record of a single element takes a call of [push]. *)
Lemma qs_sim f :
  ∀ lo hi arr out events ss,
    (2 ≤ f)%nat → 0 ≤ lo → hi < len arr →
    quickSort.quickSort (frames := f) arr lo hi = Ok out →
    ∃ evs ss',
      quicksort_animation.qs (frames := f) lo hi (arr, events, ss)
      = Ok (out, events ++ evs, ss')
      ∧ replay.quicksort evs arr = Ok out
      ∧ Forall distinct_swap evs
      ∧ len out = len arr.
Proof.
  induction f as [|f IH]; intros lo hi arr out events ss Hf Hlo Hhi Hrun; [lia|].
  rewrite quickSort_eq in Hrun. rewrite qs_eq.
  destruct (decide (lo < hi)) as [Hlt|].
  - apply bind_Ok_inv in Hrun as ([arr1 pi] & Hpart & Hrun).
    apply bind_Ok_inv in Hrun as (arr2 & HrunL & HrunR).
    pose proof (partition_frames _ _ _ _ _ _ Hpart) as Hf'.
    destruct (partition_bounds _ _ _ _ _ _ Hpart) as [Hpi Hlen1]; [lia|].
    destruct (partition_sim _ _ _ _ _ _ events ss Hpart) as (evs1 & -> & Hrep1 & Hd1).
    rewrite bind_Ok. cbv beta iota.
    destruct (IH lo (pi - 1) arr1 arr2 (events ++ evs1) ({[pi]} ∪ ss) Hf' Hlo ltac:(lia) HrunL)
      as (evs2 & ss2 & -> & Hrep2 & Hd2 & Hlen2).
    rewrite bind_Ok.
    destruct (IH (pi + 1) hi arr2 out ((events ++ evs1) ++ evs2) ss2 Hf' ltac:(lia) ltac:(lia) HrunR)
      as (evs3 & ss3 & -> & Hrep3 & Hd3 & Hlen3).
    exists (evs1 ++ evs2 ++ evs3), ss3.
    split; [by rewrite !app_assoc|].
    split; [|split; [by repeat (apply Forall_app; split)|lia]].
    by rewrite replay_quicksort_app, Hrep1, bind_Ok, replay_quicksort_app, Hrep2, bind_Ok.
  - injection Hrun as <-.
    destruct (decide (lo = hi)) as [->|].
    + destruct (lookup_lt_is_Some_2 arr (Z.to_nat hi)) as [x Hx]; [unfold len in *; lia|].
      cbv zeta. rewrite (getitem_lookup _ _ x), bind_Ok by done.
      destruct f as [|f]; [lia|]. rewrite push_eq.
      eexists _, _. split; [reflexivity|]. split; [done|]. split; [|done].
      by repeat constructor.
    + exists [], ss. rewrite app_nil_r. by repeat split.
Qed.

Lemma run_sim f arr out :
  (2 ≤ f)%nat →
  quickSort.quickSort (frames := f) arr 0 (len arr - 1) = Ok out →
  ∃ events,
    quicksort_animation.run (frames := S f) arr = Ok (out, events)
    ∧ replay.quicksort events arr = Ok out
    ∧ Forall distinct_swap events.
Proof.
  intros Hf Hrun.
  destruct (qs_sim _ 0 (len arr - 1) arr out [] ∅ Hf ltac:(done) ltac:(lia) Hrun)
    as (evs & ss & Hqs & Hrep & Hd & _).
  unfold quicksort_animation.run. rewrite call_S. cbv zeta. rewrite Hqs, bind_Ok.
  destruct f as [|f]; [lia|]. rewrite push_eq, bind_Ok. cbn.
  eexists. split; [done|]. split.
  - by rewrite replay_quicksort_app, Hrep.
  - apply Forall_app. split; [done|]. by repeat constructor.
Qed.
End quicksort_recorder.

(** The list operations raise nothing but [IndexError]. *)
Section index_error_only.
Context {A : Type}.
Implicit Types (arr : list A) (i j : Z).

Lemma py_index_raise n i e : py_index n i = Raise e → e = IndexError.
Proof. unfold py_index. repeat case_decide; congruence. Qed.

Lemma getitem_raise arr i e : getitem arr i = Raise e → e = IndexError.
Proof.
  unfold getitem. destruct (py_index (len arr) i) as [k|e'] eqn:Hk; cbn.
  - destruct (arr !! k); congruence.
  - intros [= <-]. by eapply py_index_raise.
Qed.

Lemma setitem_raise arr i x e : setitem arr i x = Raise e → e = IndexError.
Proof.
  unfold setitem. destruct (py_index (len arr) i) as [k|e'] eqn:Hk; cbn; [done|].
  intros [= <-]. by eapply py_index_raise.
Qed.

Lemma exchange_raise arr i j e : exchange arr i j = Raise e → e = IndexError.
Proof.
  unfold exchange.
  destruct (getitem arr j) as [vj|e1] eqn:Hj; cbn;
    [|intros [= <-]; by eapply getitem_raise].
  destruct (getitem arr i) as [vi|e2] eqn:Hi; cbn;
    [|intros [= <-]; by eapply getitem_raise].
  destruct (setitem arr i vj) as [arr1|e3] eqn:H1; cbn;
    [|intros [= <-]; by eapply setitem_raise].
  apply setitem_raise.
Qed.
End index_error_only.

Section quicksort_recorder_limit.
Context `{Comparable A}.
Implicit Types (arr data : list A) (events evs : list (quicksort_animation.event A))
  (ss : gset Z) (f : nat)
  (s : list A * list (quicksort_animation.event A) * gset Z).

Lemma push_mono f f' (ev : list A → quicksort_animation.event A) s :
  (f ≤ f')%nat →
  cut_short (quicksort_animation.push (frames := f) ev s)
    (quicksort_animation.push (frames := f') ev s).
Proof.
  intros Hf. apply cut_short_call; [done|]. intros. apply cut_short_refl.
Qed.

Lemma recorder_scan_step_mono f f' lo hi pivot j (st : _ * Z) :
  (f ≤ f')%nat →
  cut_short (quicksort_animation.scan_step (frames := f) lo hi pivot j st)
    (quicksort_animation.scan_step (frames := f') lo hi pivot j st).
Proof.
  intros Hf. destruct st as [s i]. unfold quicksort_animation.scan_step.
  apply cut_short_bind; [apply cut_short_refl|]. intros dj.
  apply cut_short_bind; [by apply push_mono|]. intros s1.
  apply cut_short_bind; [apply cut_short_refl|]. intros dj'.
  destruct (lt_b dj' pivot); [|apply cut_short_refl].
  cbv zeta. case_decide; [|apply cut_short_refl].
  apply cut_short_bind; [apply cut_short_refl|]. intros di.
  apply cut_short_bind; [apply cut_short_refl|]. intros dj''.
  apply cut_short_bind; [by apply push_mono|]. intros. apply cut_short_refl.
Qed.

Lemma recorder_partition_mono f f' lo hi s :
  (f ≤ f')%nat →
  cut_short (quicksort_animation.partition (frames := f) lo hi s)
    (quicksort_animation.partition (frames := f') lo hi s).
Proof.
  intros Hf. apply cut_short_call; [done|]. intros g g' Hg.
  apply cut_short_bind; [apply cut_short_refl|]. intros pivot.
  apply cut_short_bind; [by apply push_mono|]. intros s1. cbv zeta.
  apply cut_short_bind.
  { apply cut_short_for_each. intros. by apply recorder_scan_step_mono. }
  intros [s2 i]. apply cut_short_bind.
  { case_decide; [|apply cut_short_refl].
    apply cut_short_bind; [apply cut_short_refl|]. intros dhi.
    apply cut_short_bind; [by apply push_mono|]. intros. apply cut_short_refl. }
  intros [[data events] ss].
  apply cut_short_bind; [apply cut_short_refl|]. intros dpi.
  apply cut_short_bind; [by apply push_mono|]. intros. apply cut_short_refl.
Qed.

Lemma qs_mono f :
  ∀ f' lo hi s,
    (f ≤ f')%nat →
    cut_short (quicksort_animation.qs (frames := f) lo hi s)
      (quicksort_animation.qs (frames := f') lo hi s).
Proof.
  induction f as [|f IH]; intros f' lo hi s Hf; [apply cut_short_raise|].
  destruct f' as [|f']; [lia|]. rewrite !qs_eq.
  destruct (decide (lo < hi)).
  - apply cut_short_bind; [apply recorder_partition_mono; lia|]. intros [s1 pi].
    apply cut_short_bind; [apply IH; lia|]. intros s2. apply IH. lia.
  - case_decide; [|apply cut_short_refl]. destruct s as [[data events] ss].
    cbv zeta. apply cut_short_bind; [apply cut_short_refl|]. intros dlo.
    apply push_mono. lia.
Qed.

Lemma run_mono f f' arr :
  (f ≤ f')%nat →
  cut_short (quicksort_animation.run (frames := f) arr)
    (quicksort_animation.run (frames := f') arr).
Proof.
  intros Hf. apply cut_short_call; [done|]. intros g g' Hg. cbv zeta.
  apply cut_short_bind; [by apply qs_mono|]. intros s.
  apply cut_short_bind; [by apply push_mono|]. intros. apply cut_short_refl.
Qed.

Lemma record_events_mono f f' arr :
  (f ≤ f')%nat →
  cut_short (quicksort_animation.record_events (frames := f) arr)
    (quicksort_animation.record_events (frames := f') arr).
Proof.
  intros Hf. apply cut_short_bind; [by apply run_mono|].
  intros. apply cut_short_refl.
Qed.

Lemma record_events_run f arr events :
  quicksort_animation.record_events (frames := f) arr = Ok events →
  ∃ out, quicksort_animation.run (frames := f) arr = Ok (out, events).
Proof.
  unfold quicksort_animation.record_events. intros Hrec.
  apply bind_Ok_inv in Hrec as ([out evs] & Hrun & [= <-]). by exists out.
Qed.

(** With two calls left, [partition] of quickSort.py does not reach the
    limit. *)
Lemma scan_no_limit f pivot js :
  ∀ (st : list A * Z),
    for_each js (quickSort.scan_step (frames := S f) pivot) st
    ≠ Raise RecursionError.
Proof.
  induction js as [|j js IH]; intros [arr i]; cbn [for_each]; [done|].
  rewrite scan_step_eq.
  destruct (getitem arr j) as [aj|e] eqn:Hj; cbn;
    [|intros [= ->]; by apply getitem_raise in Hj].
  destruct (lt_b aj pivot); [|apply IH].
  destruct (exchange arr (i + 1) j) as [arr1|e] eqn:Hx; cbn; [apply IH|].
  intros [= ->]. by apply exchange_raise in Hx.
Qed.

Lemma partition_no_limit f arr lo hi :
  quickSort.partition (frames := S (S f)) arr lo hi ≠ Raise RecursionError.
Proof.
  rewrite partition_eq.
  destruct (getitem arr hi) as [pivot|e] eqn:Hp; cbn;
    [|intros [= ->]; by apply getitem_raise in Hp].
  destruct (for_each _ _ _) as [[arr1 i]|e] eqn:Hscan; cbn;
    [|intros [= ->]; by apply scan_no_limit in Hscan].
  destruct (exchange arr1 (i + 1) hi) as [arr2|e] eqn:Hx; cbn; [done|].
  intros [= ->]. by apply exchange_raise in Hx.
Qed.

(** The recorder's [partition] reaches the limit whenever that of
    quickSort.py does. *)
Lemma partition_needs f arr lo hi events ss :
  quicksort_animation.partition (frames := f) lo hi (arr, events, ss)
    ≠ Raise RecursionError →
  quickSort.partition (frames := f) arr lo hi ≠ Raise RecursionError.
Proof.
  destruct f as [|[|f]]; [done| |intros _; apply partition_no_limit].
  unfold quicksort_animation.partition, quickSort.partition. rewrite !call_S.
  cbn [fst snd].
  destruct (getitem arr hi) as [pivot|e] eqn:Hp; cbn; [done|].
  intros _ [= ->]. by apply getitem_raise in Hp.
Qed.

(** The recorder reaches the limit whenever [quickSort] does: a run of
    the recorder that returns is one on which [quickSort] returns. *)
Lemma qs_needs f :
  ∀ lo hi arr events ss,
    0 ≤ lo → hi < len arr →
    quicksort_animation.qs (frames := f) lo hi (arr, events, ss)
      ≠ Raise RecursionError →
    quickSort.quickSort (frames := f) arr lo hi ≠ Raise RecursionError.
Proof.
  induction f as [|f IH]; intros lo hi arr events ss Hlo Hhi; [done|].
  rewrite qs_eq, quickSort_eq.
  destruct (decide (lo < hi)) as [Hlt|]; [|done].
  intros Hqs.
  destruct (quickSort.partition (frames := f) arr lo hi) as [[arr1 pi]|e] eqn:Hpart.
  - pose proof (partition_frames _ _ _ _ _ _ Hpart) as Hf.
    destruct (partition_bounds _ _ _ _ _ _ Hpart) as [Hpi Hlen1]; [lia|].
    destruct (partition_sim _ _ _ _ _ _ events ss Hpart) as (evs1 & Hrec & _).
    rewrite Hrec, bind_Ok in Hqs. rewrite bind_Ok. cbv beta iota in *.
    destruct (quickSort.quickSort (frames := f) arr1 lo (pi - 1)) as [arr2|e] eqn:HrunL.
    + destruct (qs_sim f lo (pi - 1) arr1 arr2 (events ++ evs1) ({[pi]} ∪ ss)
                  Hf Hlo ltac:(lia) HrunL) as (evs2 & ss2 & HrecL & _ & _ & Hlen2).
      rewrite HrecL, bind_Ok in Hqs. rewrite bind_Ok.
      eapply IH; [| |exact Hqs]; lia.
    + cbn. intros [= ->].
      eapply (IH lo (pi - 1) arr1); [done|lia| |exact HrunL].
      intros Hrec'. by rewrite Hrec' in Hqs.
  - cbn. intros [= ->].
    eapply partition_needs; [|exact Hpart].
    intros Hrec. by rewrite Hrec in Hqs.
Qed.
End quicksort_recorder_limit.

Section quicksort_recorder_returns.
Context `{ComparableLaws A}.
Implicit Types (arr : list A) (f : nat).

(** A call of the recorder that returns: [quickSort], called under the
    same limit, returns as well, and the log replays the input into its
    result. *)
Lemma run_returns f arr out events :
  quicksort_animation.run (frames := f) arr = Ok (out, events) →
  quickSort.quickSort (frames := f) arr 0 (len arr - 1) = Ok out
  ∧ out ≡ₚ arr ∧ sorted out
  ∧ replay.quicksort events arr = Ok out
  ∧ Forall distinct_swap events.
Proof.
  intros Hrun.
  destruct f as [|f]; [discriminate|].
  pose proof Hrun as Hbody.
  unfold quicksort_animation.run in Hbody. rewrite call_S in Hbody. cbv zeta in Hbody.
  apply bind_Ok_inv in Hbody as (s & Hqs & _).
  set (g := (f + Z.to_nat (len arr) + 2)%nat).
  destruct (quickSort_spec g arr) as (out' & Hplain & Hperm & Hsorted);
    [unfold g, len; lia|].
  assert (Hf : quickSort.quickSort (frames := f) arr 0 (len arr - 1) = Ok out').
  { rewrite <- Hplain. apply cut_short_same; [apply quickSort_mono; unfold g; lia|].
    eapply qs_needs; [done|lia|]. by rewrite Hqs. }
  destruct (run_sim g arr out' ltac:(unfold g; lia) Hplain) as (events' & Hrun' & Hrep & Hd).
  pose proof (cut_short_Ok _ _ _ (run_mono (S f) (S g) arr ltac:(unfold g; lia)) Hrun) as Hrun''.
  rewrite Hrun' in Hrun''. injection Hrun'' as <- <-.
  split; [|done].
  eapply cut_short_Ok; [|exact Hf]. apply quickSort_mono. lia.
Qed.
End quicksort_recorder_returns.

Section quicksort_outcomes.
Context `{ComparableLaws A}.

(** Under any limit [quickSort] sorts the list or reaches the limit. *)
Lemma quickSort_outcome f (arr : list A) :
  quickSort.quickSort (frames := f) arr 0 (len arr - 1) = Raise RecursionError
  ∨ ∃ out, quickSort.quickSort (frames := f) arr 0 (len arr - 1) = Ok out
           ∧ out ≡ₚ arr ∧ sorted out.
Proof.
  set (g := (f + Z.to_nat (len arr) + 1)%nat).
  destruct (quickSort_spec g arr) as (out & Hrun & Hperm & Hsorted);
    [unfold g, len; lia|].
  destruct (quickSort_mono f g arr 0 (len arr - 1) ltac:(unfold g; lia))
    as [Hcut|Hsame]; [by left|].
  right. exists out. by rewrite Hsame.
Qed.
End quicksort_outcomes.

(** ** heapSort.py sorts *)

Section exchange_index.
Context {A : Type}.
Implicit Types (arr : list A) (x y : A) (i j : Z).

Lemma getitem_nonneg arr i :
  0 ≤ i < len arr → ∃ x, getitem arr i = Ok x ∧ arr !! Z.to_nat i = Some x.
Proof.
  intros Hi. destruct (lookup_lt_is_Some_2 arr (Z.to_nat i)) as [x Hx];
    [unfold len in *; lia|].
  exists x. split; [|done]. apply getitem_lookup; [lia|done].
Qed.

Lemma getitem_nonneg_inv arr i x :
  0 ≤ i → getitem arr i = Ok x → arr !! Z.to_nat i = Some x.
Proof.
  intros Hi (k & Hk & Hx)%getitem_inv. unfold py_index in Hk.
  repeat case_decide; try lia; try done. by injection Hk as <-.
Qed.

Lemma split_two arr (i j : nat) x y :
  (i < j)%nat → arr !! i = Some x → arr !! j = Some y →
  ∃ l1 l2 l3, arr = l1 ++ x :: l2 ++ y :: l3
              ∧ length l1 = i ∧ length (l1 ++ x :: l2) = j.
Proof.
  intros Hij Hx Hy.
  apply list_elem_of_split_length in Hy as (l12 & l3 & -> & ->).
  rewrite lookup_app_l in Hx by done.
  apply list_elem_of_split_length in Hx as (l1 & l2 & -> & ->).
  exists l1, l2, l3. by rewrite <- app_assoc.
Qed.

Lemma exchange_nonneg arr i j x y :
  0 ≤ i → 0 ≤ j →
  arr !! Z.to_nat i = Some x → arr !! Z.to_nat j = Some y →
  exchange arr i j = Ok (<[Z.to_nat j := x]> (<[Z.to_nat i := y]> arr)).
Proof.
  intros Hi Hj Hx Hy. unfold exchange.
  rewrite (getitem_lookup _ _ _ Hj Hy), bind_Ok.
  rewrite (getitem_lookup _ _ _ Hi Hx), bind_Ok.
  apply lookup_lt_Some in Hx, Hy.
  rewrite setitem_nonneg by (unfold len; lia). rewrite bind_Ok.
  rewrite setitem_nonneg by (rewrite len_insert; unfold len; lia). done.
Qed.

Lemma exchange_perm arr i j arr' :
  0 ≤ i → 0 ≤ j → exchange arr i j = Ok arr' → arr' ≡ₚ arr.
Proof.
  intros Hi Hj Hx.
  destruct (exchange_inv _ _ _ _ Hx) as (vi & vj & _ & Hvj & Hvi & _).
  apply getitem_nonneg_inv in Hvj, Hvi; [|lia..].
  destruct (Z.lt_trichotomy i j) as [Hlt|[->|Hgt]].
  - destruct (split_two arr (Z.to_nat i) (Z.to_nat j) vi vj) as (l1 & l2 & l3 & -> & H1 & H2);
      [lia|done|done|].
    rewrite (exchange_split l1 vi l2 vj l3) in Hx.
    + injection Hx as <-. apply Permutation_app_head.
      rewrite <- !Permutation_middle. apply perm_swap.
    + unfold len. lia.
    + rewrite length_app in H2. simpl in H2. unfold len. lia.
  - by apply exchange_self in Hx as ->.
  - destruct (split_two arr (Z.to_nat j) (Z.to_nat i) vj vi) as (l1 & l2 & l3 & -> & H1 & H2);
      [lia|done|done|].
    rewrite (exchange_split_rev l1 vj l2 vi l3 j i) in Hx.
    + injection Hx as <-. apply Permutation_app_head.
      rewrite <- !Permutation_middle. apply perm_swap.
    + unfold len. lia.
    + rewrite length_app in H2. simpl in H2. unfold len. lia.
Qed.

(** What an exchange of two valid positions does to every position. *)
Lemma exchange_spec arr i j x y :
  0 ≤ i → 0 ≤ j →
  arr !! Z.to_nat i = Some x → arr !! Z.to_nat j = Some y →
  ∃ arr',
    exchange arr i j = Ok arr'
    ∧ arr' ≡ₚ arr
    ∧ length arr' = length arr
    ∧ arr' !! Z.to_nat i = Some y
    ∧ arr' !! Z.to_nat j = Some x
    ∧ ∀ k : nat, k ≠ Z.to_nat i → k ≠ Z.to_nat j → arr' !! k = arr !! k.
Proof.
  intros Hi Hj Hx Hy.
  pose proof (exchange_nonneg _ _ _ _ _ Hi Hj Hx Hy) as Hex.
  eexists. split; [exact Hex|].
  split; [by apply (exchange_perm arr i j)|].
  pose proof (lookup_lt_Some _ _ _ Hx). pose proof (lookup_lt_Some _ _ _ Hy).
  split; [by rewrite !length_insert|].
  split.
  { destruct (decide (Z.to_nat i = Z.to_nat j)) as [E|NE].
    - rewrite E in *. rewrite list_lookup_insert_eq by (by rewrite length_insert).
      congruence.
    - rewrite list_lookup_insert_ne by done. by rewrite list_lookup_insert_eq. }
  split.
  { by rewrite list_lookup_insert_eq by (by rewrite length_insert). }
  intros k Hki Hkj. by rewrite !list_lookup_insert_ne.
Qed.
End exchange_index.

Section heapsort_correct.
Context `{ComparableLaws A}.
Implicit Types (arr : list A) (n i k c : Z).

(** The two tests of [heapify] select a position holding a largest
    value among the node and its children below [n]. *)
Lemma largest_spec arr n i vi :
  0 ≤ i < n → n ≤ len arr → arr !! Z.to_nat i = Some vi →
  ∃ g vg,
    (heapSort.pick_larger arr n (2 * i + 1) i
       ≫= heapSort.pick_larger arr n (2 * i + 2)) = Ok g
    ∧ arr !! Z.to_nat g = Some vg
    ∧ (g = i ∨ (child i g ∧ g < n))
    ∧ le vi vg
    ∧ ∀ c vc, child i c → c < n → arr !! Z.to_nat c = Some vc → le vc vg.
Proof.
  intros Hi Hn Hvi.
  assert (Hget : getitem arr i = Ok vi) by (apply getitem_lookup; [lia|done]).
  assert (Hstep : ∀ c g vg, 0 ≤ g → 0 ≤ c → arr !! Z.to_nat g = Some vg →
    ∃ g' vg', heapSort.pick_larger arr n c g = Ok g'
      ∧ arr !! Z.to_nat g' = Some vg'
      ∧ (g' = g ∨ (g' = c ∧ c < n))
      ∧ le vg vg'
      ∧ (c < n → ∀ vc, arr !! Z.to_nat c = Some vc → le vc vg')).
  { intros c g vg Hg Hc Hvg. unfold heapSort.pick_larger.
    destruct (decide (c < n)) as [Hcn|Hcn].
    - destruct (getitem_nonneg arr c) as (vc & Hgc & Hvc); [lia|].
      rewrite Hgc, bind_Ok, (getitem_lookup _ _ _ Hg Hvg), bind_Ok.
      destruct (gt_b vc vg) eqn:Hcmp.
      + exists c, vc. split; [done|]. split; [done|]. split; [by right|].
        split; [by apply gt_b_true_le|].
        intros _ vc' Hvc'. assert (vc' = vc) as -> by congruence. apply le_refl.
      + exists g, vg. split; [done|]. split; [done|]. split; [by left|].
        split; [apply le_refl|].
        intros _ vc' Hvc'. assert (vc' = vc) as -> by congruence.
        by apply gt_b_false_le.
    - exists g, vg. split; [done|]. split; [done|]. split; [by left|].
      split; [apply le_refl|]. intros; lia. }
  destruct (Hstep (2 * i + 1) i vi) as (g1 & v1 & -> & Hv1 & Hg1 & Hle1 & Hc1);
    [lia|lia|done|].
  rewrite bind_Ok.
  destruct (Hstep (2 * i + 2) g1 v1) as (g2 & v2 & -> & Hv2 & Hg2 & Hle2 & Hc2);
    [lia|lia|done|].
  exists g2, v2. split; [done|]. split; [done|].
  split; [unfold child; lia|].
  split; [by eapply le_trans|].
  intros c vc [->| ->] Hcn Hvc.
  - eapply le_trans; [by apply Hc1|done].
  - by apply Hc2.
Qed.

Lemma heapify_rec_spec fuel :
  ∀ arr n i lo,
    0 ≤ lo ≤ i → i < n → n ≤ len arr → n - i ≤ Z.of_nat fuel + 1 →
    (∀ k, lo ≤ k < n → k ≠ i → heap_at arr n k) →
    (∀ p c x y, lo ≤ p → child p i → child i c → c < n →
       arr !! Z.to_nat p = Some x → arr !! Z.to_nat c = Some y → le y x) →
    ∃ arr',
      heapSort.heapify_rec fuel arr n i = Ok arr'
      ∧ arr' ≡ₚ arr
      ∧ heap_from arr' n lo
      ∧ ∀ k : nat, (Z.of_nat k < i ∨ n ≤ Z.of_nat k) → arr' !! k = arr !! k.
Proof.
  induction fuel as [|fuel IH]; intros arr n i lo Hlo Hi Hn Hfuel P1 P2;
    (destruct (lookup_lt_is_Some_2 arr (Z.to_nat i)) as [vi Hvi];
       [unfold len in *; lia|]);
    (destruct (largest_spec arr n i vi) as (g & vg & Hg & Hvg & Hgi & Hle & Hmax);
       [lia|done|done|]);
    cbn [heapSort.heapify_rec]; cbv zeta;
    apply bind_Ok_inv in Hg as (g1 & Hg1 & Hg2); rewrite Hg1, bind_Ok, Hg2, bind_Ok.
  - rewrite decide_False by (unfold child in *; lia).
    assert (g = i) as -> by (unfold child in *; lia).
    assert (vg = vi) as -> by congruence.
    exists arr. split; [done|]. split; [done|]. split; [|done].
    intros k Hk. destruct (decide (k = i)) as [->|Hne]; [|by apply P1].
    intros c x y Hc Hcn Hx Hy. assert (x = vi) as -> by congruence.
    by apply (Hmax c).
  - destruct (decide (g ≠ i)) as [Hne|Heq].
    + destruct Hgi as [?|[Hchild Hgn]]; [done|].
      assert (Hg0 : 0 ≤ g) by (unfold child in *; lia).
      destruct (exchange_spec arr i g vi vg)
        as (arr1 & Hex & Hperm1 & Hlen1 & Hi1 & Hg1' & Hframe1); [lia|lia|done|done|].
      rewrite Hex, bind_Ok.
      destruct (IH arr1 n g lo) as (arr' & Hrun & Hperm & Hheap & Hframe).
      * unfold child in *; lia.
      * done.
      * unfold len in *. lia.
      * unfold child in *; lia.
      * intros k Hk Hkg. intros c x y Hc Hcn Hx Hy.
        destruct (decide (k = i)) as [->|Hki].
        -- assert (x = vg) as -> by congruence.
           destruct (decide (c = g)) as [->|Hcg].
           ++ assert (y = vi) as -> by congruence. done.
           ++ rewrite Hframe1 in Hy by (unfold child in *; lia).
              by apply (Hmax c).
        -- rewrite Hframe1 in Hx by lia.
           destruct (decide (c = i)) as [->|Hci].
           ++ assert (y = vg) as -> by congruence.
              apply (P2 k g); [lia|done..].
           ++ rewrite Hframe1 in Hy by (unfold child in *; lia).
              by apply (P1 k ltac:(lia) Hki c).
      * intros p c x y Hp Hpg Hgc Hcn Hx Hy.
        assert (p = i) as -> by (unfold child in *; lia).
        assert (x = vg) as -> by congruence.
        rewrite Hframe1 in Hy by (unfold child in *; lia).
        by apply (P1 g ltac:(unfold child in *; lia) Hne c).
      * exists arr'. split; [done|]. split; [by rewrite Hperm|].
        split; [done|]. intros k Hk.
        rewrite Hframe by (unfold child in *; lia).
        apply Hframe1; unfold child in *; lia.
    + apply dec_stable in Heq. subst g.
      assert (vg = vi) as -> by congruence.
      exists arr. split; [done|]. split; [done|]. split; [|done].
      intros k Hk. destruct (decide (k = i)) as [->|Hne]; [|by apply P1].
      intros c x y Hc Hcn Hx Hy. assert (x = vi) as -> by congruence.
      by apply (Hmax c).
Qed.

Lemma heapify_spec arr n i lo :
  0 ≤ lo ≤ i → i < n → n ≤ len arr →
  (∀ k, lo ≤ k < n → k ≠ i → heap_at arr n k) →
  (∀ p c x y, lo ≤ p → child p i → child i c → c < n →
     arr !! Z.to_nat p = Some x → arr !! Z.to_nat c = Some y → le y x) →
  ∃ arr',
    heapSort.heapify arr n i = Ok arr'
    ∧ arr' ≡ₚ arr
    ∧ heap_from arr' n lo
    ∧ ∀ k : nat, (Z.of_nat k < i ∨ n ≤ Z.of_nat k) → arr' !! k = arr !! k.
Proof.
  intros. apply heapify_rec_spec; [done..|lia|done|done].
Qed.

Lemma heap_root_max arr m v0 :
  heap_from arr m 0 → m ≤ len arr → arr !! 0%nat = Some v0 →
  ∀ (k : nat) x, Z.of_nat k < m → arr !! k = Some x → le x v0.
Proof.
  intros Hheap Hm Hv0 k. induction k as [k IH] using lt_wf_ind. intros x Hk Hx.
  destruct k as [|k].
  - assert (x = v0) as -> by congruence. apply le_refl.
  - set (p := (k / 2)%nat).
    assert (Hp : (p < S k)%nat).
    { subst p. pose proof (Nat.Div0.div_le_upper_bound k 2 k). lia. }
    destruct (lookup_lt_is_Some_2 arr p) as [vp Hvp]; [unfold len in *; lia|].
    eapply le_trans; [|apply (IH p Hp vp); [lia|done]].
    apply (Hheap (Z.of_nat p) ltac:(lia) (Z.of_nat (S k))).
    + unfold child. subst p.
      pose proof (Nat.div_mod_eq k 2). pose proof (Nat.mod_upper_bound k 2). lia.
    + done.
    + by rewrite Nat2Z.id.
    + by rewrite Nat2Z.id.
Qed.

Lemma prefix_lookup_perm (arr1 arr2 : list A) (i : nat) :
  arr2 ≡ₚ arr1 → (∀ k : nat, (i ≤ k)%nat → arr2 !! k = arr1 !! k) →
  ∀ (k : nat) x, (k < i)%nat → arr2 !! k = Some x →
    ∃ k' : nat, (k' < i)%nat ∧ arr1 !! k' = Some x.
Proof.
  intros Hperm Hframe k x Hk Hx.
  assert (Hdrop : drop i arr2 = drop i arr1).
  { apply list_eq. intros j. rewrite !lookup_drop. apply Hframe. lia. }
  assert (Htake : take i arr2 ≡ₚ take i arr1).
  { apply (Permutation_app_inv_r (drop i arr1)).
    rewrite <- Hdrop at 1. by rewrite !take_drop. }
  assert (Hin : x ∈ take i arr1).
  { rewrite <- Htake. apply list_elem_of_lookup. exists k.
    by rewrite lookup_take_lt. }
  apply list_elem_of_lookup in Hin as [k' Hk'].
  apply lookup_take_Some in Hk' as [? ?]. by exists k'.
Qed.

Lemma ordered_sorted (arr : list A) : ordered_from arr 1 → sorted arr.
Proof.
  intros Hord.
  assert (Hall : ∀ (k1 k2 : nat) x y, (k1 < k2)%nat →
    arr !! k1 = Some x → arr !! k2 = Some y → le x y).
  { intros k1 k2 x y Hk. apply Hord; [done|lia]. }
  clear Hord. unfold sorted. induction arr as [|a arr IH]; [constructor|].
  constructor.
  - apply IH. intros k1 k2 x y Hk Hx Hy.
    apply (Hall (S k1) (S k2)); [lia|done|done].
  - apply Forall_forall. intros y Hy.
    apply list_elem_of_lookup in Hy as [k Hy].
    by apply (Hall 0%nat (S k)); [lia|done|].
Qed.

Lemma build_spec n (j : nat) :
  ∀ arr,
    Z.of_nat j ≤ n → n ≤ len arr → heap_from arr n (Z.of_nat j) →
    ∃ arr',
      for_each (range_down (Z.of_nat j - 1) (-1))
        (λ i arr, heapSort.heapify arr n i) arr = Ok arr'
      ∧ arr' ≡ₚ arr
      ∧ heap_from arr' n 0.
Proof.
  induction j as [|j IH]; intros arr Hj Hn Hheap.
  - rewrite range_down_nil by lia. by exists arr.
  - rewrite range_down_cons by lia. cbn [for_each].
    replace (Z.of_nat (S j) - 1) with (Z.of_nat j) by lia.
    destruct (heapify_spec arr n (Z.of_nat j) (Z.of_nat j))
      as (arr1 & -> & Hperm1 & Hheap1 & _); [lia|lia|done| | |].
    + intros k Hk Hne. apply Hheap. lia.
    + intros p c x y Hp Hchild. unfold child in Hchild. lia.
    + rewrite bind_Ok.
      destruct (IH arr1) as (arr' & Hrun & Hperm & Hheap'); [lia| |done|].
      { unfold len in *. by rewrite Hperm1. }
      exists arr'. split; [done|]. split; [by rewrite Hperm|done].
Qed.

Lemma extract_spec (j : nat) :
  ∀ arr,
    Z.of_nat j ≤ len arr → heap_from arr (Z.of_nat j) 0 →
    ordered_from arr (Z.of_nat j) →
    ∃ arr',
      for_each (range_down (Z.of_nat j - 1) 0)
        (λ i arr, exchange arr 0 i ≫= λ arr, heapSort.heapify arr i 0) arr
      = Ok arr'
      ∧ arr' ≡ₚ arr
      ∧ ordered_from arr' 1.
Proof.
  induction j as [|j IH]; intros arr Hj Hheap Hord.
  { rewrite range_down_nil by lia. exists arr. split; [done|]. split; [done|].
    intros k1 k2 x y Hk _. apply Hord; [done|lia]. }
  destruct j as [|j].
  { rewrite range_down_nil by lia. by exists arr. }
  rewrite range_down_cons by lia. cbn [for_each].
  set (i := Z.of_nat (S (S j)) - 1).
  assert (Hi : i = Z.of_nat (S j)) by lia.
  destruct (lookup_lt_is_Some_2 arr 0%nat) as [v0 Hv0]; [unfold len in *; lia|].
  destruct (lookup_lt_is_Some_2 arr (S j)) as [vi Hvi]; [unfold len in *; lia|].
  pose proof (heap_root_max arr _ v0 Hheap Hj Hv0) as Hmax.
  destruct (exchange_spec arr 0 i v0 vi)
    as (arr1 & -> & Hperm1 & Hlen1 & H01 & Hi1 & Hframe1);
    [lia|lia|done|by rewrite Hi, Nat2Z.id|].
  rewrite bind_Ok. rewrite Hi, Nat2Z.id in Hi1, Hframe1.
  change (Z.to_nat 0) with 0%nat in H01, Hframe1.
  destruct (heapify_spec arr1 i 0 0)
    as (arr2 & -> & Hperm2 & Hheap2 & Hframe2); [lia|lia|unfold len in *; lia| | |].
  - intros k Hk Hk0 c x y Hc Hci Hx Hy.
    rewrite Hframe1 in Hx, Hy by (unfold child in *; lia).
    apply (Hheap k ltac:(lia) c); [done|lia|done|done].
  - intros p c x y Hp Hchild. unfold child in Hchild. lia.
  - rewrite bind_Ok. rewrite Hi.
    destruct (IH arr2) as (arr' & Hrun & Hperm & Hord'); [| | |].
    + unfold len in *. rewrite Hperm2, Hlen1. lia.
    + by rewrite <- Hi.
    + intros k1 k2 x y Hk Hk2 Hx Hy.
      rewrite Hframe2 in Hy by lia.
      assert (Hsrc : ∃ k' : nat, (k1 < S j → k' < S j)%nat
                       ∧ (S j ≤ k1 → k' = k1)%nat ∧ arr1 !! k' = Some x).
      { destruct (decide (k1 < S j)%nat) as [Hlt|Hge].
        - destruct (prefix_lookup_perm arr1 arr2 (S j) Hperm2) with (k := k1) (x := x)
            as (k' & Hk' & Hx'); [|done|done|].
          { intros k Hge. apply Hframe2. lia. }
          exists k'. split_and!; [done|lia|done].
        - rewrite Hframe2 in Hx by lia. exists k1. split_and!; [lia|done|done]. }
      destruct Hsrc as (k' & Hk'2 & Hk'3 & Hx').
      (* [x] sits below the old heap boundary or is the old root *)
      destruct (decide (k2 = S j)) as [->|Hk2ne].
      * assert (y = v0) as -> by congruence.
        destruct (decide (k' = 0%nat)) as [->|Hk'0].
        -- assert (x = vi) as -> by congruence. apply (Hmax (S j)); [lia|done].
        -- rewrite Hframe1 in Hx' by lia. apply (Hmax k'); [lia|done].
      * rewrite Hframe1 in Hy by lia.
        destruct (decide (k' = 0%nat)) as [->|Hk'0].
        -- assert (x = vi) as -> by congruence.
           apply (Hord (S j) k2); [lia|lia|done|done].
        -- destruct (decide (k' = S j)) as [->|Hk'j].
           ++ assert (x = v0) as -> by congruence.
              apply (Hord 0%nat k2); [lia|lia|done|done].
           ++ rewrite Hframe1 in Hx' by lia.
              apply (Hord k' k2); [lia|lia|done|done].
    + replace (Z.of_nat (S j) - 1) with (Z.of_nat (S j) - 1) in Hrun by lia.
      exists arr'. split; [done|]. split; [by rewrite Hperm, Hperm2|done].
Qed.

Lemma heapSort_spec arr :
  ∃ out, heapSort.heapSort arr = Ok out ∧ out ≡ₚ arr ∧ sorted out.
Proof.
  unfold heapSort.heapSort. cbv zeta.
  destruct (build_spec (len arr) (Z.to_nat (len arr `div` 2)) arr)
    as (arr1 & Hbuild & Hperm1 & Hheap1).
  - pose proof (len_nonneg arr). rewrite Z2Nat.id by (apply Z.div_pos; lia).
    apply Z.div_le_upper_bound; lia.
  - done.
  - intros k Hk c x y Hc Hcn. exfalso.
    pose proof (len_nonneg arr).
    rewrite Z2Nat.id in Hk by (apply Z.div_pos; lia).
    assert (len arr < 2 * (k + 1)).
    { pose proof (Z.div_mod (len arr) 2 ltac:(lia)).
      pose proof (Z.mod_pos_bound (len arr) 2 ltac:(lia)). lia. }
    unfold child in Hc. lia.
  - rewrite Z2Nat.id in Hbuild by (apply Z.div_pos; [apply len_nonneg|lia]).
    rewrite Hbuild, bind_Ok.
    assert (Hlen1 : len arr1 = len arr) by (unfold len; by rewrite Hperm1).
    destruct (extract_spec (length arr) arr1) as (out & Hrun & Hperm & Hord).
    + unfold len in *. lia.
    + done.
    + intros k1 k2 x y _ Hk2 _ Hy. apply lookup_lt_Some in Hy.
      unfold len in *. lia.
    + exists out. split; [done|]. split; [by rewrite Hperm|].
      by apply ordered_sorted.
Qed.
End heapsort_correct.

(** ** The heapsort recorder follows heapSort.py *)

Section loops_sim.
Context {X S T : Type}.

Lemma for_each_sim (R : S → T → Prop) (xs : list X)
    (f : X → S → result S) (g : X → T → result T) :
  (∀ x s t s', x ∈ xs → R s t → f x s = Ok s' → ∃ t', g x t = Ok t' ∧ R s' t') →
  ∀ s t s', R s t → for_each xs f s = Ok s' →
    ∃ t', for_each xs g t = Ok t' ∧ R s' t'.
Proof.
  induction xs as [|x xs IH]; intros Hstep s t s' HR Hrun.
  - injection Hrun as <-. by exists t.
  - cbn [for_each] in *. apply bind_Ok_inv in Hrun as (s1 & Hf & Hrun).
    destruct (Hstep x s t s1) as (t1 & -> & HR1); [by left|done|done|].
    rewrite bind_Ok. apply (IH (λ y a b c Hy, Hstep y a b c (list_elem_of_further _ _ _ Hy)) s1); done.
Qed.
End loops_sim.

Section heapsort_recorder.
Context `{Comparable A}.
Implicit Types (arr : list A) (events evs : list (heapsort_animation.event A)).

Lemma replay_heapsort_app evs1 evs2 arr :
  replay.heapsort (evs1 ++ evs2) arr
  = replay.heapsort evs1 arr ≫= replay.heapsort evs2.
Proof. apply for_each_app. Qed.

Lemma pick_larger_valid arr n c g0 g :
  heapSort.pick_larger arr n c g0 = Ok g →
  (∃ v, getitem arr g0 = Ok v) → ∃ v, getitem arr g = Ok v.
Proof.
  unfold heapSort.pick_larger. intros Hpick Hg0.
  destruct (decide (c < n)); [|by injection Hpick as <-].
  apply bind_Ok_inv in Hpick as (vc & Hvc & Hpick).
  apply bind_Ok_inv in Hpick as (vg & Hvg & [= <-]).
  destruct (gt_b vc vg); eauto.
Qed.

Lemma heapify_sim fuel :
  ∀ arr n i out events,
    (∃ v, getitem arr i = Ok v) →
    heapSort.heapify_rec fuel arr n i = Ok out →
    ∃ evs,
      heapsort_animation.heapify fuel n i (arr, events) = Ok (out, events ++ evs)
      ∧ replay.heapsort evs arr = Ok out
      ∧ len out = len arr.
Proof.
  induction fuel as [|fuel IH]; intros arr n i out events Hvalid Hrun;
    cbn [heapSort.heapify_rec heapsort_animation.heapify] in *; cbv zeta in *;
    unfold heapsort_animation.push; cbn [fst snd];
    apply bind_Ok_inv in Hrun as (g1 & Hg1 & Hrun);
    apply bind_Ok_inv in Hrun as (g & Hg & Hrun);
    rewrite Hg1, bind_Ok, Hg, bind_Ok;
    (destruct (pick_larger_valid _ _ _ _ _ Hg) as [vg Hvg];
       [by eapply pick_larger_valid|]);
    rewrite Hvg, bind_Ok;
    destruct (decide (g ≠ i)) as [Hne|Heq]; try done.
  - injection Hrun as <-. eexists. split; [by rewrite <- !app_assoc|]. done.
  - apply bind_Ok_inv in Hrun as (arr1 & Hex & Hrun).
    destruct Hvalid as [vi Hvi].
    rewrite Hvi, !bind_Ok, Hex, bind_Ok.
    match goal with
    | |- context [heapsort_animation.heapify fuel n g (arr1, ?ev)] =>
        destruct (IH arr1 n g out ev) as (evs & Hrec & Hrep & Hlen)
    end.
    { apply (getitem_same_len arr arr1 g vg); [by apply exchange_len in Hex|done]. }
    { done. }
    rewrite Hrec.
    eexists. split; [by rewrite <- !app_assoc|].
    split.
    + unfold replay.heapsort in *. cbn [app for_each replay.heapsort_record].
      rewrite !bind_Ok, Hex, bind_Ok. cbn [for_each replay.heapsort_record].
      by rewrite bind_Ok.
    + apply exchange_len in Hex. lia.
  - injection Hrun as <-. eexists. split; [by rewrite <- !app_assoc|]. done.
Qed.

Lemma tracks_push arr0 events0 s t ev :
  tracks arr0 events0 s t →
  replay.heapsort_record (ev t.1) s = Ok s →
  tracks arr0 events0 s (heapsort_animation.push ev t).
Proof.
  intros (Ht & Hlen & evs & Hev & Hrep) Hskip. destruct t as [arr events].
  cbn [fst snd] in *. subst arr events. unfold heapsort_animation.push.
  split; [done|]. split; [done|]. exists (evs ++ [ev s]). cbn [snd].
  split; [by rewrite app_assoc|].
  rewrite replay_heapsort_app, Hrep, bind_Ok. unfold replay.heapsort.
  cbn [for_each]. by rewrite Hskip.
Qed.

Lemma build_step_sim arr0 events0 n i s t s' :
  0 ≤ i < len arr0 → tracks arr0 events0 s t →
  heapSort.heapify s n i = Ok s' →
  ∃ t', heapsort_animation.build_step n i t = Ok t' ∧ tracks arr0 events0 s' t'.
Proof.
  intros Hi (Ht & Hlen & evs & Hev & Hrep) Hrun. destruct t as [arr events].
  cbn [fst snd] in *. subst arr events.
  destruct (getitem_nonneg s i) as (vi & Hvi & _); [lia|].
  unfold heapsort_animation.build_step, heapsort_animation.push. cbn [fst snd].
  rewrite Hvi, bind_Ok.
  match goal with
  | |- context [heapsort_animation.heapify _ n i (s, ?ev)] =>
      destruct (heapify_sim (Z.to_nat n) s n i s' ev) as (evs' & -> & Hrep' & Hlen')
  end; [by exists vi|done|].
  eexists. split; [done|]. split; [done|]. split; [lia|].
  eexists. cbn [snd]. split; [by rewrite <- !app_assoc|].
  rewrite replay_heapsort_app, Hrep, bind_Ok. unfold replay.heapsort in *.
  cbn [app for_each replay.heapsort_record]. by rewrite bind_Ok.
Qed.

Lemma heapify_trivial arr n i :
  n ≤ 2 * i + 1 → heapSort.heapify arr n i = Ok arr.
Proof.
  intros Hn. unfold heapSort.heapify.
  destruct (Z.to_nat n); cbn [heapSort.heapify_rec]; cbv zeta;
    unfold heapSort.pick_larger;
    do 2 (rewrite decide_False by lia; rewrite bind_Ok);
    by rewrite decide_False by (intros Hne; by apply Hne).
Qed.

Lemma extract_step_sim arr0 events0 i s t s' :
  0 < i → tracks arr0 events0 s t →
  exchange s 0 i ≫= (λ arr, heapSort.heapify arr i 0) = Ok s' →
  ∃ t', heapsort_animation.extract_step i t = Ok t' ∧ tracks arr0 events0 s' t'.
Proof.
  intros Hi (Ht & Hlen & evs & Hev & Hrep) Hrun. destruct t as [arr events].
  cbn [fst snd] in *. subst arr events.
  apply bind_Ok_inv in Hrun as (s1 & Hex & Hrun).
  destruct (exchange_inv _ _ _ _ Hex) as (v0 & vi & _ & Hvi & Hv0 & _).
  pose proof (exchange_len _ _ _ _ Hex) as Hlen1.
  destruct (getitem_same_len s s1 i vi) as [vs Hvs]; [done|done|].
  destruct (getitem_same_len s s1 0 v0) as [v0' Hv0']; [done|done|].
  unfold heapsort_animation.extract_step, heapsort_animation.push. cbn [fst snd].
  rewrite Hv0, bind_Ok, Hex, bind_Ok, Hvs, bind_Ok.
  destruct (decide (i > 1)) as [Hgt|Hle].
  - match goal with
    | |- context [heapsort_animation.heapify _ i 0 (s1, ?ev)] =>
        destruct (heapify_sim (Z.to_nat i) s1 i 0 s' ev) as (evs' & -> & Hrep' & Hlen')
    end; [by exists v0'|done|].
    eexists. split; [done|]. split; [done|]. split; [lia|].
    eexists. cbn [snd]. split; [by rewrite <- !app_assoc|].
    rewrite replay_heapsort_app, Hrep, bind_Ok. unfold replay.heapsort in *.
    cbn [app for_each replay.heapsort_record]. by rewrite Hex, ?bind_Ok.
  - rewrite heapify_trivial in Hrun by lia. injection Hrun as <-.
    eexists. split; [done|]. split; [done|]. split; [lia|].
    eexists. cbn [snd]. split; [by rewrite <- !app_assoc|].
    rewrite replay_heapsort_app, Hrep, bind_Ok. unfold replay.heapsort in *.
    cbn [app for_each replay.heapsort_record]. by rewrite Hex, ?bind_Ok.
Qed.

Lemma elem_of_range_down a b i : i ∈ range_down a b → b < i ≤ a.
Proof.
  unfold range_down. rewrite elem_of_reverse, elem_of_seqZ. lia.
Qed.

Lemma heapsort_run_sim arr out :
  heapSort.heapSort arr = Ok out →
  ∃ events,
    heapsort_animation.run arr = Ok (out, events)
    ∧ replay.heapsort events arr = Ok out.
Proof.
  unfold heapSort.heapSort, heapsort_animation.run. cbv zeta.
  intros Hrun. apply bind_Ok_inv in Hrun as (arr1 & Hbuild & Hextract).
  set (t0 := heapsort_animation.push _ (arr, [])).
  assert (Ht0 : tracks arr [] arr t0).
  { apply tracks_push; [|done]. split; [done|]. split; [done|]. by exists []. }
  destruct (for_each_sim (tracks arr []) (range_down (len arr `div` 2 - 1) (-1))
              (λ i arr0, heapSort.heapify arr0 (len arr) i)
              (heapsort_animation.build_step (len arr))) with (s := arr) (t := t0) (s' := arr1)
    as (t1 & Hb & Ht1); [|done|done|].
  { intros i s t s' Hi%elem_of_range_down Ht Hf.
    apply (build_step_sim arr [] _ _ s); [|done|done].
    pose proof (len_nonneg arr).
    pose proof (Z.div_mod (len arr) 2 ltac:(lia)).
    pose proof (Z.mod_pos_bound (len arr) 2 ltac:(lia)). lia. }
  rewrite Hb, bind_Ok.
  match goal with
  | |- context [for_each _ heapsort_animation.extract_step ?t] => set (t2 := t)
  end.
  assert (Ht2 : tracks arr [] arr1 t2).
  { subst t2. apply tracks_push; [|done]. by apply tracks_push. }
  destruct (for_each_sim (tracks arr []) (range_down (len arr - 1) 0)
              (λ i arr, exchange arr 0 i ≫= λ arr0, heapSort.heapify arr0 i 0)
              heapsort_animation.extract_step) with (s := arr1) (t := t2) (s' := out)
    as (t3 & He & Ht3); [|done|done|].
  { intros i s t s' Hi%elem_of_range_down Ht Hf.
    apply (extract_step_sim arr [] _ s); [lia|done|done]. }
  rewrite He, bind_Ok.
  apply (tracks_push _ _ _ _ (λ d, heapsort_animation.Done d (Msg "✓  Array sorted!" [])))
    in Ht3; [|done].
  destruct Ht3 as (Hfst & _ & evs & Hsnd & Hrep).
  match goal with
  | |- ∃ events, Ok ?t = _ ∧ _ => destruct t as [arr' events'] eqn:Et
  end.
  cbn [fst snd] in *. subst arr' events'.
  exists evs. by split.
Qed.
End heapsort_recorder.

(** ** margeSort.py sorts and is stable *)

Section merge_runs_facts.
Context `{ComparableLaws A}.
Implicit Types (L R : list A) (x y : A).

Lemma merge_runs_nil_l R : merge_runs [] R = R.
Proof. by destruct R. Qed.

Lemma merge_runs_nil_r L : merge_runs L [] = L.
Proof. by destruct L. Qed.

Lemma merge_runs_cons x L y R :
  merge_runs (x :: L) (y :: R)
  = if le_b x y then x :: merge_runs L (y :: R) else y :: merge_runs (x :: L) R.
Proof. reflexivity. Qed.

Lemma merge_runs_perm L R : merge_runs L R ≡ₚ L ++ R.
Proof.
  revert R. induction L as [|x L IHL]; intros R.
  - by rewrite merge_runs_nil_l.
  - induction R as [|y R IHR].
    + by rewrite merge_runs_nil_r, app_nil_r.
    + rewrite merge_runs_cons. destruct (le_b x y).
      * cbn [app]. by rewrite IHL.
      * rewrite IHR. apply Permutation_middle.
Qed.

Lemma merge_runs_sorted L R : sorted L → sorted R → sorted (merge_runs L R).
Proof.
  unfold sorted. revert R. induction L as [|x L IHL]; intros R HL HR.
  - by rewrite merge_runs_nil_l.
  - induction R as [|y R IHR].
    + by rewrite merge_runs_nil_r.
    + rewrite merge_runs_cons.
      apply StronglySorted_inv in HL as [HL HxL].
      pose proof HR as HR'. apply StronglySorted_inv in HR' as [HR' HyR].
      destruct (le_b x y) eqn:Hxy.
      * constructor; [by apply IHL|].
        rewrite merge_runs_perm. apply Forall_app. split; [done|].
        constructor; [done|].
        eapply Forall_impl; [exact HyR|]. intros z Hz. by eapply le_trans.
      * assert (Hyx : le y x).
        { destruct (le_b_total x y) as [E|E]; [congruence|done]. }
        constructor; [by apply IHR|].
        rewrite merge_runs_perm. cbn [app]. constructor; [done|].
        apply Forall_app. split; [|done].
        eapply Forall_impl; [exact HxL|]. intros z Hz. by eapply le_trans.
Qed.

Lemma ties_app x l1 l2 : ties x (l1 ++ l2) = ties x l1 ++ ties x l2.
Proof. apply filter_app. Qed.

Lemma ties_none x y l :
  le_b x y = false → Forall (le x) l → ties y l = [].
Proof.
  intros Hxy Hl. unfold ties. induction Hl as [|z l Hz Hl IH]; [done|].
  rewrite filter_cons_False; [done|].
  unfold tied. intros [Hyz Hzy]%andb_true_iff.
  assert (le x y) by (by eapply le_trans). unfold le in *. congruence.
Qed.

(** On a tie the item of the left run comes first. *)
Lemma merge_runs_ties L R x :
  sorted L → ties x (merge_runs L R) = ties x L ++ ties x R.
Proof.
  unfold sorted. revert R. induction L as [|a L IHL]; intros R HL.
  - by rewrite merge_runs_nil_l.
  - induction R as [|b R IHR].
    + by rewrite merge_runs_nil_r, app_nil_r.
    + rewrite merge_runs_cons.
      pose proof HL as HL'. apply StronglySorted_inv in HL' as [HL' HaL].
      destruct (le_b a b) eqn:Hab.
      * unfold ties in *. rewrite !filter_cons.
        destruct (decide (tied x a = true)); cbn [app]; by rewrite IHL.
      * unfold ties in *. rewrite (filter_cons _ b (merge_runs _ _)), IHR.
        rewrite (filter_cons _ b R).
        destruct (decide (tied x b = true)) as [Hxb|]; [|done].
        assert (Hnone : ties x (a :: L) = []).
        { apply andb_true_iff in Hxb as [Hxb Hbx].
          apply (ties_none a).
          - destruct (le_b a x) eqn:Hax; [|done].
            assert (le a b) by (by eapply le_trans). unfold le in *. congruence.
          - constructor; [apply le_refl|done]. }
        unfold ties in Hnone. by rewrite Hnone.
Qed.
End merge_runs_facts.

Section mergesort_correct.
Context `{ComparableLaws A}.
Implicit Types (arr pre post seg L R junk : list A).

Lemma copy_run_spec pre post start :
  start = len pre →
  ∀ rest done n,
    n = len (done ++ rest) →
    for_each (range (len done) n)
      (λ i B, getitem (pre ++ (done ++ rest) ++ post) (start + i) ≫= λ x, Ok (B ++ [x]))
      done
    = Ok (done ++ rest).
Proof.
  intros Hstart. induction rest as [|x rest IH]; intros done n Hn.
  - rewrite range_nil by len_solve. by rewrite app_nil_r.
  - rewrite range_cons by len_solve. cbn [for_each].
    rewrite (getitem_at _ (pre ++ done) x (rest ++ post)); [|by list_norm|len_solve].
    rewrite bind_Ok.
    replace (len done + 1) with (len (done ++ [x])) by len_solve.
    replace (done ++ x :: rest) with ((done ++ [x]) ++ rest) by (by list_norm).
    apply IH. len_solve.
Qed.

Lemma copy_run_seg pre seg post start n :
  start = len pre → n = len seg →
  margeSort.copy_run (pre ++ seg ++ post) start n = Ok seg.
Proof.
  intros Hstart Hn. unfold margeSort.copy_run.
  apply (copy_run_spec pre post start Hstart seg [] n). by subst n.
Qed.

Lemma drain_spec post :
  ∀ Brest Bdone pre junk fuel n i k,
    n = len (Bdone ++ Brest) → i = len Bdone → k = len pre →
    len junk = len Brest → (length Brest ≤ fuel)%nat →
    margeSort.drain fuel (pre ++ junk ++ post) (Bdone ++ Brest) n i k
    = Ok (pre ++ Brest ++ post, k + len Brest).
Proof.
  induction Brest as [|b Brest IH]; intros Bdone pre junk fuel n i k Hn Hi Hk Hjunk Hfuel.
  - destruct junk; [|len_solve].
    destruct fuel; cbn [margeSort.drain]; rewrite decide_False by len_solve;
      cbn [app]; do 2 f_equal; len_solve.
  - destruct junk as [|u junk]; [len_solve|].
    destruct fuel as [|fuel]; [simpl in Hfuel; lia|].
    cbn [margeSort.drain]. rewrite decide_True by len_solve.
    rewrite (getitem_at _ Bdone b Brest); [|done|done].
    rewrite bind_Ok.
    rewrite (setitem_at _ pre u (junk ++ post) k b); [|by list_norm|done].
    rewrite bind_Ok.
    replace (Bdone ++ b :: Brest) with ((Bdone ++ [b]) ++ Brest) by (by list_norm).
    replace (pre ++ b :: junk ++ post) with ((pre ++ [b]) ++ junk ++ post)
      by (by list_norm).
    rewrite (IH (Bdone ++ [b]) (pre ++ [b]) junk fuel n (i + 1) (k + 1));
      [|len_solve..|simpl in Hfuel; lia].
    do 2 f_equal; [by list_norm|len_solve].
Qed.

Lemma merge_both_spec post fuel :
  ∀ Ls Rs Ldone Rdone pre junk n1 n2 i j k,
    n1 = len (Ldone ++ Ls) → n2 = len (Rdone ++ Rs) →
    i = len Ldone → j = len Rdone → k = len pre →
    len junk = len Ls + len Rs → (length Ls + length Rs ≤ fuel)%nat →
    ∃ M Ldone' Ls' Rdone' Rs' junk',
      margeSort.merge_both fuel (pre ++ junk ++ post) (Ldone ++ Ls) (Rdone ++ Rs)
        n1 n2 i j k
      = Ok (pre ++ M ++ junk' ++ post, len Ldone', len Rdone', k + len M)
      ∧ Ldone ++ Ls = Ldone' ++ Ls'
      ∧ Rdone ++ Rs = Rdone' ++ Rs'
      ∧ merge_runs Ls Rs = M ++ Ls' ++ Rs'
      ∧ (Ls' = [] ∨ Rs' = [])
      ∧ len junk' = len Ls' + len Rs'.
Proof.
  induction fuel as [|fuel IH];
    intros Ls Rs Ldone Rdone pre junk n1 n2 i j k Hn1 Hn2 Hi Hj Hk Hjunk Hfuel.
  - destruct Ls; [|simpl in Hfuel; lia]. destruct Rs; [|simpl in Hfuel; lia].
    cbn [margeSort.merge_both]. rewrite decide_False by len_solve.
    exists [], Ldone, [], Rdone, [], junk. cbn [app].
    split; [do 4 f_equal; len_solve|]. split_and!; try done. by left.
  - cbn [margeSort.merge_both].
    destruct Ls as [|x Ls].
    { rewrite decide_False by len_solve.
      exists [], Ldone, [], Rdone, Rs, junk. cbn [app].
      split; [do 4 f_equal; len_solve|]. split_and!; try done.
      - by rewrite merge_runs_nil_l.
      - by left. }
    destruct Rs as [|y Rs].
    { rewrite decide_False by len_solve.
      exists [], Ldone, (x :: Ls), Rdone, [], junk. cbn [app].
      split; [do 4 f_equal; len_solve|]. split_and!; try done.
      - by rewrite merge_runs_nil_r, app_nil_r.
      - by right. }
    rewrite decide_True by len_solve.
    rewrite (getitem_at (Ldone ++ x :: Ls) Ldone x Ls i); [|done|done]. rewrite bind_Ok.
    rewrite (getitem_at (Rdone ++ y :: Rs) Rdone y Rs j); [|done|done]. rewrite bind_Ok.
    destruct junk as [|u junk]; [len_solve|].
    rewrite merge_runs_cons. destruct (le_b x y).
    + rewrite (setitem_at _ pre u (junk ++ post) k x); [|by list_norm|done].
      rewrite bind_Ok.
      replace (Ldone ++ x :: Ls) with ((Ldone ++ [x]) ++ Ls) by (by list_norm).
      replace (pre ++ x :: junk ++ post) with ((pre ++ [x]) ++ junk ++ post)
        by (by list_norm).
      destruct (IH Ls (y :: Rs) (Ldone ++ [x]) Rdone (pre ++ [x]) junk n1 n2 (i + 1) j (k + 1))
        as (M & Ldone' & Ls' & Rdone' & Rs' & junk' & -> & HL & HR & HM & Hone & Hjunk');
        [len_solve..|simpl in *; lia|].
      exists (x :: M), Ldone', Ls', Rdone', Rs', junk'.
      split; [replace (k + 1 + len M) with (k + len (x :: M)) by len_solve; by list_norm|].
      split_and!; try done. by rewrite HM.
    + rewrite (setitem_at _ pre u (junk ++ post) k y); [|by list_norm|done].
      rewrite bind_Ok.
      replace (Rdone ++ y :: Rs) with ((Rdone ++ [y]) ++ Rs) by (by list_norm).
      replace (pre ++ y :: junk ++ post) with ((pre ++ [y]) ++ junk ++ post)
        by (by list_norm).
      destruct (IH (x :: Ls) Rs Ldone (Rdone ++ [y]) (pre ++ [y]) junk n1 n2 i (j + 1) (k + 1))
        as (M & Ldone' & Ls' & Rdone' & Rs' & junk' & -> & HL & HR & HM & Hone & Hjunk');
        [len_solve..|simpl in *; lia|].
      exists (y :: M), Ldone', Ls', Rdone', Rs', junk'.
      split; [replace (k + 1 + len M) with (k + len (y :: M)) by len_solve; by list_norm|].
      split_and!; try done. by rewrite HM.
Qed.

Lemma merge_spec pre L R post left mid right :
  left = len pre → mid = left + len L - 1 → right = mid + len R →
  margeSort.merge (pre ++ L ++ R ++ post) left mid right
  = Ok (pre ++ merge_runs L R ++ post).
Proof.
  intros Hleft Hmid Hright. unfold margeSort.merge. cbv zeta.
  rewrite (copy_run_seg pre L (R ++ post) left (mid - left + 1)) by lia. rewrite bind_Ok.
  replace (pre ++ L ++ R ++ post) with ((pre ++ L) ++ R ++ post) by (by list_norm).
  rewrite (copy_run_seg (pre ++ L) R post (mid + 1) (right - mid)) by len_solve. rewrite bind_Ok.
  replace ((pre ++ L) ++ R ++ post) with (pre ++ (L ++ R) ++ post) by (by list_norm).
  destruct (merge_both_spec post (Z.to_nat (mid - left + 1 + (right - mid)))
              L R [] [] pre (L ++ R) (mid - left + 1) (right - mid) 0 0 left)
    as (M & Ldone' & Ls' & Rdone' & Rs' & junk' & Hrun & HL & HR & HM & Hone & Hjunk');
    [len_solve..|unfold len in *; lia|].
  cbn [app] in Hrun, HL, HR. rewrite Hrun, bind_Ok. cbv beta iota.
  subst L R. rewrite HM. clear HM.
  destruct Hone as [-> | ->].
  - replace (pre ++ M ++ junk' ++ post) with ((pre ++ M) ++ [] ++ junk' ++ post)
      by (by list_norm).
    rewrite (drain_spec (junk' ++ post) [] Ldone' (pre ++ M) []);
      [|len_solve..|simpl; lia].
    rewrite bind_Ok. cbv beta iota. cbn [app].
    rewrite (drain_spec post Rs' Rdone' (pre ++ M) junk');
      [|len_solve..|autorewrite with len in *; unfold len in *; rewrite ?length_app in *; lia].
    rewrite bind_Ok. cbv beta iota. by list_norm.
  - replace (pre ++ M ++ junk' ++ post) with ((pre ++ M) ++ junk' ++ post)
      by (by list_norm).
    rewrite (drain_spec post Ls' Ldone' (pre ++ M) junk');
      [|len_solve..|autorewrite with len in *; unfold len in *; rewrite ?length_app in *; lia].
    rewrite bind_Ok. cbv beta iota.
    replace ((pre ++ M) ++ Ls' ++ post) with (((pre ++ M) ++ Ls') ++ [] ++ post)
      by (by list_norm).
    rewrite (drain_spec post [] Rdone' ((pre ++ M) ++ Ls') []);
      [|len_solve..|simpl; lia].
    rewrite bind_Ok. cbv beta iota. by list_norm.
Qed.

Lemma mergeSort_rec_spec fuel :
  ∀ seg pre post left right,
    (length seg ≤ S fuel)%nat →
    left = len pre → right = len pre + len seg - 1 →
    ∃ seg',
      margeSort.mergeSort_rec fuel (pre ++ seg ++ post) left right
      = Ok (pre ++ seg' ++ post)
      ∧ seg' ≡ₚ seg ∧ sorted seg' ∧ ∀ x, ties x seg' = ties x seg.
Proof.
  assert (Hsmall : ∀ seg : list A, (length seg ≤ 1)%nat → sorted seg).
  { intros [|x [|y seg]] Hlen; [apply sorted_nil|apply sorted_singleton|].
    simpl in Hlen. lia. }
  induction fuel as [|fuel IH]; intros seg pre post left right Hfuel Hleft Hright.
  - exists seg. cbn [margeSort.mergeSort_rec].
    rewrite decide_False by (unfold len in *; lia).
    split_and!; try done. by apply Hsmall.
  - cbn [margeSort.mergeSort_rec].
    destruct (decide (left < right)) as [Hlt|Hge]; cycle 1.
    { exists seg. split_and!; try done. apply Hsmall. unfold len in *. lia. }
    cbv zeta. set (mid := (left + right) `div` 2).
    assert (Hmid : left ≤ mid < right).
    { subst mid. pose proof (Z.div_mod (left + right) 2 ltac:(lia)).
      pose proof (Z.mod_pos_bound (left + right) 2 ltac:(lia)). lia. }
    set (m := Z.to_nat (mid - left + 1)).
    assert (Hm : (0 < m < length seg)%nat) by (unfold len in *; lia).
    replace (pre ++ seg ++ post) with (pre ++ take m seg ++ drop m seg ++ post)
      by (by rewrite (app_assoc (take m seg)), take_drop).
    assert (HlenL : length (take m seg) = m) by (rewrite length_take; lia).
    assert (HlenR : length (drop m seg) = (length seg - m)%nat) by apply length_drop.
    destruct (IH (take m seg) pre (drop m seg ++ post) left mid)
      as (L' & -> & HpermL & HsortL & HtiesL); [lia|done|unfold len in *; lia|].
    rewrite bind_Ok.
    assert (HlenL' : length L' = m) by (by rewrite HpermL).
    replace (pre ++ L' ++ drop m seg ++ post) with ((pre ++ L') ++ drop m seg ++ post)
      by (by list_norm).
    destruct (IH (drop m seg) (pre ++ L') post (mid + 1) right)
      as (R' & -> & HpermR & HsortR & HtiesR);
      [lia|rewrite len_app; unfold len in *; lia|rewrite len_app; unfold len in *; lia|].
    rewrite bind_Ok.
    assert (HlenR' : length R' = (length seg - m)%nat) by (by rewrite HpermR).
    replace ((pre ++ L') ++ R' ++ post) with (pre ++ L' ++ R' ++ post) by (by list_norm).
    rewrite (merge_spec pre L' R' post left mid right) by (unfold len in *; lia).
    exists (merge_runs L' R'). split; [done|]. split_and!.
    + rewrite merge_runs_perm, HpermL, HpermR. by rewrite take_drop.
    + by apply merge_runs_sorted.
    + intros x. rewrite merge_runs_ties by done.
      rewrite HtiesL, HtiesR, <- ties_app. by rewrite take_drop.
Qed.

Lemma mergeSort_spec arr :
  ∃ out, margeSort.mergeSort arr 0 (len arr - 1) = Ok out
         ∧ out ≡ₚ arr ∧ sorted out ∧ ∀ x, ties x out = ties x arr.
Proof.
  destruct (mergeSort_rec_spec (Z.to_nat (len arr - 1 - 0)) arr [] [] 0 (len arr - 1))
    as (out & Hrun & Hperm & Hsorted & Hties); [unfold len; lia|done|len_solve|].
  exists out. rewrite app_nil_r in Hrun. by rewrite app_nil_r in Hrun.
Qed.
End mergesort_correct.

(** ** bucketSort.py *)

Section insertion_sort_correct.
Context `{ComparableLaws A}.
Implicit Types (bucket P S rest : list A) (key d : A).

Lemma shift_right_spec key rest :
  ∀ P S d fuel j,
    j = len P - 1 → (length P ≤ fuel)%nat →
    Forall (λ y, gt_b y key = true) S →
    ∃ P1 S1 d',
      bucketSort.shift_right fuel (P ++ d :: S ++ rest) key j
      = Ok (P1 ++ d' :: S1 ++ rest, len P1 - 1)
      ∧ P1 ++ S1 = P ++ S
      ∧ Forall (λ y, gt_b y key = true) S1
      ∧ ∀ P0 p, P1 = P0 ++ [p] → gt_b p key = false.
Proof.
  induction P as [|p P IH] using rev_ind; intros S d fuel j Hj Hfuel HS.
  - exists [], S, d. split_and!; try done.
    + destruct fuel; cbn [bucketSort.shift_right];
        rewrite decide_False by len_solve; do 2 f_equal; len_solve.
    + intros P0 p HP0. by destruct P0.
  - assert (Hget : getitem ((P ++ [p]) ++ d :: S ++ rest) j = Ok p).
    { apply (getitem_at _ P p (d :: S ++ rest)); [by list_norm|len_solve]. }
    assert (Hstep : ∀ f, bucketSort.shift_right f ((P ++ [p]) ++ d :: S ++ rest) key j
      = if gt_b p key
        then match f with
             | O => Raise OutOfFuel
             | S f' =>
                 getitem ((P ++ [p]) ++ d :: S ++ rest) j ≫= λ bj,
                 setitem ((P ++ [p]) ++ d :: S ++ rest) (j + 1) bj ≫= λ b,
                 bucketSort.shift_right f' b key (j - 1)
             end
        else Ok ((P ++ [p]) ++ d :: S ++ rest, j)).
    { intros f. destruct f; cbn [bucketSort.shift_right];
        rewrite decide_True by len_solve; by rewrite Hget, bind_Ok. }
    rewrite Hstep. destruct (gt_b p key) eqn:Hp.
    + destruct fuel as [|fuel]; [rewrite length_app in Hfuel; simpl in Hfuel; lia|].
      rewrite Hget, bind_Ok.
      rewrite (setitem_at _ (P ++ [p]) d (S ++ rest) (j + 1) p); [|done|len_solve].
      rewrite bind_Ok.
      destruct (IH (p :: S) p fuel (j - 1)) as (P1 & S1 & d' & Hrun & Heq & HS1 & Hlast).
      * len_solve.
      * rewrite length_app in Hfuel. simpl in Hfuel. lia.
      * by constructor.
      * exists P1, S1, d'. split.
        { rewrite <- Hrun. f_equal. by list_norm. }
        split; [rewrite Heq; by list_norm|done].
    + exists (P ++ [p]), S, d. split; [do 2 f_equal; len_solve|].
      split_and!; try done.
      intros P0 p0 [_ <-]%app_inj_tail. done.
Qed.

Lemma insertion_step_eq i bucket :
  bucketSort.insertion_step i bucket =
  getitem bucket i ≫= λ key,
  bucketSort.shift_right (Z.to_nat i) bucket key (i - 1) ≫= λ '(bucket, j),
  setitem bucket (j + 1) key.
Proof. reflexivity. Qed.

Lemma insertion_loop_spec :
  ∀ rest pre i n,
    sorted pre → i = len pre → n = len (pre ++ rest) → (rest ≠ [] → pre ≠ []) →
    ∃ out,
      for_each (range i n) bucketSort.insertion_step (pre ++ rest) = Ok out
      ∧ out ≡ₚ pre ++ rest ∧ sorted out.
Proof.
  induction rest as [|key rest IH]; intros pre i n Hpre Hi Hn Hne.
  - rewrite range_nil by len_solve. exists pre. rewrite app_nil_r. done.
  - rewrite range_cons by len_solve. cbn [for_each].
    rewrite insertion_step_eq.
    rewrite (getitem_at _ pre key rest); [|done|done]. rewrite bind_Ok.
    destruct (shift_right_spec key rest pre [] key (Z.to_nat i) (i - 1))
      as (P1 & S1 & d' & Hrun & Heq & HS1 & Hlast);
      [lia|unfold len in *; lia|done|].
    cbn [app] in Hrun. rewrite Hrun, bind_Ok. cbv beta iota.
    rewrite (setitem_at _ P1 d' (S1 ++ rest) _ key); [|done|lia].
    rewrite bind_Ok. rewrite app_nil_r in Heq. subst pre.
    destruct (IH (P1 ++ key :: S1) (i + 1) n) as (out & Hout & Hperm & Hsorted).
    + apply sorted_app_inv in Hpre as (HP1 & HsS1 & Hcross).
      apply sorted_app; [done| |].
      * constructor; [done|]. eapply Forall_impl; [exact HS1|].
        intros y Hy. by apply gt_b_true_le.
      * intros x y Hx Hy.
        assert (Hxkey : le x key).
        { destruct P1 as [|p P0 _] using rev_ind; [by apply elem_of_nil in Hx|].
          specialize (Hlast P0 p eq_refl). apply gt_b_false_le in Hlast.
          apply elem_of_app in Hx as [Hx|Hx%list_elem_of_singleton].
          - apply sorted_app_inv in HP1 as (_ & _ & Hc).
            eapply le_trans; [apply (Hc x p)|done]; [done|by left].
          - by subst x. }
        apply elem_of_cons in Hy as [->|Hy]; [done|].
        rewrite Forall_forall in HS1. eapply le_trans; [exact Hxkey|].
        by apply gt_b_true_le, HS1.
    + len_solve.
    + len_solve.
    + intros _. by destruct P1.
    + exists out. split.
      { rewrite <- Hout. f_equal. by list_norm. }
      split; [|done]. rewrite Hperm. list_norm.
      apply Permutation_app_head. by rewrite <- !Permutation_middle.
Qed.

Lemma insertion_sort_spec bucket :
  ∃ out, bucketSort.insertion_sort bucket = Ok out ∧ out ≡ₚ bucket ∧ sorted out.
Proof.
  unfold bucketSort.insertion_sort. destruct bucket as [|x rest].
  - exists []. rewrite range_nil by (rewrite len_nil; lia).
    split_and!; [done|done|apply sorted_nil].
  - apply (insertion_loop_spec rest [x] 1 (len (x :: rest)));
      [apply sorted_singleton|done|done|done].
Qed.
End insertion_sort_correct.

Section bucket_index_facts.
Context (rnd : Q → Q) `{!Rounding rnd}.

Lemma int_of_cases x :
  int_of x = if decide (0 ≤ Qnum x) then Qfloor x else Qceiling x.
Proof.
  unfold int_of, Qceiling, Qfloor. destruct x as [a b]. cbn [Qnum Qden Qopp].
  case_decide.
  - apply Z.quot_div_nonneg; lia.
  - rewrite <- (Z.opp_involutive a) at 1. rewrite Z.quot_opp_l by lia.
    f_equal. apply Z.quot_div_nonneg; lia.
Qed.

Lemma Qnum_nonneg x : 0 ≤ Qnum x ↔ (0 <= x)%Q.
Proof. unfold Qle. cbn. lia. Qed.

Lemma int_of_mono x y : (x <= y)%Q → int_of x ≤ int_of y.
Proof.
  intros Hxy. rewrite !int_of_cases.
  destruct (decide (0 ≤ Qnum x)) as [Hx|Hx], (decide (0 ≤ Qnum y)) as [Hy|Hy].
  - by apply Qfloor_resp_le.
  - exfalso. apply Hy, Qnum_nonneg. apply Qnum_nonneg in Hx. by eapply Qle_trans.
  - transitivity 0.
    + change 0 with (Qceiling 0). apply Qceiling_resp_le.
      apply Qlt_le_weak, Qnot_le_lt. by rewrite <- Qnum_nonneg.
    + change 0 with (Qfloor 0). apply Qfloor_resp_le. by apply Qnum_nonneg.
  - by apply Qceiling_resp_le.
Qed.

Lemma bucket_index_mono n v1 v2 :
  0 ≤ n → (v1 <= v2)%Q →
  bucketSort.bucket_index rnd n v1 ≤ bucketSort.bucket_index rnd n v2.
Proof.
  intros Hn Hv. unfold bucketSort.bucket_index.
  apply Z.min_le_compat_r, int_of_mono, rnd_mono.
  rewrite !(Qmult_comm (inject_Z n)). apply Qmult_le_compat_r; [done|].
  change 0%Q with (inject_Z 0). by rewrite <- Zle_Qle.
Qed.

Lemma bucket_index_upper n v : bucketSort.bucket_index rnd n v ≤ n - 1.
Proof. apply Z.le_min_r. Qed.

Lemma bucket_index_nonneg n v :
  1 ≤ n → (0 <= v)%Q → 0 ≤ bucketSort.bucket_index rnd n v.
Proof.
  intros Hn Hv. unfold bucketSort.bucket_index. apply Z.min_glb; [|lia].
  change 0 with (int_of 0). apply int_of_mono.
  rewrite <- rnd_zero. apply rnd_mono.
  apply Qmult_le_0_compat; [|done].
  change 0%Q with (inject_Z 0). rewrite <- Zle_Qle. lia.
Qed.

(** Values of different buckets are ordered like their buckets. *)
Lemma bucket_index_lt_le n v1 v2 :
  0 ≤ n →
  bucketSort.bucket_index rnd n v1 < bucketSort.bucket_index rnd n v2 →
  le v1 v2.
Proof.
  intros Hn Hlt. unfold le, le_b, Q_comparable. apply Qle_bool_iff.
  destruct (Qlt_le_dec v2 v1) as [Hgt|Hle]; [|done].
  pose proof (bucket_index_mono n v2 v1 Hn (Qlt_le_weak _ _ Hgt)). lia.
Qed.
End bucket_index_facts.

Section bucket_sort_correct.
Context (rnd : Q → Q).
Implicit Types (arr : list Q) (bks : list (list Q)) (n : Z).

Lemma py_index_valid n i : - n ≤ i < n → ∃ k, py_index n i = Ok k ∧ (Z.of_nat k < n).
Proof.
  intros Hi. unfold py_index. repeat case_decide; try lia; eexists; split; try done; lia.
Qed.

Lemma py_index_invalid n i : ¬ (- n ≤ i < n) → py_index n i = Raise IndexError.
Proof. intros Hi. unfold py_index. repeat case_decide; try lia; done. Qed.

Lemma concat_insert_snoc {X} (l : list (list X)) (k : nat) b v :
  l !! k = Some b → concat (<[k := b ++ [v]]> l) ≡ₚ concat l ++ [v].
Proof.
  intros Hk. apply list_elem_of_split_length in Hk as (l1 & l2 & -> & ->).
  rewrite insert_app_r_alt by lia. rewrite Nat.sub_diag. cbn [insert list_insert].
  rewrite !concat_app, !concat_cons, <- !app_assoc.
  apply Permutation_app_head, Permutation_app_head. apply Permutation_app_comm.
Qed.

Lemma scatter_step_ok n v bks :
  len bks = n → - n ≤ bucketSort.bucket_index rnd n v →
  ∃ (k : nat) b,
    py_index n (bucketSort.bucket_index rnd n v) = Ok k
    ∧ bks !! k = Some b
    ∧ bucketSort.scatter_step rnd n v bks = Ok (<[k := b ++ [v]]> bks).
Proof.
  intros Hlen Hidx. pose proof (Z.le_min_r (int_of (rnd (inject_Z n * v)%Q)) (n - 1)).
  destruct (py_index_valid n (bucketSort.bucket_index rnd n v)) as (k & Hk & Hkn).
  { unfold bucketSort.bucket_index in *. lia. }
  destruct (lookup_lt_is_Some_2 bks k) as [b Hb]; [unfold len in *; lia|].
  exists k, b. split; [done|]. split; [done|].
  unfold bucketSort.scatter_step, getitem, setitem. cbv zeta.
  by rewrite Hlen, Hk, !bind_Ok, Hb, bind_Ok.
Qed.

Lemma scatter_spec n :
  ∀ arr bks,
    len bks = n → Forall (λ v, - n ≤ bucketSort.bucket_index rnd n v) arr →
    ∃ bks',
      bucketSort.scatter rnd n arr bks = Ok bks'
      ∧ len bks' = n
      ∧ concat bks' ≡ₚ concat bks ++ arr
      ∧ ∀ (k : nat) l' v, bks' !! k = Some l' → v ∈ l' →
          (∃ l, bks !! k = Some l ∧ v ∈ l)
          ∨ (v ∈ arr ∧ py_index n (bucketSort.bucket_index rnd n v) = Ok k).
Proof.
  induction arr as [|v arr IH]; intros bks Hlen Hall.
  - exists bks. rewrite app_nil_r. split_and!; try done.
    intros k l' v Hk Hv. left. by exists l'.
  - apply Forall_cons in Hall as [Hv Hall].
    destruct (scatter_step_ok n v bks Hlen Hv) as (k & b & Hk & Hb & Hstep).
    unfold bucketSort.scatter. cbn [for_each]. rewrite Hstep, bind_Ok.
    destruct (IH (<[k := b ++ [v]]> bks)) as (bks' & Hrun & Hlen' & Hperm & Hmem);
      [by rewrite len_insert|done|].
    exists bks'. split; [done|]. split; [done|]. split.
    + rewrite Hperm, (concat_insert_snoc _ _ _ _ Hb). by rewrite <- app_assoc.
    + intros k' l' w Hk' Hw.
      destruct (Hmem k' l' w Hk' Hw) as [(l & Hl & Hwl)|[Hwarr Hidx]].
      * destruct (decide (k = k')) as [<-|Hne].
        -- rewrite list_lookup_insert_eq in Hl by (by eapply lookup_lt_Some).
           injection Hl as <-.
           apply elem_of_app in Hwl as [Hwb|Hwv%list_elem_of_singleton].
           ++ left. by exists b.
           ++ subst w. right. split; [by left|done].
        -- rewrite list_lookup_insert_ne in Hl by done. left. by exists l.
      * right. split; [by right|done].
Qed.

Lemma scatter_raise n :
  ∀ arr bks,
    len bks = n → Exists (λ v, bucketSort.bucket_index rnd n v < - n) arr →
    bucketSort.scatter rnd n arr bks = Raise IndexError.
Proof.
  induction arr as [|v arr IH]; intros bks Hlen Hex; [by apply Exists_nil in Hex|].
  unfold bucketSort.scatter. cbn [for_each].
  destruct (decide (bucketSort.bucket_index rnd n v < - n)) as [Hbad|Hok].
  - unfold bucketSort.scatter_step, getitem. cbv zeta.
    rewrite Hlen, py_index_invalid by lia. done.
  - destruct (scatter_step_ok n v bks Hlen ltac:(lia)) as (k & b & Hk & Hb & Hstep).
    rewrite Hstep, bind_Ok.
    apply Exists_cons in Hex as [?|Hex]; [done|].
    apply IH; [by rewrite len_insert|done].
Qed.

Lemma sort_step_eq (bucket : list Q) sorted :
  bucketSort.sort_step bucket sorted =
  bucketSort.insertion_sort bucket ≫= λ bucket, Ok (sorted ++ [bucket]).
Proof. reflexivity. Qed.

Lemma store_step_eq (val : Q) arr index :
  bucketSort.store_step val (arr, index) =
  setitem arr index val ≫= λ arr, Ok (arr, index + 1).
Proof. reflexivity. Qed.

Lemma sort_buckets_spec :
  ∀ bks acc,
    ∃ bks',
      for_each bks bucketSort.sort_step acc = Ok (acc ++ bks')
      ∧ Forall2 (λ b b', b' ≡ₚ b ∧ sorted b') bks bks'.
Proof.
  induction bks as [|b bks IH]; intros acc.
  - exists []. by rewrite app_nil_r.
  - cbn [for_each]. rewrite sort_step_eq.
    destruct (insertion_sort_spec b) as (b' & -> & Hperm & Hsorted).
    rewrite !bind_Ok. destruct (IH (acc ++ [b'])) as (bks' & -> & Hall).
    exists (b' :: bks'). split; [by rewrite <- app_assoc|].
    by constructor.
Qed.

Lemma gather_bucket_spec post :
  ∀ (bucket : list Q) pre junk index,
    index = len pre → len junk = len bucket →
    for_each bucket bucketSort.store_step (pre ++ junk ++ post, index)
    = Ok (pre ++ bucket ++ post, index + len bucket).
Proof.
  induction bucket as [|v bucket IH]; intros pre junk index Hindex Hjunk.
  - destruct junk; [|len_solve]. cbn [for_each app]. by rewrite len_nil, Z.add_0_r.
  - destruct junk as [|u junk]; [len_solve|]. cbn [for_each].
    rewrite store_step_eq.
    rewrite (setitem_at _ pre u (junk ++ post) index v); [|done|done].
    rewrite !bind_Ok.
    replace (pre ++ v :: junk ++ post) with ((pre ++ [v]) ++ junk ++ post)
      by (by list_norm).
    rewrite IH by len_solve. do 2 f_equal; [by list_norm|len_solve].
Qed.

Lemma gather_spec post :
  ∀ bks pre junk index,
    index = len pre → len junk = len (concat bks) →
    for_each bks (λ bucket st, for_each bucket bucketSort.store_step st)
      (pre ++ junk ++ post, index)
    = Ok (pre ++ concat bks ++ post, index + len (concat bks)).
Proof.
  induction bks as [|b bks IH]; intros pre junk index Hindex Hjunk.
  - destruct junk; [|cbn [concat] in Hjunk; len_solve]. cbn [for_each app concat].
    by rewrite len_nil, Z.add_0_r.
  - cbn [for_each concat]. cbn [concat] in Hjunk. rewrite len_app in Hjunk.
    rewrite <- (take_drop (length b) junk).
    assert (length (take (length b) junk) = length b).
    { rewrite length_take. unfold len in *. lia. }
    assert (length (drop (length b) junk) = length (concat bks)).
    { rewrite length_drop. unfold len in *. lia. }
    rewrite <- app_assoc.
    rewrite (gather_bucket_spec _ b pre) by (unfold len in *; lia).
    rewrite bind_Ok.
    replace (pre ++ b ++ drop (length b) junk ++ post)
      with ((pre ++ b) ++ drop (length b) junk ++ post) by (by list_norm).
    rewrite IH by (rewrite ?len_app; unfold len in *; lia).
    do 2 f_equal; [by list_norm|len_solve].
Qed.

Lemma elem_of_concat {X} (ls : list (list X)) (y : X) :
  y ∈ concat ls → ∃ l, y ∈ l ∧ l ∈ ls.
Proof.
  induction ls as [|l ls IH]; cbn [concat]; [by intros ?%elem_of_nil|].
  intros [Hy|Hy]%elem_of_app.
  - exists l. split; [done|by left].
  - destruct (IH Hy) as (l' & ? & ?). exists l'. split; [done|by right].
Qed.

Lemma elem_of_concat_2 {X} (ls : list (list X)) (l : list X) (y : X) :
  y ∈ l → l ∈ ls → y ∈ concat ls.
Proof.
  intros Hy. induction 1 as [|l' ls Hl IH]; cbn [concat]; apply elem_of_app; auto.
Qed.

Lemma sorted_concat bks :
  Forall sorted bks →
  (∀ (k1 k2 : nat) l1 l2 x y, (k1 < k2)%nat →
     bks !! k1 = Some l1 → bks !! k2 = Some l2 → x ∈ l1 → y ∈ l2 → le x y) →
  sorted (concat bks).
Proof.
  induction bks as [|b bks IH]; intros Hall Hcross; [apply sorted_nil|].
  apply Forall_cons in Hall as [Hb Hall]. cbn [concat].
  apply sorted_app; [done| |].
  - apply IH; [done|]. intros k1 k2 l1 l2 x y Hk H1 H2.
    apply (Hcross (S k1) (S k2)); [lia|done|done].
  - intros x y Hx Hy. apply elem_of_concat in Hy as (l & Hy & Hl).
    apply list_elem_of_lookup in Hl as [k Hl].
    apply (Hcross 0%nat (S k) b l); [lia|done..].
Qed.

Lemma concat_replicate_nil {X} (k : nat) : concat (replicate k (@nil X)) = [].
Proof. induction k as [|k IH]; [done|]. cbn. apply IH. Qed.

Lemma concat_perm_Forall2 (bks bks' : list (list Q)) :
  Forall2 (λ b b', b' ≡ₚ b ∧ sorted b') bks bks' → concat bks' ≡ₚ concat bks.
Proof.
  induction 1 as [|b b' bks bks' [Hperm _] _ IH]; [done|].
  cbn [concat]. by rewrite Hperm, IH.
Qed.

(** A run of [bucket_sort] in which every bucket access is valid. *)
Lemma bucket_sort_run arr :
  Forall (λ v, - len arr ≤ bucketSort.bucket_index rnd (len arr) v) arr →
  ∃ bks1 bks2,
    bucketSort.scatter rnd (len arr) arr (replicate (Z.to_nat (len arr)) []) = Ok bks1
    ∧ (∀ (k : nat) l v, bks1 !! k = Some l → v ∈ l →
         py_index (len arr) (bucketSort.bucket_index rnd (len arr) v) = Ok k)
    ∧ Forall2 (λ b b', b' ≡ₚ b ∧ sorted b') bks1 bks2
    ∧ bucketSort.bucket_sort rnd arr = Ok (concat bks2)
    ∧ concat bks2 ≡ₚ arr.
Proof.
  intros Hall.
  destruct (scatter_spec (len arr) arr (replicate (Z.to_nat (len arr)) []))
    as (bks1 & Hscatter & Hlen1 & Hperm1 & Hmem1); [|done|].
  { unfold len. rewrite length_replicate. lia. }
  rewrite concat_replicate_nil in Hperm1. cbn [app] in Hperm1.
  destruct (sort_buckets_spec bks1 []) as (bks2 & Hsort & Hall2).
  cbn [app] in Hsort.
  assert (Hperm2 : concat bks2 ≡ₚ arr) by (by rewrite (concat_perm_Forall2 _ _ Hall2)).
  exists bks1, bks2. split; [done|]. split.
  { intros k l v Hk Hv. destruct (Hmem1 k l v Hk Hv) as [(l0 & Hl0 & Hv0)|[_ ?]]; [|done].
    apply lookup_replicate in Hl0 as [-> _]. by apply elem_of_nil in Hv0. }
  split; [done|]. split; [|done].
  unfold bucketSort.bucket_sort. cbv zeta. rewrite Hscatter, bind_Ok.
  unfold bucketSort.sort_buckets. rewrite Hsort, bind_Ok.
  unfold bucketSort.gather.
  pose proof (gather_spec [] bks2 [] arr 0 eq_refl) as Hgather.
  cbn [app] in Hgather. rewrite !app_nil_r in Hgather.
  rewrite Hgather by (unfold len; by rewrite Hperm2).
  by rewrite bind_Ok.
Qed.

Lemma bucket_sort_spec `{!Rounding rnd} arr :
  Forall (λ v, (0 <= v)%Q) arr →
  ∃ out, bucketSort.bucket_sort rnd arr = Ok out ∧ out ≡ₚ arr ∧ sorted out.
Proof.
  intros Hdom.
  assert (Hidx : Forall (λ v, 0 ≤ bucketSort.bucket_index rnd (len arr) v) arr).
  { destruct arr as [|a arr]; [done|].
    eapply Forall_impl; [exact Hdom|]. intros v Hv.
    apply bucket_index_nonneg; [done|rewrite len_cons; pose proof (len_nonneg arr); lia|done]. }
  destruct (bucket_sort_run arr) as (bks1 & bks2 & _ & Hmem & Hall2 & Hrun & Hperm).
  { eapply Forall_impl; [exact Hidx|]. intros v Hv. cbn beta in *.
    pose proof (len_nonneg arr). lia. }
  exists (concat bks2). split; [done|]. split; [done|].
  assert (Hin : ∀ (k : nat) l' v, bks2 !! k = Some l' → v ∈ l' →
    v ∈ arr ∧ bucketSort.bucket_index rnd (len arr) v = Z.of_nat k).
  { intros k l' v Hk Hv.
    destruct (Forall2_lookup_r _ _ _ _ _ Hall2 Hk) as (l & Hl & Hpl & _).
    rewrite Hpl in Hv.
    assert (Hvarr : v ∈ arr).
    { rewrite <- Hperm. apply (elem_of_concat_2 _ l'); [by rewrite Hpl|].
      by eapply list_elem_of_lookup_2. }
    split; [done|].
    specialize (Hmem k l v Hl Hv). rewrite Forall_forall in Hidx.
    specialize (Hidx v Hvarr). unfold py_index in Hmem.
    repeat case_decide; try lia; try done. injection Hmem as <-. lia. }
  apply sorted_concat.
  - clear -Hall2. induction Hall2 as [|???? [_ ?]]; by constructor.
  - intros k1 k2 l1 l2 x y Hk H1 H2 Hx Hy.
    destruct (Hin k1 l1 x H1 Hx) as [_ Hix]. destruct (Hin k2 l2 y H2 Hy) as [_ Hiy].
    apply (bucket_index_lt_le rnd (len arr)); [apply len_nonneg|lia].
Qed.

(** Without the domain restriction: the run raises exactly when some
    bucket index falls below [-n], and otherwise permutes the input. *)
Lemma bucket_sort_outcome arr :
  (Forall (λ v, - len arr ≤ bucketSort.bucket_index rnd (len arr) v) arr →
     ∃ out, bucketSort.bucket_sort rnd arr = Ok out ∧ out ≡ₚ arr)
  ∧ (Exists (λ v, bucketSort.bucket_index rnd (len arr) v < - len arr) arr →
     bucketSort.bucket_sort rnd arr = Raise IndexError).
Proof.
  split.
  - intros Hall. destruct (bucket_sort_run arr Hall) as (_ & bks2 & _ & _ & _ & ? & ?).
    by exists (concat bks2).
  - intros Hex. unfold bucketSort.bucket_sort. cbv zeta.
    rewrite scatter_raise; [done| |done].
    unfold len. rewrite length_replicate. lia.
Qed.
End bucket_sort_correct.

(** ** The bucket-sort recorder follows bucketSort.py *)

Section loops_sim2.
Context {X Y S T : Type}.

Lemma for_each_sim2 (R : S → T → Prop) (P : X → Y → Prop)
    (f : X → S → result S) (g : Y → T → result T) xs ys :
  Forall2 P xs ys →
  (∀ x y s t s', P x y → R s t → f x s = Ok s' → ∃ t', g y t = Ok t' ∧ R s' t') →
  ∀ s t s', R s t → for_each xs f s = Ok s' →
    ∃ t', for_each ys g t = Ok t' ∧ R s' t'.
Proof.
  intros Hxy Hstep. induction Hxy as [|x y xs ys Hp _ IH]; intros s t s' HR Hrun.
  - injection Hrun as <-. by exists t.
  - cbn [for_each] in *. apply bind_Ok_inv in Hrun as (s1 & Hf & Hrun).
    destruct (Hstep x y s t s1 Hp HR Hf) as (t1 & -> & HR1).
    rewrite bind_Ok. by apply (IH s1).
Qed.
End loops_sim2.

Section paired_lists.
Context {X Y : Type} (P : X → Y → Prop).
Implicit Types (xs : list X) (ys : list Y).

Lemma getitem_Forall2 xs ys i x :
  Forall2 P xs ys → getitem xs i = Ok x → ∃ y, getitem ys i = Ok y ∧ P x y.
Proof.
  intros Hxy (k & Hk & Hx)%getitem_inv.
  destruct (Forall2_lookup_l _ _ _ _ _ Hxy Hx) as (y & Hy & Hp).
  exists y. split; [|done]. apply (getitem_fwd _ _ k); [|done].
  unfold len in *. by rewrite <- (Forall2_length _ _ _ Hxy).
Qed.

Lemma setitem_Forall2 xs ys i x y xs' :
  Forall2 P xs ys → P x y → setitem xs i x = Ok xs' →
  ∃ ys', setitem ys i y = Ok ys' ∧ Forall2 P xs' ys'.
Proof.
  intros Hxy Hp (k & Hk & ->)%setitem_inv.
  exists (<[k := y]> ys). split.
  - unfold setitem, len in *. by rewrite <- (Forall2_length _ _ _ Hxy), Hk.
  - by apply Forall2_insert.
Qed.

Lemma enumerate_Forall2 xs ys :
  Forall2 P xs ys →
  Forall2 (λ x (p : Z * Y), P x p.2 ∧ ys !! Z.to_nat p.1 = Some p.2 ∧ 0 ≤ p.1)
    xs (bucketsort_animation.enumerate ys).
Proof.
  intros Hxy. unfold bucketsort_animation.enumerate.
  apply Forall2_same_length_lookup. split.
  - rewrite length_zip_with, length_seqZ. unfold len.
    pose proof (Forall2_length _ _ _ Hxy). lia.
  - intros i x [oi y] Hx Hy.
    apply lookup_zip_with_Some in Hy as (oi' & y' & [= <- <-] & Hoi & Hy).
    apply lookup_seqZ in Hoi as [-> _]. cbn [fst snd].
    rewrite Z.add_0_l, Nat2Z.id. split_and!; [|done|lia].
    destruct (Forall2_lookup_l _ _ _ _ _ Hxy Hx) as (y'' & Hy'' & Hp). congruence.
Qed.
End paired_lists.

Lemma setitem_getitem {X} (l : list X) i x l' :
  setitem l i x = Ok l' → getitem l' i = Ok x.
Proof.
  intros (k & Hk & ->)%setitem_inv. apply (getitem_fwd _ _ k).
  - by rewrite len_insert.
  - apply list_lookup_insert_eq. apply py_index_lt in Hk. unfold len in *. lia.
Qed.

Section bucket_recorder.
Context (rnd : Q → Q).
Implicit Types (arr vals : list Q) (bucket : list Z)
  (evts evs : list bucketsort_animation.event).

Lemma extends_quietly_refl evts : extends_quietly evts evts.
Proof. exists []. by rewrite app_nil_r. Qed.

Lemma extends_quietly_snoc evts0 evts ev :
  extends_quietly evts0 evts → no_gather ev → extends_quietly evts0 (evts ++ [ev]).
Proof.
  intros (evs & -> & Hq) Hev. exists (evs ++ [ev]).
  split; [by rewrite app_assoc|]. apply Forall_app. split; [done|by constructor].
Qed.

Lemma replay_quiet original evs :
  Forall no_gather evs →
  ∀ out slots, ∃ slots',
    for_each evs (replay.bucketsort_record original) (out, slots) = Ok (out, slots').
Proof.
  induction 1 as [|ev evs Hev _ IH]; intros out slots; [by exists slots|].
  cbn [for_each]. destruct ev; try done; cbn [replay.bucketsort_record];
    rewrite bind_Ok; apply IH.
Qed.

Lemma scatter_step_sim arr n v oi bks bksoi evts0 evts bks' :
  Forall2 (Forall2 (item_of arr)) bks bksoi → extends_quietly evts0 evts →
  item_of arr v oi →
  bucketSort.scatter_step rnd n v bks = Ok bks' →
  ∃ bksoi' evts',
    bucketsort_animation.scatter_step rnd n (oi, v) (bksoi, evts) = Ok (bksoi', evts')
    ∧ Forall2 (Forall2 (item_of arr)) bks' bksoi' ∧ extends_quietly evts0 evts'.
Proof.
  intros HR Hq Hitem Hstep. unfold bucketSort.scatter_step in Hstep. cbv zeta in Hstep.
  apply bind_Ok_inv in Hstep as (b & Hb & Hset).
  destruct (getitem_Forall2 _ _ _ _ _ HR Hb) as (boi & Hboi & Hbb).
  assert (Hnew : Forall2 (item_of arr) (b ++ [v]) (boi ++ [oi])).
  { apply Forall2_app; [done|]. by repeat constructor. }
  destruct (setitem_Forall2 _ _ _ _ _ _ _ HR Hnew Hset) as (bksoi' & Hset' & HR').
  unfold bucketsort_animation.scatter_step. cbv zeta.
  rewrite Hboi, bind_Ok, Hset', bind_Ok.
  eexists _, _. split; [done|]. split; [done|].
  by apply extends_quietly_snoc.
Qed.

Lemma vals_of_bucket arr :
  ∀ bucket vals acc,
    Forall2 (item_of arr) vals bucket →
    for_each bucket (λ oi vals, getitem arr oi ≫= λ v, Ok (vals ++ [v])) acc
    = Ok (acc ++ vals).
Proof.
  intros bucket vals acc HR. revert acc.
  induction HR as [|v oi vals bucket Hv _ IH]; intros acc.
  - by rewrite app_nil_r.
  - cbn [for_each]. unfold item_of in Hv. rewrite Hv, !bind_Ok, IH.
    by rewrite <- app_assoc.
Qed.

Lemma shift_right_sim arr bi key key_oi fuel :
  ∀ vals bucket evts0 evts j vals' j',
    Forall2 (item_of arr) vals bucket → extends_quietly evts0 evts →
    bucketSort.shift_right fuel vals key j = Ok (vals', j') →
    ∃ bucket' evts',
      bucketsort_animation.shift_right fuel bi key key_oi vals bucket evts j
      = Ok (vals', bucket', evts', j')
      ∧ Forall2 (item_of arr) vals' bucket' ∧ extends_quietly evts0 evts'.
Proof.
  induction fuel as [|fuel IH]; intros vals bucket evts0 evts j vals' j' HR Hq Hrun;
    cbn [bucketSort.shift_right bucketsort_animation.shift_right] in *;
    (destruct (decide (j >= 0)); [|injection Hrun as <- <-; by eexists _, _]);
    apply bind_Ok_inv in Hrun as (vj & Hvj & Hrun); rewrite Hvj, bind_Ok;
    (destruct (gt_b vj key); [|injection Hrun as <- <-; by eexists _, _]);
    [done|].
  rewrite Hvj, bind_Ok in Hrun.
  apply bind_Ok_inv in Hrun as (vals1 & Hset & Hrun).
  destruct (getitem_Forall2 _ _ _ _ _ HR Hvj) as (oi_j & Hoi_j & Hitem).
  destruct (setitem_Forall2 _ _ _ _ vj oi_j _ HR Hitem Hset) as (bucket1 & Hset' & HR1).
  pose proof (setitem_getitem _ _ _ _ Hset') as Hget'.
  pose proof (setitem_getitem _ _ _ _ Hset) as Hget.
  repeat first [rewrite bind_Ok | rewrite Hoi_j | rewrite Hvj | rewrite Hset
               | rewrite Hset' | rewrite Hget' | rewrite Hget].
  eapply IH; [done| |done].
  by do 2 (apply extends_quietly_snoc; [|done]).
Qed.

Lemma isort_step_sim arr bi i vals bucket evts0 evts vals' :
  Forall2 (item_of arr) vals bucket → extends_quietly evts0 evts →
  bucketSort.insertion_step i vals = Ok vals' →
  ∃ bucket' evts',
    bucketsort_animation.isort_step bi i (vals, bucket, evts)
    = Ok (vals', bucket', evts')
    ∧ Forall2 (item_of arr) vals' bucket' ∧ extends_quietly evts0 evts'.
Proof.
  intros HR Hq. rewrite insertion_step_eq. intros Hrun.
  apply bind_Ok_inv in Hrun as (key & Hkey & Hrun).
  apply bind_Ok_inv in Hrun as ([vals1 j] & Hshift & Hset).
  destruct (getitem_Forall2 _ _ _ _ _ HR Hkey) as (key_oi & Hkey_oi & Hitem).
  unfold bucketsort_animation.isort_step. cbv zeta.
  rewrite Hkey, bind_Ok, Hkey_oi, bind_Ok.
  edestruct (shift_right_sim arr bi key key_oi) as (bucket1 & evts1 & -> & HR1 & Hq1);
    [exact HR| |exact Hshift|].
  { apply extends_quietly_snoc; [exact Hq|done]. }
  rewrite bind_Ok. cbv beta iota.
  destruct (setitem_Forall2 _ _ _ _ key key_oi _ HR1 Hitem Hset) as (bucket' & Hset' & HR').
  rewrite Hset, bind_Ok, Hset', bind_Ok.
  eexists _, _. split; [done|]. split; [done|].
  by apply extends_quietly_snoc.
Qed.

Lemma isort_bucket_sim arr bi vals bucket evts0 evts vals' :
  Forall2 (item_of arr) vals bucket → extends_quietly evts0 evts →
  bucketSort.insertion_sort vals = Ok vals' →
  ∃ bucket' evts',
    bucketsort_animation.isort_bucket arr bi bucket evts = Ok (bucket', evts')
    ∧ Forall2 (item_of arr) vals' bucket' ∧ extends_quietly evts0 evts'.
Proof.
  intros HR Hq Hrun. unfold bucketsort_animation.isort_bucket.
  rewrite (vals_of_bucket arr bucket vals [] HR), bind_Ok. cbn [app].
  assert (Hlen : len bucket = len vals).
  { unfold len. by rewrite (Forall2_length _ _ _ HR). }
  unfold bucketSort.insertion_sort in Hrun.
  destruct (decide (len bucket ≤ 1)) as [Hle|Hgt].
  - rewrite range_nil in Hrun by lia. injection Hrun as <-.
    destruct (decide (len bucket = 1)); eexists _, _; (split; [done|]);
      (split; [done|]); [by apply extends_quietly_snoc|done].
  - cbv zeta.
    set (evts1 := evts ++ [_]).
    destruct (for_each_sim
      (λ (s : list Q) (t : list Q * list Z * list bucketsort_animation.event),
         t.1.1 = s ∧ Forall2 (item_of arr) s t.1.2 ∧ extends_quietly evts0 t.2)
      (range 1 (len vals)) bucketSort.insertion_step
      (bucketsort_animation.isort_step bi))
      with (s := vals) (t := (vals, bucket, evts1)) (s' := vals')
      as ([[vals2 bucket2] evts2] & -> & Hv & HR2 & Hq2).
    + intros i s [[s2 b2] e2] s' _ (Hs & HRs & Hqs) Hstep. cbn [fst snd] in *. subst s2.
      destruct (isort_step_sim arr bi i s b2 evts0 e2 s' HRs Hqs Hstep)
        as (b' & e' & -> & ? & ?).
      by eexists.
    + cbn [fst snd]. split_and!; [done|done|].
      subst evts1. by apply extends_quietly_snoc.
    + done.
    + rewrite bind_Ok. cbn [fst snd] in *. subst vals2.
      eexists _, _. split; [done|]. split; [done|].
      by apply extends_quietly_snoc.
Qed.

Lemma isort_buckets_sim arr bks bksoi evts0 evts bks2 :
  Forall2 (Forall2 (item_of arr)) bks bksoi → extends_quietly evts0 evts →
  bucketSort.sort_buckets bks = Ok bks2 →
  ∃ bksoi2 evts',
    bucketsort_animation.isort_buckets arr bksoi evts = Ok (bksoi2, evts')
    ∧ Forall2 (Forall2 (item_of arr)) bks2 bksoi2 ∧ extends_quietly evts0 evts'.
Proof.
  intros HR Hq Hrun.
  unfold bucketSort.sort_buckets in Hrun. unfold bucketsort_animation.isort_buckets.
  destruct (for_each_sim2
    (λ (s : list (list Q)) (t : list (list Z) * list bucketsort_animation.event),
       Forall2 (Forall2 (item_of arr)) s t.1 ∧ extends_quietly evts0 t.2)
    (λ (b : list Q) (p : Z * list Z), Forall2 (item_of arr) b p.2)
    bucketSort.sort_step (bucketsort_animation.isort_buckets_step arr)
    bks (bucketsort_animation.enumerate bksoi))
    with (s := @nil (list Q)) (t := (@nil (list Z), evts)) (s' := bks2)
    as ([bksoi2 evts2] & Hrec & HR2 & Hq2).
  - eapply Forall2_impl; [apply (enumerate_Forall2 _ _ _ HR)|]. by intros b p [? _].
  - intros b [bi boi] acc [visited e] acc' Hb [HRa Hqa] Hstep. cbn [fst snd] in *.
    rewrite sort_step_eq in Hstep. apply bind_Ok_inv in Hstep as (b' & Hsort & [= <-]).
    destruct (isort_bucket_sim arr bi b boi evts0 e b' Hb Hqa Hsort)
      as (boi' & e' & Hrec & HRb & Hqb).
    unfold bucketsort_animation.isort_buckets_step. rewrite Hrec, bind_Ok.
    eexists. split; [done|]. cbn [fst snd]. split; [|done].
    apply Forall2_app; [done|]. by repeat constructor.
  - by split.
  - done.
  - by exists bksoi2, evts2.
Qed.

Lemma gather_sim arr bks bksoi out idx evts out' idx' :
  Forall2 (Forall2 (item_of arr)) bks bksoi →
  for_each bks (λ b st, for_each b bucketSort.store_step st) (out, idx)
  = Ok (out', idx') →
  ∃ evs,
    bucketsort_animation.gather arr bksoi (evts, idx) = Ok (evts ++ evs, idx')
    ∧ ∀ slots,
        for_each evs (replay.bucketsort_record arr) (out, slots) = Ok (out', slots).
Proof.
  intros HR Hrun. unfold bucketsort_animation.gather.
  set (R := λ (s : list Q * Z) (t : list bucketsort_animation.event * Z),
    t.2 = s.2 ∧ ∃ evs, t.1 = evts ++ evs
      ∧ ∀ slots, for_each evs (replay.bucketsort_record arr) (out, slots)
                 = Ok (s.1, slots)).
  destruct (for_each_sim2 R
    (λ (b : list Q) (p : Z * list Z), Forall2 (item_of arr) b p.2)
    (λ b st, for_each b bucketSort.store_step st)
    (λ '(bi, bucket) st,
       for_each (bucketsort_animation.enumerate bucket)
         (bucketsort_animation.gather_step arr bi) st)
    bks (bucketsort_animation.enumerate bksoi))
    with (s := (out, idx)) (t := (evts, idx)) (s' := (out', idx'))
    as ([evts' idx''] & Hrec & Hidx & evs & Hevs & Hrep).
  - eapply Forall2_impl; [apply (enumerate_Forall2 _ _ _ HR)|]. by intros b p [? _].
  - intros b [bi boi] s t s' Hb HRs Hstep. cbn [fst snd] in Hb.
    refine (for_each_sim2 R (λ (v : Q) (p : Z * Z), item_of arr v p.2)
             bucketSort.store_step (bucketsort_animation.gather_step arr bi)
             b (bucketsort_animation.enumerate boi) _ _ s t s' HRs Hstep).
    + eapply Forall2_impl; [apply (enumerate_Forall2 _ _ _ Hb)|]. by intros v p [? _].
    + clear. intros v [slot oi] [out1 idx1] [evts1 dest1] s' Hv (Hd & evs & He & Hrep) Hstep.
      cbn [fst snd] in *. subst dest1 evts1.
      rewrite store_step_eq in Hstep.
      apply bind_Ok_inv in Hstep as (out2 & Hset & [= <-]).
      unfold bucketsort_animation.gather_step. unfold item_of in Hv. rewrite Hv, bind_Ok.
      eexists. split; [done|]. split; [done|]. cbn [fst snd].
      eexists. split; [by rewrite <- app_assoc|].
      intros slots. rewrite for_each_app, Hrep, bind_Ok.
      cbn [for_each replay.bucketsort_record]. by rewrite Hv, bind_Ok, Hset, !bind_Ok.
  - split; [done|]. exists []. split; [by rewrite app_nil_r|done].
  - done.
  - cbn [fst snd] in *. subst. by exists evs.
Qed.

Lemma enumerate_item_of arr :
  Forall2 (λ (v : Q) (p : Z * Q), p.2 = v ∧ item_of arr v p.1)
    arr (bucketsort_animation.enumerate arr).
Proof.
  eapply Forall2_impl; [apply (enumerate_Forall2 eq arr arr)|].
  - clear. induction arr; by constructor.
  - intros v [oi w] (Hw & Hlook & Hoi). cbn [fst snd] in *. subst w.
    split; [done|]. by apply getitem_lookup.
Qed.

Lemma scatter_sim arr n bks bksoi evts bks' :
  Forall2 (Forall2 (item_of arr)) bks bksoi →
  bucketSort.scatter rnd n arr bks = Ok bks' →
  ∃ bksoi' evts',
    bucketsort_animation.scatter rnd n arr (bksoi, evts) = Ok (bksoi', evts')
    ∧ Forall2 (Forall2 (item_of arr)) bks' bksoi' ∧ extends_quietly evts evts'.
Proof.
  intros HR Hrun. unfold bucketSort.scatter in Hrun. unfold bucketsort_animation.scatter.
  destruct (for_each_sim2
    (λ (s : list (list Q)) (t : list (list Z) * list bucketsort_animation.event),
       Forall2 (Forall2 (item_of arr)) s t.1 ∧ extends_quietly evts t.2)
    (λ (v : Q) (p : Z * Q), p.2 = v ∧ item_of arr v p.1)
    (bucketSort.scatter_step rnd n) (bucketsort_animation.scatter_step rnd n)
    arr (bucketsort_animation.enumerate arr))
    with (s := bks) (t := (bksoi, evts)) (s' := bks')
    as ([bksoi' evts'] & Hrec & HR' & Hq').
  - apply enumerate_item_of.
  - intros v [oi w] s [boi e] s' [Hw Hitem] [HRs Hqs] Hstep. cbn [fst snd] in *. subst w.
    destruct (scatter_step_sim arr n v oi s boi evts e s' HRs Hqs Hitem Hstep)
      as (boi' & e' & -> & ? & ?).
    by eexists.
  - split; [done|]. apply extends_quietly_refl.
  - done.
  - by exists bksoi', evts'.
Qed.

Lemma bucketsort_replay arr out :
  bucketSort.bucket_sort rnd arr = Ok out →
  ∃ evts buckets,
    bucketsort_animation.record_events rnd arr = Ok (evts, buckets)
    ∧ replay.bucketsort evts arr = Ok out.
Proof.
  unfold bucketSort.bucket_sort, bucketsort_animation.record_events. cbv zeta.
  intros Hrun. apply bind_Ok_inv in Hrun as (bks1 & Hscatter & Hrun).
  apply bind_Ok_inv in Hrun as (bks2 & Hsort & Hrun).
  apply bind_Ok_inv in Hrun as ([out' idx'] & Hgather & [= <-]).
  destruct (scatter_sim arr (len arr) (replicate (Z.to_nat (len arr)) [])
              (replicate (Z.to_nat (len arr)) []) [] bks1)
    as (bksoi1 & evts1 & -> & HR1 & Hq1); [|done|].
  { apply Forall2_replicate. constructor. }
  rewrite bind_Ok. cbv beta iota.
  destruct (isort_buckets_sim arr bks1 bksoi1 [] evts1 bks2 HR1 Hq1 Hsort)
    as (bksoi2 & evts2 & -> & HR2 & Hq2).
  rewrite bind_Ok. cbv beta iota.
  unfold bucketSort.gather in Hgather.
  match goal with
  | |- context [bucketsort_animation.gather arr bksoi2 (?e, 0)] =>
      destruct (gather_sim arr bks2 bksoi2 arr 0 e out' idx' HR2 Hgather)
        as (evs3 & -> & Hrep3)
  end.
  rewrite bind_Ok. cbv beta iota. eexists _, _. split; [done|].
  destruct Hq2 as (evs2 & -> & Hquiet2). cbn [app].
  destruct (replay_quiet arr evs2 Hquiet2 arr (∅ : gmap Z (Z * Z))) as [slots' Hrep2].
  unfold replay.bucketsort.
  rewrite !for_each_app, Hrep2, bind_Ok.
  cbn [for_each replay.bucketsort_record]. rewrite !bind_Ok, Hrep3.
  by rewrite !bind_Ok.
Qed.
End bucket_recorder.

(** ** Small facts for the claims *)

#[global] Instance exact_rounding : Rounding exact.
Proof. split; [by intros x y|reflexivity]. Qed.

Lemma in_unit_nonneg (arr : list Q) : Forall in_unit arr → Forall (λ v, (0 <= v)%Q) arr.
Proof. intros Hdom. eapply Forall_impl; [exact Hdom|]. by intros v [? _]. Qed.

Lemma tagged_ties (v : Z) (l : list tagged) :
  filter (λ p : tagged, p.1 = v) l = ties (v, 0%nat) l.
Proof.
  unfold ties. apply list_filter_iff. intros [w i].
  unfold tied, le_b, tagged_comparable. cbn [fst].
  rewrite andb_true_iff, !Z.leb_le. lia.
Qed.

Lemma unit_bucket_index (rnd : Q → Q) `{!Rounding rnd} (v : Q) :
  in_unit v → bucketSort.bucket_index rnd 1 v = 0.
Proof.
  intros [Hv _].
  pose proof (bucket_index_nonneg rnd 1 v ltac:(lia) Hv).
  pose proof (bucket_index_upper rnd 1 v). lia.
Qed.

(** ** The sort engines: stability, ranges, bounds and depth *)

Section stable_sorts.
Context `{ComparableLaws A}.
Implicit Types (l pre rest P S : list A) (x y key : A).

Lemma tied_refl x : tied x x = true.
Proof. unfold tied. by rewrite (le_refl x). Qed.

Lemma ties_cons x a l :
  ties x (a :: l) = if tied x a then a :: ties x l else ties x l.
Proof.
  unfold ties. rewrite filter_cons.
  destruct (tied x a); by destruct (decide _).
Qed.

(** A sorted list is determined by its items and by the order in which
    tied items occur. *)
Lemma stable_sorted_unique l1 l2 :
  sorted l1 → sorted l2 → l1 ≡ₚ l2 → (∀ x, ties x l1 = ties x l2) → l1 = l2.
Proof.
  unfold sorted. revert l2. induction l1 as [|a l1 IH]; intros l2 H1 H2 Hperm Hties.
  - by apply Permutation_nil in Hperm.
  - destruct l2 as [|b l2]; [by apply Permutation_sym, Permutation_nil in Hperm|].
    apply StronglySorted_inv in H1 as [H1 Ha].
    apply StronglySorted_inv in H2 as [H2 Hb].
    assert (Hab : le a b).
    { assert (Hin : b ∈ a :: l1) by (rewrite Hperm; by left).
      apply elem_of_cons in Hin as [->|Hin]; [apply le_refl|].
      rewrite Forall_forall in Ha. by apply Ha. }
    assert (Hba : le b a).
    { assert (Hin : a ∈ b :: l2) by (rewrite <- Hperm; by left).
      apply elem_of_cons in Hin as [->|Hin]; [apply le_refl|].
      rewrite Forall_forall in Hb. by apply Hb. }
    pose proof (Hties a) as Hta. rewrite !ties_cons, tied_refl in Hta.
    unfold tied in Hta at 1. unfold le in Hab, Hba. rewrite Hab, Hba in Hta.
    cbn [andb] in Hta. injection Hta as <- Hta.
    f_equal. apply IH; [done|done|by apply Permutation_cons_inv in Hperm|].
    intros x. specialize (Hties x). rewrite !ties_cons in Hties.
    destruct (tied x a); [by injection Hties|done].
Qed.

(** Items that were shifted past [key] are not tied with it. *)
Lemma ties_insert x key P S :
  Forall (λ y, gt_b y key = true) S →
  ties x (P ++ key :: S) = ties x ((P ++ S) ++ [key]).
Proof.
  intros HS. rewrite !ties_app, !ties_cons, <- app_assoc. f_equal.
  destruct (tied x key) eqn:Hx; [|by rewrite app_nil_r].
  assert (Hnone : ties x S = []); [|by rewrite Hnone].
  apply andb_true_iff in Hx as [Hxk Hkx].
  induction HS as [|y S Hy HS IH]; [done|].
  rewrite ties_cons, IH. destruct (tied x y) eqn:Hxy; [|done].
  apply andb_true_iff in Hxy as [_ Hyx].
  unfold gt_b, lt_b in Hy. apply negb_true_iff in Hy.
  pose proof (le_b_trans _ _ _ Hyx Hxk). congruence.
Qed.

Lemma insertion_loop_ties :
  ∀ rest pre i n,
    i = len pre → n = len (pre ++ rest) → (rest ≠ [] → pre ≠ []) →
    ∃ out,
      for_each (range i n) bucketSort.insertion_step (pre ++ rest) = Ok out
      ∧ ∀ x, ties x out = ties x (pre ++ rest).
Proof.
  induction rest as [|key rest IH]; intros pre i n Hi Hn Hne.
  - rewrite range_nil by len_solve. by exists (pre ++ []).
  - rewrite range_cons by len_solve. cbn [for_each].
    rewrite insertion_step_eq.
    rewrite (getitem_at _ pre key rest); [|done|done]. rewrite bind_Ok.
    destruct (shift_right_spec key rest pre [] key (Z.to_nat i) (i - 1))
      as (P1 & S1 & d' & Hrun & Heq & HS1 & _);
      [lia|unfold len in *; lia|done|].
    cbn [app] in Hrun. rewrite Hrun, bind_Ok. cbv beta iota.
    rewrite (setitem_at _ P1 d' (S1 ++ rest) _ key); [|done|lia].
    rewrite bind_Ok. rewrite app_nil_r in Heq. subst pre.
    destruct (IH (P1 ++ key :: S1) (i + 1) n) as (out & Hout & Hties).
    + len_solve.
    + len_solve.
    + intros _. by destruct P1.
    + exists out. split.
      { rewrite <- Hout. f_equal. by list_norm. }
      intros x. rewrite Hties, (ties_app x (P1 ++ key :: S1)), ties_insert by done.
      rewrite !ties_app, !ties_cons, <- !app_assoc.
      by destruct (tied x key).
Qed.

Lemma insertion_sort_ties l :
  ∃ out, bucketSort.insertion_sort l = Ok out
         ∧ out ≡ₚ l ∧ sorted out ∧ ∀ x, ties x out = ties x l.
Proof.
  destruct (insertion_sort_spec l) as (out & Hrun & Hperm & Hsorted).
  exists out. split_and!; try done.
  unfold bucketSort.insertion_sort in Hrun. destruct l as [|a rest].
  - rewrite range_nil in Hrun by (rewrite len_nil; lia). by injection Hrun as <-.
  - destruct (insertion_loop_ties rest [a] 1 (len (a :: rest)))
      as (out' & Hrun' & Hties); [done|done|done|].
    cbn [app] in Hrun'. rewrite Hrun in Hrun'. by injection Hrun' as <-.
Qed.

Lemma mergeSort_fixes_sorted l :
  sorted l → margeSort.mergeSort l 0 (len l - 1) = Ok l.
Proof.
  intros Hl. destruct (mergeSort_spec l) as (out & -> & Hperm & Hsorted & Hties).
  f_equal. by apply stable_sorted_unique.
Qed.

Lemma insertion_sort_fixes_sorted l :
  sorted l → bucketSort.insertion_sort l = Ok l.
Proof.
  intros Hl. destruct (insertion_sort_ties l) as (out & -> & Hperm & Hsorted & Hties).
  f_equal. by apply stable_sorted_unique.
Qed.

Lemma insertion_sort_mergeSort l :
  bucketSort.insertion_sort l = margeSort.mergeSort l 0 (len l - 1).
Proof.
  destruct (insertion_sort_ties l) as (out1 & -> & Hperm1 & Hsorted1 & Hties1).
  destruct (mergeSort_spec l) as (out2 & -> & Hperm2 & Hsorted2 & Hties2).
  f_equal. apply stable_sorted_unique; [done|done|by rewrite Hperm1, Hperm2|].
  intros x. by rewrite Hties1, Hties2.
Qed.
End stable_sorts.

Section index_errors.
Context {A : Type}.
Implicit Types (arr : list A) (i : Z).

Lemma getitem_invalid arr i :
  ¬ (- len arr ≤ i < len arr) → getitem arr i = Raise IndexError.
Proof. intros Hi. unfold getitem. by rewrite py_index_invalid. Qed.

Lemma range_app a b c : a ≤ b ≤ c → range a c = range a b ++ range b c.
Proof.
  intros Habc. unfold range.
  replace (c - a) with ((b - a) + (c - b)) by lia.
  rewrite seqZ_app by lia. do 2 f_equal. lia.
Qed.
End index_errors.

Section quicksort_more.
Context `{ComparableLaws A}.
Implicit Types (arr pre post seg rest : list A) (pivot p : A).

Lemma quickSort_empty_range f arr low high :
  high ≤ low → quickSort.quickSort (frames := S f) arr low high = Ok arr.
Proof.
  intros Hle. rewrite quickSort_eq. by rewrite decide_False by lia.
Qed.

Lemma quickSort_high_invalid f arr low high :
  low < high → ¬ (- len arr ≤ high < len arr) →
  quickSort.quickSort (frames := S (S f)) arr low high = Raise IndexError.
Proof.
  intros Hlt Hhigh. rewrite quickSort_eq, decide_True by done.
  unfold quickSort.partition. rewrite call_S. by rewrite getitem_invalid.
Qed.

Lemma quickSort_range f pre seg post :
  len seg + 1 ≤ Z.of_nat f →
  ∃ seg',
    quickSort.quickSort (frames := f) (pre ++ seg ++ post) (len pre)
      (len pre + len seg - 1)
    = Ok (pre ++ seg' ++ post)
    ∧ seg' ≡ₚ seg ∧ sorted seg'.
Proof.
  intros Hf. apply quickSort_range_spec; [unfold len in *; lia|done|done].
Qed.

Lemma scan_all_less f pivot pre post :
  ∀ rest done j hi i,
    j = len pre + len done → hi = j + len rest → i = j - 1 →
    Forall (λ x, lt_b x pivot = true) rest →
    for_each (range j hi) (quickSort.scan_step (frames := S f) pivot)
      (pre ++ done ++ rest ++ post, i)
    = Ok (pre ++ done ++ rest ++ post, hi - 1).
Proof.
  induction rest as [|x rest IH]; intros done j hi i Hj Hhi Hi Hrest.
  - rewrite range_nil by len_solve. do 2 f_equal. len_solve.
  - rewrite range_cons by len_solve. cbn [for_each]. rewrite scan_step_eq.
    apply Forall_cons in Hrest as [Hx Hrest].
    rewrite (getitem_at _ (pre ++ done) x (rest ++ post)); [|by list_norm|len_solve].
    rewrite bind_Ok, Hx.
    rewrite (exchange_at_same _ (pre ++ done) x (rest ++ post));
      [|by list_norm|len_solve|len_solve].
    rewrite !bind_Ok.
    replace (pre ++ done ++ (x :: rest) ++ post)
      with (pre ++ (done ++ [x]) ++ rest ++ post) by (by list_norm).
    apply IH; [len_solve..|done].
Qed.

Lemma partition_of_largest f pre seg p post :
  Forall (λ x, lt_b x p = true) seg →
  quickSort.partition (frames := S (S f)) (pre ++ seg ++ p :: post) (len pre)
    (len pre + len seg)
  = Ok (pre ++ seg ++ p :: post, len pre + len seg).
Proof.
  intros Hseg. rewrite partition_eq.
  rewrite (getitem_at _ (pre ++ seg) p post); [|by list_norm|len_solve].
  rewrite bind_Ok.
  pose proof (scan_all_less f p pre (p :: post) seg [] (len pre) (len pre + len seg)
                (len pre - 1)) as Hscan.
  cbn [app] in Hscan. rewrite Hscan; [|len_solve..|done].
  rewrite bind_Ok. cbv beta iota.
  rewrite (exchange_at_same _ (pre ++ seg) p post); [|by list_norm|len_solve|len_solve].
  rewrite bind_Ok. do 2 f_equal. lia.
Qed.

Lemma scan_step_limit pivot j arr i :
  quickSort.scan_step (frames := O) pivot j (arr, i) =
  getitem arr j ≫= λ aj,
    if lt_b aj pivot then Raise RecursionError else Ok (arr, i).
Proof. reflexivity. Qed.

(** With one call left, [partition] reaches the limit at the first
    [swap] of its scan. *)
Lemma partition_of_largest_limit f pre x seg p post :
  (f < 2)%nat → lt_b x p = true →
  quickSort.partition (frames := f) (pre ++ (x :: seg) ++ p :: post) (len pre)
    (len pre + len (x :: seg))
  = Raise RecursionError.
Proof.
  intros Hf Hx. destruct f as [|[|f]]; [done| |lia].
  unfold quickSort.partition. rewrite call_S.
  rewrite (getitem_at _ (pre ++ x :: seg) p post); [|by list_norm|len_solve].
  rewrite bind_Ok. cbv zeta. rewrite range_cons by len_solve. cbn [for_each].
  rewrite scan_step_limit.
  rewrite (getitem_at _ pre x (seg ++ p :: post)); [|by list_norm|len_solve].
  by rewrite bind_Ok, Hx.
Qed.

Lemma increasing_snoc_inv seg p :
  increasing (seg ++ [p]) → increasing seg ∧ Forall (λ x, lt_b x p = true) seg.
Proof.
  unfold increasing. induction seg as [|x seg IH]; cbn [app]; intros Hs.
  - split; constructor.
  - apply StronglySorted_inv in Hs as [Hs Hx].
    destruct (IH Hs) as [Hseg Hp].
    apply Forall_app in Hx as [Hx Hxp]. apply Forall_cons_1 in Hxp as [Hxp _].
    split; by constructor.
Qed.

(** On an increasing range of two items or more every partition leaves
    the range as it is and returns its last position: the recursion
    goes on with the range shortened by one item, down to two items,
    where [partition] and [swap] nest two calls deeper. *)
Lemma quickSort_increasing f :
  ∀ seg pre post,
    increasing seg → 2 ≤ len seg →
    quickSort.quickSort (frames := f) (pre ++ seg ++ post) (len pre)
      (len pre + len seg - 1)
    = if decide (len seg + 1 ≤ Z.of_nat f) then Ok (pre ++ seg ++ post)
      else Raise RecursionError.
Proof.
  induction f as [|f IH]; intros seg pre post Hseg Hlen.
  - by rewrite decide_False by lia.
  - rewrite quickSort_eq, decide_True by lia.
    destruct seg as [|p seg0 _] using rev_ind; [len_solve|].
    apply increasing_snoc_inv in Hseg as [Hseg0 Hp].
    replace (pre ++ (seg0 ++ [p]) ++ post) with (pre ++ seg0 ++ p :: post)
      by (by list_norm).
    replace (len pre + len (seg0 ++ [p]) - 1) with (len pre + len seg0) by len_solve.
    destruct (decide (f < 2)%nat) as [Hf|Hf].
    + destruct seg0 as [|x seg0]; [len_solve|].
      apply Forall_cons in Hp as [Hx _].
      rewrite partition_of_largest_limit by done.
      by rewrite decide_False by len_solve.
    + destruct f as [|[|f]]; [lia..|].
      rewrite partition_of_largest by done. rewrite bind_Ok. cbv beta iota.
      destruct (decide (2 ≤ len seg0)) as [Hlen0|Hlen0].
      * rewrite (IH seg0 pre (p :: post) Hseg0 Hlen0).
        destruct (decide (len seg0 + 1 ≤ Z.of_nat (S (S f)))).
        -- rewrite bind_Ok, decide_True by len_solve.
           apply quickSort_empty_range. lia.
        -- by rewrite decide_False by len_solve.
      * replace (len pre + len seg0 - 1) with (len pre) by len_solve.
        rewrite quickSort_empty_range by lia.
        rewrite bind_Ok, decide_True by len_solve.
        apply quickSort_empty_range. lia.
Qed.
End quicksort_more.

Lemma increasing_seqZ (a n : Z) : increasing (seqZ a n).
Proof.
  remember (Z.to_nat n) as k eqn:Hk. revert a n Hk.
  induction k as [|k IH]; intros a n Hk.
  - rewrite seqZ_nil by lia. constructor.
  - rewrite seqZ_cons by lia. constructor; [apply IH; lia|].
    apply Forall_forall. intros y Hy. apply elem_of_seqZ in Hy.
    unfold lt_b, le_b, Z_comparable. apply negb_true_iff, Z.leb_gt. lia.
Qed.

Section heapsort_more.
Context `{ComparableLaws A}.
Implicit Types (arr : list A) (n i k : Z).

(** A sift-down from a node whose two subtrees are heaps. *)
Lemma heapify_sift arr n i :
  0 ≤ i < n → n ≤ len arr → heap_from arr n (i + 1) →
  ∃ arr',
    heapSort.heapify arr n i = Ok arr'
    ∧ arr' ≡ₚ arr
    ∧ heap_from arr' n i
    ∧ ∀ k : nat, (Z.of_nat k < i ∨ n ≤ Z.of_nat k) → arr' !! k = arr !! k.
Proof.
  intros Hi Hn Hheap. apply heapify_spec; [lia|lia|done| |].
  - intros k Hk Hne. apply Hheap. lia.
  - intros p c x y Hp [Hc|Hc]; lia.
Qed.

Lemma heapify_child_invalid arr n i :
  0 ≤ i → 2 * i + 1 < n → len arr ≤ 2 * i + 1 →
  heapSort.heapify arr n i = Raise IndexError.
Proof.
  intros Hi Hn Hlen. unfold heapSort.heapify.
  destruct (Z.to_nat n); cbn [heapSort.heapify_rec]; cbv zeta;
    unfold heapSort.pick_larger; rewrite decide_True by done;
    by rewrite (getitem_invalid arr (2 * i + 1)) by lia.
Qed.

(** The first loop of [heapSort]. *)
Lemma build_heap arr :
  ∃ heap,
    for_each (range_down (len arr `div` 2 - 1) (-1))
      (λ i arr0, heapSort.heapify arr0 (len arr) i) arr = Ok heap
    ∧ heap ≡ₚ arr
    ∧ heap_from heap (len arr) 0.
Proof.
  pose proof (len_nonneg arr) as Hlen.
  pose proof (Z.div_mod (len arr) 2 ltac:(lia)) as Hdiv.
  pose proof (Z.mod_pos_bound (len arr) 2 ltac:(lia)) as Hmod.
  destruct (build_spec (len arr) (Z.to_nat (len arr `div` 2)) arr)
    as (heap & Hrun & Hperm & Hheap); [lia|lia| |].
  - intros k Hk c x y [Hc|Hc] Hcn; lia.
  - exists heap. rewrite Z2Nat.id in Hrun by lia. done.
Qed.

Lemma heap_root_largest heap v0 :
  heap_from heap (len heap) 0 → heap !! 0%nat = Some v0 → Forall (λ x, le x v0) heap.
Proof.
  intros Hheap Hv0. apply Forall_forall. intros x Hx.
  apply list_elem_of_lookup in Hx as [k Hk].
  apply (heap_root_max heap (len heap) v0 Hheap ltac:(lia) Hv0 k x); [|done].
  apply lookup_lt_Some in Hk. unfold len. lia.
Qed.
End heapsort_more.

Section mergesort_more.
Context `{ComparableLaws A}.
Implicit Types (arr pre post seg L R : list A).

Lemma copy_run_past pre seg n :
  len seg < n →
  margeSort.copy_run (pre ++ seg ++ []) (len pre) n = Raise IndexError.
Proof.
  intros Hn. unfold margeSort.copy_run.
  pose proof (len_nonneg seg) as Hseg.
  rewrite (range_app 0 (len seg) n) by lia. rewrite for_each_app.
  pose proof (copy_run_spec pre [] (len pre) eq_refl seg [] (len seg) eq_refl) as Hcopy.
  cbn [app] in Hcopy. change (len []) with 0 in Hcopy.
  rewrite Hcopy, bind_Ok, range_cons by lia. cbn [for_each].
  by rewrite getitem_invalid by len_solve.
Qed.

Lemma copy_run_invalid arr start n :
  0 ≤ start → 0 < n → len arr < start + n →
  margeSort.copy_run arr start n = Raise IndexError.
Proof.
  intros Hstart Hn Hlen.
  destruct (decide (start ≤ len arr)) as [Hle|Hgt].
  - set (pre := take (Z.to_nat start) arr). set (seg := drop (Z.to_nat start) arr).
    assert (Harr : arr = pre ++ seg ++ [])
      by (subst pre seg; by rewrite app_nil_r, take_drop).
    assert (Hpre : start = len pre)
      by (subst pre; unfold len in *; rewrite length_take; lia).
    assert (Hseg : len seg < n)
      by (subst seg; unfold len in *; rewrite length_drop; lia).
    clearbody pre seg. subst arr start. by apply copy_run_past.
  - unfold margeSort.copy_run. rewrite range_cons by lia. cbn [for_each].
    by rewrite getitem_invalid by lia.
Qed.

Lemma copy_run_valid arr start n :
  0 ≤ start → 0 ≤ n → start + n ≤ len arr →
  ∃ run, margeSort.copy_run arr start n = Ok run ∧ len run = n.
Proof.
  intros Hstart Hn Hlen.
  exists (take (Z.to_nat n) (drop (Z.to_nat start) arr)).
  assert (Hl : len (take (Z.to_nat start) arr) = start).
  { unfold len in *. rewrite length_take. lia. }
  assert (Hm : len (take (Z.to_nat n) (drop (Z.to_nat start) arr)) = n).
  { unfold len in *. rewrite length_take, length_drop. lia. }
  split; [|done].
  set (pre := take (Z.to_nat start) arr) in *.
  set (seg := take (Z.to_nat n) (drop (Z.to_nat start) arr)) in *.
  assert (Harr : arr = pre ++ seg ++ drop (Z.to_nat n) (drop (Z.to_nat start) arr))
    by (subst pre seg; by rewrite !take_drop).
  rewrite Harr at 1. by apply copy_run_seg.
Qed.

Lemma merge_right_invalid arr left mid right :
  0 ≤ left ≤ mid → mid ≤ right → len arr ≤ right →
  margeSort.merge arr left mid right = Raise IndexError.
Proof.
  intros Hleft Hmid Hright. unfold margeSort.merge. cbv zeta.
  destruct (decide (mid < len arr)) as [Hin|Hout].
  - destruct (copy_run_valid arr left (mid - left + 1)) as (L & -> & _); [lia..|].
    rewrite bind_Ok. by rewrite (copy_run_invalid arr (mid + 1) (right - mid)) by lia.
  - by rewrite (copy_run_invalid arr left (mid - left + 1)) by lia.
Qed.

Lemma mergeSort_range pre seg post :
  ∃ seg',
    margeSort.mergeSort (pre ++ seg ++ post) (len pre) (len pre + len seg - 1)
    = Ok (pre ++ seg' ++ post)
    ∧ seg' ≡ₚ seg ∧ sorted seg' ∧ ∀ x, ties x seg' = ties x seg.
Proof.
  apply mergeSort_rec_spec; [unfold len; lia|done|done].
Qed.

(** A range that ends one position after the last item. *)
Lemma mergeSort_rec_past_end fuel :
  ∀ seg pre,
    seg ≠ [] → (length seg ≤ fuel)%nat →
    margeSort.mergeSort_rec fuel (pre ++ seg) (len pre) (len pre + len seg)
    = Raise IndexError.
Proof.
  induction fuel as [|fuel IH]; intros seg pre Hne Hfuel.
  - destruct seg; [done|simpl in Hfuel; lia].
  - assert (Hpos : 0 < len seg) by (destruct seg; [done|len_solve]).
    cbn [margeSort.mergeSort_rec]. rewrite decide_True by lia. cbv zeta.
    set (right := len pre + len seg). set (left := len pre).
    set (mid := (left + right) `div` 2).
    assert (Hmid : left ≤ mid < right).
    { subst mid left right. pose proof (Z.div_mod (len pre + (len pre + len seg)) 2 ltac:(lia)).
      pose proof (Z.mod_pos_bound (len pre + (len pre + len seg)) 2 ltac:(lia)). lia. }
    set (m := Z.to_nat (mid - left + 1)).
    assert (Hm : (0 < m ≤ length seg)%nat) by (subst m left right; unfold len in *; lia).
    rewrite <- (take_drop m seg) at 1.
    assert (HlenL : length (take m seg) = m) by (rewrite length_take; lia).
    destruct (mergeSort_rec_spec fuel (take m seg) pre (drop m seg) left mid)
      as (L' & HrunL & HpermL & _); [lia|done|subst m left; unfold len in *; lia|].
    rewrite HrunL, bind_Ok.
    assert (HlenL' : length L' = m) by (by rewrite HpermL).
    assert (HlenR : length (drop m seg) = (length seg - m)%nat) by apply length_drop.
    pose proof (len_nonneg pre) as Hpre.
    destruct (decide (mid + 1 < right)) as [Hlt|Hge].
    + rewrite (app_assoc pre L').
      replace (mid + 1) with (len (pre ++ L')) by (subst m left; len_solve).
      replace right with (len (pre ++ L') + len (drop m seg))
        by (subst m left right; len_solve).
      rewrite IH; [done| |lia].
      intros Hnil. rewrite Hnil in HlenR. simpl in HlenR.
      subst m left right. unfold len in *. lia.
    + assert (Hstop : ∀ arr, margeSort.mergeSort_rec fuel arr (mid + 1) right = Ok arr).
      { intros arr. destruct fuel; cbn [margeSort.mergeSort_rec];
          by rewrite decide_False by lia. }
      rewrite Hstop, bind_Ok.
      apply merge_right_invalid; [subst left; lia|lia|].
      subst left right. autorewrite with len. unfold len in *.
      rewrite length_drop. lia.
Qed.

Lemma mergeSort_past_end arr :
  arr ≠ [] → margeSort.mergeSort arr 0 (len arr) = Raise IndexError.
Proof.
  intros Hne. unfold margeSort.mergeSort.
  apply (mergeSort_rec_past_end (Z.to_nat (len arr - 0)) arr []); [done|].
  unfold len. lia.
Qed.
End mergesort_more.

(** ** The analysis scripts follow the sort engines *)

Section slice_facts.
Context {A : Type}.
Implicit Types (arr pre seg post : list A).

Lemma slice_seg pre seg post a b :
  a = len pre → b = len pre + len seg → slice (pre ++ seg ++ post) a b = seg.
Proof.
  intros -> ->. unfold slice, slice_bound. cbv zeta.
  pose proof (len_nonneg pre). pose proof (len_nonneg seg). pose proof (len_nonneg post).
  rewrite !decide_False by lia. autorewrite with len.
  rewrite !Z.min_l by lia.
  rewrite drop_app_length' by (unfold len; lia).
  rewrite take_app_length' by (unfold len; lia). done.
Qed.

Lemma slice_from_seg pre seg a :
  a = len pre → slice_from (pre ++ seg) a = seg.
Proof.
  intros ->. unfold slice_from.
  rewrite <- (app_nil_r seg) at 1. apply slice_seg; [done|len_solve].
Qed.

Lemma slice_len arr a b : len (slice arr a b) ≤ len arr.
Proof.
  unfold slice. cbv zeta. unfold len. rewrite length_take, length_drop. lia.
Qed.
End slice_facts.

Lemma bind_assoc {X Y Z : Type} (m : result X) (f : X → result Y) (g : Y → result Z) :
  (m ≫= f) ≫= g = m ≫= (λ x, f x ≫= g).
Proof. by destruct m. Qed.

Section analysis_scripts.
Context `{ComparableLaws A}.
Implicit Types (arr pre seg post : list A).

Lemma analysis_quicksort_eq f arr low high :
  quicksort_analysis.quicksort (frames := S f) arr low high =
  if decide (low < high) then
    (getitem arr high ≫= λ pivot,
       for_each (range low high) (quicksort_analysis.scan_step pivot)
         (arr, low - 1) ≫= λ '(arr, i),
       exchange arr (i + 1) high ≫= λ arr, Ok (arr, i + 1)) ≫= λ '(arr, pi),
    quicksort_analysis.quicksort (frames := f) arr low (pi - 1) ≫= λ arr,
    quicksort_analysis.quicksort (frames := f) arr (pi + 1) high
  else Ok arr.
Proof.
  cbn [quicksort_analysis.quicksort]. destruct (decide (low < high)); [|done].
  destruct (getitem arr high) as [pivot|e]; [|done]. rewrite !bind_Ok. cbv zeta.
  destruct (for_each _ _ _) as [[arr1 i]|e]; [|done]. rewrite !bind_Ok.
  by destruct (exchange arr1 (i + 1) high) as [arr2|e].
Qed.

(** The partition written in line is [partition] of quickSort.py with
    the calls of [partition] and [swap] taken out. *)
Lemma analysis_partition f arr low high :
  quickSort.partition (frames := S (S f)) arr low high =
  getitem arr high ≫= λ pivot,
    for_each (range low high) (quicksort_analysis.scan_step pivot)
      (arr, low - 1) ≫= λ '(arr, i),
    exchange arr (i + 1) high ≫= λ arr, Ok (arr, i + 1).
Proof. reflexivity. Qed.

(** Where [quickSort] of quickSort.py does not reach the limit, the
    version written in line, which nests two calls less deep, has the
    same outcome. *)
Lemma analysis_quicksort f :
  ∀ arr low high,
    quickSort.quickSort (frames := f) arr low high ≠ Raise RecursionError →
    quicksort_analysis.quicksort (frames := f) arr low high
    = quickSort.quickSort (frames := f) arr low high.
Proof.
  induction f as [|f IH]; intros arr low high; [done|].
  rewrite analysis_quicksort_eq, quickSort_eq.
  destruct (decide (low < high)); [|done]. intros Hplain.
  assert (Hpart : quickSort.partition (frames := f) arr low high
                  = quickSort.partition (frames := S (S f)) arr low high).
  { apply cut_short_same; [apply partition_mono; lia|].
    intros Heq. by rewrite Heq in Hplain. }
  rewrite Hpart in *. rewrite <- (analysis_partition f).
  destruct (quickSort.partition (frames := S (S f)) arr low high) as [[arr1 pi]|e];
    [|done].
  rewrite !bind_Ok. rewrite bind_Ok in Hplain. cbv beta iota in *.
  rewrite IH by (intros Heq; by rewrite Heq in Hplain).
  destruct (quickSort.quickSort (frames := f) arr1 low (pi - 1)) as [arr2|e]; [|done].
  rewrite !bind_Ok. rewrite bind_Ok in Hplain. by apply IH.
Qed.

Lemma analysis_quicksort_mono f :
  ∀ f' arr low high,
    (f ≤ f')%nat →
    cut_short (quicksort_analysis.quicksort (frames := f) arr low high)
      (quicksort_analysis.quicksort (frames := f') arr low high).
Proof.
  induction f as [|f IH]; intros f' arr low high Hf; [apply cut_short_raise|].
  destruct f' as [|f']; [lia|]. rewrite !analysis_quicksort_eq.
  destruct (decide (low < high)); [|apply cut_short_refl].
  apply cut_short_bind; [apply cut_short_refl|]. intros [arr1 pi].
  apply cut_short_bind; [apply IH; lia|]. intros arr2. apply IH. lia.
Qed.

Lemma analysis_run_mono f f' arr :
  (f ≤ f')%nat →
  cut_short (quicksort_analysis.run (frames := f) arr)
    (quicksort_analysis.run (frames := f') arr).
Proof.
  intros Hf. apply cut_short_call; [done|]. intros g g' Hg.
  by apply analysis_quicksort_mono.
Qed.

(** [run] takes a call, and [quicksort] nests no deeper than
    [quickSort]. *)
Lemma analysis_run_spec f arr :
  len arr + 2 ≤ Z.of_nat f →
  ∃ out, quicksort_analysis.run (frames := f) arr = Ok out
         ∧ out ≡ₚ arr ∧ sorted out.
Proof.
  intros Hf. destruct f as [|f]; [unfold len in *; lia|].
  destruct (quickSort_spec f arr) as (out & Hplain & Hperm & Hsorted); [lia|].
  exists out. split; [|done].
  unfold quicksort_analysis.run. rewrite call_S. cbv zeta.
  rewrite analysis_quicksort; [done|]. by rewrite Hplain.
Qed.

Lemma analysis_run_outcome f arr :
  quicksort_analysis.run (frames := f) arr = Raise RecursionError
  ∨ ∃ out, quicksort_analysis.run (frames := f) arr = Ok out
           ∧ out ≡ₚ arr ∧ sorted out.
Proof.
  set (g := (f + Z.to_nat (len arr) + 2)%nat).
  destruct (analysis_run_spec g arr) as (out & Hrun & Hperm & Hsorted);
    [unfold g, len; lia|].
  destruct (analysis_run_mono f g arr ltac:(unfold g; lia)) as [Hcut|Hsame];
    [by left|].
  right. exists out. by rewrite Hsame.
Qed.

Lemma analysis_heapsort arr : heapsort_analysis.heapsort arr = heapSort.heapSort arr.
Proof. reflexivity. Qed.

Lemma analysis_mergesort_rec fuel :
  ∀ seg pre post l r,
    (length seg ≤ S fuel)%nat →
    l = len pre → r = len pre + len seg - 1 →
    mergesort_analysis.mergesort_rec fuel (pre ++ seg ++ post) l r
    = margeSort.mergeSort_rec fuel (pre ++ seg ++ post) l r.
Proof.
  induction fuel as [|fuel IH]; intros seg pre post l r Hfuel Hl Hr;
    cbn [mergesort_analysis.mergesort_rec margeSort.mergeSort_rec]; [done|].
  destruct (decide (l < r)) as [Hlt|]; [|done].
  cbv zeta. set (mid := (l + r) `div` 2).
  assert (Hmid : l ≤ mid < r).
  { subst mid. pose proof (Z.div_mod (l + r) 2 ltac:(lia)).
    pose proof (Z.mod_pos_bound (l + r) 2 ltac:(lia)). lia. }
  set (m := Z.to_nat (mid - l + 1)).
  assert (Hm : (0 < m < length seg)%nat) by (unfold len in *; lia).
  replace (pre ++ seg ++ post) with (pre ++ take m seg ++ drop m seg ++ post)
    by (by rewrite (app_assoc (take m seg)), take_drop).
  assert (HlenL : length (take m seg) = m) by (rewrite length_take; lia).
  assert (HlenR : length (drop m seg) = (length seg - m)%nat) by apply length_drop.
  rewrite (IH (take m seg) pre (drop m seg ++ post) l mid);
    [|lia|done|unfold len in *; lia].
  destruct (mergeSort_rec_spec fuel (take m seg) pre (drop m seg ++ post) l mid)
    as (L' & -> & HpermL & _); [lia|done|unfold len in *; lia|].
  rewrite !bind_Ok.
  assert (HlenL' : length L' = m) by (by rewrite HpermL).
  replace (pre ++ L' ++ drop m seg ++ post) with ((pre ++ L') ++ drop m seg ++ post)
    by (by list_norm).
  rewrite (IH (drop m seg) (pre ++ L') post (mid + 1) r);
    [|lia|rewrite len_app; unfold len in *; lia|rewrite len_app; unfold len in *; lia].
  destruct (mergeSort_rec_spec fuel (drop m seg) (pre ++ L') post (mid + 1) r)
    as (R' & -> & HpermR & _);
    [lia|rewrite len_app; unfold len in *; lia|rewrite len_app; unfold len in *; lia|].
  rewrite !bind_Ok.
  assert (HlenR' : length R' = (length seg - m)%nat) by (by rewrite HpermR).
  unfold margeSort.merge. cbv zeta.
  replace ((pre ++ L') ++ R' ++ post) with (pre ++ L' ++ R' ++ post) by (by list_norm).
  rewrite (slice_seg pre L' (R' ++ post)) by (unfold len in *; lia).
  rewrite (copy_run_seg pre L' (R' ++ post) l (mid - l + 1)) by (unfold len in *; lia).
  rewrite bind_Ok.
  replace (pre ++ L' ++ R' ++ post) with ((pre ++ L') ++ R' ++ post) by (by list_norm).
  rewrite (slice_seg (pre ++ L') R' post)
    by (rewrite ?len_app; unfold len in *; lia).
  rewrite (copy_run_seg (pre ++ L') R' post (mid + 1) (r - mid))
    by (rewrite ?len_app; unfold len in *; lia).
  rewrite bind_Ok.
  replace (len L') with (mid - l + 1) by (unfold len in *; lia).
  replace (len R') with (r - mid) by (unfold len in *; lia).
  done.
Qed.

Lemma analysis_mergesort arr :
  mergesort_analysis.run arr = margeSort.mergeSort arr 0 (len arr - 1).
Proof.
  unfold mergesort_analysis.run, mergesort_analysis.mergesort, margeSort.mergeSort.
  cbv zeta.
  pose proof (analysis_mergesort_rec (Z.to_nat (len arr - 1 - 0)) arr [] [] 0 (len arr - 1))
    as Heq.
  cbn [app] in Heq. rewrite app_nil_r in Heq.
  apply Heq; [unfold len; lia|done|len_solve].
Qed.
End analysis_scripts.

(** Integers have no ties between different values: a list of integers
    has one sorted arrangement. *)
Lemma sorted_integers_unique (l1 l2 : list Z) :
  l1 ≡ₚ l2 → sorted l1 → sorted l2 → l1 = l2.
Proof.
  intros Hperm H1 H2. unfold sorted in *.
  apply (StronglySorted_unique_strong le); [|done|done|done].
  intros x y _ _ Hxy Hyx. unfold le, le_b, Z_comparable in *.
  apply Z.leb_le in Hxy, Hyx. lia.
Qed.

Section run_objects.
Context {A : Type}.
Implicit Types (h : heap A) (arr : loc) (items : list A).

Lemma run_on_copy h arr items (sort : list A → result (list A)) :
  h !! arr = Some items →
  let r := objects.in_place (fresh (dom h))
             (λ items, sort items ≫= λ items, Ok (items, fresh (dom h)))
             (<[fresh (dom h) := objects.contents h arr]> h) in
  r.2 !! arr = Some items
  ∧ fresh (dom h) ≠ arr
  ∧ match sort items with
    | Ok out => r.1 = Ok (fresh (dom h)) ∧ r.2 !! fresh (dom h) = Some out
    | Raise e => r.1 = Raise e
    end.
Proof.
  intros Hitems r.
  assert (Hfresh : fresh (dom h) ≠ arr).
  { intros Heq. apply (is_fresh (dom h)). rewrite Heq. by apply elem_of_dom. }
  assert (Hcopy : objects.contents (<[fresh (dom h) := objects.contents h arr]> h)
                    (fresh (dom h)) = items).
  { unfold objects.contents. by rewrite lookup_insert_eq, Hitems. }
  subst r. unfold objects.in_place. rewrite Hcopy.
  destruct (sort items) as [out|e]; rewrite ?bind_Ok; cbn [snd fst].
  - rewrite !lookup_insert_ne by done.
    split; [done|]. split; [done|]. split; [done|]. by rewrite lookup_insert_eq.
  - cbn [mbind result_bind snd fst]. by rewrite lookup_insert_ne by done.
Qed.
End run_objects.

(** ** The split tree of mergesort_animation.py *)

Section split_tree.
Implicit Types (levels : list (list mergesort_animation.node))
  (merge_order : list (Z * Z * Z)) (l r d : Z).

Lemma add_levels_spec (k : nat) :
  ∀ levels d,
    k = Z.to_nat (d + 1 - len levels) →
    mergesort_animation.add_levels k levels d = Ok (levels ++ replicate k []).
Proof.
  induction k as [|k IH]; intros levels d Hk; cbn [mergesort_animation.add_levels].
  - rewrite decide_False by lia. by rewrite app_nil_r.
  - rewrite decide_True by lia.
    rewrite IH by len_solve. by rewrite <- app_assoc.
Qed.

(** The levels as [recurse] finds them after the loop that adds
    levels, entered at a depth [d ≤ len levels]. *)
Lemma enter_level levels d :
  0 ≤ d ≤ len levels →
  ∃ before after,
    mergesort_animation.add_levels (Z.to_nat (d + 1 - len levels)) levels d
    = Ok (before ++ default [] (levels !! Z.to_nat d) :: after)
    ∧ len before = d
    ∧ (∀ (k : nat) level, levels !! k = Some level →
         (before ++ default [] (levels !! Z.to_nat d) :: after) !! k = Some level)
    ∧ (∀ (k : nat) level,
         (before ++ default [] (levels !! Z.to_nat d) :: after) !! k = Some level →
         levels !! k = Some level ∨ level = []).
Proof.
  intros Hd. rewrite (add_levels_spec _ levels d eq_refl).
  destruct (decide (d < len levels)) as [Hlt|Hge].
  - replace (Z.to_nat (d + 1 - len levels)) with 0%nat by lia.
    cbn [replicate]. rewrite app_nil_r.
    destruct (lookup_lt_is_Some_2 levels (Z.to_nat d)) as [level Hlevel];
      [unfold len in *; lia|].
    rewrite Hlevel. cbn [default].
    apply list_elem_of_split_length in Hlevel as (before & after & -> & Hlen).
    exists before, after. split_and!; [done|unfold len; lia|done|by left].
  - replace (Z.to_nat (d + 1 - len levels)) with 1%nat by lia.
    rewrite lookup_ge_None_2 by (unfold len in *; lia). cbn [default replicate].
    exists levels, []. split_and!; [done|lia| |].
    + intros k level Hk. by apply lookup_app_l_Some.
    + intros k level Hk. apply lookup_app_Some in Hk as [Hk|[_ Hk]]; [by left|].
      right. destruct (k - length levels)%nat; [by injection Hk|done].
Qed.

Lemma has_node_level levels (k : nat) level nd :
  levels !! k = Some level → nd ∈ level →
  has_node levels (mergesort_animation.left nd) (mergesort_animation.right nd).
Proof.
  intros Hk Hnd. exists nd. split; [|done].
  apply (elem_of_concat_2 _ level); [done|]. by eapply list_elem_of_lookup_2.
Qed.

Lemma has_node_persists levels levels' a b :
  (∀ (k : nat) level, levels !! k = Some level →
     ∃ more, levels' !! k = Some (level ++ more)) →
  has_node levels a b → has_node levels' a b.
Proof.
  intros Hext (nd & Hnd & Ha & Hb).
  apply elem_of_concat in Hnd as (level & Hnd & Hlevel).
  apply list_elem_of_lookup in Hlevel as [k Hk].
  destruct (Hext k level Hk) as [more Hk'].
  subst a b. apply (has_node_level _ k (level ++ more)); [done|].
  apply elem_of_app. by left.
Qed.

Lemma merges_in_range fuel :
  ∀ l r a m b, (a, m, b) ∈ merges fuel l r → l ≤ a ∧ a ≤ m ∧ m < b ∧ b ≤ r.
Proof.
  induction fuel as [|fuel IH]; intros l r a m b; cbn [merges];
    destruct (decide (l < r)) as [Hlt|]; try (by intros ?%elem_of_nil).
  cbv zeta.
  pose proof (Z.div_mod (l + r) 2 ltac:(lia)).
  pose proof (Z.mod_pos_bound (l + r) 2 ltac:(lia)).
  rewrite !elem_of_app, list_elem_of_singleton.
  intros [Hin|[Hin|[= -> -> ->]]]; [apply IH in Hin|apply IH in Hin|]; lia.
Qed.

(** What [recurse] does to the tree: the levels above [d] are left as
    they are, every other level is extended at its end, and the range
    of every merge, and both halves of it, get a node. *)
Lemma recurse_spec fuel :
  ∀ l r d levels merge_order,
    0 ≤ d ≤ len levels → r - l ≤ Z.of_nat fuel → well_indexed levels →
    ∃ levels',
      mergesort_animation.recurse fuel l r d (levels, merge_order)
      = Ok (levels', merge_order ++ merges fuel l r)
      ∧ well_indexed levels'
      ∧ (∀ k : nat, Z.of_nat k < d → levels' !! k = levels !! k)
      ∧ levels' !! Z.to_nat d
        = Some (default [] (levels !! Z.to_nat d)
                  ++ [mergesort_animation.Node l r d
                        (len (default [] (levels !! Z.to_nat d)))])
      ∧ (∀ (k : nat) level, levels !! k = Some level →
           ∃ more, levels' !! k = Some (level ++ more))
      ∧ (∀ a m b, (a, m, b) ∈ merges fuel l r →
           has_node levels' a b ∧ has_node levels' a m ∧ has_node levels' (m + 1) b).
Proof.
  induction fuel as [|fuel IH]; intros l r d levels merge_order Hd Hfuel Hwf;
    cbn [mergesort_animation.recurse merges];
    destruct (enter_level levels d Hd) as (before & after & -> & Hbefore & Hold & Hnew);
    rewrite bind_Ok;
    set (level := default [] (levels !! Z.to_nat d)) in *;
    rewrite (getitem_mid before level after d) by done; rewrite !bind_Ok;
    rewrite (setitem_mid before level after d) by done; rewrite bind_Ok;
    cbv zeta;
    set (nd := mergesort_animation.Node l r d (len level));
    set (levels1 := before ++ (level ++ [nd]) :: after);
    (assert (Hwf1 : well_indexed levels1);
     [intros d' k level' nd' Hd' Hk; subst levels1;
      destruct (decide (d' = Z.to_nat d)) as [->|Hne];
      [rewrite list_lookup_middle in Hd' by (unfold len in *; lia);
       injection Hd' as <-;
       apply lookup_app_Some in Hk as [Hk|[Hge Hk]];
       [destruct (Hnew (Z.to_nat d) level) as [Hlv|Hnil];
        [by rewrite list_lookup_middle by (unfold len in *; lia)
        |by apply (Hwf _ _ _ _ Hlv Hk)
        |rewrite Hnil in Hk; done]
       |destruct (k - length level)%nat eqn:Hk'; [|done];
        injection Hk as <-; cbn; unfold len; lia]
      |assert (Hd'' : (before ++ level :: after) !! d' = Some level');
       [rewrite lookup_app in Hd' |- *;
        destruct (before !! d') eqn:Hb; [done|];
        destruct (d' - length before)%nat eqn:Hsub;
        [apply lookup_ge_None in Hb; unfold len in *; lia|done]
       |destruct (Hnew d' level' Hd'') as [Hlv|Hnil];
        [by apply (Hwf _ _ _ _ Hlv Hk)|rewrite Hnil in Hk; done]]]|]);
    (assert (Hsame1 : ∀ k : nat, Z.of_nat k < d → levels1 !! k = levels !! k);
     [intros k Hk; subst levels1;
      rewrite lookup_app_l by (unfold len in *; lia);
      destruct (levels !! k) as [lv|] eqn:Hlv;
      [specialize (Hold k lv Hlv);
       by rewrite lookup_app_l in Hold by (unfold len in *; lia)
      |apply lookup_ge_None in Hlv; unfold len in *; lia]|]);
    (assert (Hat1 : levels1 !! Z.to_nat d = Some (level ++ [nd]));
     [subst levels1; by rewrite list_lookup_middle by (unfold len in *; lia)|]);
    (assert (Hext1 : ∀ (k : nat) lv, levels !! k = Some lv →
               ∃ more, levels1 !! k = Some (lv ++ more));
     [intros k lv Hlv; destruct (decide (k = Z.to_nat d)) as [->|Hne];
      [exists [nd]; rewrite Hat1; subst level; by rewrite Hlv
      |exists []; rewrite app_nil_r; specialize (Hold k lv Hlv); subst levels1;
       rewrite lookup_app in Hold |- *;
       destruct (before !! k) eqn:Hb; [done|];
       destruct (k - length before)%nat eqn:Hsub;
       [apply lookup_ge_None in Hb; unfold len in *; lia|done]]|]).
  - destruct (decide (l < r)); [lia|].
    exists levels1. rewrite app_nil_r. split_and!; try done.
    intros a m b Hin. by apply elem_of_nil in Hin.
  - destruct (decide (l < r)) as [Hlt|Hge].
    + cbv zeta. set (mid := (l + r) `div` 2).
      assert (Hmid : l ≤ mid < r).
      { subst mid. pose proof (Z.div_mod (l + r) 2 ltac:(lia)).
        pose proof (Z.mod_pos_bound (l + r) 2 ltac:(lia)). lia. }
      assert (Hlen1 : d + 1 ≤ len levels1).
      { apply lookup_lt_Some in Hat1. unfold len. lia. }
      destruct (IH l mid (d + 1) levels1 merge_order)
        as (levels2 & -> & Hwf2 & Hsame2 & Hat2 & Hext2 & Hnodes2); [lia|lia|done|].
      rewrite bind_Ok.
      assert (Hlen2 : d + 1 < len levels2).
      { apply lookup_lt_Some in Hat2. unfold len. lia. }
      destruct (IH (mid + 1) r (d + 1) levels2 (merge_order ++ merges fuel l mid))
        as (levels3 & -> & Hwf3 & Hsame3 & Hat3 & Hext3 & Hnodes3); [lia|lia|done|].
      rewrite bind_Ok. cbv beta iota.
      assert (Hext13 : ∀ (k : nat) lv, levels1 !! k = Some lv →
                ∃ more, levels3 !! k = Some (lv ++ more)).
      { intros k lv Hlv. destruct (Hext2 k lv Hlv) as [m2 H2].
        destruct (Hext3 k _ H2) as [m3 H3]. exists (m2 ++ m3).
        by rewrite app_assoc. }
      assert (Hat : levels3 !! Z.to_nat d = Some (level ++ [nd])).
      { rewrite Hsame3 by lia. by rewrite Hsame2 by lia. }
      exists levels3. split_and!.
      * by rewrite <- !app_assoc.
      * done.
      * intros k Hk. rewrite Hsame3 by lia. rewrite Hsame2 by lia. by apply Hsame1.
      * done.
      * intros k lv Hlv. destruct (Hext1 k lv Hlv) as [m1 H1].
        destruct (Hext13 k _ H1) as [m3 H3]. exists (m1 ++ m3).
        by rewrite app_assoc.
      * intros a m b. rewrite !elem_of_app, list_elem_of_singleton.
        intros [Hin|[Hin|[= -> -> ->]]].
        -- destruct (Hnodes2 a m b Hin) as (? & ? & ?).
           split_and!; by apply (has_node_persists levels2).
        -- by apply Hnodes3.
        -- split_and!.
           ++ apply (has_node_level levels3 (Z.to_nat d) (level ++ [nd]) nd); [done|].
              apply elem_of_app. right. by left.
           ++ apply (has_node_persists levels2); [done|].
              eapply (has_node_level levels2 _ _
                        (mergesort_animation.Node l mid (d + 1) _)); [exact Hat2|].
              apply elem_of_app. right. by left.
           ++ eapply (has_node_level levels3 _ _
                        (mergesort_animation.Node (mid + 1) r (d + 1) _)); [exact Hat3|].
              apply elem_of_app. right. by left.
    + exists levels1. rewrite app_nil_r. split_and!; try done.
      intros a m b Hin. by apply elem_of_nil in Hin.
Qed.

Lemma build_tree_spec {A : Type} (arr : list A) :
  ∃ levels,
    mergesort_animation.build_tree arr
    = Ok (levels, merges (Z.to_nat (len arr - 1)) 0 (len arr - 1))
    ∧ well_indexed levels
    ∧ levels !! 0%nat = Some [mergesort_animation.Node 0 (len arr - 1) 0 0]
    ∧ ∀ a m b, (a, m, b) ∈ merges (Z.to_nat (len arr - 1)) 0 (len arr - 1) →
        has_node levels a b ∧ has_node levels a m ∧ has_node levels (m + 1) b.
Proof.
  unfold mergesort_animation.build_tree.
  destruct (recurse_spec (Z.to_nat (len arr - 1)) 0 (len arr - 1) 0 [] [])
    as (levels & Hrun & Hwf & _ & Hroot & _ & Hnodes); [done|lia| |].
  { intros d k level nd Hd. done. }
  exists levels. done.
Qed.

Lemma find_node_has levels l r :
  has_node levels l r →
  ∃ nd, mergesort_animation.find_node levels l r = Some nd
        ∧ mergesort_animation.left nd = l ∧ mergesort_animation.right nd = r
        ∧ nd ∈ concat levels.
Proof.
  intros (nd & Hnd & Hl & Hr). unfold mergesort_animation.find_node.
  destruct (list_find (λ nd, mergesort_animation.left nd = l
                             ∧ mergesort_animation.right nd = r) (concat levels))
    as [[i nd']|] eqn:Hfind.
  - apply list_find_Some in Hfind as (Hi & [Hl' Hr'] & _).
    exists nd'. split_and!; try done. by eapply list_elem_of_lookup_2.
  - apply list_find_None in Hfind. rewrite Forall_forall in Hfind.
    by destruct (Hfind nd Hnd).
Qed.

Lemma well_indexed_elem levels nd :
  well_indexed levels → nd ∈ concat levels →
  0 ≤ mergesort_animation.depth nd ∧ 0 ≤ mergesort_animation.index nd
  ∧ ∃ level, levels !! Z.to_nat (mergesort_animation.depth nd) = Some level
             ∧ level !! Z.to_nat (mergesort_animation.index nd) = Some nd.
Proof.
  intros Hwf Hnd. apply elem_of_concat in Hnd as (level & Hnd & Hlevel).
  apply list_elem_of_lookup in Hlevel as [d Hd].
  apply list_elem_of_lookup in Hnd as [k Hk].
  destruct (Hwf d k level nd Hd Hk) as [-> ->].
  split; [lia|]. split; [lia|]. exists level. by rewrite !Nat2Z.id.
Qed.
End split_tree.

Section merge_order.
Context `{ComparableLaws A}.
Implicit Types (arr pre seg post L R merged : list A).

Lemma bind_ret {X : Type} (m : result X) : m ≫= Ok = m.
Proof. by destruct m. Qed.

(** Performing the merges of [merges] one after the other is
    [mergeSort]. *)
Lemma merges_replay fuel :
  ∀ arr l r,
    r - l ≤ Z.of_nat fuel →
    for_each (merges fuel l r) (λ '(a, m, b) arr, margeSort.merge arr a m b) arr
    = margeSort.mergeSort_rec fuel arr l r.
Proof.
  induction fuel as [|fuel IH]; intros arr l r Hfuel;
    cbn [merges margeSort.mergeSort_rec].
  - by rewrite !decide_False by lia.
  - destruct (decide (l < r)) as [Hlt|]; [|done]. cbv zeta.
    pose proof (Z.div_mod (l + r) 2 ltac:(lia)).
    pose proof (Z.mod_pos_bound (l + r) 2 ltac:(lia)).
    rewrite for_each_app, IH by lia.
    destruct (margeSort.mergeSort_rec fuel arr l ((l + r) `div` 2)) as [arr1|e]; [|done].
    rewrite !bind_Ok, for_each_app, IH by lia.
    destruct (margeSort.mergeSort_rec fuel arr1 ((l + r) `div` 2 + 1) r) as [arr2|e];
      [|done].
    rewrite !bind_Ok. cbn [for_each]. apply bind_ret.
Qed.

Lemma take_heads_spec fuel :
  ∀ Ls Rs Ldone Rdone merged i j,
    i = len Ldone → j = len Rdone → (length Ls + length Rs ≤ fuel)%nat →
    ∃ M Ls' Rs',
      mergesort_animation.take_heads fuel (Ldone ++ Ls) (Rdone ++ Rs) merged i j
      = Ok (merged ++ M, len Ldone + len Ls - len Ls', len Rdone + len Rs - len Rs')
      ∧ (∃ Lmid, Ls = Lmid ++ Ls') ∧ (∃ Rmid, Rs = Rmid ++ Rs')
      ∧ merge_runs Ls Rs = M ++ Ls' ++ Rs'
      ∧ (Ls' = [] ∨ Rs' = []).
Proof.
  induction fuel as [|fuel IH]; intros Ls Rs Ldone Rdone merged i j Hi Hj Hfuel.
  - destruct Ls; [|simpl in Hfuel; lia]. destruct Rs; [|simpl in Hfuel; lia].
    cbn [mergesort_animation.take_heads]. rewrite decide_False by len_solve.
    exists [], [], []. rewrite !app_nil_r.
    split; [do 3 f_equal; len_solve|]. split_and!; try done; [by exists []..|by left].
  - cbn [mergesort_animation.take_heads].
    destruct Ls as [|x Ls].
    { rewrite decide_False by len_solve.
      exists [], [], Rs. rewrite !app_nil_r.
      split; [do 3 f_equal; len_solve|].
      split_and!; [by exists []|by exists []|by rewrite merge_runs_nil_l|by left]. }
    destruct Rs as [|y Rs].
    { rewrite decide_False by len_solve.
      exists [], (x :: Ls), []. rewrite !app_nil_r.
      split; [do 3 f_equal; len_solve|].
      split_and!; [by exists []|by exists []|by rewrite merge_runs_nil_r|by right]. }
    rewrite decide_True by len_solve.
    rewrite (getitem_at (Ldone ++ x :: Ls) Ldone x Ls i); [|done|done]. rewrite bind_Ok.
    rewrite (getitem_at (Rdone ++ y :: Rs) Rdone y Rs j); [|done|done]. rewrite bind_Ok.
    rewrite merge_runs_cons. destruct (le_b x y).
    + rewrite bind_Ok.
      replace (Ldone ++ x :: Ls) with ((Ldone ++ [x]) ++ Ls) by (by list_norm).
      destruct (IH Ls (y :: Rs) (Ldone ++ [x]) Rdone (merged ++ [x]) (i + 1) j)
        as (M & Ls' & Rs' & -> & [Lmid HL] & [Rmid HR] & HM & Hone);
        [len_solve|len_solve|simpl in *; lia|].
      exists (x :: M), Ls', Rs'.
      split; [do 3 f_equal; [by list_norm|len_solve]|].
      split_and!; [exists (x :: Lmid); by rewrite HL|by exists Rmid|by rewrite HM|done].
    + rewrite bind_Ok.
      replace (Rdone ++ y :: Rs) with ((Rdone ++ [y]) ++ Rs) by (by list_norm).
      destruct (IH (x :: Ls) Rs Ldone (Rdone ++ [y]) (merged ++ [y]) i (j + 1))
        as (M & Ls' & Rs' & -> & [Lmid HL] & [Rmid HR] & HM & Hone);
        [len_solve|len_solve|simpl in *; lia|].
      exists (y :: M), Ls', Rs'.
      split; [do 2 f_equal; [f_equal; by list_norm|len_solve]|].
      split_and!; [by exists Lmid|exists (y :: Rmid); by rewrite HR|by rewrite HM|done].
Qed.

(** [for k, v in enumerate(merged): sim[left + k] = v] *)
Lemma write_back pre post left :
  left = len pre →
  ∀ rest done junk,
    len junk = len rest →
    for_each (zip (seqZ (len done) (len rest)) rest)
      (λ '(k, v) sim, setitem sim (left + k) v) (pre ++ done ++ junk ++ post)
    = Ok (pre ++ done ++ rest ++ post).
Proof.
  intros Hleft. induction rest as [|v rest IH]; intros done junk Hjunk.
  - destruct junk; [done|len_solve].
  - destruct junk as [|u junk]; [len_solve|].
    pose proof (len_nonneg rest).
    rewrite len_cons, seqZ_cons by lia. cbn [zip zip_with for_each].
    rewrite (setitem_at _ (pre ++ done) u (junk ++ post) _ v); [|by list_norm|len_solve].
    rewrite bind_Ok.
    replace (Z.succ (len done)) with (len (done ++ [v])) by len_solve.
    replace (Z.pred (1 + len rest)) with (len rest) by lia.
    replace ((pre ++ done) ++ v :: junk ++ post)
      with (pre ++ (done ++ [v]) ++ junk ++ post) by (by list_norm).
    rewrite IH by len_solve. by list_norm.
Qed.

Lemma merged_result_spec pre L R post left mid right :
  left = len pre → mid = left + len L - 1 → right = mid + len R →
  mergesort_animation.merged_result (pre ++ L ++ R ++ post) left mid right
  = Ok (merge_runs L R, pre ++ merge_runs L R ++ post).
Proof.
  intros Hleft Hmid Hright. unfold mergesort_animation.merged_result. cbv zeta.
  rewrite (slice_seg pre L (R ++ post)) by lia.
  replace (pre ++ L ++ R ++ post) with ((pre ++ L) ++ R ++ post) by (by list_norm).
  rewrite (slice_seg (pre ++ L) R post) by len_solve.
  destruct (take_heads_spec (Z.to_nat (len L + len R)) L R [] [] [] 0 0)
    as (M & Ls' & Rs' & Hrun & [Lmid HL] & [Rmid HR] & HM & Hone);
    [done|done|unfold len; lia|].
  cbn [app] in Hrun. rewrite Hrun, bind_Ok. cbv beta iota.
  assert (HsL : slice_from L (len (@nil A) + len L - len Ls') = Ls').
  { rewrite HL. apply slice_from_seg. len_solve. }
  assert (HsR : slice_from R (len (@nil A) + len R - len Rs') = Rs').
  { rewrite HR. apply slice_from_seg. len_solve. }
  rewrite HsL, HsR, <- HM.
  pose proof (write_back pre post left Hleft (merge_runs L R) [] (L ++ R)) as Hw.
  cbn [app] in Hw. change (len []) with 0 in Hw.
  replace ((pre ++ L) ++ R ++ post) with (pre ++ (L ++ R) ++ post) by (by list_norm).
  unfold bucketsort_animation.enumerate. rewrite Hw; [done|].
  unfold len. by rewrite merge_runs_perm.
Qed.

Lemma simulate_rec fuel :
  ∀ seg pre post l r,
    (length seg ≤ S fuel)%nat →
    l = len pre → r = len pre + len seg - 1 →
    for_each (merges fuel l r)
      (λ '(a, m, b) sim,
         mergesort_animation.merged_result sim a m b ≫= λ '(_, sim), Ok sim)
      (pre ++ seg ++ post)
    = margeSort.mergeSort_rec fuel (pre ++ seg ++ post) l r.
Proof.
  induction fuel as [|fuel IH]; intros seg pre post l r Hfuel Hl Hr;
    cbn [merges margeSort.mergeSort_rec].
  - by rewrite !decide_False by (unfold len in *; lia).
  - destruct (decide (l < r)) as [Hlt|]; [|done].
    cbv zeta. set (mid := (l + r) `div` 2).
    assert (Hmid : l ≤ mid < r).
    { subst mid. pose proof (Z.div_mod (l + r) 2 ltac:(lia)).
      pose proof (Z.mod_pos_bound (l + r) 2 ltac:(lia)). lia. }
    set (m := Z.to_nat (mid - l + 1)).
    assert (Hm : (0 < m < length seg)%nat) by (unfold len in *; lia).
    replace (pre ++ seg ++ post) with (pre ++ take m seg ++ drop m seg ++ post)
      by (by rewrite (app_assoc (take m seg)), take_drop).
    assert (HlenL : length (take m seg) = m) by (rewrite length_take; lia).
    assert (HlenR : length (drop m seg) = (length seg - m)%nat) by apply length_drop.
    rewrite for_each_app.
    rewrite (IH (take m seg) pre (drop m seg ++ post) l mid);
      [|lia|done|unfold len in *; lia].
    destruct (mergeSort_rec_spec fuel (take m seg) pre (drop m seg ++ post) l mid)
      as (L' & -> & HpermL & _); [lia|done|unfold len in *; lia|].
    rewrite !bind_Ok.
    assert (HlenL' : length L' = m) by (by rewrite HpermL).
    replace (pre ++ L' ++ drop m seg ++ post) with ((pre ++ L') ++ drop m seg ++ post)
      by (by list_norm).
    rewrite for_each_app.
    rewrite (IH (drop m seg) (pre ++ L') post (mid + 1) r);
      [|lia|rewrite len_app; unfold len in *; lia|rewrite len_app; unfold len in *; lia].
    destruct (mergeSort_rec_spec fuel (drop m seg) (pre ++ L') post (mid + 1) r)
      as (R' & -> & HpermR & _);
      [lia|rewrite len_app; unfold len in *; lia|rewrite len_app; unfold len in *; lia|].
    rewrite !bind_Ok.
    assert (HlenR' : length R' = (length seg - m)%nat) by (by rewrite HpermR).
    replace ((pre ++ L') ++ R' ++ post) with (pre ++ L' ++ R' ++ post) by (by list_norm).
    cbn [for_each].
    rewrite (merged_result_spec pre L' R' post l mid r) by (unfold len in *; lia).
    rewrite (merge_spec pre L' R' post l mid r) by (unfold len in *; lia).
    by rewrite !bind_Ok.
Qed.

Lemma simulate_spec arr :
  mergesort_animation.simulate arr = margeSort.mergeSort arr 0 (len arr - 1).
Proof.
  unfold mergesort_animation.simulate, margeSort.mergeSort.
  destruct (build_tree_spec arr) as (levels & -> & _). rewrite bind_Ok. cbv beta iota zeta.
  pose proof (simulate_rec (Z.to_nat (len arr - 1)) arr [] [] 0 (len arr - 1)) as Hsim.
  cbn [app] in Hsim. rewrite app_nil_r in Hsim.
  replace (len arr - 1 - 0) with (len arr - 1) by lia.
  rewrite <- Hsim; [|unfold len; lia|done|len_solve].
  reflexivity.
Qed.
End merge_order.

(** ** The log of the quicksort recorder *)

Section range_loops.
Context {S : Type}.

(** A [for j in range(a, b)] loop with an invariant that depends on
    [j]. *)
Lemma for_range (P : Z → S → Prop) (body : Z → S → result S) (a b : Z) (s : S) :
  a ≤ b → P a s →
  (∀ j s, a ≤ j < b → P j s → ∃ s', body j s = Ok s' ∧ P (j + 1) s') →
  ∃ s', for_each (range a b) body s = Ok s' ∧ P b s'.
Proof.
  intros Hab. remember (Z.to_nat (b - a)) as n eqn:Hn.
  revert a s Hab Hn. induction n as [|n IH]; intros a s Hab Hn Hs Hstep.
  - rewrite range_nil by lia. exists s. by replace b with a by lia.
  - rewrite range_cons by lia. cbn [for_each].
    destruct (Hstep a s) as (s1 & -> & Hs1); [lia|done|]. rewrite bind_Ok.
    apply IH; [lia|lia|done|]. intros j s' Hj. apply Hstep. lia.
Qed.
End range_loops.

Section log_facts.
Context {E S : Type} (apply_record : E → S → result S) (snapshot : E → S).
Implicit Types (original s : S) (events : list E) (ev : E).

Lemma log_follows_nil original : log_follows apply_record snapshot original [].
Proof. intros evs1 ev evs2 Heq. by destruct evs1. Qed.

Lemma log_follows_snoc original events ev :
  log_follows apply_record snapshot original events →
  for_each events apply_record original = Ok (snapshot ev) →
  log_follows apply_record snapshot original (events ++ [ev]).
Proof.
  intros Hfollow Hev evs1 ev' evs2 Heq.
  destruct evs2 as [|z evs2 _] using rev_ind.
  - apply app_inj_tail in Heq as [-> ->]. done.
  - rewrite app_comm_cons, app_assoc in Heq.
    apply app_inj_tail in Heq as [-> _]. by apply (Hfollow evs1 ev' evs2).
Qed.

(** A record is appended with the current array as its snapshot;
    [s'] is the array after the change that the record stands for. *)
Lemma log_tracks_snoc original s events ev s' :
  log_tracks apply_record snapshot original s events →
  snapshot ev = s → apply_record ev s = Ok s' →
  log_tracks apply_record snapshot original s' (events ++ [ev]).
Proof.
  intros [Hrep Hfollow] Hsnap Hstep. split.
  - rewrite for_each_app, Hrep, bind_Ok. cbn [for_each]. by rewrite Hstep.
  - apply log_follows_snoc; [done|]. by rewrite Hsnap.
Qed.

Lemma log_tracks_nil original : log_tracks apply_record snapshot original original [].
Proof. split; [done|apply log_follows_nil]. Qed.
End log_facts.

Section quicksort_log.
Context `{Comparable A}.
Implicit Types (original data final : list A)
  (events evs : list (quicksort_animation.event A)) (ss : gset Z) (lo hi : Z).

(** [push] of a record that is not a ["swap"]. *)
Lemma tracked_push original data events ev :
  tracked original data events →
  quicksort_snapshot (ev data) = data →
  replay.quicksort_record (ev data) data = Ok data →
  tracked original data (events ++ [ev data]).
Proof. apply log_tracks_snoc. Qed.

(** [push] of a ["swap"] record, followed by the exchange it stands
    for. *)
Lemma tracked_swap original data events lo hi p a b msg data' :
  tracked original data events →
  exchange data a b = Ok data' →
  tracked original data' (events ++ [quicksort_animation.Swap data lo hi p a b msg]).
Proof. intros Ht Hex. by apply (log_tracks_snoc _ _ _ data). Qed.

Lemma same_outside_refl lo hi data : same_outside lo hi data data.
Proof. by split. Qed.

Lemma same_outside_trans lo hi lo1 hi1 lo2 hi2 data data1 data2 :
  lo ≤ lo1 → hi1 ≤ hi → lo ≤ lo2 → hi2 ≤ hi →
  same_outside lo1 hi1 data data1 → same_outside lo2 hi2 data1 data2 →
  same_outside lo hi data data2.
Proof.
  intros ???? [Hlen1 Hout1] [Hlen2 Hout2]. split; [congruence|].
  intros k Hk. rewrite Hout2 by lia. apply Hout1. lia.
Qed.

Lemma exchange_inside lo hi data a b :
  0 ≤ lo → hi < len data → lo ≤ a ≤ hi → lo ≤ b ≤ hi →
  ∃ data', exchange data a b = Ok data' ∧ same_outside lo hi data data'.
Proof.
  intros Hlo Hhi Ha Hb.
  destruct (getitem_nonneg data a) as (x & _ & Hx); [lia|].
  destruct (getitem_nonneg data b) as (y & _ & Hy); [lia|].
  destruct (exchange_spec data a b x y) as (data' & Hex & _ & Hlen & _ & _ & Hout);
    [lia|lia|done|done|].
  exists data'. split; [done|]. split; [done|].
  intros k Hk. apply Hout; lia.
Qed.

Lemma unmarked_settled final evs : Forall unmarked evs → Forall (settled final) evs.
Proof. intros Hu. eapply Forall_impl; [exact Hu|]. by intros []. Qed.

Lemma ranged_wider lo hi lo' hi' evs :
  lo' ≤ lo → hi ≤ hi' → Forall (ranged lo hi) evs → Forall (ranged lo' hi') evs.
Proof.
  intros Hlo Hhi Hr. eapply Forall_impl; [exact Hr|]. intros []; cbn; lia.
Qed.

(** A record of a finished range stays settled while other ranges
    are sorted. *)
Lemma settled_outside lo hi lo' hi' data data' evs :
  (hi < lo' ∨ hi' < lo) → 0 ≤ lo →
  same_outside lo' hi' data data' →
  Forall (ranged lo hi) evs → Forall (settled data) evs → Forall (settled data') evs.
Proof.
  intros Hdisjoint Hlo [_ Hout] Hranged Hsettled.
  rewrite Forall_forall in Hranged, Hsettled. apply Forall_forall. intros ev Hev.
  specialize (Hranged ev Hev). specialize (Hsettled ev Hev).
  destruct ev; try done. cbn in *. destruct Hsettled as (Hidx & x & Hx & Hfinal).
  split; [done|]. exists x. split; [done|]. rewrite Hout by lia. done.
Qed.

Lemma scan_step_log f original lo hi pivot j data events ss i :
  0 ≤ lo → lo - 1 ≤ i < j → j < hi → hi < len data →
  ∃ data' evs i',
    quicksort_animation.scan_step (frames := S f) lo hi pivot j
      ((data, events, ss), i)
    = Ok ((data', events ++ evs, ss), i')
    ∧ i ≤ i' ≤ i + 1
    ∧ same_outside lo hi data data'
    ∧ Forall (ranged lo hi) evs
    ∧ Forall unmarked evs
    ∧ (tracked original data events → tracked original data' (events ++ evs)).
Proof.
  intros Hlo Hi Hj Hhi.
  destruct (getitem_nonneg data j) as (dj & Hdj & _); [lia|].
  unfold quicksort_animation.scan_step. cbn [fst snd].
  rewrite Hdj, !bind_Ok, push_eq, bind_Ok. cbv beta iota. cbn [fst snd].
  rewrite Hdj, bind_Ok.
  set (compare := quicksort_animation.Compare data lo hi hi j _).
  assert (Hcompare : tracked original data events →
                     tracked original data (events ++ [compare])).
  { intros Ht. by apply (tracked_push _ _ _ (λ d, quicksort_animation.Compare d lo hi hi j _)). }
  destruct (lt_b dj pivot).
  - destruct (decide (i + 1 ≠ j)) as [Hne|Heq].
    + destruct (getitem_nonneg data (i + 1)) as (di & Hdi & _); [lia|].
      rewrite Hdi, !bind_Ok, push_eq, bind_Ok. cbv beta iota.
      destruct (exchange_inside lo hi data (i + 1) j) as (data' & Hex & Hsame);
        [lia..|].
      rewrite Hex, bind_Ok.
      eexists data', [compare; _], (i + 1).
      split; [by rewrite <- app_assoc|]. split; [lia|]. split; [done|].
      split; [repeat constructor; cbn; lia|]. split; [by repeat constructor|].
      intros Ht. rewrite cons_middle, app_assoc.
      by apply tracked_swap; [apply Hcompare|].
    + exists data, [compare], (i + 1).
      split; [done|]. split; [lia|]. split; [apply same_outside_refl|].
      split; [repeat constructor; cbn; lia|]. split; [by repeat constructor|done].
  - exists data, [compare], i.
    split; [done|]. split; [lia|]. split; [apply same_outside_refl|].
    split; [repeat constructor; cbn; lia|]. split; [by repeat constructor|done].
Qed.

Lemma scan_log f original lo hi pivot data events ss :
  0 ≤ lo ≤ hi → hi < len data →
  ∃ data' evs i',
    for_each (range lo hi) (quicksort_animation.scan_step (frames := S f) lo hi pivot)
      ((data, events, ss), lo - 1)
    = Ok ((data', events ++ evs, ss), i')
    ∧ lo - 1 ≤ i' < hi
    ∧ same_outside lo hi data data'
    ∧ Forall (ranged lo hi) evs
    ∧ Forall unmarked evs
    ∧ (tracked original data events → tracked original data' (events ++ evs)).
Proof.
  intros Hlo Hhi.
  destruct (for_range
    (λ j (st : list A * list (quicksort_animation.event A) * gset Z * Z),
       ∃ data' evs i',
         st = ((data', events ++ evs, ss), i')
         ∧ lo - 1 ≤ i' < j
         ∧ same_outside lo hi data data'
         ∧ Forall (ranged lo hi) evs
         ∧ Forall unmarked evs
         ∧ (tracked original data events → tracked original data' (events ++ evs)))
    (quicksort_animation.scan_step (frames := S f) lo hi pivot) lo hi
    ((data, events, ss), lo - 1))
    as (st & Hrun & data' & evs & i' & -> & Hrest); [lia| |..].
  - exists data, [], (lo - 1). rewrite app_nil_r.
    split_and!; [done|lia|lia|apply same_outside_refl|done|done|done].
  - intros j st Hj (data1 & evs1 & i1 & -> & Hi1 & Hsame1 & Hr1 & Hu1 & Ht1).
    destruct (scan_step_log f original lo hi pivot j data1 (events ++ evs1) ss i1)
      as (data2 & evs2 & i2 & Hstep & Hi2 & Hsame2 & Hr2 & Hu2 & Ht2);
      [lia|lia|lia|destruct Hsame1 as [Hlen _]; unfold len in *; lia|].
    eexists. split; [exact Hstep|].
    exists data2, (evs1 ++ evs2), i2. rewrite app_assoc.
    split_and!; [done|lia|lia| |by apply Forall_app|by apply Forall_app|].
    + by apply (same_outside_trans lo hi lo hi lo hi data data1).
    + intros Ht. by apply Ht2, Ht1.
  - by exists data', evs, i'.
Qed.

Lemma partition_log f original lo hi data events ss :
  0 ≤ lo ≤ hi → hi < len data →
  ∃ data' evs pi msg,
    quicksort_animation.partition (frames := S (S f)) lo hi (data, events, ss)
    = Ok ((data',
           events ++ evs
             ++ [quicksort_animation.SortedIdx data' lo hi pi ({[ pi ]} ∪ ss) msg],
           {[ pi ]} ∪ ss), pi)
    ∧ lo ≤ pi ≤ hi
    ∧ same_outside lo hi data data'
    ∧ Forall (ranged lo hi) evs
    ∧ Forall unmarked evs
    ∧ (tracked original data events →
       tracked original data'
         (events ++ evs
            ++ [quicksort_animation.SortedIdx data' lo hi pi ({[ pi ]} ∪ ss) msg])).
Proof.
  intros Hlo Hhi.
  destruct (getitem_nonneg data hi) as (pivot & Hpivot & _); [lia|].
  unfold quicksort_animation.partition. rewrite call_S. cbn [fst snd].
  rewrite Hpivot, !bind_Ok, push_eq, bind_Ok. cbv beta iota zeta. cbn [fst snd].
  set (pivot_ev := quicksort_animation.Pivot data lo hi hi _).
  destruct (scan_log f original lo hi pivot data (events ++ [pivot_ev]) ss)
    as (data1 & evs1 & i1 & -> & Hi1 & Hsame1 & Hr1 & Hu1 & Ht1); [lia|lia|].
  rewrite bind_Ok. cbv beta iota. cbn [fst snd].
  assert (Hlen1 : len data1 = len data) by (destruct Hsame1; unfold len; lia).
  assert (Hpivot_ev : tracked original data events →
                      tracked original data (events ++ [pivot_ev])).
  { intros Ht. by apply (tracked_push _ _ _ (λ d, quicksort_animation.Pivot d lo hi hi _)). }
  destruct (decide (i1 + 1 ≠ hi)) as [Hne|Heq].
  - destruct (getitem_nonneg data1 hi) as (dhi & Hdhi & _); [lia|].
    rewrite Hdhi, !bind_Ok, push_eq, bind_Ok. cbv beta iota.
    destruct (exchange_inside lo hi data1 (i1 + 1) hi) as (data2 & Hex & Hsame2); [lia..|].
    rewrite Hex, !bind_Ok. cbv beta iota.
    assert (Hlen2 : len data2 = len data1) by (destruct Hsame2; unfold len; lia).
    destruct (getitem_nonneg data2 (i1 + 1)) as (dpi & Hdpi & _); [lia|].
    rewrite Hdpi, bind_Ok, push_eq, bind_Ok.
    eexists data2, (pivot_ev :: evs1 ++ [_]), (i1 + 1), _.
    split; [by do 2 list_norm|]. split; [lia|].
    split; [by apply (same_outside_trans lo hi lo hi lo hi data data1)|].
    split.
    { constructor; [cbn; lia|]. apply Forall_app. split; [done|].
      repeat constructor; cbn; lia. }
    split.
    { constructor; [done|]. apply Forall_app. split; [done|]. by repeat constructor. }
    intros Ht. specialize (Ht1 (Hpivot_ev Ht)).
    match goal with
    | |- tracked _ _ (events ++ (pivot_ev :: evs1 ++ [?sw]) ++ [?so]) =>
        replace (events ++ (pivot_ev :: evs1 ++ [sw]) ++ [so])
          with ((((events ++ [pivot_ev]) ++ evs1) ++ [sw]) ++ [so])
          by (by do 2 list_norm)
    end.
    apply (tracked_push _ _ _
             (λ d, quicksort_animation.SortedIdx d lo hi (i1 + 1) _ _)); [|done|done].
    by apply tracked_swap.
  - destruct (getitem_nonneg data1 (i1 + 1)) as (dpi & Hdpi & _); [lia|].
    rewrite !bind_Ok. cbv beta iota. rewrite Hdpi, bind_Ok, push_eq, bind_Ok.
    eexists data1, (pivot_ev :: evs1), (i1 + 1), _.
    split; [by do 2 list_norm|]. split; [lia|]. split; [done|].
    split; [constructor; [cbn; lia|done]|]. split; [by constructor|].
    intros Ht. specialize (Ht1 (Hpivot_ev Ht)).
    match goal with
    | |- tracked _ _ (events ++ (pivot_ev :: evs1) ++ [?so]) =>
        replace (events ++ (pivot_ev :: evs1) ++ [so])
          with (((events ++ [pivot_ev]) ++ evs1) ++ [so])
          by (by do 2 list_norm)
    end.
    by apply (tracked_push _ _ _
                (λ d, quicksort_animation.SortedIdx d lo hi (i1 + 1) _ _)).
Qed.

Lemma interval_empty lo hi : hi < lo → interval lo hi = ∅.
Proof. intros Hlt. unfold interval. by rewrite seqZ_nil by lia. Qed.

Lemma elem_of_interval lo hi k : k ∈ interval lo hi ↔ lo ≤ k ≤ hi.
Proof. unfold interval. rewrite elem_of_list_to_set, elem_of_seqZ. lia. Qed.

Lemma interval_split lo hi pi ss :
  lo ≤ pi ≤ hi →
  ({[ pi ]} ∪ ss) ∪ interval lo (pi - 1) ∪ interval (pi + 1) hi = ss ∪ interval lo hi.
Proof.
  intros Hpi. apply set_eq. intros k.
  rewrite !elem_of_union, !elem_of_interval, elem_of_singleton.
  destruct (decide (k ∈ ss)); [tauto|]. intuition lia.
Qed.

Lemma union_empty_r ss : ss ∪ ∅ = ss.
Proof. apply (right_id_L ∅ (∪)). Qed.

Lemma union_empty_l ss : ∅ ∪ ss = ss.
Proof. apply (left_id_L ∅ (∪)). Qed.

Lemma unmarked_marks ss evs : Forall unmarked evs → Forall (marks_within ss) evs.
Proof. intros Hu. eapply Forall_impl; [exact Hu|]. intros []; cbn; try done. Qed.

Lemma marks_wider ss ss' evs :
  ss ⊆ ss' → Forall (marks_within ss) evs → Forall (marks_within ss') evs.
Proof.
  intros Hss Hm. eapply Forall_impl; [exact Hm|].
  intros []; cbn; try done; intros Hsub; by etrans.
Qed.

(** A range of at most one position: the record of a single element
    takes a call of [push]. *)
Lemma qs_leaf original f lo hi data events ss :
  0 ≤ lo → hi < len data → ¬ lo < hi → (lo = hi → (1 ≤ f)%nat) →
  ∃ data' evs,
    quicksort_animation.qs (frames := S f) lo hi (data, events, ss)
    = Ok (data', events ++ evs, ss ∪ interval lo hi)
    ∧ same_outside lo hi data data'
    ∧ Forall (ranged lo hi) evs
    ∧ Forall (settled data') evs
    ∧ (tracked original data events → tracked original data' (events ++ evs))
    ∧ Forall (marks_within (ss ∪ interval lo hi)) evs.
Proof.
  intros Hlo Hhi Hge Hf. rewrite qs_eq, decide_False by done.
  destruct (decide (lo = hi)) as [->|Hne].
  - destruct (getitem_nonneg data hi) as (dlo & Hget & Hlookup); [lia|].
    cbv zeta. rewrite Hget, bind_Ok.
    destruct f as [|f]; [specialize (Hf eq_refl); lia|]. rewrite push_eq.
    eexists data, [_].
    replace (ss ∪ interval hi hi) with ({[ hi ]} ∪ ss).
    2:{ apply set_eq. intros k.
        rewrite !elem_of_union, elem_of_interval, elem_of_singleton.
        destruct (decide (k ∈ ss)); [tauto|]. intuition lia. }
    split; [done|]. split; [apply same_outside_refl|].
    split; [repeat constructor; cbn; lia|].
    split; [repeat constructor; [lia|by exists dlo]|].
    split; [|constructor; [by cbn|done]].
    intros Ht.
    by apply (tracked_push _ _ _ (λ d, quicksort_animation.SortedIdx d hi hi hi _ _)).
  - exists data, []. rewrite app_nil_r, interval_empty, union_empty_r by lia.
    split_and!; [done|apply same_outside_refl|done|done|done|done].
Qed.

(** The log of [qs(lo, hi)] when the calls it makes may nest: a range
    of [m >= 2] items nests [m + 1] calls deep, a range of one item
    two. *)
Lemma qs_log original f :
  ∀ lo hi data events ss,
    0 ≤ lo → hi < len data →
    (1 ≤ f)%nat → (lo ≤ hi → hi - lo + 2 ≤ Z.of_nat f) →
    ∃ data' evs,
      quicksort_animation.qs (frames := f) lo hi (data, events, ss)
      = Ok (data', events ++ evs, ss ∪ interval lo hi)
      ∧ same_outside lo hi data data'
      ∧ Forall (ranged lo hi) evs
      ∧ Forall (settled data') evs
      ∧ (tracked original data events → tracked original data' (events ++ evs))
      ∧ Forall (marks_within (ss ∪ interval lo hi)) evs.
Proof.
  induction f as [|f IH]; intros lo hi data events ss Hlo Hhi Hf1 Hf; [lia|].
  destruct (decide (lo < hi)) as [Hlt|Hge]; [|apply qs_leaf; try done; lia].
  rewrite qs_eq, decide_True by done.
  destruct f as [|[|f]]; [lia..|].
  destruct (partition_log f original lo hi data events ss)
    as (data1 & evs1 & pi & msg & -> & Hpi & Hsame1 & Hr1 & Hu1 & Ht1); [lia|lia|].
  rewrite bind_Ok. cbv beta iota.
  assert (Hlen1 : len data1 = len data) by (destruct Hsame1; unfold len; lia).
  set (mark := quicksort_animation.SortedIdx data1 lo hi pi ({[ pi ]} ∪ ss) msg) in *.
  destruct (IH lo (pi - 1) data1 (events ++ evs1 ++ [mark]) ({[ pi ]} ∪ ss))
    as (data2 & evs2 & -> & Hsame2 & Hr2 & Hs2 & Ht2 & Hm2); [lia|lia|lia|lia|].
  rewrite bind_Ok.
  assert (Hlen2 : len data2 = len data1) by (destruct Hsame2; unfold len; lia).
  destruct (IH (pi + 1) hi data2 ((events ++ evs1 ++ [mark]) ++ evs2)
              ({[ pi ]} ∪ ss ∪ interval lo (pi - 1)))
    as (data3 & evs3 & -> & Hsame3 & Hr3 & Hs3 & Ht3 & Hm3); [lia|lia|lia|lia|].
  exists data3, ((evs1 ++ [mark]) ++ evs2 ++ evs3).
  rewrite interval_split in * by done.
  split; [by rewrite <- !app_assoc|].
  split.
  { apply (same_outside_trans lo hi lo hi (pi + 1) hi data data2); [lia..| |done].
    by apply (same_outside_trans lo hi lo hi lo (pi - 1) data data1); [lia..| |]. }
  split.
  { apply Forall_app. split; [apply Forall_app; split|apply Forall_app; split].
    - done.
    - constructor; [subst mark; cbn; lia|done].
    - by apply (ranged_wider lo (pi - 1)); [lia..|].
    - by apply (ranged_wider (pi + 1) hi); [lia..|]. }
  split.
  { apply Forall_app. split; [apply Forall_app; split|apply Forall_app; split].
    - by apply unmarked_settled.
    - constructor; [|done]. subst mark. cbn.
      destruct Hsame2 as [_ Hout2]. destruct Hsame3 as [_ Hout3].
      destruct (lookup_lt_is_Some_2 data1 (Z.to_nat pi)) as [x Hx];
        [unfold len in *; lia|].
      split; [lia|]. exists x. split; [done|].
      rewrite Hout3 by lia. rewrite Hout2 by lia. done.
    - by apply (settled_outside lo (pi - 1) (pi + 1) hi data2); [lia|lia|..].
    - done. }
  split.
  { intros Ht. specialize (Ht3 (Ht2 (Ht1 Ht))).
    rewrite <- !app_assoc in Ht3. by rewrite <- !app_assoc. }
  apply Forall_app. split; [apply Forall_app; split|apply Forall_app; split].
  - by apply unmarked_marks.
  - constructor; [|done]. subst mark. cbn.
    intros k. rewrite !elem_of_union, elem_of_interval, elem_of_singleton.
    destruct (decide (k ∈ ss)); [tauto|]. intuition lia.
  - eapply marks_wider; [|exact Hm2].
    intros k. rewrite !elem_of_union, !elem_of_interval, elem_of_singleton.
    destruct (decide (k ∈ ss)); [tauto|]. intuition lia.
  - done.
Qed.

(** The log of a call of the recorder that may nest [len + 2] calls:
    its own, those of [qs], and two for [partition] and [push]. *)
Lemma run_log f original :
  len original + 2 ≤ Z.of_nat f →
  ∃ final evs,
    quicksort_animation.run (frames := f) original
    = Ok (final,
          evs ++ [quicksort_animation.Done final (interval 0 (len original - 1))
                    (Msg "✓  Array sorted!" [])])
    ∧ length final = length original
    ∧ Forall (ranged 0 (len original - 1)) evs
    ∧ Forall (settled final) evs
    ∧ snapshots_follow original
        (evs ++ [quicksort_animation.Done final (interval 0 (len original - 1))
                   (Msg "✓  Array sorted!" [])])
    ∧ Forall (marks_within (interval 0 (len original - 1))) evs.
Proof.
  intros Hf. destruct f as [|f]; [unfold len in *; lia|].
  unfold quicksort_animation.run. rewrite call_S. cbv zeta.
  destruct (qs_log original f 0 (len original - 1) original [] ∅)
    as (final & evs & -> & [Hlen _] & Hr & Hs & Ht & Hm);
    [lia|lia|unfold len in *; lia|lia|].
  rewrite bind_Ok. destruct f as [|f]; [unfold len in *; lia|].
  rewrite push_eq, bind_Ok. cbn [app snd].
  rewrite union_empty_l in *.
  exists final, evs. split_and!; try done.
  specialize (Ht (log_tracks_nil _ _ original)). cbn [app] in Ht.
  by apply (tracked_push _ _ _ (λ d, quicksort_animation.Done d _ _)).
Qed.

(** The log of any call of the recorder that returns. *)
Lemma run_log_returned f original final events :
  quicksort_animation.run (frames := f) original = Ok (final, events) →
  ∃ evs,
    events = evs ++ [quicksort_animation.Done final (interval 0 (len original - 1))
                       (Msg "✓  Array sorted!" [])]
    ∧ length final = length original
    ∧ Forall (ranged 0 (len original - 1)) evs
    ∧ Forall (settled final) evs
    ∧ snapshots_follow original events
    ∧ Forall (marks_within (interval 0 (len original - 1))) evs.
Proof.
  intros Hrun.
  set (g := (f + Z.to_nat (len original) + 2)%nat).
  destruct (run_log g original) as (final' & evs & Hrun' & Hrest);
    [unfold g, len; lia|].
  pose proof (cut_short_Ok _ _ _ (run_mono f g original ltac:(unfold g; lia)) Hrun)
    as Hsame.
  rewrite Hrun' in Hsame. injection Hsame as <- <-. by exists evs.
Qed.
End quicksort_log.

Section quicksort_recorder_enough.
Context `{Comparable A}.

Lemma record_events_enough f (original : list A) :
  len original + 2 ≤ Z.of_nat f →
  ∃ events, quicksort_animation.record_events (frames := f) original = Ok events.
Proof.
  intros Hf. destruct (run_log f original Hf) as (final & evs & Hrun & _).
  eexists. unfold quicksort_animation.record_events. by rewrite Hrun, bind_Ok.
Qed.
End quicksort_recorder_enough.

(** ** The log of the heapsort recorder *)

Section range_down_loops.
Context {S : Type}.

(** A [for j in range(a, b, -1)] loop with an invariant that depends
    on [j]. *)
Lemma for_range_down (P : Z → S → Prop) (body : Z → S → result S) (a b : Z) (s : S) :
  b ≤ a → P a s →
  (∀ j s, b < j ≤ a → P j s → ∃ s', body j s = Ok s' ∧ P (j - 1) s') →
  ∃ s', for_each (range_down a b) body s = Ok s' ∧ P b s'.
Proof.
  intros Hab. remember (Z.to_nat (a - b)) as n eqn:Hn.
  revert a s Hab Hn. induction n as [|n IH]; intros a s Hab Hn Hs Hstep.
  - rewrite range_down_nil by lia. exists s. by replace b with a by lia.
  - rewrite range_down_cons by lia. cbn [for_each].
    destruct (Hstep a s) as (s1 & -> & Hs1); [lia|done|]. rewrite bind_Ok.
    apply IH; [lia|lia|done|]. intros j s' Hj. apply Hstep. lia.
Qed.
End range_down_loops.

Section heapsort_log.
Context `{ComparableLaws A}.
Implicit Types (original arr final : list A)
  (events evs : list (heapsort_animation.event A)) (n i j : Z).

Lemma htracked_push original arr events ev :
  heapsort_tracked original arr events →
  heapsort_snapshot (ev arr) = arr →
  replay.heapsort_record (ev arr) arr = Ok arr →
  heapsort_tracked original arr (events ++ [ev arr]).
Proof. apply log_tracks_snoc. Qed.

Lemma sifting_building evs : Forall sifting evs → Forall building evs.
Proof. intros Hs. eapply Forall_impl; [exact Hs|]. by intros []. Qed.

Lemma sifting_extracted n j arr evs : Forall sifting evs → Forall (extracted n j arr) evs.
Proof. intros Hs. eapply Forall_impl; [exact Hs|]. by intros []. Qed.

(** The log of [heapify(n, i)] with enough fuel. *)
Lemma heapify_log fuel :
  ∀ n i arr events,
    0 ≤ i < n → n ≤ len arr → n - i ≤ Z.of_nat fuel + 1 →
    ∃ arr' evs,
      heapsort_animation.heapify fuel n i (arr, events) = Ok (arr', events ++ evs)
      ∧ same_outside i (n - 1) arr arr'
      ∧ Forall sifting evs
      ∧ ∀ original, heapsort_tracked original arr events →
                    heapsort_tracked original arr' (events ++ evs).
Proof.
  induction fuel as [|fuel IH]; intros n i arr events Hi Hn Hfuel;
    (destruct (lookup_lt_is_Some_2 arr (Z.to_nat i)) as [vi Hvi];
       [unfold len in *; lia|]);
    (destruct (largest_spec arr n i vi) as (g & vg & Hg & Hvg & Hgi & _);
       [lia|done|done|]);
    (assert (Hg0 : 0 ≤ g) by (unfold child in *; lia));
    pose proof (getitem_lookup arr g vg Hg0 Hvg) as Hgetg;
    pose proof (getitem_lookup arr i vi ltac:(lia) Hvi) as Hgeti;
    cbn [heapsort_animation.heapify]; cbv zeta;
    unfold heapsort_animation.push; cbn [fst snd];
    apply bind_Ok_inv in Hg as (g1 & Hg1 & Hg2);
    rewrite Hg1, bind_Ok, Hg2, bind_Ok, Hgetg, bind_Ok;
    set (compare := heapsort_animation.Compare arr n i _ _ i _);
    set (found := heapsort_animation.LargestFound arr n i g _);
    (assert (Hquiet : ∀ original, heapsort_tracked original arr events →
               heapsort_tracked original arr ((events ++ [compare]) ++ [found]));
     [intros original Ht;
      apply (htracked_push _ _ _ (λ d, heapsort_animation.LargestFound d n i g _));
        [|done|done];
      by apply (htracked_push _ _ _ (λ d, heapsort_animation.Compare d n i _ _ i _))|]);
    destruct (decide (g ≠ i)) as [Hne|Heq].
  - unfold child in *. lia.
  - eexists arr, [compare; found; _].
    split; [by do 2 list_norm|]. split; [apply same_outside_refl|].
    split; [by repeat constructor|]. intros original Ht.
    rewrite (cons_middle compare), (cons_middle found), !app_assoc.
    apply (htracked_push _ _ _ (λ d, heapsort_animation.HeapifyDone d n i _));
      [by apply Hquiet|done|done].
  - destruct Hgi as [?|[Hchild Hgn]]; [done|].
    rewrite Hgeti, !bind_Ok.
    destruct (exchange_inside i (n - 1) arr i g) as (arr1 & Hex & Hsame1);
      [lia|lia|lia|unfold child in *; lia|].
    rewrite Hex, bind_Ok.
    assert (Hlen1 : len arr1 = len arr) by (destruct Hsame1; unfold len; lia).
    match goal with
    | |- context [heapsort_animation.heapify fuel n g (arr1, ?ev)] =>
        destruct (IH n g arr1 ev) as (arr' & evs & -> & Hsame & Hsift & Ht')
    end; [unfold child in *; lia|lia|unfold child in *; lia|].
    eexists arr', (compare :: found :: _ :: _ :: evs).
    split; [by do 4 list_norm|].
    split.
    { apply (same_outside_trans i (n - 1) i (n - 1) g (n - 1) arr arr1);
        [lia|lia|unfold child in *; lia|lia|done|done]. }
    split; [by repeat constructor|]. intros original Ht.
    rewrite (cons_middle compare), (cons_middle found), !app_assoc.
    rewrite (cons_middle _ _ (_ :: evs)), app_assoc, (cons_middle _ _ evs), app_assoc.
    apply Ht'.
    apply (htracked_push _ _ _ (λ d, heapsort_animation.AfterSwap d n i g _));
      [|done|done].
    apply (log_tracks_snoc _ _ _ arr); [by apply Hquiet|done|done].
  - eexists arr, [compare; found; _].
    split; [by do 2 list_norm|]. split; [apply same_outside_refl|].
    split; [by repeat constructor|]. intros original Ht.
    rewrite (cons_middle compare), (cons_middle found), !app_assoc.
    apply (htracked_push _ _ _ (λ d, heapsort_animation.HeapifyDone d n i _));
      [by apply Hquiet|done|done].
Qed.

Lemma build_step_log n i arr events :
  0 ≤ i < n → n ≤ len arr →
  ∃ arr' evs,
    heapsort_animation.build_step n i (arr, events) = Ok (arr', events ++ evs)
    ∧ length arr' = length arr
    ∧ Forall building evs
    ∧ ∀ original, heapsort_tracked original arr events →
                  heapsort_tracked original arr' (events ++ evs).
Proof.
  intros Hi Hn.
  destruct (getitem_nonneg arr i) as (vi & Hvi & _); [lia|].
  unfold heapsort_animation.build_step, heapsort_animation.push. cbn [fst snd].
  rewrite Hvi, bind_Ok.
  set (start := heapsort_animation.StartHeapify arr n i _).
  destruct (heapify_log (Z.to_nat n) n i arr (events ++ [start]))
    as (arr' & evs & -> & [Hlen _] & Hsift & Ht); [lia|lia|lia|].
  exists arr', (start :: evs).
  split; [by list_norm|]. split; [done|].
  split; [constructor; [done|by apply sifting_building]|].
  intros original Htracked. rewrite cons_middle, app_assoc. apply Ht.
  by apply (htracked_push _ _ _ (λ d, heapsort_animation.StartHeapify d n i _)).
Qed.

Lemma extract_step_log j arr events :
  0 < j < len arr →
  ∃ arr1 arr' evs msg1 msg2,
    heapsort_animation.extract_step j (arr, events)
    = Ok (arr', events ++ heapsort_animation.ExtractMax arr (j + 1) j msg1
                  :: heapsort_animation.AfterExtract arr1 j j msg2 :: evs)
    ∧ same_outside 0 j arr arr1
    ∧ same_outside 0 (j - 1) arr1 arr'
    ∧ Forall sifting evs
    ∧ ∀ original, heapsort_tracked original arr events →
        heapsort_tracked original arr'
          (events ++ heapsort_animation.ExtractMax arr (j + 1) j msg1
             :: heapsort_animation.AfterExtract arr1 j j msg2 :: evs).
Proof.
  intros Hj.
  destruct (getitem_nonneg arr 0) as (v0 & Hv0 & _); [lia|].
  unfold heapsort_animation.extract_step, heapsort_animation.push. cbn [fst snd].
  rewrite Hv0, bind_Ok.
  destruct (exchange_inside 0 j arr 0 j) as (arr1 & Hex & Hsame1); [lia..|].
  rewrite Hex, bind_Ok.
  assert (Hlen1 : len arr1 = len arr) by (destruct Hsame1; unfold len; lia).
  destruct (getitem_nonneg arr1 j) as (vj & Hvj & _); [lia|].
  rewrite Hvj, bind_Ok.
  set (extract := heapsort_animation.ExtractMax arr (j + 1) j _).
  set (after := heapsort_animation.AfterExtract arr1 j j _).
  assert (Hnew : ∀ original, heapsort_tracked original arr events →
            heapsort_tracked original arr1 ((events ++ [extract]) ++ [after])).
  { intros original Ht.
    apply (htracked_push _ _ _ (λ d, heapsort_animation.AfterExtract d j j _));
      [|done|done].
    by apply (log_tracks_snoc _ _ _ arr). }
  destruct (decide (j > 1)) as [Hgt|Hle].
  - destruct (heapify_log (Z.to_nat j) j 0 arr1 ((events ++ [extract]) ++ [after]))
      as (arr' & evs & -> & Hsame & Hsift & Ht); [lia|lia|lia|].
    eexists arr1, arr', evs, _, _.
    split; [by do 2 list_norm|]. split; [done|]. split; [done|]. split; [done|].
    intros original Htracked.
    rewrite (cons_middle extract), (cons_middle after), !app_assoc.
    by apply Ht, Hnew.
  - eexists arr1, arr1, [], _, _.
    split; [by do 2 list_norm|]. split; [done|].
    split; [apply same_outside_refl|]. split; [done|].
    intros original Htracked.
    rewrite (cons_middle extract), app_assoc. by apply Hnew.
Qed.

Lemma extracted_step n j arr arr1 arr' evs :
  0 < j →
  same_outside 0 j arr arr1 → same_outside 0 (j - 1) arr1 arr' →
  Forall (extracted n j arr) evs → Forall (extracted n (j - 1) arr') evs.
Proof.
  intros Hj [_ Hout1] [_ Hout2] Hevs. eapply Forall_impl; [exact Hevs|].
  intros ev Hev. destruct ev; try done; cbn in *; [lia|].
  split; [lia|]. rewrite Hout2 by lia. rewrite Hout1 by lia. apply Hev.
Qed.

(** The two loops of [record_events]. *)
Lemma build_log arr events :
  ∃ heap evs,
    for_each (range_down (len arr `div` 2 - 1) (-1))
      (heapsort_animation.build_step (len arr)) (arr, events)
    = Ok (heap, events ++ evs)
    ∧ length heap = length arr
    ∧ Forall building evs
    ∧ ∀ original, heapsort_tracked original arr events →
                  heapsort_tracked original heap (events ++ evs).
Proof.
  pose proof (len_nonneg arr) as Hlen.
  pose proof (Z.div_mod (len arr) 2 ltac:(lia)) as Hdiv.
  pose proof (Z.mod_pos_bound (len arr) 2 ltac:(lia)) as Hmod.
  destruct (for_range_down
    (λ (j : Z) (t : list A * list (heapsort_animation.event A)),
       ∃ heap evs,
         t = (heap, events ++ evs) ∧ length heap = length arr
         ∧ Forall building evs
         ∧ ∀ original, heapsort_tracked original arr events →
                       heapsort_tracked original heap (events ++ evs))
    (heapsort_animation.build_step (len arr))
    (len arr `div` 2 - 1) (-1) (arr, events))
    as (t & Hrun & heap & evs & -> & Hrest); [lia| |..].
  - exists arr, []. rewrite app_nil_r. done.
  - intros j t Hj (heap1 & evs1 & -> & Hlen1 & Hb1 & Ht1).
    destruct (build_step_log (len arr) j heap1 (events ++ evs1))
      as (heap2 & evs2 & Hstep & Hlen2 & Hb2 & Ht2); [lia|unfold len in *; lia|].
    eexists. split; [exact Hstep|].
    exists heap2, (evs1 ++ evs2). rewrite app_assoc.
    split_and!; [done|lia|by apply Forall_app|].
    intros original Ht. by apply Ht2, Ht1.
  - by exists heap, evs.
Qed.

Lemma extract_log arr events :
  ∃ final evs,
    for_each (range_down (len arr - 1) 0) heapsort_animation.extract_step (arr, events)
    = Ok (final, events ++ evs)
    ∧ length final = length arr
    ∧ Forall (extracted (len arr) 0 final) evs
    ∧ ∀ original, heapsort_tracked original arr events →
                  heapsort_tracked original final (events ++ evs).
Proof.
  destruct (decide (0 < len arr)) as [Hpos|Hempty].
  2:{ exists arr, []. rewrite range_down_nil by lia. by rewrite app_nil_r. }
  destruct (for_range_down
    (λ (j : Z) (t : list A * list (heapsort_animation.event A)),
       ∃ arr' evs,
         t = (arr', events ++ evs) ∧ length arr' = length arr
         ∧ Forall (extracted (len arr) j arr') evs
         ∧ ∀ original, heapsort_tracked original arr events →
                       heapsort_tracked original arr' (events ++ evs))
    heapsort_animation.extract_step (len arr - 1) 0 (arr, events))
    as (t & Hrun & final & evs & -> & Hrest); [lia| |..].
  - exists arr, []. rewrite app_nil_r. done.
  - intros j t Hj (arr1 & evs1 & -> & Hlen1 & He1 & Ht1).
    destruct (extract_step_log j arr1 (events ++ evs1))
      as (arr2 & arr3 & evs2 & msg1 & msg2 & Hstep & Hsame2 & Hsame3 & Hsift & Ht2);
      [unfold len in *; lia|].
    eexists. split; [exact Hstep|].
    eexists arr3, (evs1 ++ _ :: _ :: evs2). rewrite app_assoc.
    split; [done|].
    split; [destruct Hsame2, Hsame3; lia|].
    split.
    { apply Forall_app. split; [apply (extracted_step _ j arr1 arr2); [lia|done..]|].
      constructor; [cbn; lia|]. constructor; [|by apply sifting_extracted].
      cbn. split; [lia|]. destruct Hsame3 as [_ Hout]. by rewrite Hout by lia. }
    intros original Ht. by apply Ht2, Ht1.
  - by exists final, evs.
Qed.

Lemma heapsort_run_log arr :
  ∃ heap final evs1 evs2,
    heapsort_animation.run arr
    = Ok (final,
          heapsort_animation.Phase arr heapsort_animation.Build
            (Msg "Phase 1: Build Max-Heap (bottom-up)" [])
          :: evs1
          ++ heapsort_animation.HeapReady heap
               (Msg "Max-Heap is built — root holds the maximum ✓" [])
          :: heapsort_animation.Phase heap heapsort_animation.Extract
               (Msg "Phase 2: Extract elements one by one" [])
          :: evs2 ++ [heapsort_animation.Done final (Msg "✓  Array sorted!" [])])
    ∧ for_each (range_down (len arr `div` 2 - 1) (-1))
        (λ i arr0, heapSort.heapify arr0 (len arr) i) arr = Ok heap
    ∧ Forall building evs1
    ∧ Forall (extracted (len arr) 0 final) evs2
    ∧ heapsort_snapshots_follow arr
        (heapsort_animation.Phase arr heapsort_animation.Build
           (Msg "Phase 1: Build Max-Heap (bottom-up)" [])
         :: evs1
         ++ heapsort_animation.HeapReady heap
              (Msg "Max-Heap is built — root holds the maximum ✓" [])
         :: heapsort_animation.Phase heap heapsort_animation.Extract
              (Msg "Phase 2: Extract elements one by one" [])
         :: evs2 ++ [heapsort_animation.Done final (Msg "✓  Array sorted!" [])]).
Proof.
  unfold heapsort_animation.run. cbv zeta. unfold heapsort_animation.push.
  cbn [app fst snd].
  set (phase1 := heapsort_animation.Phase arr heapsort_animation.Build _).
  destruct (build_log arr [phase1]) as (heap & evs1 & Hbuild & Hlen1 & Hb1 & Ht1).
  rewrite Hbuild, bind_Ok. cbv beta iota.
  set (ready := heapsort_animation.HeapReady heap _).
  set (phase2 := heapsort_animation.Phase heap heapsort_animation.Extract _).
  assert (Hlen : len heap = len arr) by (unfold len; lia).
  destruct (extract_log heap ((([phase1] ++ evs1) ++ [ready]) ++ [phase2]))
    as (final & evs2 & Hextract & Hlen2 & He2 & Ht2).
  rewrite Hlen in Hextract, He2. rewrite Hextract, bind_Ok. cbv beta iota.
  exists heap, final, evs1, evs2.
  assert (Hlist : ∀ done : heapsort_animation.event A,
    ((((([phase1] ++ evs1) ++ [ready]) ++ [phase2]) ++ evs2) ++ [done])
    = phase1 :: evs1 ++ ready :: phase2 :: evs2 ++ [done]).
  { intros done. by do 4 list_norm. }
  rewrite Hlist. split; [done|].
  split.
  { destruct (build_heap arr) as (heap' & Hplain & _).
    destruct (for_each_sim (tracks arr []) (range_down (len arr `div` 2 - 1) (-1))
                (λ i arr0, heapSort.heapify arr0 (len arr) i)
                (heapsort_animation.build_step (len arr)))
      with (s := arr) (t := (arr, [phase1])) (s' := heap')
      as (t1 & Hb & Htracks & _); [| |done|].
    - intros i s t s' Hi%elem_of_range_down Ht Hf.
      apply (build_step_sim arr [] _ _ s); [|done|done].
      pose proof (len_nonneg arr).
      pose proof (Z.div_mod (len arr) 2 ltac:(lia)).
      pose proof (Z.mod_pos_bound (len arr) 2 ltac:(lia)). lia.
    - split; [done|]. split; [done|]. by exists [phase1].
    - rewrite Hbuild in Hb. injection Hb as <-. cbn [fst] in Htracks.
      by rewrite Htracks. }
  split; [done|]. split; [done|].
  rewrite <- Hlist.
  eapply (log_tracks_snoc _ _ _ final _ _ final); [|done|done].
  apply Ht2.
  apply (htracked_push _ _ _ (λ d, heapsort_animation.Phase d heapsort_animation.Extract _));
    [|done|done].
  apply (htracked_push _ _ _ (λ d, heapsort_animation.HeapReady d _)); [|done|done].
  apply Ht1.
  apply (htracked_push _ _ [] (λ d, heapsort_animation.Phase d heapsort_animation.Build _));
    [|done|done].
  apply log_tracks_nil.
Qed.
End heapsort_log.

(** ** The bucket order of the bucket-sort recorder *)

#[global] Instance keyed_comparable_laws : ComparableLaws keyed.
Proof.
  split; unfold le_b, keyed_comparable.
  - intros x y. rewrite !Qle_bool_iff.
    destruct (Qlt_le_dec x.1 y.1) as [Hlt|Hle]; [left; by apply Qlt_le_weak|by right].
  - intros x y z. rewrite !Qle_bool_iff. apply Qle_trans.
Qed.

Section mapped_lists.
Context {X Y : Type} (f : X → Y).

Lemma getitem_fmap (l : list X) i :
  getitem (f <$> l) i = getitem l i ≫= λ x, Ok (f x).
Proof.
  unfold getitem, len. rewrite length_fmap.
  destruct (py_index (Z.of_nat (length l)) i) as [k|e]; [|done].
  rewrite !bind_Ok, list_lookup_fmap. by destruct (l !! k).
Qed.

Lemma setitem_fmap (l : list X) i x :
  setitem (f <$> l) i (f x) = setitem l i x ≫= λ l' : list X, Ok (f <$> l').
Proof.
  unfold setitem, len. rewrite length_fmap.
  destruct (py_index (Z.of_nat (length l)) i) as [k|e]; [|done].
  by rewrite !bind_Ok, list_fmap_insert.
Qed.
End mapped_lists.

Section bucket_order.
Context (rnd : Q → Q).
Implicit Types (arr vals : list Q) (bucket : list Z) (pairs : list keyed)
  (evts evs : list bucketsort_animation.event).

(** The recorder sorts [vals] and [bucket] as the plain insertion sort
    sorts the list of their pairs. *)
Lemma shift_right_keyed bi fuel :
  ∀ pairs (key : keyed) j evts pairs' j',
    bucketSort.shift_right fuel pairs key j = Ok (pairs', j') →
    ∃ evts',
      bucketsort_animation.shift_right fuel bi key.1 key.2 (pairs.*1) (pairs.*2) evts j
      = Ok (pairs'.*1, pairs'.*2, evts', j').
Proof.
  induction fuel as [|fuel IH]; intros pairs key j evts pairs' j' Hrun;
    unfold keyed in *;
    cbn [bucketSort.shift_right bucketsort_animation.shift_right] in *;
    (destruct (decide (j >= 0)); [|injection Hrun as <- <-; by eexists]);
    apply bind_Ok_inv in Hrun as (bj & Hbj & Hrun);
    rewrite (getitem_fmap fst), Hbj, !bind_Ok;
    change (gt_b bj.1 key.1) with (gt_b bj key);
    (destruct (gt_b bj key); [|injection Hrun as <- <-; by eexists]);
    [done|].
  rewrite Hbj, bind_Ok in Hrun.
  apply bind_Ok_inv in Hrun as (pairs1 & Hset & Hrun).
  pose proof (setitem_getitem _ _ _ _ Hset) as Hget.
  rewrite (getitem_fmap snd), Hbj, !bind_Ok.
  rewrite (setitem_fmap fst), Hset, !bind_Ok.
  rewrite (setitem_fmap snd), Hset, !bind_Ok.
  rewrite (getitem_fmap snd), (getitem_fmap fst), Hget, !bind_Ok.
  by apply IH.
Qed.

Lemma isort_step_keyed bi i pairs pairs' evts :
  bucketSort.insertion_step i pairs = Ok pairs' →
  ∃ evts',
    bucketsort_animation.isort_step bi i (pairs.*1, pairs.*2, evts)
    = Ok (pairs'.*1, pairs'.*2, evts').
Proof.
  rewrite insertion_step_eq. intros Hrun. unfold keyed in *.
  apply bind_Ok_inv in Hrun as (key & Hkey & Hrun).
  apply bind_Ok_inv in Hrun as ([pairs1 j] & Hshift & Hset).
  unfold bucketsort_animation.isort_step. cbv zeta.
  rewrite (getitem_fmap snd), (getitem_fmap fst), Hkey, !bind_Ok.
  edestruct (shift_right_keyed bi) as (evts1 & ->); [exact Hshift|].
  rewrite bind_Ok. cbv beta iota.
  rewrite (setitem_fmap fst), Hset, !bind_Ok.
  rewrite (setitem_fmap snd), Hset, !bind_Ok.
  by eexists.
Qed.

Lemma vals_of_bucket_inv arr :
  ∀ bucket acc out,
    for_each bucket (λ oi vals, getitem arr oi ≫= λ v, Ok (vals ++ [v])) acc = Ok out →
    ∃ vals, out = acc ++ vals ∧ Forall2 (item_of arr) vals bucket.
Proof.
  induction bucket as [|oi bucket IH]; intros acc out Hrun.
  - injection Hrun as <-. exists []. by rewrite app_nil_r.
  - cbn [for_each] in Hrun. apply bind_Ok_inv in Hrun as (acc1 & Hstep & Hrun).
    apply bind_Ok_inv in Hstep as (v & Hv & [= <-]).
    destruct (IH _ _ Hrun) as (vals & -> & HR).
    exists (v :: vals). split; [by rewrite <- app_assoc|]. by constructor.
Qed.

Lemma isort_bucket_keyed arr bi bucket evts vals :
  Forall2 (item_of arr) vals bucket →
  ∃ pairs' evts',
    bucketSort.insertion_sort (zip vals bucket) = Ok pairs'
    ∧ bucketsort_animation.isort_bucket arr bi bucket evts = Ok (pairs'.*2, evts').
Proof.
  intros HR. pose proof (Forall2_length _ _ _ HR) as Hlength.
  destruct (insertion_sort_ties (zip vals bucket)) as (pairs' & Hsort & _).
  exists pairs'.
  enough (∃ evts', bucketsort_animation.isort_bucket arr bi bucket evts
                   = Ok (pairs'.*2, evts')) as [evts' Hrec] by by exists evts'.
  unfold bucketsort_animation.isort_bucket.
  rewrite (vals_of_bucket arr bucket vals [] HR), bind_Ok. cbn [app].
  assert (Hfst : (zip vals bucket).*1 = vals) by (apply fst_zip; lia).
  assert (Hsnd : (zip vals bucket).*2 = bucket) by (apply snd_zip; lia).
  assert (Hlen : len (zip vals bucket) = len vals).
  { unfold len. rewrite length_zip_with. lia. }
  assert (Hlenb : len bucket = len vals) by (unfold len; lia).
  unfold bucketSort.insertion_sort in Hsort. rewrite Hlen in Hsort.
  destruct (decide (len bucket ≤ 1)) as [Hle|Hgt].
  - rewrite range_nil in Hsort by lia. injection Hsort as <-. rewrite Hsnd.
    destruct (decide (len bucket = 1)); by eexists.
  - cbv zeta. set (evts1 := evts ++ [_]). clearbody evts1.
    destruct (for_each_sim
      (λ (s : list keyed) (t : list Q * list Z * list bucketsort_animation.event),
         t.1.1 = s.*1 ∧ t.1.2 = s.*2)
      (range 1 (len vals)) bucketSort.insertion_step
      (bucketsort_animation.isort_step bi))
      with (s := zip vals bucket) (t := (vals, bucket, evts1)) (s' := pairs')
      as ([[vals2 bucket2] evts2] & -> & Hv & Hb).
    + intros i s [[s2 b2] e2] s' _ [Hs Hb] Hstep. cbn [fst snd] in *. subst s2 b2.
      destruct (isort_step_keyed bi i s s' e2 Hstep) as (e' & ->). by eexists.
    + by cbn [fst snd].
    + done.
    + rewrite bind_Ok. cbn [fst snd] in *. subst bucket2. by eexists.
Qed.

(** The insertion sort of a bucket permutes its original indices, and
    leaves every index next to its own value. *)
Lemma isort_bucket_perm arr bi bucket evts bucket' evts' :
  bucketsort_animation.isort_bucket arr bi bucket evts = Ok (bucket', evts') →
  bucket' ≡ₚ bucket.
Proof.
  intros Hrun.
  assert (∃ vals, Forall2 (item_of arr) vals bucket) as [vals HR].
  { unfold bucketsort_animation.isort_bucket in Hrun.
    apply bind_Ok_inv in Hrun as (vals & Hvals & _).
    apply vals_of_bucket_inv in Hvals as (vals' & -> & HR). by exists vals'. }
  destruct (isort_bucket_keyed arr bi bucket evts vals HR) as (pairs' & e & Hsort & Hrec).
  rewrite Hrec in Hrun. injection Hrun as <- _.
  destruct (insertion_sort_ties (zip vals bucket)) as (out & Hsort' & Hperm & _).
  rewrite Hsort in Hsort'. injection Hsort' as <-.
  rewrite Hperm. rewrite snd_zip; [done|]. by rewrite (Forall2_length _ _ _ HR).
Qed.

Lemma isort_buckets_perm arr :
  ∀ (items : list (Z * list Z)) visited evts visited' evts',
    for_each items (bucketsort_animation.isort_buckets_step arr) (visited, evts)
    = Ok (visited', evts') →
    concat visited' ≡ₚ concat visited ++ concat (items.*2).
Proof.
  induction items as [|[bi bucket] items IH]; intros visited evts visited' evts' Hrun.
  - injection Hrun as <- <-. by rewrite app_nil_r.
  - cbn [for_each] in Hrun. apply bind_Ok_inv in Hrun as ([visited1 evts1] & Hstep & Hrun).
    unfold bucketsort_animation.isort_buckets_step in Hstep.
    apply bind_Ok_inv in Hstep as ([bucket' e] & Hbucket & [= <- <-]).
    apply isort_bucket_perm in Hbucket.
    rewrite (IH _ _ _ _ Hrun), concat_app. cbn [concat fmap list_fmap snd].
    rewrite app_nil_r, Hbucket. by rewrite <- app_assoc.
Qed.

(** The scatter loop appends every original index to one bucket. *)
Lemma scatter_indices n :
  ∀ (items : list (Z * Q)) buckets evts buckets' evts',
    for_each items (bucketsort_animation.scatter_step rnd n) (buckets, evts)
    = Ok (buckets', evts') →
    concat buckets' ≡ₚ concat buckets ++ items.*1.
Proof.
  induction items as [|[oi v] items IH]; intros buckets evts buckets' evts' Hrun.
  - injection Hrun as <- <-. by rewrite app_nil_r.
  - cbn [for_each] in Hrun. apply bind_Ok_inv in Hrun as ([buckets1 evts1] & Hstep & Hrun).
    unfold bucketsort_animation.scatter_step in Hstep. cbv zeta in Hstep.
    apply bind_Ok_inv in Hstep as (b & Hb & Hstep).
    apply bind_Ok_inv in Hstep as (buckets2 & Hset & [= <- <-]).
    apply getitem_inv in Hb as (k & Hk & Hb).
    apply setitem_inv in Hset as (k' & Hk' & ->).
    assert (k' = k) as -> by congruence.
    rewrite (IH _ _ _ _ Hrun), (concat_insert_snoc _ _ _ _ Hb).
    cbn [fmap list_fmap fst]. by rewrite <- app_assoc.
Qed.

Lemma gather_moves_app evts evs :
  gather_moves (evts ++ evs) = gather_moves evts ++ gather_moves evs.
Proof. apply omap_app. Qed.

Lemma gather_moves_quiet evs : Forall no_gather evs → gather_moves evs = [].
Proof.
  induction 1 as [|ev evs Hev _ IH]; [done|].
  unfold gather_moves in *. cbn [omap]. by destruct ev.
Qed.

(** The gather loop moves the indices of the buckets, in their order,
    to consecutive positions. *)
Lemma gather_bucket_moves arr bi :
  ∀ bucket slot evts dest evts' dest',
    for_each (zip (seqZ slot (len bucket)) bucket)
      (bucketsort_animation.gather_step arr bi) (evts, dest) = Ok (evts', dest') →
    dest' = dest + len bucket
    ∧ gather_moves evts'
      = gather_moves evts ++ zip bucket (seqZ dest (len bucket)).
Proof.
  induction bucket as [|oi bucket IH]; intros slot evts dest evts' dest' Hrun.
  - injection Hrun as <- <-. rewrite len_nil, app_nil_r. split; [lia|done].
  - rewrite len_cons in *.
    rewrite seqZ_cons in Hrun by (pose proof (len_nonneg bucket); lia).
    rewrite seqZ_cons by (pose proof (len_nonneg bucket); lia).
    replace (Z.pred (1 + len bucket)) with (len bucket) in * by lia.
    cbn [zip zip_with for_each] in *.
    apply bind_Ok_inv in Hrun as ([evts1 dest1] & Hstep & Hrun).
    unfold bucketsort_animation.gather_step in Hstep.
    apply bind_Ok_inv in Hstep as (v & Hv & [= <- <-]).
    destruct (IH _ _ _ _ _ Hrun) as [-> ->].
    split; [lia|]. rewrite gather_moves_app. cbn. rewrite <- app_assoc.
    by replace (Z.succ dest) with (dest + 1) by lia.
Qed.

Lemma gather_all_moves arr :
  ∀ (buckets : list (list Z)) bi evts dest evts' dest',
    for_each (zip (seqZ bi (len buckets)) buckets)
      (λ '(bi, bucket) st,
         for_each (bucketsort_animation.enumerate bucket)
           (bucketsort_animation.gather_step arr bi) st) (evts, dest)
    = Ok (evts', dest') →
    dest' = dest + len (concat buckets)
    ∧ gather_moves evts'
      = gather_moves evts ++ zip (concat buckets) (seqZ dest (len (concat buckets))).
Proof.
  induction buckets as [|bucket buckets IH]; intros bi evts dest evts' dest' Hrun.
  - injection Hrun as <- <-. cbn [concat]. rewrite len_nil, app_nil_r. split; [lia|done].
  - rewrite len_cons in Hrun.
    rewrite seqZ_cons in Hrun by (pose proof (len_nonneg buckets); lia).
    replace (Z.pred (1 + len buckets)) with (len buckets) in * by lia.
    cbn [zip zip_with for_each] in Hrun.
    apply bind_Ok_inv in Hrun as ([evts1 dest1] & Hbucket & Hrun).
    apply gather_bucket_moves in Hbucket as [-> Hmoves1].
    destruct (IH _ _ _ _ _ Hrun) as [-> ->].
    cbn [concat]. rewrite len_app. split; [lia|].
    rewrite Hmoves1, <- app_assoc. f_equal.
    pose proof (len_nonneg bucket). pose proof (len_nonneg (concat buckets)).
    rewrite (seqZ_app dest) by lia.
    rewrite zip_with_app; [done|]. rewrite length_seqZ. unfold len. lia.
Qed.

(** What a run of the recorder returns, when no bucket index falls
    below [-n]. *)
Lemma record_events_order arr :
  Forall (λ v, - len arr ≤ bucketSort.bucket_index rnd (len arr) v) arr →
  ∃ evts buckets bks,
    bucketsort_animation.record_events rnd arr = Ok (evts, buckets)
    ∧ bucketSort.bucket_sort rnd arr = Ok (concat bks)
    ∧ Forall2 (Forall2 (item_of arr)) bks buckets
    ∧ len buckets = len arr
    ∧ Forall sorted bks
    ∧ (∀ (k : nat) b v, bks !! k = Some b → v ∈ b →
         py_index (len arr) (bucketSort.bucket_index rnd (len arr) v) = Ok k)
    ∧ concat buckets ≡ₚ seqZ 0 (len arr)
    ∧ gather_moves evts = zip (concat buckets) (seqZ 0 (len arr)).
Proof.
  intros Hall.
  destruct (scatter_spec rnd (len arr) arr (replicate (Z.to_nat (len arr)) []))
    as (bks1 & Hscatter & Hlen1 & Hperm1 & Hmem1); [|done|].
  { unfold len. rewrite length_replicate. lia. }
  rewrite concat_replicate_nil in Hperm1. cbn [app] in Hperm1.
  destruct (sort_buckets_spec bks1 []) as (bks2 & Hsort & Hall2).
  cbn [app] in Hsort.
  assert (Hperm2 : concat bks2 ≡ₚ arr) by (by rewrite (concat_perm_Forall2 _ _ Hall2)).
  assert (Hplain : bucketSort.bucket_sort rnd arr = Ok (concat bks2)).
  { unfold bucketSort.bucket_sort. cbv zeta. rewrite Hscatter, bind_Ok.
    unfold bucketSort.sort_buckets. rewrite Hsort, bind_Ok.
    unfold bucketSort.gather.
    pose proof (gather_spec [] bks2 [] arr 0 eq_refl) as Hgather.
    cbn [app] in Hgather. rewrite !app_nil_r in Hgather.
    rewrite Hgather by (unfold len; by rewrite Hperm2).
    by rewrite bind_Ok. }
  destruct (scatter_sim rnd arr (len arr) (replicate (Z.to_nat (len arr)) [])
              (replicate (Z.to_nat (len arr)) []) [] bks1)
    as (bksoi1 & evts1 & Hrec1 & HR1 & Hq1); [|done|].
  { apply Forall2_replicate. constructor. }
  destruct (isort_buckets_sim arr bks1 bksoi1 [] evts1 bks2 HR1 Hq1 Hsort)
    as (bksoi2 & evts2 & Hrec2 & HR2 & Hq2).
  assert (Hlen2 : len (concat bks2) = len arr) by (unfold len; by rewrite Hperm2).
  pose proof (gather_spec [] bks2 [] arr 0 eq_refl) as Hgather.
  cbn [app] in Hgather. rewrite !app_nil_r in Hgather.
  specialize (Hgather (eq_sym Hlen2)).
  destruct (gather_sim arr bks2 bksoi2 arr 0
              (evts2 ++ [bucketsort_animation.GatherStart
                           (Msg "Concatenating buckets → sorted array" [])])
              _ _ HR2 Hgather) as (evs3 & Hrec3 & _).
  eexists _, bksoi2, bks2. split.
  { unfold bucketsort_animation.record_events. cbv zeta.
    rewrite Hrec1, bind_Ok. cbv beta iota. rewrite Hrec2, bind_Ok. cbv beta iota.
    rewrite Hrec3, bind_Ok. cbv beta iota. done. }
  split; [done|]. split; [done|]. split.
  { unfold len in *. rewrite <- (Forall2_length _ _ _ HR2).
    by rewrite <- (Forall2_length _ _ _ Hall2). }
  split.
  { clear -Hall2. induction Hall2 as [|???? [_ ?]]; by constructor. }
  split.
  { intros k b v Hk Hv.
    destruct (Forall2_lookup_r _ _ _ _ _ Hall2 Hk) as (b1 & Hb1 & Hpb & _).
    rewrite Hpb in Hv.
    destruct (Hmem1 k b1 v Hb1 Hv) as [(l0 & Hl0 & Hv0)|[_ ?]]; [|done].
    apply lookup_replicate in Hl0 as [-> _]. by apply elem_of_nil in Hv0. }
  assert (Hindices : concat bksoi2 ≡ₚ seqZ 0 (len arr)).
  { unfold bucketsort_animation.isort_buckets in Hrec2.
    apply isort_buckets_perm in Hrec2. cbn [concat app] in Hrec2.
    unfold bucketsort_animation.enumerate in Hrec2.
    rewrite snd_zip in Hrec2 by (rewrite length_seqZ; unfold len; lia).
    unfold bucketsort_animation.scatter in Hrec1.
    apply scatter_indices in Hrec1. rewrite concat_replicate_nil in Hrec1.
    cbn [app] in Hrec1. unfold bucketsort_animation.enumerate in Hrec1.
    rewrite fst_zip in Hrec1 by (rewrite length_seqZ; unfold len; lia).
    by rewrite Hrec2, Hrec1. }
  split; [done|].
  unfold bucketsort_animation.gather, bucketsort_animation.enumerate in Hrec3.
  apply gather_all_moves in Hrec3 as [_ Hmoves].
  rewrite gather_moves_app, Hmoves, gather_moves_app.
  destruct Hq2 as (evs2 & -> & Hquiet2). cbn [app].
  rewrite (gather_moves_quiet evs2 Hquiet2). cbn [app].
  rewrite app_nil_r.
  assert (len (concat bksoi2) = len arr) as ->; [|done].
  unfold len. rewrite Hindices, length_seqZ. unfold len. lia.
Qed.
End bucket_order.

(** ** The palettes and the scenes *)

Section palettes.
Lemma palette_lookup (palette : list string) (k : Z) :
  palette ≠ [] →
  ∃ colour, getitem palette (k `mod` len palette) = Ok colour ∧ colour ∈ palette.
Proof.
  intros Hne.
  assert (0 < len palette).
  { destruct palette; [done|]. rewrite len_cons. pose proof (len_nonneg palette). lia. }
  destruct (getitem_nonneg palette (k `mod` len palette)) as (colour & Hget & Hlook).
  { apply Z.mod_pos_bound. lia. }
  exists colour. split; [done|]. by eapply list_elem_of_lookup_2.
Qed.
End palettes.

Section quicksort_scene.
Context {A : Type} (arr : list A).
Implicit Types (st : QuickSortScene.state) (data : list A) (bxs : list string).

Lemma in_sync_read st data s :
  in_sync arr st data → 0 ≤ s < len arr →
  ∃ vi : nat,
    getitem (QuickSortScene.at_pos st) s = Ok (Z.of_nat vi)
    ∧ (vi < length arr)%nat
    ∧ QuickSortScene.at_pos st !! Z.to_nat s = Some (Z.of_nat vi)
    ∧ QuickSortScene.slot st !! vi = Some (Z.of_nat (Z.to_nat s))
    ∧ data !! Z.to_nat s = arr !! vi.
Proof.
  intros (Hslot & Hat & Hboxes & Hdata & Hmap) Hs. unfold len in Hs.
  destruct (Hmap (Z.to_nat s)) as (vi & Hvi & Hback & Hval); [lia|].
  exists vi. split_and!; try done.
  - apply getitem_lookup; [lia|done].
  - apply lookup_lt_Some in Hback. lia.
Qed.

Lemma recolour_ok bxs (vi : nat) col :
  (vi < length bxs)%nat →
  ∃ bxs', QuickSortScene.recolour (Z.of_nat vi) col bxs = Ok bxs'
          ∧ length bxs' = length bxs.
Proof.
  intros Hvi. unfold QuickSortScene.recolour.
  rewrite setitem_nonneg by (unfold len; lia).
  eexists. split; [done|]. by rewrite length_insert.
Qed.

Lemma paint_ok st data col :
  in_sync arr st data →
  ∀ positions bxs,
    Forall (λ s, 0 ≤ s < len arr) positions → length bxs = length arr →
    ∃ bxs', QuickSortScene.paint (QuickSortScene.at_pos st) positions col bxs = Ok bxs'
            ∧ length bxs' = length arr.
Proof.
  intros Hsync positions. unfold QuickSortScene.paint.
  induction positions as [|s positions IH]; intros bxs Hall Hlen.
  - by exists bxs.
  - apply Forall_cons in Hall as [Hs Hall]. cbn [for_each].
    destruct (in_sync_read st data s Hsync Hs) as (vi & -> & Hvi & _).
    rewrite bind_Ok.
    destruct (recolour_ok bxs vi col) as (bxs1 & -> & Hlen1); [lia|].
    rewrite bind_Ok. apply IH; [done|lia].
Qed.

Lemma in_sync_repaint st data bxs current :
  in_sync arr st data → length bxs = length arr →
  in_sync arr
    (QuickSortScene.State (QuickSortScene.slot st) (QuickSortScene.at_pos st) bxs current)
    data.
Proof. intros (? & ? & ? & ? & ?) ?. by split_and!. Qed.

(** The swap of the boxes at the screen positions [a] and [b]. *)
Lemma do_swap_sync st data (a b : nat) x y :
  in_sync arr st data → (a < length arr)%nat → (b < length arr)%nat →
  data !! a = Some x → data !! b = Some y →
  ∃ (va vb : nat) st',
    QuickSortScene.at_pos st !! a = Some (Z.of_nat va)
    ∧ QuickSortScene.at_pos st !! b = Some (Z.of_nat vb)
    ∧ QuickSortScene.do_swap (Z.of_nat va) (Z.of_nat vb) st = Ok st'
    ∧ QuickSortScene.boxes st' = QuickSortScene.boxes st
    ∧ in_sync arr st' (<[b := x]> (<[a := y]> data)).
Proof.
  intros Hsync Ha Hb Hx Hy.
  pose proof Hsync as (Hslot & Hat & Hboxes & Hdata & Hmap).
  destruct (Hmap a Ha) as (va & Hva & Hsa & Hda).
  destruct (Hmap b Hb) as (vb & Hvb & Hsb & Hdb).
  assert (Hva_lt : (va < length arr)%nat).
  { apply lookup_lt_Some in Hsa. lia. }
  assert (Hvb_lt : (vb < length arr)%nat).
  { apply lookup_lt_Some in Hsb. lia. }
  exists va, vb. eexists. split; [done|]. split; [done|].
  unfold QuickSortScene.do_swap.
  rewrite (getitem_lookup _ (Z.of_nat va) (Z.of_nat a)) by (lia || by rewrite Nat2Z.id).
  rewrite bind_Ok.
  rewrite (getitem_lookup _ (Z.of_nat vb) (Z.of_nat b)) by (lia || by rewrite Nat2Z.id).
  rewrite bind_Ok.
  destruct (getitem_nonneg (QuickSortScene.boxes st) (Z.of_nat va)) as (ca & -> & _).
  { unfold len. lia. }
  rewrite bind_Ok.
  destruct (getitem_nonneg (QuickSortScene.boxes st) (Z.of_nat vb)) as (cb & -> & _).
  { unfold len. lia. }
  rewrite bind_Ok.
  rewrite (setitem_nonneg (QuickSortScene.slot st) (Z.of_nat va)) by (unfold len; lia).
  rewrite bind_Ok.
  rewrite (setitem_nonneg _ (Z.of_nat vb) (Z.of_nat a))
    by (rewrite len_insert; unfold len; lia).
  rewrite bind_Ok.
  rewrite (setitem_nonneg (QuickSortScene.at_pos st) (Z.of_nat b)) by (unfold len; lia).
  rewrite bind_Ok.
  rewrite (setitem_nonneg _ (Z.of_nat a) (Z.of_nat vb))
    by (rewrite len_insert; unfold len; lia).
  rewrite bind_Ok.
  rewrite !Nat2Z.id.
  split; [done|]. split; [done|].
  split_and!; cbn [QuickSortScene.slot QuickSortScene.at_pos QuickSortScene.boxes];
    rewrite ?length_insert; try done.
  intros s Hs.
  destruct (decide (s = a)) as [->|Hsa'].
  { exists vb. split_and!.
    - apply list_lookup_insert_eq. rewrite length_insert. lia.
    - apply list_lookup_insert_eq. rewrite length_insert. lia.
    - destruct (decide (a = b)) as [->|Hab].
      + rewrite list_lookup_insert_eq by (rewrite length_insert; lia). congruence.
      + rewrite list_lookup_insert_ne by done.
        rewrite list_lookup_insert_eq by lia. congruence. }
  destruct (decide (s = b)) as [->|Hsb'].
  { assert (va ≠ vb).
    { intros ->. rewrite Hsa in Hsb. injection Hsb as Heq. lia. }
    exists va. split_and!.
    - rewrite list_lookup_insert_ne by done.
      apply list_lookup_insert_eq. lia.
    - rewrite list_lookup_insert_ne by done.
      apply list_lookup_insert_eq. lia.
    - rewrite list_lookup_insert_eq by (rewrite length_insert; lia). congruence. }
  destruct (Hmap s Hs) as (vi & Hvi & Hsi & Hdi).
  assert (vi ≠ va).
  { intros ->. rewrite Hsa in Hsi. injection Hsi as Heq. lia. }
  assert (vi ≠ vb).
  { intros ->. rewrite Hsb in Hsi. injection Hsi as Heq. lia. }
  exists vi. split_and!.
  - by rewrite !list_lookup_insert_ne by done.
  - by rewrite !list_lookup_insert_ne by done.
  - by rewrite !list_lookup_insert_ne by done.
Qed.

(** One round of the loop over the events keeps the scene in step with
    the array of the recorder. *)
Lemma handle_sync `{Comparable A} (ev : quicksort_animation.event A) st data data' :
  in_sync arr st data →
  ranged 0 (len arr - 1) ev → marks_within (interval 0 (len arr - 1)) ev →
  replay.quicksort_record ev data = Ok data' →
  ∃ st', QuickSortScene.handle ev st = Ok st' ∧ in_sync arr st' data'.
Proof.
  intros Hsync Hr Hm Hreplay.
  pose proof Hsync as (Hslot & Hat & Hboxes & Hdata & Hmap).
  destruct ev as [d lo hi pivot_idx msg|d lo hi pivot_idx j msg|d lo hi pivot_idx a b msg
                 |d lo hi idx sorted_set msg|d sorted_set msg];
    cbn [replay.quicksort_record ranged marks_within] in *;
    cbn [QuickSortScene.handle].
  - injection Hreplay as <-. cbv zeta.
    destruct (in_sync_read st data pivot_idx Hsync) as (cp & -> & Hcp & _); [lia|].
    rewrite bind_Ok.
    destruct (paint_ok st data QuickSortScene.COL_DEFAULT Hsync (range lo (hi + 1))
                (QuickSortScene.boxes st)) as (bxs1 & -> & Hlen1); [|done|].
    { apply Forall_forall. intros s Hs. unfold range in Hs.
      apply elem_of_seqZ in Hs. lia. }
    rewrite bind_Ok.
    destruct (recolour_ok bxs1 cp QuickSortScene.COL_PIVOT) as (bxs2 & -> & Hlen2); [lia|].
    rewrite bind_Ok. eexists. split; [done|]. apply in_sync_repaint; [done|lia].
  - injection Hreplay as <-.
    destruct (in_sync_read st data j Hsync) as (jv & -> & Hjv & _); [lia|].
    rewrite bind_Ok.
    destruct (recolour_ok (QuickSortScene.boxes st) jv QuickSortScene.COL_COMPARE)
      as (bxs1 & -> & Hlen1); [lia|].
    rewrite bind_Ok.
    destruct (decide (Some (Z.of_nat jv) ≠ QuickSortScene.current_pivot_val st)).
    + destruct (recolour_ok bxs1 jv QuickSortScene.COL_DEFAULT) as (bxs2 & -> & Hlen2);
        [lia|].
      rewrite bind_Ok. eexists. split; [done|]. apply in_sync_repaint; [done|lia].
    + rewrite bind_Ok. eexists. split; [done|]. apply in_sync_repaint; [done|lia].
  - destruct Hr as [Ha Hb].
    destruct (lookup_lt_is_Some_2 data (Z.to_nat a)) as [x Hx]; [unfold len in *; lia|].
    destruct (lookup_lt_is_Some_2 data (Z.to_nat b)) as [y Hy]; [unfold len in *; lia|].
    rewrite (exchange_nonneg data a b x y) in Hreplay by (lia || done).
    injection Hreplay as <-.
    destruct (in_sync_read st data a Hsync) as (va & Hgeta & Hva & Hata & _); [lia|].
    destruct (in_sync_read st data b Hsync) as (vb & Hgetb & Hvb & Hatb & _); [lia|].
    rewrite Hgeta, bind_Ok, Hgetb, bind_Ok.
    destruct (recolour_ok (QuickSortScene.boxes st) va QuickSortScene.COL_SWAP)
      as (bxs1 & -> & Hlen1); [lia|].
    rewrite bind_Ok.
    destruct (recolour_ok bxs1 vb QuickSortScene.COL_SWAP) as (bxs2 & -> & Hlen2); [lia|].
    rewrite bind_Ok. cbv zeta.
    set (st1 := QuickSortScene.State _ _ bxs2 _).
    assert (Hsync1 : in_sync arr st1 data) by (apply in_sync_repaint; [done|lia]).
    destruct (do_swap_sync st1 data (Z.to_nat a) (Z.to_nat b) x y Hsync1)
      as (va' & vb' & st2 & Hva' & Hvb' & Hswap & Hboxes2 & Hsync2);
      [unfold len in *; lia|unfold len in *; lia|done|done|].
    cbn [QuickSortScene.at_pos st1] in Hva', Hvb'.
    assert (va' = va) as -> by (rewrite Hata in Hva'; injection Hva' as ?; lia).
    assert (vb' = vb) as -> by (rewrite Hatb in Hvb'; injection Hvb' as ?; lia).
    rewrite Hswap, bind_Ok.
    pose proof Hsync2 as (_ & _ & Hboxes2' & _).
    repeat case_bool_decide;
      repeat (match goal with
              | |- context [QuickSortScene.recolour (Z.of_nat ?u) ?c ?l] =>
                  let Hl := fresh "Hl" in
                  destruct (recolour_ok l u c) as (? & -> & Hl); [lia|];
                  rewrite bind_Ok
              end);
      (eexists; split; [done|]; apply in_sync_repaint; [done|lia]).
  - injection Hreplay as <-.
    destruct (paint_ok st data QuickSortScene.COL_SORTED Hsync (elements sorted_set)
                (QuickSortScene.boxes st)) as (bxs1 & -> & Hlen1); [|done|].
    { apply Forall_forall. intros s Hs. apply elem_of_elements in Hs.
      apply Hm, elem_of_interval in Hs. lia. }
    rewrite bind_Ok. eexists. split; [done|]. apply in_sync_repaint; [done|lia].
  - injection Hreplay as <-. eexists. split; [done|].
    apply in_sync_repaint; [done|]. by rewrite length_fmap.
Qed.

Lemma handle_all_sync `{Comparable A} (events : list (quicksort_animation.event A)) :
  ∀ st data final,
    in_sync arr st data →
    Forall (ranged 0 (len arr - 1)) events →
    Forall (marks_within (interval 0 (len arr - 1))) events →
    for_each events replay.quicksort_record data = Ok final →
    ∃ st', for_each events QuickSortScene.handle st = Ok st' ∧ in_sync arr st' final.
Proof.
  induction events as [|ev events IH]; intros st data final Hsync Hr Hm Hreplay.
  - injection Hreplay as <-. by exists st.
  - apply Forall_cons in Hr as [Hr1 Hr]. apply Forall_cons in Hm as [Hm1 Hm].
    cbn [for_each] in *. apply bind_Ok_inv in Hreplay as (data1 & Hstep & Hreplay).
    destruct (handle_sync ev st data data1 Hsync Hr1 Hm1 Hstep) as (st1 & -> & Hsync1).
    rewrite bind_Ok. by apply (IH st1 data1).
Qed.

Lemma initial_sync : in_sync arr (QuickSortScene.initial (len arr)) arr.
Proof.
  unfold QuickSortScene.initial, in_sync, range.
  cbn [QuickSortScene.slot QuickSortScene.at_pos QuickSortScene.boxes].
  rewrite Z.sub_0_r, length_seqZ, length_replicate. unfold len. rewrite !Nat2Z.id.
  split_and!; try done.
  intros s Hs. exists s.
  split; [|split; [|done]]; apply lookup_seqZ; lia.
Qed.
End quicksort_scene.

(** * The claims *)

(** C1, as stated, fails for [quickSort]: on the sorted list
    [0, 1, ..., 999] the recursion nests 1001 calls deep, one more than
    the interpreter allows by default, and the call raises
    [RecursionError]. *)
Lemma quickSort_exceeds_recursion_limit :
  quickSort.quickSort (seqZ 0 1000) 0 (len (seqZ 0 1000) - 1)
  = Raise RecursionError.
Proof.
  pose proof (quickSort_increasing default_interpreter (seqZ 0 1000) [] []
                (increasing_seqZ 0 1000)) as Hrun.
  assert (Hlen : len (seqZ 0 1000) = 1000) by (unfold len; rewrite length_seqZ; lia).
  rewrite app_nil_r in Hrun.
  change (quickSort.quickSort (seqZ 0 1000) 0 (len (seqZ 0 1000) - 1)) with
    (quickSort.quickSort ([] ++ seqZ 0 1000) (len (@nil Z))
       (len (@nil Z) + len (seqZ 0 1000) - 1)).
  rewrite Hrun by lia. rewrite Hlen.
  apply decide_False. unfold default_interpreter. lia.
Qed.

(** C1, amended. [heapSort], [mergeSort] over the full range [0, n-1],
    and [bucket_sort] when every value lies in [0, 1), return a
    permutation of their input that is non-decreasing.  So does
    [quickSort] over the full range when [n + 1] calls may nest where it
    is called; under any limit it returns such a permutation or raises
    [RecursionError]. *)
Theorem sort_engines_sort `{Interpreter} `{ComparableLaws A} (rnd : Q → Q)
    `{!Rounding rnd} (arr : list A) (floats : list Q)
    (Hdomain : Forall in_unit floats) :
  (len arr + 1 ≤ Z.of_nat recursion_limit →
     ∃ out, quickSort.quickSort arr 0 (len arr - 1) = Ok out
            ∧ out ≡ₚ arr ∧ sorted out)
  ∧ (quickSort.quickSort arr 0 (len arr - 1) = Raise RecursionError
     ∨ ∃ out, quickSort.quickSort arr 0 (len arr - 1) = Ok out
              ∧ out ≡ₚ arr ∧ sorted out)
  ∧ (∃ out, heapSort.heapSort arr = Ok out ∧ out ≡ₚ arr ∧ sorted out)
  ∧ (∃ out, margeSort.mergeSort arr 0 (len arr - 1) = Ok out
            ∧ out ≡ₚ arr ∧ sorted out)
  ∧ (∃ out, bucketSort.bucket_sort rnd floats = Ok out
            ∧ out ≡ₚ floats ∧ sorted out).
Proof.
  split; [apply quickSort_spec|]. split; [apply quickSort_outcome|].
  split; [apply heapSort_spec|]. split.
  - destruct (mergeSort_spec arr) as (out & ? & ? & ? & _). by exists out.
  - by apply bucket_sort_spec, in_unit_nonneg.
Qed.

Lemma sort_engines_sort_witness :
  Forall in_unit [78 # 100; 17 # 100; 39 # 100]%Q
  ∧ (∃ out, quickSort.quickSort [5; 3; 8; 4; 2] 0 (len [5; 3; 8; 4; 2] - 1) = Ok out
            ∧ out ≡ₚ [5; 3; 8; 4; 2] ∧ sorted out)
  ∧ (∃ out, heapSort.heapSort [5; 3; 8; 4; 2] = Ok out
            ∧ out ≡ₚ [5; 3; 8; 4; 2] ∧ sorted out)
  ∧ (∃ out, margeSort.mergeSort [5; 3; 8; 4; 2] 0 (len [5; 3; 8; 4; 2] - 1) = Ok out
            ∧ out ≡ₚ [5; 3; 8; 4; 2] ∧ sorted out)
  ∧ (∃ out, bucketSort.bucket_sort exact [78 # 100; 17 # 100; 39 # 100]%Q = Ok out
            ∧ out ≡ₚ [78 # 100; 17 # 100; 39 # 100]%Q ∧ sorted out).
Proof.
  assert (Hdomain : Forall in_unit [78 # 100; 17 # 100; 39 # 100]%Q).
  { repeat constructor; vm_compute; congruence. }
  split; [exact Hdomain|].
  destruct (sort_engines_sort (A := Z) exact [5; 3; 8; 4; 2] _ Hdomain)
    as (Hquick & _ & Hrest).
  split; [|exact Hrest].
  apply Hquick. unfold len, recursion_limit, default_interpreter. cbn [length]. lia.
Defined.

(** C2, as stated, fails for heapsort: on [1, 2] the ["swap"] records
    alone replay the input into [2, 1], while [heapSort] returns [1, 2]. *)
Lemma heapsort_swaps_do_not_replay :
  (heapsort_animation.record_events [1; 2] ≫= λ events,
     replay.heapsort_swaps events [1; 2]) = Ok [2; 1]
  ∧ heapSort.heapSort [1; 2] = Ok [1; 2]
  ∧ (heapsort_animation.record_events [1; 2] ≫= λ events,
       replay.heapsort_swaps events [1; 2]) ≠ heapSort.heapSort [1; 2].
Proof. split_and!; [vm_compute; reflexivity..|vm_compute; congruence]. Qed.

(** C2, amended. Replaying, in order and on a copy of the input, the
    ["swap"] records of the quicksort recorder, the ["swap"] and
    ["extract"] records of the heapsort recorder, and the
    ["isort_shift"], ["isort_place"] and ["gather"] records of the
    bucket-sort recorder gives the array that the plain engine returns on
    that input.  For quicksort this holds of every call of the recorder
    that returns: [quickSort], called under the same recursion limit,
    then returns as well; and the recorder returns when [n + 2] calls
    may nest where it is called. *)
Theorem replay_reproduces_sort `{Interpreter} `{ComparableLaws A} (rnd : Q → Q)
    (original : list A) (floats out : list Q)
    (Hplain : bucketSort.bucket_sort rnd floats = Ok out) :
  ((len original + 2 ≤ Z.of_nat recursion_limit →
      ∃ events, quicksort_animation.record_events original = Ok events)
   ∧ ∀ events,
       quicksort_animation.record_events original = Ok events →
       ∃ result,
         quickSort.quickSort original 0 (len original - 1) = Ok result
         ∧ replay.quicksort events original = Ok result)
  ∧ (∃ events result,
      heapSort.heapSort original = Ok result
      ∧ heapsort_animation.record_events original = Ok events
      ∧ replay.heapsort events original = Ok result)
  ∧ (∃ events buckets,
      bucketsort_animation.record_events rnd floats = Ok (events, buckets)
      ∧ replay.bucketsort events floats = Ok out).
Proof.
  split_and!.
  - apply record_events_enough.
  - intros events (result & Hrun)%record_events_run.
    apply run_returns in Hrun as (Hquick & _ & _ & Hrep & _). by exists result.
  - destruct (heapSort_spec original) as (result & Hrun & _).
    destruct (heapsort_run_sim original result Hrun) as (events & Hrec & Hrep).
    exists events, result. split; [done|]. split; [|done].
    unfold heapsort_animation.record_events. by rewrite Hrec.
  - by apply bucketsort_replay.
Qed.

Lemma replay_reproduces_sort_witness :
  bucketSort.bucket_sort exact [78 # 100; 17 # 100; 39 # 100]%Q
    = Ok [17 # 100; 39 # 100; 78 # 100]%Q
  ∧ (∃ events result,
      quicksort_animation.record_events [2; 1] = Ok events
      ∧ quickSort.quickSort [2; 1] 0 (len [2; 1] - 1) = Ok result
      ∧ replay.quicksort events [2; 1] = Ok result)
  ∧ (∃ events result,
      heapSort.heapSort [2; 1] = Ok result
      ∧ heapsort_animation.record_events [2; 1] = Ok events
      ∧ replay.heapsort events [2; 1] = Ok result)
  ∧ (∃ events buckets,
      bucketsort_animation.record_events exact [78 # 100; 17 # 100; 39 # 100]%Q
        = Ok (events, buckets)
      ∧ replay.bucketsort events [78 # 100; 17 # 100; 39 # 100]%Q
        = Ok [17 # 100; 39 # 100; 78 # 100]%Q).
Proof.
  assert (Hplain : bucketSort.bucket_sort exact [78 # 100; 17 # 100; 39 # 100]%Q
                   = Ok [17 # 100; 39 # 100; 78 # 100]%Q) by (vm_compute; reflexivity).
  split; [exact Hplain|].
  destruct (replay_reproduces_sort (A := Z) exact [2; 1] _ _ Hplain)
    as ((Henough & Hquick) & Hrest).
  split; [|exact Hrest].
  destruct Henough as (events & Hrec).
  { unfold len, recursion_limit, default_interpreter. cbn [length]. lia. }
  destruct (Hquick events Hrec) as (result & Hrun & Hrep).
  exists events, result. exact (conj Hrec (conj Hrun Hrep)).
Defined.

(** C3. Mergesort is stable: on pairs compared by their value, the pairs
    of each value leave [mergeSort] in the order in which they entered;
    and [merge] puts the item of the left run first when the heads of the
    two runs are tied. *)
Theorem mergeSort_stable (arr : list tagged) :
  (∃ out, margeSort.mergeSort arr 0 (len arr - 1) = Ok out
          ∧ out ≡ₚ arr ∧ sorted out
          ∧ ∀ v, filter (λ p : tagged, p.1 = v) out
                 = filter (λ p : tagged, p.1 = v) arr)
  ∧ ∀ (v : Z) (i j : nat) (pre post : list tagged),
      margeSort.merge (pre ++ [(v, i)] ++ [(v, j)] ++ post)
        (len pre) (len pre) (len pre + 1)
      = Ok (pre ++ [(v, i); (v, j)] ++ post).
Proof.
  split.
  - destruct (mergeSort_spec arr) as (out & Hrun & Hperm & Hsorted & Hties).
    exists out. split_and!; try done. intros v. by rewrite !tagged_ties.
  - intros v i j pre post.
    rewrite (merge_spec pre [(v, i)] [(v, j)] post) by (rewrite ?len_cons, ?len_nil; lia).
    rewrite merge_runs_cons. unfold le_b, tagged_comparable. cbn [fst].
    by rewrite Z.leb_refl.
Qed.

(** C4, as stated, fails: [-3/4] lies outside [0, 1), and on
    [-3/4, 1/4] [bucket_sort] raises nothing and leaves the array
    [1/4, -3/4], which is not in order. *)
Lemma bucket_sort_accepts_out_of_range :
  ¬ in_unit (-3 # 4)%Q
  ∧ bucketSort.bucket_sort exact [-3 # 4; 1 # 4]%Q = Ok [1 # 4; -3 # 4]%Q
  ∧ ¬ sorted [1 # 4; -3 # 4]%Q.
Proof.
  split_and!.
  - intros [Hle _]. vm_compute in Hle. congruence.
  - vm_compute. reflexivity.
  - intros Hs. apply StronglySorted_inv in Hs as [_ Hall].
    apply Forall_cons in Hall as [Hle _]. vm_compute in Hle. discriminate.
Qed.

(** C4, amended. [bucket_sort] does not check the domain of its values.
    On an input whose products [n * val] are all finite floats, it raises
    [IndexError], from the scatter loop, when the bucket index of some
    value is below [-n]; when no index is below [-n] it returns a
    permutation of the input; and when every value is [>= 0] that
    permutation is non-decreasing.  (The model has no infinities: an
    input with a product that overflows, on which [int] raises
    [OverflowError], is not covered.) *)
Theorem bucket_sort_unvalidated (rnd : Q → Q) `{!Rounding rnd} (arr : list Q)
    (Hfinite : Forall (finite_product rnd (len arr)) arr) :
  (Exists (λ v, bucketSort.bucket_index rnd (len arr) v < - len arr) arr →
     bucketSort.scatter rnd (len arr) arr (replicate (Z.to_nat (len arr)) [])
       = Raise IndexError
     ∧ bucketSort.bucket_sort rnd arr = Raise IndexError)
  ∧ (Forall (λ v, - len arr ≤ bucketSort.bucket_index rnd (len arr) v) arr →
     ∃ out, bucketSort.bucket_sort rnd arr = Ok out ∧ out ≡ₚ arr)
  ∧ (Forall (λ v, (0 <= v)%Q) arr →
     ∃ out, bucketSort.bucket_sort rnd arr = Ok out ∧ out ≡ₚ arr ∧ sorted out).
Proof.
  split_and!.
  - intros Hex. split; [|by apply bucket_sort_outcome].
    apply scatter_raise; [|done]. unfold len. rewrite length_replicate. lia.
  - apply bucket_sort_outcome.
  - by apply bucket_sort_spec.
Qed.

Lemma bucket_sort_unvalidated_witness :
  (Forall (finite_product exact (len [-5 # 2; 1 # 4]%Q)) [-5 # 2; 1 # 4]%Q
   ∧ bucketSort.bucket_sort exact [-5 # 2; 1 # 4]%Q = Raise IndexError)
  ∧ (Forall (finite_product exact (len [-3 # 4; 1 # 4]%Q)) [-3 # 4; 1 # 4]%Q
     ∧ ∃ out, bucketSort.bucket_sort exact [-3 # 4; 1 # 4]%Q = Ok out
              ∧ out ≡ₚ [-3 # 4; 1 # 4]%Q)
  ∧ (Forall (finite_product exact (len [3 # 2; 1 # 4]%Q)) [3 # 2; 1 # 4]%Q
     ∧ ∃ out, bucketSort.bucket_sort exact [3 # 2; 1 # 4]%Q = Ok out
              ∧ out ≡ₚ [3 # 2; 1 # 4]%Q ∧ sorted out).
Proof.
  assert (H1 : Forall (finite_product exact (len [-5 # 2; 1 # 4]%Q)) [-5 # 2; 1 # 4]%Q)
    by (repeat constructor; vm_compute; congruence).
  assert (H2 : Forall (finite_product exact (len [-3 # 4; 1 # 4]%Q)) [-3 # 4; 1 # 4]%Q)
    by (repeat constructor; vm_compute; congruence).
  assert (H3 : Forall (finite_product exact (len [3 # 2; 1 # 4]%Q)) [3 # 2; 1 # 4]%Q)
    by (repeat constructor; vm_compute; congruence).
  split_and!; [exact H1| |exact H2| |exact H3|].
  - apply (bucket_sort_unvalidated exact [-5 # 2; 1 # 4]%Q H1).
    apply Exists_cons_hd. vm_compute. reflexivity.
  - apply (bucket_sort_unvalidated exact [-3 # 4; 1 # 4]%Q H2).
    repeat constructor; vm_compute; congruence.
  - apply (bucket_sort_unvalidated exact [3 # 2; 1 # 4]%Q H3).
    repeat constructor; vm_compute; congruence.
Defined.

(** C5, as stated, fails for [bucket_sort]: on the one-item sequence
    [-2], whose item lies outside [0, 1), the bucket index is [-2], and
    the scatter loop raises [IndexError]. *)
Lemma bucket_sort_single_item_raises :
  ¬ in_unit (-2 # 1)%Q
  ∧ bucketSort.bucket_index exact (len [(-2 # 1)%Q]) (-2 # 1)%Q = -2
  ∧ bucketSort.bucket_sort exact [(-2 # 1)%Q] = Raise IndexError.
Proof.
  split_and!.
  - intros [Hle _]. vm_compute in Hle. congruence.
  - vm_compute. reflexivity.
  - vm_compute. reflexivity.
Qed.

(** C5, amended. On an empty sequence every engine returns without an
    error and leaves the sequence empty; on a one-item sequence
    [quickSort], [heapSort] and [mergeSort] return without an error and
    leave the item as it was, and so does [bucket_sort] when the item
    lies in [0, 1). *)
Theorem trivial_inputs_unchanged `{Comparable A} (rnd : Q → Q) `{!Rounding rnd}
    (x : A) (v : Q) (Hv : in_unit v) :
  quickSort.quickSort (@nil A) 0 (len (@nil A) - 1) = Ok []
  ∧ quickSort.quickSort [x] 0 (len [x] - 1) = Ok [x]
  ∧ heapSort.heapSort (@nil A) = Ok []
  ∧ heapSort.heapSort [x] = Ok [x]
  ∧ margeSort.mergeSort (@nil A) 0 (len (@nil A) - 1) = Ok []
  ∧ margeSort.mergeSort [x] 0 (len [x] - 1) = Ok [x]
  ∧ bucketSort.bucket_sort rnd [] = Ok []
  ∧ bucketSort.bucket_sort rnd [v] = Ok [v].
Proof.
  split_and!; try reflexivity.
  pose proof (unit_bucket_index rnd v Hv) as Hidx.
  unfold bucketSort.bucket_sort, bucketSort.scatter. cbv zeta. cbn [for_each].
  unfold bucketSort.scatter_step. cbv zeta.
  change (len [v]) with 1. rewrite Hidx. reflexivity.
Qed.

Lemma trivial_inputs_unchanged_witness :
  in_unit (1 # 2)%Q
  ∧ (quickSort.quickSort (@nil Z) 0 (len (@nil Z) - 1) = Ok []
     ∧ quickSort.quickSort [7] 0 (len [7] - 1) = Ok [7]
     ∧ heapSort.heapSort (@nil Z) = Ok []
     ∧ heapSort.heapSort [7] = Ok [7]
     ∧ margeSort.mergeSort (@nil Z) 0 (len (@nil Z) - 1) = Ok []
     ∧ margeSort.mergeSort [7] 0 (len [7] - 1) = Ok [7]
     ∧ bucketSort.bucket_sort exact [] = Ok []
     ∧ bucketSort.bucket_sort exact [(1 # 2)%Q] = Ok [(1 # 2)%Q]).
Proof.
  assert (Hv : in_unit (1 # 2)%Q) by (split; vm_compute; congruence).
  split; [exact Hv|]. exact (trivial_inputs_unchanged exact 7 (1 # 2)%Q Hv).
Defined.

(** C6, as stated, fails for heapsort: the log of the one-item input [5]
    holds the two ["phase"] records, ["heap_ready"] and ["done"], and no
    record about the item. *)
Lemma heapsort_single_item_log :
  heapsort_animation.record_events [5] =
    Ok [heapsort_animation.Phase [5] heapsort_animation.Build
          (Msg "Phase 1: Build Max-Heap (bottom-up)" []);
        heapsort_animation.HeapReady [5]
          (Msg "Max-Heap is built — root holds the maximum ✓" []);
        heapsort_animation.Phase [5] heapsort_animation.Extract
          (Msg "Phase 2: Extract elements one by one" []);
        heapsort_animation.Done [5] (Msg "✓  Array sorted!" [])]
  ∧ ∀ events, heapsort_animation.record_events [5] = Ok events →
      Forall (λ ev, ¬ about_a_position ev) events.
Proof.
  split; [reflexivity|]. intros events [= <-]. repeat constructor; by intros [].
Qed.

(** C6, amended. On a one-item input every recorder leaves the item in
    place and records no comparison.  The quicksort recorder emits the
    ["sorted_idx"] record of a single element that is already sorted and
    ["done"]; the bucket-sort recorder (for a value in [0, 1)) emits
    ["scatter"], the ["bucket_done"] record of a one-element bucket that
    is already sorted, ["gather_start"], ["gather"] and ["done"]; the
    heapsort recorder emits only its two ["phase"] records,
    ["heap_ready"] and ["done"]. *)
Theorem single_item_logs `{Comparable A} (rnd : Q → Q) `{!Rounding rnd}
    (x : A) (v : Q) (Hv : in_unit v) :
  let quick_log :=
    [quicksort_animation.SortedIdx [x] 0 0 0 {[ 0 ]}
       (Msg "Single element  {data[lo]}  is already sorted ✓" [Val x]);
     quicksort_animation.Done [x] {[ 0 ]} (Msg "✓  Array sorted!" [])] in
  let heap_log :=
    [heapsort_animation.Phase [x] heapsort_animation.Build
       (Msg "Phase 1: Build Max-Heap (bottom-up)" []);
     heapsort_animation.HeapReady [x]
       (Msg "Max-Heap is built — root holds the maximum ✓" []);
     heapsort_animation.Phase [x] heapsort_animation.Extract
       (Msg "Phase 2: Extract elements one by one" []);
     heapsort_animation.Done [x] (Msg "✓  Array sorted!" [])] in
  let bucket_log :=
    [bucketsort_animation.Scatter 0 v 0
       (Msg "{val:.4f}  →  bucket {bi}  (⌊{n} × {val:.4f}⌋ = {bi})"
          [Val v; Int 0; Int 1; Val v; Int 0]);
     bucketsort_animation.BucketDone 0
       (Msg "Bucket {bi}: 1 element — already sorted ✓" [Int 0]);
     bucketsort_animation.GatherStart
       (Msg "Concatenating buckets → sorted array" []);
     bucketsort_animation.Gather 0 0 0 0
       (Msg "  Bucket {bi}[{slot}] ({arr[oi]:.4f}) → position {dest}"
          [Int 0; Int 0; Val v; Int 0]);
     bucketsort_animation.Done (Msg "✓  Array sorted!" [])] in
  quicksort_animation.run [x] = Ok ([x], quick_log)
  ∧ quicksort_animation.record_events [x] = Ok quick_log
  ∧ heapsort_animation.run [x] = Ok ([x], heap_log)
  ∧ heapsort_animation.record_events [x] = Ok heap_log
  ∧ bucketsort_animation.record_events rnd [v] = Ok (bucket_log, [[0]])
  ∧ replay.bucketsort bucket_log [v] = Ok [v].
Proof.
  pose proof (unit_bucket_index rnd v Hv) as Hidx.
  cbv zeta. split_and!.
  - vm_compute. reflexivity.
  - vm_compute. reflexivity.
  - reflexivity.
  - reflexivity.
  - unfold bucketsort_animation.record_events, bucketsort_animation.scatter. cbv zeta.
    change (len [v]) with 1.
    change (bucketsort_animation.enumerate [v]) with [(0, v)]. cbn [for_each].
    unfold bucketsort_animation.scatter_step. cbv zeta. rewrite Hidx. reflexivity.
  - reflexivity.
Qed.

Lemma single_item_logs_witness :
  in_unit (1 # 2)%Q
  ∧ quicksort_animation.record_events [7] =
      Ok [quicksort_animation.SortedIdx [7] 0 0 0 {[ 0 ]}
            (Msg "Single element  {data[lo]}  is already sorted ✓" [Val 7]);
          quicksort_animation.Done [7] {[ 0 ]} (Msg "✓  Array sorted!" [])]
  ∧ heapsort_animation.record_events [7] =
      Ok [heapsort_animation.Phase [7] heapsort_animation.Build
            (Msg "Phase 1: Build Max-Heap (bottom-up)" []);
          heapsort_animation.HeapReady [7]
            (Msg "Max-Heap is built — root holds the maximum ✓" []);
          heapsort_animation.Phase [7] heapsort_animation.Extract
            (Msg "Phase 2: Extract elements one by one" []);
          heapsort_animation.Done [7] (Msg "✓  Array sorted!" [])]
  ∧ replay.bucketsort
      [bucketsort_animation.Scatter 0 (1 # 2)%Q 0
         (Msg "{val:.4f}  →  bucket {bi}  (⌊{n} × {val:.4f}⌋ = {bi})"
            [Val (1 # 2)%Q; Int 0; Int 1; Val (1 # 2)%Q; Int 0]);
       bucketsort_animation.BucketDone 0
         (Msg "Bucket {bi}: 1 element — already sorted ✓" [Int 0]);
       bucketsort_animation.GatherStart
         (Msg "Concatenating buckets → sorted array" []);
       bucketsort_animation.Gather 0 0 0 0
         (Msg "  Bucket {bi}[{slot}] ({arr[oi]:.4f}) → position {dest}"
            [Int 0; Int 0; Val (1 # 2)%Q; Int 0]);
       bucketsort_animation.Done (Msg "✓  Array sorted!" [])]
      [(1 # 2)%Q] = Ok [(1 # 2)%Q].
Proof.
  assert (Hv : in_unit (1 # 2)%Q) by (split; vm_compute; congruence).
  split; [exact Hv|].
  pose proof (single_item_logs exact 7 (1 # 2)%Q Hv) as (_ & Hq & _ & Hh & _ & Hb).
  exact (conj Hq (conj Hh Hb)).
Defined.

(** C7. For [n >= 1] values in [0, 1), every bucket index
    [min(int(n * v), n - 1)] lies in [0, n-1] and denotes the bucket of
    that number, and the scatter loop completes without an index error. *)
Theorem bucket_index_in_bounds (rnd : Q → Q) `{!Rounding rnd} (arr : list Q)
    (Hn : 1 ≤ len arr) (Hdomain : Forall in_unit arr) :
  Forall (λ v, 0 ≤ bucketSort.bucket_index rnd (len arr) v ≤ len arr - 1
               ∧ py_index (len arr) (bucketSort.bucket_index rnd (len arr) v)
                 = Ok (Z.to_nat (bucketSort.bucket_index rnd (len arr) v))) arr
  ∧ ∃ buckets,
      bucketSort.scatter rnd (len arr) arr (replicate (Z.to_nat (len arr)) [])
      = Ok buckets.
Proof.
  assert (Hidx : Forall (λ v, 0 ≤ bucketSort.bucket_index rnd (len arr) v ≤ len arr - 1) arr).
  { eapply Forall_impl; [exact Hdomain|]. intros v [Hv _]. split.
    - by apply bucket_index_nonneg.
    - apply bucket_index_upper. }
  split.
  - eapply Forall_impl; [exact Hidx|]. intros v Hv. cbn beta in Hv.
    split; [done|]. apply py_index_nonneg. lia.
  - destruct (scatter_spec rnd (len arr) arr (replicate (Z.to_nat (len arr)) []))
      as (buckets & Hrun & _).
    + unfold len. rewrite length_replicate. lia.
    + eapply Forall_impl; [exact Hidx|]. intros v Hv. cbn beta in *. lia.
    + by exists buckets.
Qed.

Lemma bucket_index_in_bounds_witness :
  1 ≤ len [78 # 100; 17 # 100; 39 # 100]%Q
  ∧ Forall in_unit [78 # 100; 17 # 100; 39 # 100]%Q
  ∧ Forall (λ v, 0 ≤ bucketSort.bucket_index exact 3 v ≤ 3 - 1
                 ∧ py_index 3 (bucketSort.bucket_index exact 3 v)
                   = Ok (Z.to_nat (bucketSort.bucket_index exact 3 v)))
      [78 # 100; 17 # 100; 39 # 100]%Q
  ∧ ∃ buckets,
      bucketSort.scatter exact 3 [78 # 100; 17 # 100; 39 # 100]%Q
        (replicate (Z.to_nat 3) []) = Ok buckets.
Proof.
  assert (Hn : 1 ≤ len [78 # 100; 17 # 100; 39 # 100]%Q) by (vm_compute; congruence).
  assert (Hdomain : Forall in_unit [78 # 100; 17 # 100; 39 # 100]%Q)
    by (repeat constructor; vm_compute; congruence).
  split; [exact Hn|]. split; [exact Hdomain|].
  exact (bucket_index_in_bounds exact [78 # 100; 17 # 100; 39 # 100]%Q Hn Hdomain).
Defined.

(** C8. A call of a recorder leaves the caller's list as it was: the
    quicksort and heapsort recorders work on a copy of it, the bucket-sort
    recorder only reads it.  The call returns what [record_events] returns
    on the items of that list. *)
Theorem recorders_leave_input_alone `{Interpreter} `{Comparable A} (rnd : Q → Q)
    (h : heap A) (hq : heap Q) (original arr : loc)
    (items : list A) (floats : list Q)
    (Hitems : h !! original = Some items) (Hfloats : hq !! arr = Some floats) :
  ((objects.quicksort_record_events original h).2 !! original = Some items
   ∧ (objects.quicksort_record_events original h).1
     = quicksort_animation.record_events items)
  ∧ ((objects.heapsort_record_events original h).2 !! original = Some items
     ∧ (objects.heapsort_record_events original h).1
       = heapsort_animation.record_events items)
  ∧ ((objects.bucketsort_record_events rnd arr hq).2 !! arr = Some floats
     ∧ (objects.bucketsort_record_events rnd arr hq).1
       = bucketsort_animation.record_events rnd floats).
Proof.
  assert (Hfresh : fresh (dom h) ≠ original).
  { intros Heq. apply (is_fresh (dom h)). rewrite Heq. by apply elem_of_dom. }
  assert (Hcopy : objects.contents (<[fresh (dom h) := objects.contents h original]> h)
                    (fresh (dom h)) = items).
  { unfold objects.contents. by rewrite lookup_insert_eq, Hitems. }
  split_and!.
  - unfold objects.quicksort_record_events, objects.slice_copy, objects.in_place.
    rewrite Hcopy. destruct (quicksort_animation.run items) as [[data events]|e]; cbn [snd].
    + by rewrite !lookup_insert_ne.
    + by rewrite lookup_insert_ne.
  - unfold objects.quicksort_record_events, objects.slice_copy, objects.in_place,
      quicksort_animation.record_events.
    rewrite Hcopy. by destruct (quicksort_animation.run items) as [[data events]|e].
  - unfold objects.heapsort_record_events, objects.slice_copy, objects.in_place.
    rewrite Hcopy. destruct (heapsort_animation.run items) as [[data events]|e]; cbn [snd].
    + by rewrite !lookup_insert_ne.
    + by rewrite lookup_insert_ne.
  - unfold objects.heapsort_record_events, objects.slice_copy, objects.in_place,
      heapsort_animation.record_events.
    rewrite Hcopy. by destruct (heapsort_animation.run items) as [[data events]|e].
  - done.
  - unfold objects.bucketsort_record_events, objects.contents. cbn [fst].
    by rewrite Hfloats.
Qed.

Lemma recorders_leave_input_alone_witness :
  ({[ 1%positive := [5; 3; 8; 4; 2] ]} : heap Z) !! 1%positive = Some [5; 3; 8; 4; 2]
  ∧ ({[ 1%positive := [78 # 100; 17 # 100]%Q ]} : heap Q) !! 1%positive
    = Some [78 # 100; 17 # 100]%Q
  ∧ (objects.quicksort_record_events 1%positive
       ({[ 1%positive := [5; 3; 8; 4; 2] ]} : heap Z)).2 !! 1%positive
    = Some [5; 3; 8; 4; 2]
  ∧ (objects.heapsort_record_events 1%positive
       ({[ 1%positive := [5; 3; 8; 4; 2] ]} : heap Z)).2 !! 1%positive
    = Some [5; 3; 8; 4; 2]
  ∧ (objects.bucketsort_record_events exact 1%positive
       ({[ 1%positive := [78 # 100; 17 # 100]%Q ]} : heap Q)).2 !! 1%positive
    = Some [78 # 100; 17 # 100]%Q.
Proof.
  assert (Hitems : ({[ 1%positive := [5; 3; 8; 4; 2] ]} : heap Z) !! 1%positive
                   = Some [5; 3; 8; 4; 2]) by reflexivity.
  assert (Hfloats : ({[ 1%positive := [78 # 100; 17 # 100]%Q ]} : heap Q) !! 1%positive
                    = Some [78 # 100; 17 # 100]%Q) by reflexivity.
  split; [exact Hitems|]. split; [exact Hfloats|].
  pose proof (recorders_leave_input_alone exact _ _ 1%positive 1%positive _ _
                Hitems Hfloats) as [[Hq _] [[Hh _] [Hb _]]].
  exact (conj Hq (conj Hh Hb)).
Defined.

(** C9. [quickSort] turns [5, 3, 8, 4, 2] into [2, 3, 4, 5, 8], and the
    first ["pivot"] record of the recorder on that input is for the pivot
    value 2, the last item of the range [0, 4]. *)
Theorem quicksort_scenario :
  quickSort.quickSort [5; 3; 8; 4; 2] 0 4 = Ok [2; 3; 4; 5; 8]
  ∧ ∃ events,
      quicksort_animation.record_events [5; 3; 8; 4; 2] = Ok events
      ∧ first_pivot events
        = Some (quicksort_animation.Pivot [5; 3; 8; 4; 2] 0 4 4
                  (Msg "Pivot = {pivot}  (index {hi})" [Val 2; Int 4]))
      ∧ [5; 3; 8; 4; 2] !! 4%nat = Some 2.
Proof.
  split; [vm_compute; reflexivity|].
  eexists. split; [vm_compute; reflexivity|]. split; reflexivity.
Qed.

(** C10. No ["swap"] record of a log that the quicksort recorder returns
    names the same position twice; and the recorder returns its log when
    [n + 2] calls may nest where it is called. *)
Theorem quicksort_swaps_distinct `{Interpreter} `{ComparableLaws A}
    (original : list A) :
  (len original + 2 ≤ Z.of_nat recursion_limit →
     ∃ events, quicksort_animation.record_events original = Ok events)
  ∧ ∀ events,
      quicksort_animation.record_events original = Ok events →
      Forall distinct_swap events.
Proof.
  split; [apply record_events_enough|].
  intros events (result & Hrun)%record_events_run.
  by apply run_returns in Hrun as (_ & _ & _ & _ & Hdistinct).
Qed.

Lemma quicksort_swaps_distinct_witness :
  ∃ events,
    quicksort_animation.record_events [5; 3; 8; 4; 2] = Ok events
    ∧ Forall distinct_swap events.
Proof.
  destruct (quicksort_swaps_distinct (A := Z) [5; 3; 8; 4; 2]) as [Henough Hdistinct].
  destruct Henough as (events & Hrec).
  { unfold len, recursion_limit, default_interpreter. cbn [length]. lia. }
  exists events. exact (conj Hrec (Hdistinct events Hrec)).
Defined.

(** * Further properties of the code *)

(** ** quickSort.py *)

(** X1. [partition] of quickSort.py, called on a range that holds the
    items [seg] followed by the pivot [p], rearranges the range into the
    items smaller than [p], then [p], then the other items, and returns
    the position of [p]; it leaves the rest of the list alone. *)
Theorem partition_splits_range `{Comparable A} (pre seg : list A) (p : A)
    (post : list A) :
  ∃ Lo Hi,
    quickSort.partition (pre ++ seg ++ p :: post) (len pre) (len pre + len seg)
    = Ok (pre ++ Lo ++ p :: Hi ++ post, len pre + len Lo)
    ∧ Lo ++ Hi ≡ₚ seg
    ∧ Forall (λ x, lt_b x p = true) Lo
    ∧ Forall (λ x, lt_b x p = false) Hi.
Proof. by apply (partition_spec 998). Qed.

(** X2. [quickSort] on a sub-range of [m] items sorts the items of that
    range and leaves the items before and after it where they were, when
    [m + 1] calls may nest where it is called; under any limit it does
    so or raises [RecursionError]. *)
Theorem quickSort_sorts_only_its_range `{Interpreter} `{ComparableLaws A}
    (pre seg post : list A) :
  (len seg + 1 ≤ Z.of_nat recursion_limit →
     ∃ seg',
       quickSort.quickSort (pre ++ seg ++ post) (len pre) (len pre + len seg - 1)
       = Ok (pre ++ seg' ++ post)
       ∧ seg' ≡ₚ seg ∧ sorted seg')
  ∧ (quickSort.quickSort (pre ++ seg ++ post) (len pre) (len pre + len seg - 1)
     = Raise RecursionError
     ∨ ∃ seg',
         quickSort.quickSort (pre ++ seg ++ post) (len pre) (len pre + len seg - 1)
         = Ok (pre ++ seg' ++ post)
         ∧ seg' ≡ₚ seg ∧ sorted seg').
Proof.
  unfold recursion_limit. split; [apply quickSort_range|].
  set (g := (H + Z.to_nat (len seg) + 1)%nat).
  destruct (quickSort_range g pre seg post) as (seg' & Hrun & Hperm & Hsorted);
    [unfold g, len; lia|].
  destruct (quickSort_mono H g (pre ++ seg ++ post) (len pre)
              (len pre + len seg - 1) ltac:(unfold g; lia)) as [Hcut|Hsame];
    [by left|].
  right. exists seg'. split; [|done]. by rewrite Hsame.
Qed.

Lemma quickSort_sorts_only_its_range_witness :
  ∃ seg',
    quickSort.quickSort ([9; 1] ++ [5; 3; 8] ++ [0]) (len [9; 1])
      (len [9; 1] + len [5; 3; 8] - 1)
    = Ok ([9; 1] ++ seg' ++ [0])
    ∧ seg' ≡ₚ [5; 3; 8] ∧ sorted seg'.
Proof.
  apply (quickSort_sorts_only_its_range (A := Z) [9; 1] [5; 3; 8] [0]).
  unfold len, recursion_limit, default_interpreter. cbn [length]. lia.
Defined.

(** X3. [quickSort] returns the list untouched when [high <= low], also
    for indices that denote no item; when [low < high] and [high] denotes
    no item of the list, it raises IndexError at the read of the pivot. *)
Theorem quickSort_bounds `{Comparable A} (arr : list A) (low high : Z) :
  (high ≤ low → quickSort.quickSort arr low high = Ok arr)
  ∧ (low < high → ¬ (- len arr ≤ high < len arr) →
     quickSort.quickSort arr low high = Raise IndexError).
Proof.
  split; [apply (quickSort_empty_range 999)|apply (quickSort_high_invalid 998)].
Qed.

Lemma quickSort_bounds_witness :
  quickSort.quickSort [3; 1; 2] 7 (-9) = Ok [3; 1; 2]
  ∧ quickSort.quickSort [3; 1; 2] 0 3 = Raise IndexError.
Proof.
  split.
  - apply (quickSort_bounds (A := Z) [3; 1; 2] 7 (-9)). lia.
  - apply (quickSort_bounds (A := Z) [3; 1; 2] 0 3); [lia|]. unfold len; cbn [length]; lia.
Defined.

(** X4. On a strictly increasing list of [n >= 2] items the recursion of
    [quickSort] nests as deep as it can: every partition leaves the pivot
    last, the recursion goes down to a range of two items, and
    [partition] and [swap] nest two calls deeper.  The call returns the
    list (unchanged) when [n + 1] calls may nest where it is made, and
    raises [RecursionError] otherwise. *)
Theorem quickSort_depth_on_increasing `{Interpreter} `{Comparable A} (arr : list A) :
  increasing arr → 2 ≤ len arr →
  quickSort.quickSort arr 0 (len arr - 1)
  = if decide (len arr + 1 ≤ Z.of_nat recursion_limit) then Ok arr
    else Raise RecursionError.
Proof.
  intros Hinc Hlen. unfold recursion_limit.
  pose proof (quickSort_increasing H arr [] [] Hinc Hlen) as Hrun.
  rewrite app_nil_r in Hrun. exact Hrun.
Qed.

Lemma quickSort_depth_on_increasing_witness :
  increasing [1; 2; 3; 4] ∧ 2 ≤ len [1; 2; 3; 4]
  ∧ quickSort.quickSort (frames := 4%nat) [1; 2; 3; 4] 0 (len [1; 2; 3; 4] - 1)
    = (if decide (len [1; 2; 3; 4] + 1 ≤ Z.of_nat 4) then Ok [1; 2; 3; 4]
       else Raise RecursionError).
Proof.
  assert (Hinc : increasing [1; 2; 3; 4]) by (repeat constructor).
  assert (Hlen : 2 ≤ len [1; 2; 3; 4]) by (unfold len; cbn [length]; lia).
  split; [exact Hinc|]. split; [exact Hlen|].
  exact (quickSort_depth_on_increasing (H := 4%nat) (A := Z) [1; 2; 3; 4] Hinc Hlen).
Defined.

(** ** heapSort.py *)

(** X5. [heapify(arr, n, i)] sifts the item at [i] down: when the nodes
    after [i] satisfy the max-heap property below [n], so do the nodes
    from [i] on afterwards; the result is a permutation of the list, and
    the positions before [i] and from [n] on are not touched. *)
Theorem heapify_sifts_down `{ComparableLaws A} (arr : list A) (n i : Z) :
  0 ≤ i < n → n ≤ len arr → heap_from arr n (i + 1) →
  ∃ arr',
    heapSort.heapify arr n i = Ok arr'
    ∧ arr' ≡ₚ arr
    ∧ heap_from arr' n i
    ∧ ∀ k : nat, (Z.of_nat k < i ∨ n ≤ Z.of_nat k) → arr' !! k = arr !! k.
Proof. apply heapify_sift. Qed.

Lemma heapify_sifts_down_witness :
  0 ≤ 0 < 3 ∧ 3 ≤ len [1; 7; 5; 9] ∧ heap_from [1; 7; 5; 9] 3 (0 + 1)
  ∧ ∃ arr',
      heapSort.heapify [1; 7; 5; 9] 3 0 = Ok arr'
      ∧ arr' ≡ₚ [1; 7; 5; 9]
      ∧ heap_from arr' 3 0
      ∧ ∀ k : nat, (Z.of_nat k < 0 ∨ 3 ≤ Z.of_nat k) → arr' !! k = [1; 7; 5; 9] !! k.
Proof.
  assert (H1 : 0 ≤ 0 < 3) by lia.
  assert (H2 : 3 ≤ len [1; 7; 5; 9]) by (unfold len; cbn [length]; lia).
  assert (H3 : heap_from [1; 7; 5; 9] 3 (0 + 1)).
  { intros k Hk c x y [->| ->] Hc; lia. }
  split; [exact H1|]. split; [exact H2|]. split; [exact H3|].
  exact (heapify_sifts_down (A := Z) [1; 7; 5; 9] 3 0 H1 H2 H3).
Defined.

(** X6. [heapify(arr, n, i)] returns the list untouched when the node
    [i] has no child below [n]; it raises IndexError when a child of [i]
    is below [n] but past the end of the list. *)
Theorem heapify_bounds `{Comparable A} (arr : list A) (n i : Z) :
  (n ≤ 2 * i + 1 → heapSort.heapify arr n i = Ok arr)
  ∧ (0 ≤ i → 2 * i + 1 < n → len arr ≤ 2 * i + 1 →
     heapSort.heapify arr n i = Raise IndexError).
Proof.
  split; [apply heapify_trivial|apply heapify_child_invalid].
Qed.

Lemma heapify_bounds_witness :
  heapSort.heapify [4; 6; 5] 3 1 = Ok [4; 6; 5]
  ∧ heapSort.heapify [4; 6; 5] 9 1 = Raise IndexError.
Proof.
  split.
  - apply (heapify_bounds (A := Z) [4; 6; 5] 3 1). lia.
  - apply (heapify_bounds (A := Z) [4; 6; 5] 9 1); [lia|lia|unfold len; cbn [length]; lia].
Defined.

(** ** margeSort.py *)

(** X7. [merge(arr, left, mid, right)] replaces two adjacent sorted runs
    [L] and [R] by one sorted run with the same items, in which tied
    items of [L] come before tied items of [R]; the rest of the list is
    left alone. *)
Theorem merge_merges_sorted_runs `{ComparableLaws A} (pre L R post : list A) :
  sorted L → sorted R →
  ∃ M,
    margeSort.merge (pre ++ L ++ R ++ post) (len pre) (len pre + len L - 1)
      (len pre + len L - 1 + len R)
    = Ok (pre ++ M ++ post)
    ∧ M ≡ₚ L ++ R ∧ sorted M ∧ ∀ x, ties x M = ties x L ++ ties x R.
Proof.
  intros HL HR. exists (merge_runs L R). split_and!.
  - by apply merge_spec.
  - apply merge_runs_perm.
  - by apply merge_runs_sorted.
  - intros x. by apply merge_runs_ties.
Qed.

Lemma merge_merges_sorted_runs_witness :
  sorted [2; 6] ∧ sorted [1; 6; 7]
  ∧ ∃ M,
      margeSort.merge ([9] ++ [2; 6] ++ [1; 6; 7] ++ [0]) (len [9])
        (len [9] + len [2; 6] - 1) (len [9] + len [2; 6] - 1 + len [1; 6; 7])
      = Ok ([9] ++ M ++ [0])
      ∧ M ≡ₚ [2; 6] ++ [1; 6; 7] ∧ sorted M
      ∧ ∀ x, ties x M = ties x [2; 6] ++ ties x [1; 6; 7].
Proof.
  assert (HL : sorted [2; 6]) by (repeat constructor).
  assert (HR : sorted [1; 6; 7]) by (repeat constructor).
  split; [exact HL|]. split; [exact HR|].
  exact (merge_merges_sorted_runs (A := Z) [9] [2; 6] [1; 6; 7] [0] HL HR).
Defined.

(** X8. [merge] raises IndexError when [right] is past the end of the
    list, and so does [mergeSort] called with [len(arr)] instead of
    [len(arr) - 1] on a list that is not empty. *)
Theorem merge_bounds `{ComparableLaws A} (arr : list A) (left mid right : Z) :
  (0 ≤ left ≤ mid → mid ≤ right → len arr ≤ right →
   margeSort.merge arr left mid right = Raise IndexError)
  ∧ (arr ≠ [] → margeSort.mergeSort arr 0 (len arr) = Raise IndexError).
Proof.
  split; [apply merge_right_invalid|apply mergeSort_past_end].
Qed.

Lemma merge_bounds_witness :
  margeSort.merge [3; 1; 2] 0 1 3 = Raise IndexError
  ∧ margeSort.mergeSort [3; 1; 2] 0 (len [3; 1; 2]) = Raise IndexError.
Proof.
  split.
  - apply (merge_bounds (A := Z) [3; 1; 2] 0 1 3); [lia|lia|unfold len; cbn [length]; lia].
  - by apply (merge_bounds (A := Z) [3; 1; 2] 0 0 0).
Defined.

(** X9. [mergeSort] on a sub-range sorts the items of that range, keeps
    tied items in their order, and leaves the items before and after the
    range where they were. *)
Theorem mergeSort_sorts_only_its_range `{ComparableLaws A} (pre seg post : list A) :
  ∃ seg',
    margeSort.mergeSort (pre ++ seg ++ post) (len pre) (len pre + len seg - 1)
    = Ok (pre ++ seg' ++ post)
    ∧ seg' ≡ₚ seg ∧ sorted seg' ∧ ∀ x, ties x seg' = ties x seg.
Proof. apply mergeSort_range. Qed.

Lemma mergeSort_sorts_only_its_range_witness :
  ∃ seg',
    margeSort.mergeSort ([9; 1] ++ [5; 3; 8] ++ [0]) (len [9; 1])
      (len [9; 1] + len [5; 3; 8] - 1)
    = Ok ([9; 1] ++ seg' ++ [0])
    ∧ seg' ≡ₚ [5; 3; 8] ∧ sorted seg' ∧ ∀ x, ties x seg' = ties x [5; 3; 8].
Proof. exact (mergeSort_sorts_only_its_range (A := Z) [9; 1] [5; 3; 8] [0]). Defined.

(** X10. [mergeSort] and [insertion_sort] return a list that is already
    sorted exactly as it was, tied items included. *)
Theorem stable_sorts_keep_sorted_input `{ComparableLaws A} (arr : list A) :
  sorted arr →
  margeSort.mergeSort arr 0 (len arr - 1) = Ok arr
  ∧ bucketSort.insertion_sort arr = Ok arr.
Proof.
  intros Hs. split; [by apply mergeSort_fixes_sorted|by apply insertion_sort_fixes_sorted].
Qed.

Lemma stable_sorts_keep_sorted_input_witness :
  sorted [(1, 0%nat); (1, 1%nat); (4, 2%nat)]
  ∧ margeSort.mergeSort [(1, 0%nat); (1, 1%nat); (4, 2%nat)] 0
      (len [(1, 0%nat); (1, 1%nat); (4, 2%nat)] - 1)
    = Ok [(1, 0%nat); (1, 1%nat); (4, 2%nat)]
  ∧ bucketSort.insertion_sort [(1, 0%nat); (1, 1%nat); (4, 2%nat)]
    = Ok [(1, 0%nat); (1, 1%nat); (4, 2%nat)].
Proof.
  assert (Hs : sorted [(1, 0%nat); (1, 1%nat); (4, 2%nat)] ) by (repeat constructor).
  split; [exact Hs|].
  exact (stable_sorts_keep_sorted_input (A := tagged) _ Hs).
Defined.

(** ** bucketSort.py *)

(** X11. [insertion_sort] returns a sorted permutation of the bucket in
    which tied items keep their order: the sort is stable. *)
Theorem insertion_sort_stable `{ComparableLaws A} (bucket : list A) :
  ∃ out,
    bucketSort.insertion_sort bucket = Ok out
    ∧ out ≡ₚ bucket ∧ sorted out ∧ ∀ x, ties x out = ties x bucket.
Proof. apply insertion_sort_ties. Qed.

Lemma insertion_sort_stable_witness :
  ∃ out,
    bucketSort.insertion_sort [(4, 0%nat); (1, 1%nat); (4, 2%nat); (1, 3%nat)] = Ok out
    ∧ out ≡ₚ [(4, 0%nat); (1, 1%nat); (4, 2%nat); (1, 3%nat)] ∧ sorted out
    ∧ ∀ x, ties x out = ties x [(4, 0%nat); (1, 1%nat); (4, 2%nat); (1, 3%nat)].
Proof.
  exact (insertion_sort_stable (A := tagged)
           [(4, 0%nat); (1, 1%nat); (4, 2%nat); (1, 3%nat)]).
Defined.

(** X12. [insertion_sort] of bucketSort.py and [mergeSort] of
    margeSort.py over the full range return the same list on every
    input, tied items in the same places. *)
Theorem insertion_sort_agrees_with_mergeSort `{ComparableLaws A} (arr : list A) :
  bucketSort.insertion_sort arr = margeSort.mergeSort arr 0 (len arr - 1).
Proof. apply insertion_sort_mergeSort. Qed.

Lemma insertion_sort_agrees_with_mergeSort_witness :
  bucketSort.insertion_sort [(4, 0%nat); (1, 1%nat); (4, 2%nat); (1, 3%nat)]
  = margeSort.mergeSort [(4, 0%nat); (1, 1%nat); (4, 2%nat); (1, 3%nat)] 0
      (len [(4, 0%nat); (1, 1%nat); (4, 2%nat); (1, 3%nat)] - 1).
Proof.
  exact (insertion_sort_agrees_with_mergeSort (A := tagged)
           [(4, 0%nat); (1, 1%nat); (4, 2%nat); (1, 3%nat)]).
Defined.

(** X13. The bucket index [min(int(n * val), n - 1)] never exceeds
    [n - 1] and grows with the value, negative values included; so a
    value of a bucket with a smaller index is [<=] every value of a
    bucket with a larger index. *)
Theorem bucket_index_monotone (rnd : Q → Q) `{!Rounding rnd} (n : Z) (v1 v2 : Q) :
  0 ≤ n →
  bucketSort.bucket_index rnd n v1 ≤ n - 1
  ∧ ((v1 <= v2)%Q → bucketSort.bucket_index rnd n v1 ≤ bucketSort.bucket_index rnd n v2)
  ∧ (bucketSort.bucket_index rnd n v1 < bucketSort.bucket_index rnd n v2 → le v1 v2).
Proof.
  intros Hn. split_and!.
  - apply bucket_index_upper.
  - by apply bucket_index_mono.
  - by apply bucket_index_lt_le.
Qed.

Lemma bucket_index_monotone_witness :
  0 ≤ 4
  ∧ bucketSort.bucket_index exact 4 (-3 # 10) ≤ 4 - 1
  ∧ ((-3 # 10 <= 6 # 10)%Q →
     bucketSort.bucket_index exact 4 (-3 # 10) ≤ bucketSort.bucket_index exact 4 (6 # 10))
  ∧ (bucketSort.bucket_index exact 4 (-3 # 10) < bucketSort.bucket_index exact 4 (6 # 10) →
     le (-3 # 10)%Q (6 # 10)%Q).
Proof.
  assert (Hn : 0 ≤ 4) by lia.
  split; [exact Hn|].
  exact (bucket_index_monotone exact 4 (-3 # 10) (6 # 10) Hn).
Defined.

(** ** The analysis scripts *)



(** X15. [run] of mergesort_analysis.py, whose merge takes the two runs
    as slices, returns what [mergeSort] of margeSort.py returns over the
    full range: a sorted permutation of the input with tied items in
    their order. *)
Theorem analysis_mergesort_is_mergeSort `{ComparableLaws A} (arr : list A) :
  mergesort_analysis.run arr = margeSort.mergeSort arr 0 (len arr - 1)
  ∧ ∃ out, mergesort_analysis.run arr = Ok out
           ∧ out ≡ₚ arr ∧ sorted out ∧ ∀ x, ties x out = ties x arr.
Proof.
  split; [apply analysis_mergesort|].
  rewrite analysis_mergesort. apply mergeSort_spec.
Qed.

Lemma analysis_mergesort_is_mergeSort_witness :
  mergesort_analysis.run [5; 3; 8; 4; 2]
  = margeSort.mergeSort [5; 3; 8; 4; 2] 0 (len [5; 3; 8; 4; 2] - 1)
  ∧ ∃ out, mergesort_analysis.run [5; 3; 8; 4; 2] = Ok out
           ∧ out ≡ₚ [5; 3; 8; 4; 2] ∧ sorted out
           ∧ ∀ x, ties x out = ties x [5; 3; 8; 4; 2].
Proof. exact (analysis_mergesort_is_mergeSort (A := Z) [5; 3; 8; 4; 2]). Defined.

(** X16. On a list of integers, [run] of heapsort_analysis.py and of
    mergesort_analysis.py returns the sorted permutation of the input:
    the check [run(arr) == sorted(arr)] of the scripts succeeds.  So does
    [run] of quicksort_analysis.py when [n + 2] calls may nest where it
    is called; under any limit it returns the sorted permutation or
    raises [RecursionError]. *)
Theorem analysis_runs_pass_check `{Interpreter} (arr expected : list Z) :
  expected ≡ₚ arr → sorted expected →
  (len arr + 2 ≤ Z.of_nat recursion_limit →
     quicksort_analysis.run arr = Ok expected)
  ∧ (quicksort_analysis.run arr = Raise RecursionError
     ∨ quicksort_analysis.run arr = Ok expected)
  ∧ heapsort_analysis.run arr = Ok expected
  ∧ mergesort_analysis.run arr = Ok expected.
Proof.
  intros Hperm Hsorted. unfold recursion_limit. split_and!.
  - intros Hf. destruct (analysis_run_spec H arr Hf) as (out & -> & Hp & Hs).
    f_equal. apply sorted_integers_unique; [by rewrite Hp, Hperm|done|done].
  - destruct (analysis_run_outcome H arr) as [Hcut|(out & Hrun & Hp & Hs)];
      [by left|].
    right. rewrite Hrun.
    f_equal. apply sorted_integers_unique; [by rewrite Hp, Hperm|done|done].
  - unfold heapsort_analysis.run. cbv zeta. rewrite analysis_heapsort.
    destruct (heapSort_spec arr) as (out & -> & Hp & Hs).
    f_equal. apply sorted_integers_unique; [by rewrite Hp, Hperm|done|done].
  - rewrite analysis_mergesort.
    destruct (mergeSort_spec arr) as (out & -> & Hp & Hs & _).
    f_equal. apply sorted_integers_unique; [by rewrite Hp, Hperm|done|done].
Qed.

Lemma analysis_runs_pass_check_witness :
  [2; 3; 3; 5] ≡ₚ [3; 5; 2; 3] ∧ sorted [2; 3; 3; 5]
  ∧ quicksort_analysis.run (frames := quicksort_analysis.RECURSION_LIMIT) [3; 5; 2; 3]
    = Ok [2; 3; 3; 5]
  ∧ heapsort_analysis.run [3; 5; 2; 3] = Ok [2; 3; 3; 5]
  ∧ mergesort_analysis.run [3; 5; 2; 3] = Ok [2; 3; 3; 5].
Proof.
  assert (Hperm : [2; 3; 3; 5] ≡ₚ [3; 5; 2; 3]).
  { etrans; [apply perm_swap|]. apply perm_skip.
    apply (Permutation_app_comm [2; 3] [5]). }
  assert (Hsorted : sorted [2; 3; 3; 5]) by (repeat constructor).
  split; [exact Hperm|]. split; [exact Hsorted|].
  destruct (analysis_runs_pass_check (H := quicksort_analysis.RECURSION_LIMIT)
              [3; 5; 2; 3] [2; 3; 3; 5] Hperm Hsorted) as (Hquick & _ & Hrest).
  split; [|exact Hrest].
  apply Hquick. unfold len, recursion_limit, quicksort_analysis.RECURSION_LIMIT.
  cbn [length]. lia.
Defined.

(** X17. [run(arr)] of the analysis scripts works on a copy: after the
    call the caller's list holds the items it held before, and the list
    returned is another object, which holds the result of the sort.
    [run] of quicksort_analysis.py returns when [n + 2] calls may nest
    where it is called; the caller's list is as it was also when the
    call raises. *)
Theorem analysis_run_keeps_input `{Interpreter} `{ComparableLaws A} (h : heap A)
    (arr : loc) (items : list A) :
  h !! arr = Some items →
  ((quicksort_analysis.run_object arr h).2 !! arr = Some items
   ∧ (len items + 2 ≤ Z.of_nat recursion_limit →
        ∃ data, (quicksort_analysis.run_object arr h).1 = Ok data)
   ∧ ∀ data,
       (quicksort_analysis.run_object arr h).1 = Ok data →
       ∃ out,
         (quicksort_analysis.run_object arr h).2 = <[data := out]> h
         ∧ data ≠ arr
         ∧ quicksort_analysis.run items = Ok out)
  ∧ (∃ data out,
       heapsort_analysis.run_object arr h = (Ok data, <[data := out]> h)
       ∧ data ≠ arr ∧ <[data := out]> h !! arr = Some items
       ∧ heapsort_analysis.run items = Ok out)
  ∧ (∃ data out,
       mergesort_analysis.run_object arr h = (Ok data, <[data := out]> h)
       ∧ data ≠ arr ∧ <[data := out]> h !! arr = Some items
       ∧ mergesort_analysis.run items = Ok out).
Proof.
  intros Hitems.
  assert (Hfresh : fresh (dom h) ≠ arr).
  { intros Heq. apply (is_fresh (dom h)). rewrite Heq. by apply elem_of_dom. }
  assert (Hcopy : objects.contents (<[fresh (dom h) := objects.contents h arr]> h)
                    (fresh (dom h)) = items).
  { unfold objects.contents. by rewrite lookup_insert_eq, Hitems. }
  unfold recursion_limit. split_and!.
  - unfold quicksort_analysis.run_object.
    destruct H as [|f]; [done|].
    unfold objects.slice_copy, objects.in_place. rewrite Hcopy.
    destruct (quicksort_analysis.quicksort (frames := f) items 0 (len items - 1));
      cbn [mbind result_bind snd]; by rewrite ?lookup_insert_ne.
  - intros Hf. destruct (analysis_run_spec H items Hf) as (out & Hrun & _).
    unfold quicksort_analysis.run_object.
    destruct H as [|f]; [discriminate|].
    unfold quicksort_analysis.run in Hrun. rewrite call_S in Hrun. cbv zeta in Hrun.
    unfold objects.slice_copy, objects.in_place. rewrite Hcopy, Hrun, bind_Ok.
    by eexists.
  - intros data. unfold quicksort_analysis.run_object, quicksort_analysis.run.
    destruct H as [|f]; [discriminate|]. rewrite call_S. cbv zeta.
    unfold objects.slice_copy, objects.in_place. rewrite Hcopy.
    destruct (quicksort_analysis.quicksort (frames := f) items 0 (len items - 1))
      as [out|e]; cbn [mbind result_bind fst snd]; [|discriminate].
    intros [= <-]. exists out. by rewrite insert_insert_eq.
  - destruct (heapSort_spec items) as (out & Hrun & _).
    exists (fresh (dom h)), out.
    unfold heapsort_analysis.run_object, objects.slice_copy, objects.in_place,
      heapsort_analysis.run.
    rewrite Hcopy, analysis_heapsort, Hrun, bind_Ok, insert_insert_eq.
    split_and!; [done|done|by rewrite lookup_insert_ne|done].
  - destruct (mergeSort_spec items) as (out & Hrun & _).
    exists (fresh (dom h)), out.
    pose proof (analysis_mergesort items) as Hm.
    unfold mergesort_analysis.run in Hm. cbv zeta in Hm.
    unfold mergesort_analysis.run_object, objects.slice_copy, objects.in_place,
      mergesort_analysis.run.
    rewrite Hcopy, Hm, Hrun, bind_Ok, insert_insert_eq.
    split_and!; [done|done|by rewrite lookup_insert_ne|done].
Qed.

Lemma analysis_run_keeps_input_witness :
  ({[ 1%positive := [5; 3; 8; 4; 2] ]} : heap Z) !! 1%positive = Some [5; 3; 8; 4; 2]
  ∧ (quicksort_analysis.run_object 1%positive
       ({[ 1%positive := [5; 3; 8; 4; 2] ]} : heap Z)).2 !! 1%positive
    = Some [5; 3; 8; 4; 2]
  ∧ (∃ data,
       (quicksort_analysis.run_object 1%positive
          ({[ 1%positive := [5; 3; 8; 4; 2] ]} : heap Z)).1 = Ok data)
  ∧ (∃ data out,
       heapsort_analysis.run_object 1%positive
         ({[ 1%positive := [5; 3; 8; 4; 2] ]} : heap Z)
       = (Ok data, <[data := out]> ({[ 1%positive := [5; 3; 8; 4; 2] ]} : heap Z))
       ∧ data ≠ 1%positive
       ∧ <[data := out]> ({[ 1%positive := [5; 3; 8; 4; 2] ]} : heap Z) !! 1%positive
         = Some [5; 3; 8; 4; 2]
       ∧ heapsort_analysis.run [5; 3; 8; 4; 2] = Ok out).
Proof.
  assert (Hitems : ({[ 1%positive := [5; 3; 8; 4; 2] ]} : heap Z) !! 1%positive
                   = Some [5; 3; 8; 4; 2]) by reflexivity.
  split; [exact Hitems|].
  destruct (analysis_run_keeps_input (A := Z) _ 1%positive _ Hitems)
    as ((Hkept & Henough & _) & Hheap & _).
  split; [exact Hkept|]. split; [|exact Hheap].
  apply Henough. unfold len, recursion_limit, default_interpreter. cbn [length]. lia.
Defined.

(** ** The quicksort recorder *)

(** X18. In a log that the quicksort recorder returns every record
    carries, as its [data], the array that the ["swap"] records before it
    make of the original: replaying the swaps keeps a viewer in step with
    the snapshots.  The range [lo .. hi] that a record names lies in
    [0 .. len(original) - 1], the positions that it names lie in
    [lo .. hi], and the positions of its [sorted_set] in
    [0 .. len(original) - 1].  The recorder returns its log when [n + 2]
    calls may nest where it is called. *)
Theorem quicksort_log_follows_swaps `{Interpreter} `{Comparable A}
    (original : list A) :
  (len original + 2 ≤ Z.of_nat recursion_limit →
     ∃ events, quicksort_animation.record_events original = Ok events)
  ∧ ∀ events,
      quicksort_animation.record_events original = Ok events →
      snapshots_follow original events
      ∧ Forall (ranged 0 (len original - 1)) events
      ∧ Forall (marks_within (interval 0 (len original - 1))) events.
Proof.
  split; [apply record_events_enough|].
  intros events (final & Hrun)%record_events_run.
  apply run_log_returned in Hrun as (evs & -> & _ & Hr & _ & Hfollow & Hm).
  split; [done|]. split.
  - apply Forall_app. split; [done|]. by repeat constructor.
  - apply Forall_app. split; [done|]. constructor; [|done]. by cbn.
Qed.

(** X19. Every item that the quicksort recorder marks with a
    ["sorted_idx"] record of a log that it returns is, from that record
    on, at its place in the sorted result of [quickSort], which returns
    under the same recursion limit; the log ends with the ["done"]
    record, which carries that result and the set of all positions.  The
    recorder returns its log when [n + 2] calls may nest where it is
    called. *)
Theorem quicksort_log_marks_final `{Interpreter} `{ComparableLaws A}
    (original : list A) :
  (len original + 2 ≤ Z.of_nat recursion_limit →
     ∃ events, quicksort_animation.record_events original = Ok events)
  ∧ ∀ events,
      quicksort_animation.record_events original = Ok events →
      ∃ out,
        quickSort.quickSort original 0 (len original - 1) = Ok out
        ∧ out ≡ₚ original ∧ sorted out
        ∧ Forall (settled out) events
        ∧ last events
          = Some (quicksort_animation.Done out (interval 0 (len original - 1))
                    (Msg "✓  Array sorted!" [])).
Proof.
  split; [apply record_events_enough|].
  intros events (out & Hrun)%record_events_run.
  pose proof (run_returns _ _ _ _ Hrun) as (Hplain & Hperm & Hsorted & _).
  apply run_log_returned in Hrun as (evs & -> & _ & _ & Hs & _).
  exists out. split_and!; [done..| |].
  - apply Forall_app. split; [done|]. by repeat constructor.
  - by rewrite last_snoc.
Qed.

Lemma quicksort_log_marks_final_witness :
  ∃ out events,
    quickSort.quickSort [5; 3; 8; 4; 2] 0 (len [5; 3; 8; 4; 2] - 1) = Ok out
    ∧ quicksort_animation.record_events [5; 3; 8; 4; 2] = Ok events
    ∧ Forall (settled out) events
    ∧ last events
      = Some (quicksort_animation.Done out (interval 0 (len [5; 3; 8; 4; 2] - 1))
                (Msg "✓  Array sorted!" [])).
Proof.
  destruct (quicksort_log_marks_final (A := Z) [5; 3; 8; 4; 2]) as [Henough Hlog].
  destruct Henough as (events & Hrec).
  { unfold len, recursion_limit, default_interpreter. cbn [length]. lia. }
  destruct (Hlog events Hrec) as (out & Hplain & _ & _ & Hsettled & Hlast).
  exists out, events. exact (conj Hplain (conj Hrec (conj Hsettled Hlast))).
Defined.

(** ** The heapsort recorder *)

(** X20. In the log of the heapsort recorder every record carries, as
    its [arr], the array that the ["swap"] and ["extract"] records before
    it make of the original. *)
Theorem heapsort_log_follows `{ComparableLaws A} (original : list A) :
  ∃ events,
    heapsort_animation.record_events original = Ok events
    ∧ heapsort_snapshots_follow original events.
Proof.
  destruct (heapsort_run_log original)
    as (heap & final & evs1 & evs2 & Hrun & _ & _ & _ & Hfollow).
  eexists. unfold heapsort_animation.record_events. rewrite Hrun, bind_Ok.
  by split.
Qed.

Lemma heapsort_log_follows_witness :
  ∃ events,
    heapsort_animation.record_events [5; 3; 8; 4; 2] = Ok events
    ∧ heapsort_snapshots_follow [5; 3; 8; 4; 2] events.
Proof. exact (heapsort_log_follows (A := Z) [5; 3; 8; 4; 2]). Defined.

(** X21. The log of the heapsort recorder has one ["heap_ready"] record.
    Its array is what the first loop of [heapSort] makes of the input: a
    permutation of it that is a max-heap, with a largest item at the
    root, as the message of the record says. *)
Theorem heap_ready_is_heap `{ComparableLaws A} (original : list A) :
  ∃ events heap evs1 evs2 msg,
    heapsort_animation.record_events original = Ok events
    ∧ events = evs1 ++ heapsort_animation.HeapReady heap msg :: evs2
    ∧ Forall (λ ev, ¬ is_heap_ready ev) (evs1 ++ evs2)
    ∧ for_each (range_down (len original `div` 2 - 1) (-1))
        (λ i arr, heapSort.heapify arr (len original) i) original = Ok heap
    ∧ heap ≡ₚ original
    ∧ heap_from heap (len heap) 0
    ∧ ∀ v0, heap !! 0%nat = Some v0 → Forall (λ x, le x v0) heap.
Proof.
  destruct (heapsort_run_log original)
    as (heap & final & evs1 & evs2 & Hrun & Hbuild & Hb1 & He2 & _).
  destruct (build_heap original) as (heap' & Hbuild' & Hperm & Hheap).
  rewrite Hbuild in Hbuild'. injection Hbuild' as <-.
  assert (Hlen : len heap = len original) by (unfold len; by rewrite Hperm).
  eexists _, heap, (_ :: evs1), (_ :: evs2 ++ [_]), _.
  unfold heapsort_animation.record_events. rewrite Hrun, bind_Ok.
  split; [done|]. split; [done|]. split.
  { cbn [app]. constructor; [by intros []|].
    apply Forall_app. split.
    - eapply Forall_impl; [exact Hb1|]. intros ev Hev Hr. by destruct ev.
    - constructor; [by intros []|]. apply Forall_app. split.
      + eapply Forall_impl; [exact He2|]. intros ev Hev Hr. by destruct ev.
      + repeat constructor. by intros []. }
  split; [done|]. split; [done|]. rewrite Hlen. split; [done|].
  intros v0 Hv0. apply heap_root_largest; [by rewrite Hlen|done].
Qed.

Lemma heap_ready_is_heap_witness :
  ∃ events heap evs1 evs2 msg,
    heapsort_animation.record_events [5; 3; 8; 4; 2] = Ok events
    ∧ events = evs1 ++ heapsort_animation.HeapReady heap msg :: evs2
    ∧ Forall (λ ev, ¬ is_heap_ready ev) (evs1 ++ evs2)
    ∧ for_each (range_down (len [5; 3; 8; 4; 2] `div` 2 - 1) (-1))
        (λ i arr, heapSort.heapify arr (len [5; 3; 8; 4; 2]) i) [5; 3; 8; 4; 2] = Ok heap
    ∧ heap ≡ₚ [5; 3; 8; 4; 2]
    ∧ heap_from heap (len heap) 0
    ∧ ∀ v0, heap !! 0%nat = Some v0 → Forall (λ x, le x v0) heap.
Proof. exact (heap_ready_is_heap (A := Z) [5; 3; 8; 4; 2]). Defined.

(** X22. Every ["after_extract"] record of the heapsort recorder reports
    a position of the array, and the item that it reports as final there
    is, from that record on, at its place in the sorted result of
    [heapSort]. *)
Theorem after_extract_is_final `{ComparableLaws A} (original : list A) :
  ∃ out events,
    heapSort.heapSort original = Ok out
    ∧ heapsort_animation.record_events original = Ok events
    ∧ Forall (heapsort_settled out) events.
Proof.
  destruct (heapSort_spec original) as (out & Hplain & _).
  destruct (heapsort_run_sim original out Hplain) as (events & Hrun & _).
  destruct (heapsort_run_log original)
    as (heap & final & evs1 & evs2 & Hlog & _ & Hb1 & He2 & _).
  rewrite Hrun in Hlog. injection Hlog as <- ->.
  exists out. eexists. split; [done|].
  unfold heapsort_animation.record_events. rewrite Hrun, bind_Ok.
  split; [done|].
  assert (Hlen : length out = length original).
  { destruct (heapSort_spec original) as (out' & Hplain' & Hperm & _).
    rewrite Hplain in Hplain'. injection Hplain' as <-. by rewrite Hperm. }
  constructor; [done|]. apply Forall_app. split.
  { eapply Forall_impl; [exact Hb1|]. by intros []. }
  constructor; [done|]. constructor; [done|]. apply Forall_app. split.
  - eapply Forall_impl; [exact He2|]. intros []; cbn; try done.
    intros [Hidx Hsame]. split; [lia|].
    destruct (lookup_lt_is_Some_2 out (Z.to_nat idx)) as [x Hx];
      [unfold len in *; lia|].
    exists x. by rewrite Hsame.
  - by repeat constructor.
Qed.

Lemma after_extract_is_final_witness :
  ∃ out events,
    heapSort.heapSort [5; 3; 8; 4; 2] = Ok out
    ∧ heapsort_animation.record_events [5; 3; 8; 4; 2] = Ok events
    ∧ Forall (heapsort_settled out) events.
Proof. exact (after_extract_is_final (A := Z) [5; 3; 8; 4; 2]). Defined.

(** ** mergesort_animation.py *)

(** X23. [build_tree] returns for every list: it never raises.  The
    triples of [merge_order], passed in that order to [merge] of
    margeSort.py, do to the list what [mergeSort] does over the full
    range. *)
Theorem build_tree_merge_order `{Comparable A} (arr : list A) :
  ∃ levels merge_order,
    mergesort_animation.build_tree arr = Ok (levels, merge_order)
    ∧ for_each merge_order (λ '(l, m, r) arr, margeSort.merge arr l m r) arr
      = margeSort.mergeSort arr 0 (len arr - 1).
Proof.
  destruct (build_tree_spec arr) as (levels & Hrun & _).
  eexists _, _. split; [exact Hrun|].
  unfold margeSort.mergeSort. rewrite Z.sub_0_r. apply merges_replay. lia.
Qed.

(** X24. In the tree of [build_tree] the node at position [k] of level
    [d] records the depth [d] and the index [k], and the root is the one
    node of level 0, for the full range.  For every triple [(l, m, r)] of
    [merge_order], [l <= m < r] and the lookups of the merge phase find a
    node for [l .. r], for [l .. m] and for [m+1 .. r]. *)
Theorem build_tree_lookups {A : Type} (arr : list A) :
  ∃ levels merge_order,
    mergesort_animation.build_tree arr = Ok (levels, merge_order)
    ∧ well_indexed levels
    ∧ levels !! 0%nat = Some [mergesort_animation.Node 0 (len arr - 1) 0 0]
    ∧ ∀ l m r, (l, m, r) ∈ merge_order →
        l ≤ m < r
        ∧ Forall (λ '(a, b),
            ∃ nd level,
              mergesort_animation.find_node levels a b = Some nd
              ∧ mergesort_animation.left nd = a ∧ mergesort_animation.right nd = b
              ∧ levels !! Z.to_nat (mergesort_animation.depth nd) = Some level
              ∧ level !! Z.to_nat (mergesort_animation.index nd) = Some nd)
            [(l, r); (l, m); (m + 1, r)].
Proof.
  destruct (build_tree_spec arr) as (levels & Hrun & Hwell & Hroot & Hnodes).
  eexists _, _. split; [exact Hrun|]. split; [done|]. split; [done|].
  intros l m r Hin. split.
  { apply merges_in_range in Hin. lia. }
  assert (Hfind : ∀ a b, has_node levels a b →
    ∃ nd level,
      mergesort_animation.find_node levels a b = Some nd
      ∧ mergesort_animation.left nd = a ∧ mergesort_animation.right nd = b
      ∧ levels !! Z.to_nat (mergesort_animation.depth nd) = Some level
      ∧ level !! Z.to_nat (mergesort_animation.index nd) = Some nd).
  { intros a b Hab. destruct (find_node_has levels a b Hab) as (nd & Hnd & Ha & Hb & Helem).
    destruct (well_indexed_elem levels nd Hwell Helem) as (_ & _ & level & Hlevel & Hk).
    by exists nd, level. }
  destruct (Hnodes l m r Hin) as (H1 & H2 & H3).
  repeat constructor; by apply Hfind.
Qed.

(** X25. The data that [MergeSortScene] simulates for a list that is
    not empty, [sim = arr[:]] updated by the merged result of every
    triple of [merge_order], ends as the list that [mergeSort] returns: a
    sorted permutation of the input with tied items in their order. *)
Theorem scene_simulation_sorts `{ComparableLaws A} (arr : list A) :
  arr ≠ [] →
  mergesort_animation.simulate arr = margeSort.mergeSort arr 0 (len arr - 1)
  ∧ ∃ out, mergesort_animation.simulate arr = Ok out
           ∧ out ≡ₚ arr ∧ sorted out ∧ ∀ x, ties x out = ties x arr.
Proof.
  intros _. split; [apply simulate_spec|]. rewrite simulate_spec. apply mergeSort_spec.
Qed.

Lemma scene_simulation_sorts_witness :
  [5; 3; 8; 4; 2] ≠ []
  ∧ mergesort_animation.simulate [5; 3; 8; 4; 2]
    = margeSort.mergeSort [5; 3; 8; 4; 2] 0 (len [5; 3; 8; 4; 2] - 1)
  ∧ ∃ out, mergesort_animation.simulate [5; 3; 8; 4; 2] = Ok out
           ∧ out ≡ₚ [5; 3; 8; 4; 2] ∧ sorted out
           ∧ ∀ x, ties x out = ties x [5; 3; 8; 4; 2].
Proof.
  assert (Hne : [5; 3; 8; 4; 2] ≠ []) by discriminate.
  split; [exact Hne|].
  exact (scene_simulation_sorts (A := Z) [5; 3; 8; 4; 2] Hne).
Defined.

(** ** The bucket-sort recorder *)

(** X26. When no bucket index falls below [-n], the recorder returns, as
    [bucket_order], one list of original indices for each of the [n]
    buckets of [bucket_sort]: the values at the indices of a bucket are
    in sorted order and belong to that bucket, and the values at the
    indices of all buckets, read in order, are the list that
    [bucket_sort] returns. *)
Theorem bucket_order_sorted (rnd : Q → Q) (arr : list Q) :
  Forall (λ v, - len arr ≤ bucketSort.bucket_index rnd (len arr) v) arr →
  ∃ evts buckets out,
    bucketsort_animation.record_events rnd arr = Ok (evts, buckets)
    ∧ bucketSort.bucket_sort rnd arr = Ok out
    ∧ len buckets = len arr
    ∧ Forall2 (item_of arr) out (concat buckets)
    ∧ ∀ (bi : nat) bucket, buckets !! bi = Some bucket →
        ∃ vals, Forall2 (item_of arr) vals bucket
                ∧ sorted vals
                ∧ Forall (λ v, py_index (len arr)
                                 (bucketSort.bucket_index rnd (len arr) v) = Ok bi) vals.
Proof.
  intros Hall.
  destruct (record_events_order rnd arr Hall)
    as (evts & buckets & bks & Hrec & Hplain & HR & Hlen & Hsorted & Hmem & _).
  exists evts, buckets, (concat bks). split_and!; [done|done|done| |].
  - clear -HR. induction HR as [|b boi bks bksoi Hb _ IH]; [constructor|].
    cbn [concat]. by apply Forall2_app.
  - intros bi bucket Hbucket.
    destruct (Forall2_lookup_r _ _ _ _ _ HR Hbucket) as (vals & Hvals & Hitems).
    exists vals. split; [done|]. split.
    + rewrite Forall_forall in Hsorted. apply Hsorted.
      by eapply list_elem_of_lookup_2.
    + apply Forall_forall. intros v Hv. by apply (Hmem bi vals).
Qed.

Lemma bucket_order_sorted_witness :
  Forall (λ v, - len [78 # 100; 17 # 100; 39 # 100]%Q
               ≤ bucketSort.bucket_index exact (len [78 # 100; 17 # 100; 39 # 100]%Q) v)
    [78 # 100; 17 # 100; 39 # 100]%Q
  ∧ ∃ evts buckets out,
      bucketsort_animation.record_events exact [78 # 100; 17 # 100; 39 # 100]%Q
      = Ok (evts, buckets)
      ∧ bucketSort.bucket_sort exact [78 # 100; 17 # 100; 39 # 100]%Q = Ok out
      ∧ len buckets = len [78 # 100; 17 # 100; 39 # 100]%Q
      ∧ Forall2 (item_of [78 # 100; 17 # 100; 39 # 100]%Q) out (concat buckets)
      ∧ ∀ (bi : nat) bucket, buckets !! bi = Some bucket →
          ∃ vals, Forall2 (item_of [78 # 100; 17 # 100; 39 # 100]%Q) vals bucket
                  ∧ sorted vals
                  ∧ Forall (λ v, py_index (len [78 # 100; 17 # 100; 39 # 100]%Q)
                                   (bucketSort.bucket_index exact
                                      (len [78 # 100; 17 # 100; 39 # 100]%Q) v) = Ok bi)
                      vals.
Proof.
  assert (Hall : Forall (λ v, - len [78 # 100; 17 # 100; 39 # 100]%Q
                   ≤ bucketSort.bucket_index exact (len [78 # 100; 17 # 100; 39 # 100]%Q) v)
                   [78 # 100; 17 # 100; 39 # 100]%Q).
  { repeat constructor; vm_compute; congruence. }
  split; [exact Hall|].
  exact (bucket_order_sorted exact [78 # 100; 17 # 100; 39 # 100]%Q Hall).
Defined.

(** X27. When no bucket index falls below [-n], the original indices in
    [bucket_order] are the indices [0 .. n-1], each of them once, and the
    ["gather"] records of the log move them, in the order of
    [bucket_order], to the positions [0], [1], ..., [n-1]. *)
Theorem gather_moves_every_item_once (rnd : Q → Q) (arr : list Q) :
  Forall (λ v, - len arr ≤ bucketSort.bucket_index rnd (len arr) v) arr →
  ∃ evts buckets,
    bucketsort_animation.record_events rnd arr = Ok (evts, buckets)
    ∧ concat buckets ≡ₚ seqZ 0 (len arr)
    ∧ gather_moves evts = zip (concat buckets) (seqZ 0 (len arr)).
Proof.
  intros Hall.
  destruct (record_events_order rnd arr Hall)
    as (evts & buckets & bks & Hrec & _ & _ & _ & _ & _ & Hperm & Hmoves).
  by exists evts, buckets.
Qed.

Lemma gather_moves_every_item_once_witness :
  Forall (λ v, - len [78 # 100; 17 # 100; 39 # 100]%Q
               ≤ bucketSort.bucket_index exact (len [78 # 100; 17 # 100; 39 # 100]%Q) v)
    [78 # 100; 17 # 100; 39 # 100]%Q
  ∧ ∃ evts buckets,
      bucketsort_animation.record_events exact [78 # 100; 17 # 100; 39 # 100]%Q
      = Ok (evts, buckets)
      ∧ concat buckets ≡ₚ seqZ 0 (len [78 # 100; 17 # 100; 39 # 100]%Q)
      ∧ gather_moves evts
        = zip (concat buckets) (seqZ 0 (len [78 # 100; 17 # 100; 39 # 100]%Q)).
Proof.
  assert (Hall : Forall (λ v, - len [78 # 100; 17 # 100; 39 # 100]%Q
                   ≤ bucketSort.bucket_index exact (len [78 # 100; 17 # 100; 39 # 100]%Q) v)
                   [78 # 100; 17 # 100; 39 # 100]%Q).
  { repeat constructor; vm_compute; congruence. }
  split; [exact Hall|].
  exact (gather_moves_every_item_once exact [78 # 100; 17 # 100; 39 # 100]%Q Hall).
Defined.

(** ** The scenes *)

(** X28. For a list that is not empty and a log that the quicksort
    recorder returns on it, the replay of the events in [QuickSortScene]
    raises nothing, and keeps the boxes in step with the array of the
    recorder: before every record, the box at every screen position is
    the box of the item that the record's [data] has at that position,
    and [slot] is the inverse of [at_pos].  At the end the boxes, read
    from left to right, show the sorted result of [quickSort], which
    returns under the same recursion limit, and every box has the sorted
    colour.  The recorder returns its log when [n + 2] calls may nest
    where it is called. *)
Theorem scene_stays_in_sync `{Interpreter} `{ComparableLaws A} (arr : list A) :
  arr ≠ [] →
  (len arr + 2 ≤ Z.of_nat recursion_limit →
     ∃ events, quicksort_animation.record_events arr = Ok events)
  ∧ ∀ events,
      quicksort_animation.record_events arr = Ok events →
      ∃ out st,
        quickSort.quickSort arr 0 (len arr - 1) = Ok out
        ∧ QuickSortScene.replay_events arr = Ok st
        ∧ in_sync arr st out
        ∧ QuickSortScene.boxes st = replicate (length arr) QuickSortScene.COL_SORTED
        ∧ ∀ evs1 ev evs2, events = evs1 ++ ev :: evs2 →
            ∃ st1,
              for_each evs1 QuickSortScene.handle (QuickSortScene.initial (len arr))
              = Ok st1
              ∧ in_sync arr st1 (quicksort_snapshot ev).
Proof.
  intros _. split; [apply record_events_enough|].
  intros events Hrec. pose proof Hrec as (out & Hrun)%record_events_run.
  pose proof (run_returns _ _ _ _ Hrun) as (Hplain & _).
  apply run_log_returned in Hrun as (evs & -> & _ & Hr & _ & Hfollow & Hm).
  set (done := quicksort_animation.Done out _ _) in *.
  assert (Hreplay : for_each evs replay.quicksort_record arr = Ok out).
  { by apply (Hfollow evs done []). }
  destruct (handle_all_sync arr evs _ arr out (initial_sync arr) Hr Hm Hreplay)
    as (st1 & Hloop & Hsync1).
  pose proof Hsync1 as (_ & _ & Hboxes1 & _).
  exists out. eexists. split; [done|]. split.
  { unfold QuickSortScene.replay_events. cbv zeta.
    rewrite Hrec, bind_Ok, for_each_app, Hloop, bind_Ok. subst done.
    cbn [for_each QuickSortScene.handle]. by rewrite bind_Ok. }
  split.
  { apply in_sync_repaint; [done|]. by rewrite length_fmap. }
  split.
  { cbn [QuickSortScene.boxes]. rewrite <- Hboxes1. by apply const_fmap. }
  intros evs1 ev evs2 Hsplit.
  assert (Hr' : Forall (ranged 0 (len arr - 1)) (evs ++ [done])).
  { apply Forall_app. split; [done|]. by repeat constructor. }
  assert (Hm' : Forall (marks_within (interval 0 (len arr - 1))) (evs ++ [done])).
  { apply Forall_app. split; [done|]. constructor; [|done]. by cbn. }
  rewrite Hsplit in Hr', Hm'.
  apply Forall_app in Hr' as [Hr1 _]. apply Forall_app in Hm' as [Hm1 _].
  apply (handle_all_sync arr evs1 _ arr _ (initial_sync arr) Hr1 Hm1).
  by apply (Hfollow evs1 ev evs2).
Qed.

Lemma scene_stays_in_sync_witness :
  [5; 3; 8; 4; 2] ≠ []
  ∧ ∃ events out st,
      quicksort_animation.record_events [5; 3; 8; 4; 2] = Ok events
      ∧ quickSort.quickSort [5; 3; 8; 4; 2] 0 (len [5; 3; 8; 4; 2] - 1) = Ok out
      ∧ QuickSortScene.replay_events [5; 3; 8; 4; 2] = Ok st
      ∧ in_sync [5; 3; 8; 4; 2] st out
      ∧ QuickSortScene.boxes st
        = replicate (length [5; 3; 8; 4; 2]) QuickSortScene.COL_SORTED.
Proof.
  assert (Hne : [5; 3; 8; 4; 2] ≠ []) by discriminate.
  split; [exact Hne|].
  destruct (scene_stays_in_sync (A := Z) [5; 3; 8; 4; 2] Hne) as [Henough Hsync].
  destruct Henough as (events & Hrec).
  { unfold len, recursion_limit, default_interpreter. cbn [length]. lia. }
  destruct (Hsync events Hrec) as (out & st & Hplain & Hscene & Hin & Hboxes & _).
  exists events, out, st.
  exact (conj Hrec (conj Hplain (conj Hscene (conj Hin Hboxes)))).
Defined.

(** X29. The colour lookups [depth_colour] and [bcol] return a colour of
    their palette for all integers, negative ones included: they never
    raise IndexError.  Two different buckets less than ten apart never
    get the same colour. *)
Theorem palette_lookups (depth index bi bj : Z) :
  (∃ colour, mergesort_animation.depth_colour depth index = Ok colour
             ∧ colour ∈ mergesort_animation.PALETTE)
  ∧ (∃ colour, bucket_palette.bcol bi = Ok colour
               ∧ colour ∈ bucket_palette.BUCKET_PALETTE)
  ∧ (bi < bj < bi + 10 → bucket_palette.bcol bi ≠ bucket_palette.bcol bj).
Proof.
  split; [by apply palette_lookup|]. split; [by apply palette_lookup|].
  intros Hdiff Heq. unfold bucket_palette.bcol in Heq.
  change (len bucket_palette.BUCKET_PALETTE) with 10 in Heq.
  destruct (getitem_nonneg bucket_palette.BUCKET_PALETTE (bi `mod` 10))
    as (ci & Hi & Hli);
    [change (len bucket_palette.BUCKET_PALETTE) with 10; apply Z.mod_pos_bound; lia|].
  destruct (getitem_nonneg bucket_palette.BUCKET_PALETTE (bj `mod` 10))
    as (cj & Hj & Hlj);
    [change (len bucket_palette.BUCKET_PALETTE) with 10; apply Z.mod_pos_bound; lia|].
  rewrite Hi, Hj in Heq. injection Heq as <-.
  assert (Hnodup : NoDup bucket_palette.BUCKET_PALETTE).
  { apply (bool_decide_unpack _). vm_compute. exact I. }
  pose proof (NoDup_lookup _ _ _ _ Hnodup Hli Hlj) as Hsame.
  pose proof (Z.mod_pos_bound bi 10). pose proof (Z.mod_pos_bound bj 10).
  assert (bi `mod` 10 = bj `mod` 10) as Hmod by lia.
  pose proof (Z.div_mod bi 10). pose proof (Z.div_mod bj 10). lia.
Qed.
